(** * Wyvern: lazification of call arguments over an SSA intermediate
    representation

    A shallow embedding of the program slicer ([ProgramSlice.cpp]) and of the
    call-site rewriter ([Lazyfication.cpp]).  IR objects live in an arena and
    are referred to by their address; the compiler analyses the passes query
    (dominator trees, loop depths, effect queries on instructions) are data
    handed to the embedded functions. *)

From Stdlib Require Import ZArith.
From stdpp Require Import gmap strings list sorting pretty.

Set Warnings "-register-all".

Open Scope Z_scope.

(** ** The IR substrate *)

(** The address of an IR object ([Value*], [BasicBlock*], [Function*]).  Two
    objects are the same object exactly when their addresses are equal, and a
    [std::set] or [std::map] keyed by pointers iterates in address order. *)
Abbreviation ptr := N.

Inductive Type_ : Type :=
| VoidTy
| IntegerTy (bits : N)
| PointerTy (elt : Type_)
| FunctionTy (ret : Type_) (params : list Type_)
| StructTy (sid : ptr)
| OpaqueTy (descr : string).

Fixpoint Type_eqb (a b : Type_) : bool :=
  match a, b with
  | VoidTy, VoidTy => true
  | IntegerTy m, IntegerTy n => bool_decide (m = n)
  | PointerTy x, PointerTy y => Type_eqb x y
  | FunctionTy r ps, FunctionTy r' ps' =>
      Type_eqb r r' &&
      (fix all2 (l l' : list Type_) : bool :=
         match l, l' with
         | [], [] => true
         | x :: l, y :: l' => Type_eqb x y && all2 l l'
         | _, _ => false
         end) ps ps'
  | StructTy i, StructTy j => bool_decide (i = j)
  | OpaqueTy x, OpaqueTy y => bool_decide (x = y)
  | _, _ => false
  end.

(** An operand.  A formal parameter is designated by its function and its
    position: the arguments of one function are laid out in one array, so
    their address order is their index order. *)
Inductive Value : Type :=
| ConstantInt (bits : N) (v : Z)
| ArgumentV (fn : ptr) (argNo : nat)
| InstructionV (i : ptr)
| FunctionV (f : ptr)
| BasicBlockV (b : ptr)
| GlobalV (g : ptr)
| UndefValue.

#[global] Instance Value_eq_dec : EqDecision Value.
Proof. solve_decision. Defined.

Inductive BinOp : Type := Add | Sub | Mul | UDiv | SDiv | And | Or | Xor | Shl.
Inductive CastOp : Type := Trunc | ZExt | SExt | BitCast | PtrToInt | IntToPtr.
Inductive Pred : Type := ICmpEq | ICmpNe | ICmpSlt | ICmpSle | ICmpUlt | ICmpUle.

(** The facts about a call and its callee that the validator looks at:
    [doesNotThrow], [doesNotAccessMemory] and [willReturn] of the call,
    [Callee && Callee->onlyReadsMemory()], and whether the call is a debug,
    pseudo or lifetime intrinsic. *)
Record CallAttrs : Type := mkCallAttrs {
  nounwind : bool;
  readnone : bool;
  willreturn : bool;
  calleeOnlyReadsMemory : bool;
  isDebugOrLifetime : bool
}.

Inductive InstKind : Type :=
| BinaryOperator (opc : BinOp) (lhs rhs : Value)
| CastInst (opc : CastOp) (src : Value)
| ICmpInst (p : Pred) (lhs rhs : Value)
| SelectInst (c : Value) (vt vf : Value)
| AllocaInst (allocated : Type_)
| GetElementPtrInst (base : Value) (idxs : list Value)
| LoadInst (p : Value)
| StoreInst (v p : Value)
| CallInst (fty : Type_) (callee : Value) (args : list Value) (attrs : CallAttrs)
| PHINode (incoming : list (Value * ptr))
| BranchInst (dest : ptr)
| CondBranchInst (cond : Value) (ifTrue ifFalse : ptr)
| SwitchInst (cond : Value) (dflt : ptr) (cases : list (Z * ptr))
| ReturnInst (rv : option Value)
| UnreachableInst.

Record Instruction : Type := mkInst {
  iid : ptr;
  iname : string;
  ity : Type_;
  ikind : InstKind
}.

Record BasicBlock : Type := mkBB {
  bid : ptr;
  bname : string;
  binsts : list Instruction
}.

Record Argument : Type := mkArg {
  aname : string;
  aty : Type_
}.

Record Function : Type := mkFunction {
  fid : ptr;
  fname : string;
  fret : Type_;
  fargs : list Argument;
  fblocks : list BasicBlock
}.

(** A module: its functions in creation order and its identified struct
    types ([StructType::create], then [setBody] and [setName]). *)
Record Module : Type := mkModule {
  mfuncs : list Function;
  mstructs : list (ptr * (string * list Type_))
}.

Definition getFunctionType (F : Function) : Type_ :=
  FunctionTy (fret F) (aty <$> fargs F).

Definition isTerminator (k : InstKind) : bool :=
  match k with
  | BranchInst _ | CondBranchInst _ _ _ | SwitchInst _ _ _
  | ReturnInst _ | UnreachableInst => true
  | _ => false
  end.

(** [BasicBlock::getTerminator]: the last instruction when it is a
    terminator, null otherwise. *)
Definition getTerminator (BB : BasicBlock) : option Instruction :=
  match last (binsts BB) with
  | Some t => if isTerminator (ikind t) then Some t else None
  | None => None
  end.

(** The successor list of a terminator, in operand order. *)
Definition successors (k : InstKind) : list ptr :=
  match k with
  | BranchInst d => [d]
  | CondBranchInst _ t f => [t; f]
  | SwitchInst _ d cases => d :: (snd <$> cases)
  | _ => []
  end.

Definition block_successors (BB : BasicBlock) : list ptr :=
  match getTerminator BB with
  | Some t => successors (ikind t)
  | None => []
  end.

(** The value operands of an instruction ([User::operands]); block operands
    are listed last, they are never instructions nor arguments. *)
Definition operands (k : InstKind) : list Value :=
  match k with
  | BinaryOperator _ a b => [a; b]
  | CastInst _ a => [a]
  | ICmpInst _ a b => [a; b]
  | SelectInst c a b => [c; a; b]
  | AllocaInst _ => []
  | GetElementPtrInst b ix => b :: ix
  | LoadInst p => [p]
  | StoreInst v p => [v; p]
  | CallInst _ c args _ => args ++ [c]
  | PHINode inc => fst <$> inc
  | BranchInst d => [BasicBlockV d]
  | CondBranchInst c t f => [c; BasicBlockV f; BasicBlockV t]
  | SwitchInst c d cases => c :: BasicBlockV d :: ((λ x, BasicBlockV (snd x)) <$> cases)
  | ReturnInst (Some v) => [v]
  | ReturnInst None => []
  | UnreachableInst => []
  end.

Definition findBlock (F : Function) (b : ptr) : option BasicBlock :=
  snd <$> list_find (λ BB, bid BB = b) (fblocks F).

Definition allInsts (F : Function) : list Instruction :=
  concat (binsts <$> fblocks F).

Definition findInst (F : Function) (i : ptr) : option Instruction :=
  snd <$> list_find (λ ins, iid ins = i) (allInsts F).

(** [Instruction::getParent]: the block that holds instruction [i]. *)
Definition getParent (F : Function) (i : ptr) : option ptr :=
  bid <$> (snd <$> list_find (λ BB, bool_decide (i ∈ iid <$> binsts BB)) (fblocks F)).

(** [predecessors(BB)]: one entry per CFG edge into the block, in the order
    of the use list of the block, the most recent use first: for
    terminators made in the order of the layout, the reverse of that
    order. *)
Definition predecessors (F : Function) (b : ptr) : list ptr :=
  reverse
    (concat ((λ P, (λ _, bid P) <$> filter (λ s, s = b) (block_successors P))
               <$> fblocks F)).

Definition pred_size (F : Function) (b : ptr) : nat := length (predecessors F b).

(** ** Compiler analyses consulted by the passes *)

(** A dominator (or post-dominator) tree as the data structure the passes
    walk: a node holds its block and its children.  The post-dominator tree
    has a virtual root whose block is null, hence the parameter. *)
Inductive DomTree (B : Type) : Type :=
| DTNode (blk : B) (children : list (DomTree B)).
Arguments DTNode {B} blk children.

(** A [DomTreeNode*] as seen when walking towards the root: [getBlock] and
    [getIDom]. *)
Inductive DomTreeNode (B : Type) : Type :=
| DomNode (getBlock : B) (getIDom : option (DomTreeNode B)).
Arguments DomNode {B} getBlock getIDom.

Definition getBlock {B} (n : DomTreeNode B) : B :=
  match n with DomNode b _ => b end.
Definition getIDom {B} (n : DomTreeNode B) : option (DomTreeNode B) :=
  match n with DomNode _ p => p end.

Section DomTreeQueries.
Context {B : Type} `{EqDecision B}.

(** The node of block [b] below [t], with its chain of immediate dominators
    up to the root ([above] is the node of the parent of [t]). *)
Fixpoint nodeBelow (t : DomTree B) (b : B) (above : option (DomTreeNode B))
    : option (DomTreeNode B) :=
  match t with
  | DTNode blk children =>
      let me := DomNode blk above in
      if decide (blk = b) then Some me
      else (fix among (cs : list (DomTree B)) : option (DomTreeNode B) :=
              match cs with
              | [] => None
              | c :: cs' =>
                  match nodeBelow c b (Some me) with
                  | Some n => Some n
                  | None => among cs'
                  end
              end) children
  end.

(** [DT.getNode(BB)]: null when the block is not in the tree (a block that
    cannot be reached from the root). *)
Definition getNode (t : DomTree B) (b : B) : option (DomTreeNode B) :=
  nodeBelow t b None.

(** The blocks on the chain from a node to the root, the node's first. *)
Fixpoint domChain (n : DomTreeNode B) : list B :=
  match n with
  | DomNode b None => [b]
  | DomNode b (Some p) => b :: domChain p
  end.

(** [DT.dominates(A, B)]: a block dominates itself, anything dominates a
    block that is not in the tree, a block that is not in the tree dominates
    nothing else, otherwise [a] is on the chain from [b] to the root. *)
Definition treeDominates (t : DomTree B) (a b : B) : bool :=
  if decide (a = b) then true
  else match getNode t b with
       | None => true
       | Some nb =>
           match getNode t a with
           | None => false
           | Some _ => bool_decide (a ∈ domChain nb)
           end
       end.

End DomTreeQueries.

(** The symbol tables in which a name is entered: the one of a function
    (its arguments, blocks and instructions), the one of the module (its
    functions) and the named struct types of the context. *)
Inductive NameScope : Type :=
| ValueNames (F : ptr)
| GlobalNames
| TypeNames.

(** What the passes ask of the compiler infrastructure.  The two trees and
    the loop depths are recomputed from the function each time a pass
    constructs them; the three effect queries are [Instruction::mayThrow],
    [Instruction::mayReadOrWriteMemory] and [Instruction::willReturn].
    [uniqueName] is the name a symbol table settles on for a requested name,
    given the names it holds ([ValueSymbolTable::makeUniqueName],
    [StructType::setName]): the table keeps a counter of its own, so the
    number it appends to a name that is taken is not a function of the IR
    the passes see. *)
Class Analyses : Type := {
  DominatorTree : Function → DomTree ptr;
  PostDominatorTree : Function → DomTree (option ptr);
  getLoopDepth : Function → ptr → nat;
  mayThrow : Instruction → bool;
  mayReadOrWriteMemory : Instruction → bool;
  willReturn : Instruction → bool;
  (* DataLayout::getTypeAllocSize, in bytes *)
  getTypeAllocSize : Type_ → N;
  (* the size of MemoryLocation::getOrNone(I), when there is a location of
     known size *)
  memoryLocationSize : Instruction → option N;
  (* GEP->accumulateConstantOffset: the offset when it is constant *)
  accumulateConstantOffset : Instruction → option N;
  uniqueName : NameScope → list string → string → string
}.

(** ** Names *)

(** What a symbol table puts between a name that is taken and the number
    it appends: a dot for functions and struct types, nothing for the values
    of a function. *)
Definition separator (sc : NameScope) : string :=
  match sc with
  | ValueNames _ => ""
  | GlobalNames | TypeNames => "."
  end.

Definition hasName (Name : string) : Prop := Name ≠ "".

#[global] Instance hasName_dec (Name : string) : Decision (hasName Name).
Proof. unfold hasName. apply _. Defined.

(** The names held by the symbol table of a function, by that of a module,
    and the names of the struct types. *)
Definition valueNames (F : Function) : list string :=
  filter hasName
    ((aname <$> fargs F) ++ (bname <$> fblocks F) ++ (iname <$> allInsts F)).

Definition globalNames (M : Module) : list string :=
  filter hasName (fname <$> mfuncs M).

Definition typeNames (M : Module) : list string :=
  filter hasName ((λ t : ptr * (string * list Type_), t.2.1) <$> mstructs M).

(** [Value::setName], [Function::Create] and [StructType::setName] with a
    requested name: an empty name leaves the object unnamed. *)
Definition setName `{Analyses} (sc : NameScope) (taken : list string)
    (Name : string) : string :=
  if decide (Name = "") then "" else uniqueName sc taken Name.

(** What the symbol tables of the compiler guarantee: a name that is free
    is kept; one that is taken gets a number appended, after the separator
    of the table; the name settled on is free. *)
Definition uniquing `{Analyses} : Prop :=
  ∀ sc taken Name,
    (Name ∉ taken → uniqueName sc taken Name = Name)
    ∧ (Name ∈ taken →
         ∃ k : N, uniqueName sc taken Name = Name +:+ separator sc +:+ pretty k)
    ∧ uniqueName sc taken Name ∉ taken.

(** ** Outcomes of code that can stop on an assertion or a null pointer *)

Inductive Outcome (A : Type) : Type :=
| Ok (a : A)
| Abort (why : string).
Arguments Ok {A} a.
Arguments Abort {A} why.

#[global] Instance Outcome_ret : MRet Outcome := λ A a, Ok a.
#[global] Instance Outcome_bind : MBind Outcome := λ A B f m,
  match m with
  | Ok a => f a
  | Abort w => Abort w
  end.
#[global] Instance Outcome_fmap : FMap Outcome := λ A B f m,
  match m with
  | Ok a => Ok (f a)
  | Abort w => Abort w
  end.

(** Run [f] on each element, left to right, stopping at the first abort. *)
Fixpoint forM {A B} (f : A → Outcome B) (l : list A) : Outcome (list B) :=
  match l with
  | [] => Ok []
  | x :: l' =>
      match f x with
      | Ok y =>
          match forM f l' with
          | Ok ys => Ok (y :: ys)
          | Abort w => Abort w
          end
      | Abort w => Abort w
      end
  end.

(** ** Dependence analyzer: gates ([ProgramSlice.cpp], lines 35-96) *)

Module Gates.

(** What [getGate] hands back: the terminator itself, or the never assigned
    local [condition]. *)
Inductive Gate : Type :=
| GateInst (t : Instruction)
| GateIndeterminate.

Definition isGateInst (g : Gate) : bool :=
  match g with GateInst _ => true | GateIndeterminate => false end.

(** [getController]'s loop, from node [dom_node] upwards. *)
Fixpoint controllerFrom (PDT : DomTree (option ptr)) (BB : ptr)
    (dom_node : DomTreeNode ptr) : option ptr :=
  match dom_node with
  | DomNode dom_BB up =>
      if negb (treeDominates PDT (Some BB) (Some dom_BB)) then Some dom_BB
      else match up with
           | Some n => controllerFrom PDT BB n
           | None => None
           end
  end.

Definition getController (BB : ptr) (DT : DomTree ptr)
    (PDT : DomTree (option ptr)) : option ptr :=
  match getNode DT BB with
  | Some dom_node => controllerFrom PDT BB dom_node
  | None => None
  end.

(** [getGate].  The assertion is modelled as compiled in; a block without
    terminator makes [dyn_cast] fail on the null pointer. *)
Definition getGate (BB : BasicBlock) : Outcome Gate :=
  match getTerminator BB with
  | None => Abort "dyn_cast on a null terminator"
  | Some terminator =>
      match ikind terminator with
      | CondBranchInst _ _ _ => Ok (GateInst terminator)
      | BranchInst _ => Abort "Inconditional terminator!"
      | SwitchInst _ _ _ => Ok (GateInst terminator)
      | _ => Ok GateIndeterminate
      end
  end.

Definition getGateAt (F : Function) (b : ptr) : Outcome Gate :=
  match findBlock F b with
  | Some BB => getGate BB
  | None => Abort "block is not in the function"
  end.

(** The body of the loop over the predecessors of [BB]: what one predecessor
    pushes on [BB_gates]. *)
Definition gatesFromPred (F : Function) (DT : DomTree ptr)
    (PDT : DomTree (option ptr)) (BB pred : ptr) : Outcome (list Gate) :=
  if treeDominates DT pred BB && negb (treeDominates PDT (Some BB) (Some pred))
  then g ← getGateAt F pred; Ok [g]
  else match getController pred DT PDT with
       | Some ctrl_BB => g ← getGateAt F ctrl_BB; Ok [g]
       | None => Ok []
       end.

Definition gatesOfBlock (F : Function) (DT : DomTree ptr)
    (PDT : DomTree (option ptr)) (BB : ptr) : Outcome (list Gate) :=
  if decide (1 < pred_size F BB)%nat
  then (λ gs, concat gs) <$> forM (gatesFromPred F DT PDT BB) (predecessors F BB)
  else Ok [].

(** [gates.emplace]: an existing key keeps its value. *)
Definition emplace {V} (k : ptr) (v : V) (m : gmap ptr V) : gmap ptr V :=
  match m !! k with
  | Some _ => m
  | None => <[k := v]> m
  end.

Fixpoint computeGatesLoop (F : Function) (DT : DomTree ptr)
    (PDT : DomTree (option ptr)) (BBs : list BasicBlock)
    (gates : gmap ptr (list Gate)) : Outcome (gmap ptr (list Gate)) :=
  match BBs with
  | [] => Ok gates
  | BB :: rest =>
      BB_gates ← gatesOfBlock F DT PDT (bid BB);
      computeGatesLoop F DT PDT rest (emplace (bid BB) BB_gates gates)
  end.

Definition computeGates `{Analyses} (F : Function)
    : Outcome (gmap ptr (list Gate)) :=
  computeGatesLoop F (DominatorTree F) (PostDominatorTree F) (fblocks F) ∅.

End Gates.

(** ** Dependence analyzer: data dependences ([ProgramSlice.cpp], 98-138) *)

(** A [std::set<const Value*>] that only ever receives instructions and
    formal parameters. *)
Record ValueSet : Type := mkValueSet {
  vs_insts : gset ptr;
  vs_args : gset (ptr * nat)
}.

Definition vs_empty : ValueSet := mkValueSet ∅ ∅.

Definition vs_insert (v : Value) (s : ValueSet) : ValueSet :=
  match v with
  | InstructionV i => mkValueSet ({[i]} ∪ vs_insts s) (vs_args s)
  | ArgumentV f n => mkValueSet (vs_insts s) ({[(f, n)]} ∪ vs_args s)
  | _ => s
  end.

Definition vs_count (v : Value) (s : ValueSet) : bool :=
  match v with
  | InstructionV i => bool_decide (i ∈ vs_insts s)
  | ArgumentV f n => bool_decide ((f, n) ∈ vs_args s)
  | _ => false
  end.

Definition isInstOrArg (v : Value) : bool :=
  match v with
  | InstructionV _ | ArgumentV _ _ => true
  | _ => false
  end.

(** Iteration over a pointer-keyed [std::set]: ascending addresses. *)
Definition ascending (s : gset ptr) : list ptr :=
  merge_sort N.le (elements s).

Definition argLe (a b : ptr * nat) : Prop :=
  (a.1 < b.1)%N ∨ (a.1 = b.1 ∧ (a.2 ≤ b.2)%nat).
#[global] Instance argLe_dec a b : Decision (argLe a b).
Proof. unfold argLe. apply _. Defined.

Definition ascendingArgs (s : gset (ptr * nat)) : list (ptr * nat) :=
  merge_sort argLe (elements s).

Module Deps.
Import Gates.

Record State : Type := mkState {
  deps : ValueSet;
  BBs : gset ptr;
  visited : ValueSet;
  to_visit : list Value
}.

(** The loop over [dep->operands()]. *)
Fixpoint visitOperands (ops : list Value) (visited : ValueSet)
    (to_visit : list Value) : ValueSet * list Value :=
  match ops with
  | [] => (visited, to_visit)
  | U :: rest =>
      if negb (isInstOrArg U) || vs_count U visited
      then visitOperands rest visited to_visit
      else visitOperands rest (vs_insert U visited) (to_visit ++ [U])
  end.

(** The loop over [gates[PN->getParent()]].  Reading a gate that [getGate]
    left indeterminate has no defined behaviour. *)
Fixpoint visitGates (gs : list Gate) (visited : ValueSet)
    (to_visit : list Value) : Outcome (list Value) :=
  match gs with
  | [] => Ok to_visit
  | GateIndeterminate :: _ => Abort "use of an indeterminate gate"
  | GateInst t :: rest =>
      if vs_count (InstructionV (iid t)) visited
      then visitGates rest visited to_visit
      else visitGates rest visited (to_visit ++ [InstructionV (iid t)])
  end.

(** One iteration of the [while (!to_visit.empty())] loop on [cur]. *)
Definition visit (F : Function) (gates : gmap ptr (list Gate)) (cur : Value)
    (st : State) : Outcome State :=
  let deps1 := vs_insert cur (deps st) in
  match cur with
  | InstructionV i =>
      match findInst F i, getParent F i with
      | Some dep, Some parent =>
          let BBs1 := {[parent]} ∪ BBs st in
          let '(visited1, to_visit1) :=
            visitOperands (operands (ikind dep)) (visited st) (to_visit st) in
          match ikind dep with
          | PHINode incoming =>
              let BBs2 := list_to_set (snd <$> incoming) ∪ BBs1 in
              to_visit2 ← visitGates (default [] (gates !! parent)) visited1 to_visit1;
              Ok (mkState deps1 BBs2 visited1 to_visit2)
          | _ => Ok (mkState deps1 BBs1 visited1 to_visit1)
          end
      | _, _ => Abort "instruction outside of the sliced function"
      end
  | _ => Ok (mkState deps1 (BBs st) (visited st) (to_visit st))
  end.

Fixpoint loop (fuel : nat) (F : Function) (gates : gmap ptr (list Gate))
    (st : State) : Outcome State :=
  match to_visit st with
  | [] => Ok st
  | cur :: rest =>
      match fuel with
      | O => Abort "traversal budget exhausted"
      | S fuel' =>
          st' ← visit F gates cur (mkState (deps st) (BBs st) (visited st) rest);
          loop fuel' F gates st'
      end
  end.

(** An upper bound on the number of values the queue can ever receive: every
    operand is queued at most once, and a gate list is queued once per visit
    of a PHI. *)
Definition budget (F : Function) (gates : gmap ptr (list Gate)) : nat :=
  let values := (length (allInsts F) + length (fargs F) + 1)%nat in
  let gateCount := map_fold (λ _ gs n, (length gs + n)%nat) 0%nat gates in
  (values * (gateCount + 1) + 1)%nat.

Definition get_data_dependences_for (F : Function) (initial : ptr)
    (gates : gmap ptr (list Gate)) : Outcome (gset ptr * ValueSet) :=
  st ← loop (budget F gates) F gates
        (mkState (vs_insert (InstructionV initial) vs_empty) ∅ vs_empty
                 [InstructionV initial]);
  Ok (BBs st, deps st).

End Deps.

(** ** The slice ([ProgramSlice.cpp], 234-326) *)

(** The pointer sets [_instsInSlice] and [_BBsInSlice] iterate in address
    order; the instructions are held with their contents, in that order. *)
Record ProgramSlice : Type := mkSlice {
  _initial : ptr;
  _parentFunction : Function;
  _instsInSlice : list Instruction;
  _depArgs : list (ptr * nat);
  _BBsInSlice : gset ptr;
  _CallSite : ptr;
  _attractors : gmap ptr ptr
}.

Module Attractors.

(** The [while (Cand != nullptr)] walk up the post-dominator tree, from a
    non-null candidate. *)
Fixpoint firstInSliceFrom (BBsInSlice : gset ptr)
    (Cand : DomTreeNode (option ptr)) : option ptr :=
  match Cand with
  | DomNode blk up =>
      let inSlice :=
        match blk with
        | Some b => bool_decide (b ∈ BBsInSlice)
        | None => false
        end in
      if inSlice then blk
      else match up with
           | Some n => firstInSliceFrom BBsInSlice n
           | None => None
           end
  end.

Definition firstInSlice (BBsInSlice : gset ptr)
    (Cand : option (DomTreeNode (option ptr))) : option ptr :=
  match Cand with
  | Some n => firstInSliceFrom BBsInSlice n
  | None => None
  end.

Fixpoint computeLoop (PDT : DomTree (option ptr)) (BBsInSlice : gset ptr)
    (blocks : list BasicBlock) (attractors : gmap ptr ptr)
    : Outcome (gmap ptr ptr) :=
  match blocks with
  | [] => Ok attractors
  | BB :: rest =>
      if bool_decide (is_Some (attractors !! bid BB))
      then computeLoop PDT BBsInSlice rest attractors
      else if bool_decide (bid BB ∈ BBsInSlice)
      then computeLoop PDT BBsInSlice rest (<[bid BB := bid BB]> attractors)
      else
        match getNode PDT (Some (bid BB)) with
        | None => Abort "null post-dominator tree node"
        | Some OrigBB =>
            match firstInSlice BBsInSlice (getIDom OrigBB) with
            | Some a => computeLoop PDT BBsInSlice rest (<[bid BB := a]> attractors)
            | None => computeLoop PDT BBsInSlice rest attractors
            end
        end
  end.

Definition computeAttractorBlocks `{Analyses} (F : Function)
    (BBsInSlice : gset ptr) : Outcome (gmap ptr ptr) :=
  computeLoop (PostDominatorTree F) BBsInSlice (fblocks F) ∅.

End Attractors.

Section Slicing.
Context `{Analyses}.

(** The constructor.  The assertion that [Initial] belongs to [F] is checked
    first. *)
Definition newProgramSlice (Initial : ptr) (F : Function) (CallSite : ptr)
    : Outcome ProgramSlice :=
  match getParent F Initial with
  | None => Abort "Slicing instruction from different function!"
  | Some _ =>
      gates ← Gates.computeGates F;
      '(BBsInSlice, valuesInSlice) ← Deps.get_data_dependences_for F Initial gates;
      attractors ← Attractors.computeAttractorBlocks F BBsInSlice;
      instsInSlice ← forM (λ i, match findInst F i with
                                | Some ins => Ok ins
                                | None => Abort "dangling instruction"
                                end) (ascending (vs_insts valuesInSlice));
      Ok (mkSlice Initial F instsInSlice
                  (ascendingArgs (vs_args valuesInSlice))
                  BBsInSlice CallSite attractors)
  end.

End Slicing.

(** ** Slice validator ([ProgramSlice.cpp], 140-232 and 511-574) *)

Section Validator.
Context `{Analyses}.

(** [AI->users()]: the instructions of [F] that have [AI] as an operand. *)
Definition users (F : Function) (v : Value) : list Instruction :=
  filter (λ ins, v ∈ operands (ikind ins)) (allInsts F).

(** [hasAddressTaken].  The source recurses through the users of GEPs,
    casts, selects and PHIs without remembering what it has seen; [fuel]
    bounds the recursion depth. *)
Fixpoint hasAddressTaken (fuel : nat) (F : Function) (AI : ptr)
    (AllocSize : N) : Outcome bool :=
  match fuel with
  | O => Abort "unbounded recursion"
  | S fuel' =>
      (fix usersLoop (us : list Instruction) : Outcome bool :=
         match us with
         | [] => Ok false
         | ins :: rest =>
             let tooLarge :=
               match memoryLocationSize ins with
               | Some sz => negb (sz <=? AllocSize)%N
               | None => false
               end in
             if tooLarge then Ok true
             else
               match ikind ins with
               | StoreInst v _ =>
                   if bool_decide (v = InstructionV AI) then Ok true
                   else usersLoop rest
               | CastInst PtrToInt src =>
                   if bool_decide (src = InstructionV AI) then Ok true
                   else usersLoop rest
               | CallInst _ _ _ attrs =>
                   if negb (isDebugOrLifetime attrs)
                      && negb (calleeOnlyReadsMemory attrs)
                   then Ok true
                   else usersLoop rest
               | GetElementPtrInst _ _ =>
                   match accumulateConstantOffset ins with
                   | None => Ok true
                   | Some Offset =>
                       if negb (Offset <? AllocSize)%N then Ok true
                       else
                         taken ← hasAddressTaken fuel' F (iid ins) (AllocSize - Offset)%N;
                         if taken : bool then Ok true else usersLoop rest
                   end
               | CastInst BitCast _ | SelectInst _ _ _ | PHINode _ =>
                   taken ← hasAddressTaken fuel' F (iid ins) AllocSize;
                   if taken : bool then Ok true else usersLoop rest
               | LoadInst _ | ReturnInst _ => usersLoop rest
               | _ => Ok true
               end
         end) (users F (InstructionV AI))
  end.

(** Along one chain of recursive calls the size never grows, and a chain
    that does not repeat a pair of instruction and size is no longer than
    this. *)
Definition addressTakenFuel (F : Function) (AllocSize : N) : nat :=
  S (length (allInsts F) * S (N.to_nat AllocSize)).

(** The first loop of [canOutline]: [Ok true] when it runs to its end. *)
Fixpoint scanInsts (F : Function) (insts : list Instruction) : Outcome bool :=
  match insts with
  | [] => Ok true
  | ins :: rest =>
      if mayThrow ins then Ok false
      else if mayReadOrWriteMemory ins then Ok false
      else if negb (willReturn ins) then Ok false
      else
        match ikind ins with
        | AllocaInst allocated =>
            let size := getTypeAllocSize allocated in
            taken ← hasAddressTaken (addressTakenFuel F size) F (iid ins) size;
            if taken : bool then Ok false else scanInsts F rest
        | _ => scanInsts F rest
        end
  end.

Definition isAlloca (k : InstKind) : bool :=
  match k with AllocaInst _ => true | _ => false end.

(** The special case for a PHI with one incoming block: refuse when the
    terminator of that block is not in the slice. *)
Definition lcssaDegenerate (s : ProgramSlice) (k : InstKind) : bool :=
  match k with
  | PHINode [(_, incBB)] =>
      match findBlock (_parentFunction s) incBB ≫= getTerminator with
      | Some t => bool_decide (iid t ∉ iid <$> _instsInSlice s)
      | None => true
      end
  | _ => false
  end.

Definition canOutline (s : ProgramSlice) : Outcome bool :=
  let F := _parentFunction s in
  scanned ← scanInsts F (_instsInSlice s);
  if negb scanned then Ok false
  else
    match getParent F (_CallSite s) with
    | None => Abort "call site outside of the sliced function"
    | Some callBB =>
        let d := getLoopDepth F callBB in
        if bool_decide (0 < d)%nat
           && existsb (λ BB, bool_decide (getLoopDepth F BB ≤ d)%nat)
                      (ascending (_BBsInSlice s))
        then Ok false
        else
          match findInst F (_initial s) with
          | None => Abort "criterion outside of the sliced function"
          | Some initial =>
              if isAlloca (ikind initial) then Ok false
              else if lcssaDegenerate s (ikind initial) then Ok false
              else Ok true
          end
    end.

End Validator.

(** ** Building IR: fresh addresses *)

(** Code that allocates IR objects threads the next free address of the
    arena and may stop on an assertion or a null pointer. *)
Definition Build (A : Type) : Type := ptr → Outcome (A * ptr).

#[global] Instance Build_ret : MRet Build := λ A a n, Ok (a, n).
#[global] Instance Build_bind : MBind Build := λ A B f m n,
  match m n with
  | Ok (a, n') => f a n'
  | Abort w => Abort w
  end.

Definition fresh : Build ptr := λ n, Ok (n, N.succ n).
Definition abort {A} (why : string) : Build A := λ _, Abort why.
Definition lift {A} (o : Outcome A) : Build A := λ n,
  match o with
  | Ok a => Ok (a, n)
  | Abort w => Abort w
  end.
Definition orAbort {A} (why : string) (o : option A) : Build A :=
  match o with
  | Some a => mret a
  | None => abort why
  end.

Fixpoint foldM {A S} (f : S → A → Build S) (l : list A) (s : S) : Build S :=
  match l with
  | [] => mret s
  | x :: l' => s' ← f s x; foldM f l' s'
  end.

(** ** Editing functions *)

Definition mapBlocks (f : BasicBlock → BasicBlock) (F : Function) : Function :=
  mkFunction (fid F) (fname F) (fret F) (fargs F) (f <$> fblocks F).

Definition mapInsts (f : Instruction → Instruction) (F : Function) : Function :=
  mapBlocks (λ BB, mkBB (bid BB) (bname BB) (f <$> binsts BB)) F.

Definition setKind (k : InstKind) (ins : Instruction) : Instruction :=
  mkInst (iid ins) (iname ins) (ity ins) k.

(** Apply [f] to the instruction list of block [b]. *)
Definition editBlock (b : ptr) (f : list Instruction → list Instruction)
    (F : Function) : Function :=
  mapBlocks (λ BB, if decide (bid BB = b)
                   then mkBB (bid BB) (bname BB) (f (binsts BB)) else BB) F.

(** Insertion at the end of a block ([IRBuilder<> builder(BB)],
    [BranchInst::Create(target, BB)]). *)
Definition appendInst (b : ptr) (ins : Instruction) (F : Function) : Function :=
  editBlock b (λ l, l ++ [ins]) F.

(** Insertion before instruction [pos], wherever it is. *)
Fixpoint insertBeforeIn (pos : ptr) (new : list Instruction)
    (l : list Instruction) : list Instruction :=
  match l with
  | [] => []
  | ins :: rest =>
      if decide (iid ins = pos) then new ++ ins :: rest
      else ins :: insertBeforeIn pos new rest
  end.

Definition insertBefore (pos : ptr) (new : list Instruction) (F : Function)
    : Function :=
  mapBlocks (λ BB, mkBB (bid BB) (bname BB) (insertBeforeIn pos new (binsts BB))) F.

Definition appendBlock (BB : BasicBlock) (F : Function) : Function :=
  mkFunction (fid F) (fname F) (fret F) (fargs F) (fblocks F ++ [BB]).

(** Rewrite the value operands of an instruction. *)
Definition mapOperands (f : Value → Value) (k : InstKind) : InstKind :=
  match k with
  | BinaryOperator o a b => BinaryOperator o (f a) (f b)
  | CastInst o a => CastInst o (f a)
  | ICmpInst p a b => ICmpInst p (f a) (f b)
  | SelectInst c a b => SelectInst (f c) (f a) (f b)
  | AllocaInst t => AllocaInst t
  | GetElementPtrInst b ix => GetElementPtrInst (f b) (f <$> ix)
  | LoadInst p => LoadInst (f p)
  | StoreInst v p => StoreInst (f v) (f p)
  | CallInst t c args a => CallInst t (f c) (f <$> args) a
  | PHINode inc => PHINode ((λ e, (f e.1, e.2)) <$> inc)
  | BranchInst d => BranchInst d
  | CondBranchInst c t e => CondBranchInst (f c) t e
  | SwitchInst c d cases => SwitchInst (f c) d cases
  | ReturnInst rv => ReturnInst (f <$> rv)
  | UnreachableInst => UnreachableInst
  end.

(** Rewrite the successors of a terminator. *)
Definition mapSuccessors (f : ptr → ptr) (k : InstKind) : InstKind :=
  match k with
  | BranchInst d => BranchInst (f d)
  | CondBranchInst c t e => CondBranchInst c (f t) (f e)
  | SwitchInst c d cases => SwitchInst c (f d) ((λ e, (e.1, f e.2)) <$> cases)
  | _ => k
  end.

(** [PN->replaceIncomingBlockWith] along a map of blocks. *)
Definition mapIncomingBlocks (f : ptr → ptr) (k : InstKind) : InstKind :=
  match k with
  | PHINode inc => PHINode ((λ e, (e.1, f e.2)) <$> inc)
  | _ => k
  end.

Definition replaceValue (old new v : Value) : Value :=
  if decide (v = old) then new else v.

(** [old->replaceUsesWithIf(new, user is an instruction of F)]. *)
Definition replaceUsesIn (old new : Value) (F : Function) : Function :=
  mapInsts (λ ins, setKind (mapOperands (replaceValue old new) (ikind ins)) ins) F.

(** [BB->replaceUsesWithIf(new, user is an instruction of F)] for a block:
    the successor operands of terminators (the incoming blocks of a PHI are
    not operands). *)
Definition replaceBlockUsesIn (old new : ptr) (F : Function) : Function :=
  mapInsts (λ ins, setKind (mapSuccessors (λ b, if decide (b = old) then new else b)
                                         (ikind ins)) ins) F.

Definition hasBlock (F : Function) (b : ptr) : bool :=
  bool_decide (b ∈ bid <$> fblocks F).

Definition isPHI (k : InstKind) : bool :=
  match k with PHINode _ => true | _ => false end.

Definition i1 (v : Z) : Value := ConstantInt 1 v.
Definition i8 (v : Z) : Value := ConstantInt 8 v.
Definition i32 (v : Z) : Value := ConstantInt 32 v.

Definition addStruct (sid : ptr) (name : string) (body : list Type_)
    (M : Module) : Module :=
  mkModule (mfuncs M) (mstructs M ++ [(sid, (name, body))]).

Definition addFunction (F : Function) (M : Module) : Module :=
  mkModule (mfuncs M ++ [F]) (mstructs M).

(** ** Slice outliner ([ProgramSlice.cpp], 328-509 and 591-758) *)

(** The maps a slice fills while it is outlined. *)
Record Outlining : Type := mkOutlining {
  _origToNewBBmap : gmap ptr ptr;
  _newToOrigBBmap : gmap ptr ptr;
  _Imap : gmap ptr ptr;
  _argMap : gmap (ptr * nat) ptr
}.

Definition noOutlining : Outlining := mkOutlining ∅ ∅ ∅ ∅.

Module Outliner.
Import Gates.

Definition insertNewBB `{Analyses} (s : ProgramSlice) (st : Function * Outlining)
    (originalBB : ptr) : Build (Function * Outlining) :=
  let '(F, o) := st in
  orig ← orAbort "block outside of the sliced function"
           (findBlock (_parentFunction s) originalBB);
  newBB ← fresh;
  let newBBName := "sliceclone_" +:+ bname orig in
  mret (appendBlock (mkBB newBB (setName (ValueNames (fid F)) (valueNames F) newBBName)
                          []) F,
        mkOutlining (emplace originalBB newBB (_origToNewBBmap o))
                    (emplace newBB originalBB (_newToOrigBBmap o))
                    (_Imap o) (_argMap o)).

Definition populateFunctionWithBBs `{Analyses} (s : ProgramSlice)
    (st : Function * Outlining) : Build (Function * Outlining) :=
  foldM (insertNewBB s) (ascending (_BBsInSlice s)) st.

Definition inSlice (s : ProgramSlice) (i : ptr) : bool :=
  bool_decide (i ∈ iid <$> _instsInSlice s).

(** [origInst.clone()] copies kind, type and operands; the clone has no
    name.  It is appended to the clone of the block of the original. *)
Definition cloneInto (s : ProgramSlice) (BB : ptr)
    (st : Function * Outlining) (origInst : Instruction)
    : Build (Function * Outlining) :=
  let '(F, o) := st in
  if inSlice s (iid origInst) then
    newInst ← fresh;
    target ← orAbort "block of a slice instruction has no clone"
               (_origToNewBBmap o !! BB);
    mret (appendInst target (mkInst newInst "" (ity origInst) (ikind origInst)) F,
          mkOutlining (_origToNewBBmap o) (_newToOrigBBmap o)
                      (emplace (iid origInst) newInst (_Imap o)) (_argMap o))
  else mret st.

Definition populateBBsWithInsts (s : ProgramSlice)
    (st : Function * Outlining) : Build (Function * Outlining) :=
  foldM (λ st BB, foldM (cloneInto s (bid BB)) (binsts BB) st)
        (fblocks (_parentFunction s)) st.

(** One iteration of the loop of [reorganizeUses] on the pair
    [(originalInst, newInst)]. *)
Definition reorganizeUse (o : Outlining) (F : Function)
    (pair : ptr * ptr) : Function :=
  let '(originalInst, newInst) := pair in
  let F1 :=
    mapInsts (λ ins,
      if decide (iid ins = newInst)
      then setKind (mapIncomingBlocks
                      (λ BB, default BB (_origToNewBBmap o !! BB)) (ikind ins)) ins
      else ins) F in
  replaceUsesIn (InstructionV originalInst) (InstructionV newInst) F1.

Definition reorganizeUses (o : Outlining) (F : Function) : Function :=
  foldl (reorganizeUse o) F
        (omap (λ k, (λ v, (k, v)) <$> _Imap o !! k) (ascending (dom (_Imap o)))).

(** [addDomBranches].  Every node of a tree is the child of one node, so
    the [visited] set never prevents a descent. *)
Fixpoint addDomBranches (s : ProgramSlice) (o : Outlining)
    (cur : DomTree ptr) (parent : option ptr) (F : Function) : Build Function :=
  match cur with
  | DTNode blk children =>
      let parent :=
        if bool_decide (blk ∈ _BBsInSlice s) then Some blk else parent in
      (fix each (cs : list (DomTree ptr)) (F : Function) : Build Function :=
         match cs with
         | [] => mret F
         | child :: cs' =>
             F1 ← addDomBranches s o child parent F;
             F2 ← match child, parent with
                  | DTNode cblk _, Some p =>
                      if bool_decide (cblk ∈ _BBsInSlice s) then
                        parentBB ← orAbort "null parent clone" (_origToNewBBmap o !! p);
                        pBB ← orAbort "null parent clone" (findBlock F1 parentBB);
                        match getTerminator pBB with
                        | None =>
                            childBB ← orAbort "null child clone" (_origToNewBBmap o !! cblk);
                            newBranch ← fresh;
                            mret (appendInst parentBB
                                    (mkInst newBranch "" VoidTy (BranchInst childBB)) F1)
                        | Some _ => mret F1
                        end
                      else mret F1
                  | _, None => mret F1
                  end;
             each cs' F2
         end) children F
  end.

(** Is [b] a proper ancestor of [inc] in the dominator tree: the walk from
    [DT.getNode(inc)->getIDom()] upwards. *)
Definition properlyDominates (DT : DomTree ptr) (b inc : ptr) : Outcome bool :=
  match getNode DT inc with
  | None => Abort "null dominator tree node"
  | Some OrigBB =>
      match getIDom OrigBB with
      | None => Ok false
      | Some Cand => Ok (bool_decide (b ∈ domChain Cand))
      end
  end.

(** The PHI update after an unconditional fallback branch from [BB] (the
    clone of [parentBB]) to [newTarget]. *)
Definition adoptIncoming (DT : DomTree ptr) (F : Function) (parentBB BB : ptr)
    (ins : Instruction) : Outcome Instruction :=
  match ikind ins with
  | PHINode incoming =>
      incoming' ← forM (λ e : Value * ptr,
                     if hasBlock F e.2 then Ok e
                     else
                       dominated ← properlyDominates DT parentBB e.2;
                       Ok (if dominated : bool then (e.1, BB) else e)) incoming;
      Ok (setKind (PHINode incoming') ins)
  | _ => Ok ins
  end.

Definition cloneOfAttractor (s : ProgramSlice) (o : Outlining) (suc : ptr)
    : option ptr :=
  _attractors s !! suc ≫= λ a, _origToNewBBmap o !! a.

Definition setSuccessor (idx : nat) (new : ptr) (k : InstKind) : InstKind :=
  match k, idx with
  | BranchInst _, O => BranchInst new
  | CondBranchInst c _ e, O => CondBranchInst c new e
  | CondBranchInst c t _, S O => CondBranchInst c t new
  | SwitchInst c _ cases, O => SwitchInst c new cases
  | SwitchInst c d cases, S i => SwitchInst c d (alter (λ e, (e.1, new)) i cases)
  | _, _ => k
  end.

(** Retarget successor [idx] of the terminator of [BB]. *)
Definition retarget (s : ProgramSlice) (o : Outlining)
    (unreachableBlock BB : ptr) (F : Function) (idx : nat) : Build Function :=
  blk ← orAbort "block vanished" (findBlock F BB);
  match getTerminator blk with
  | None => mret F
  | Some term =>
      match successors (ikind term) !! idx with
      | None => mret F
      | Some suc =>
          if hasBlock F suc then mret F
          else
            match cloneOfAttractor s o suc with
            | None => mret (replaceBlockUsesIn suc unreachableBlock F)
            | Some newSucc =>
                let F1 := mapInsts (λ ins,
                            if decide (iid ins = iid term)
                            then setKind (setSuccessor idx newSucc (ikind ins)) ins
                            else ins) F in
                mret (editBlock newSucc
                        (fmap (λ ins, setKind
                                 (mapIncomingBlocks
                                    (λ b, if decide (b = suc) then BB else b)
                                    (ikind ins)) ins)) F1)
            end
      end
  end.

(** The body of the loop over the blocks of [F] in [rerouteBranches]. *)
Definition rerouteBlock (s : ProgramSlice) (o : Outlining) (DT : DomTree ptr)
    (unreachableBlock : ptr) (F : Function) (BB : ptr) : Build Function :=
  blk ← orAbort "block vanished" (findBlock F BB);
  match getTerminator blk with
  | None =>
      parentBB ← orAbort "block without original" (_newToOrigBBmap o !! BB);
      orig ← orAbort "block without original" (findBlock (_parentFunction s) parentBB);
      origTerm ← orAbort "dyn_cast on a null terminator" (getTerminator orig);
      match ikind origTerm with
      | BranchInst _ | CondBranchInst _ _ _ =>
          match omap (cloneOfAttractor s o) (successors (ikind origTerm)) with
          | [] => mret F
          | newTarget :: _ =>
              newBranch ← fresh;
              let F1 := appendInst BB (mkInst newBranch "" VoidTy (BranchInst newTarget)) F in
              target ← orAbort "block vanished" (findBlock F1 newTarget);
              insts' ← lift (forM (adoptIncoming DT F1 parentBB BB) (binsts target));
              mret (editBlock newTarget (λ _, insts') F1)
          end
      | _ => mret F
      end
  | Some term =>
      match ikind term with
      | BranchInst _ | CondBranchInst _ _ _ | SwitchInst _ _ _ =>
          foldM (retarget s o unreachableBlock BB)
                (seq 0 (length (successors (ikind term)))) F
      | _ => mret F
      end
  end.

(** [PN->removeIncomingValue(incBB)] inside the loop of [updatePHINodes]:
    [live] are the entries of the PHI, [slots] its block array, which keeps
    its length and whose cells past the live entries still hold what was
    there before. *)
Definition removeIncoming (incBB : ptr) (live : list (Value * ptr))
    (slots : list ptr) : Outcome (list (Value * ptr) * list ptr) :=
  match list_find (λ e : Value * ptr, e.2 = incBB) live with
  | None => Abort "Invalid basic block argument to remove!"
  | Some (Idx, _) =>
      let n := length live in
      Ok (delete Idx live,
          take Idx slots ++ take (n - 1 - Idx) (drop (S Idx) slots)
            ++ drop (n - 1) slots)
  end.

(** The loop [for (PI = 0, PE = getNumIncomingValues(); PI != PE; ++PI)].
    A PHI that lost its last entry has been erased; looking at it again has
    no defined behaviour. *)
Fixpoint repairPHI (preds : list ptr) (indices : list nat)
    (live : list (Value * ptr)) (slots : list ptr)
    : Outcome (list (Value * ptr)) :=
  match indices with
  | [] => Ok live
  | PI :: rest =>
      match live with
      | [] => Abort "PHI used after it was erased"
      | _ =>
          match slots !! PI with
          | None => Abort "incoming block index out of range"
          | Some incBB =>
              if bool_decide (incBB ∈ preds) then repairPHI preds rest live slots
              else
                '(live', slots') ← removeIncoming incBB live slots;
                repairPHI preds rest live' slots'
          end
      end
  end.

(** The leading PHIs of one block.  A PHI without entries is left alone by
    the loop; one that loses all of them is erased and its uses become
    undef. *)
Fixpoint repairLeadingPHIs (preds : list ptr) (insts : list Instruction)
    : Outcome (list Instruction * list ptr) :=
  match insts with
  | [] => Ok ([], [])
  | ins :: rest =>
      match ikind ins with
      | PHINode incoming =>
          live ← repairPHI preds (seq 0 (length incoming)) incoming (snd <$> incoming);
          '(rest', erased) ← repairLeadingPHIs preds rest;
          match incoming, live with
          | _ :: _, [] => Ok (rest', iid ins :: erased)
          | _, _ => Ok (setKind (PHINode live) ins :: rest', erased)
          end
      | _ => Ok (insts, [])
      end
  end.

Definition updatePHINodes (F : Function) : Outcome Function :=
  foldl (λ acc BB,
           F ← acc;
           blk ← match findBlock F BB with
                 | Some blk => Ok blk
                 | None => Abort "block vanished"
                 end;
           '(insts', erased) ← repairLeadingPHIs (predecessors F BB) (binsts blk);
           Ok (foldl (λ F dead, replaceUsesIn (InstructionV dead) UndefValue F)
                     (editBlock BB (λ _, insts') F) erased))
        (Ok F) (bid <$> fblocks F).

Definition removeBlock (b : ptr) (F : Function) : Function :=
  mkFunction (fid F) (fname F) (fret F) (fargs F)
             (filter (λ BB, bid BB ≠ b) (fblocks F)).

(** [rerouteBranches].  The name [_wyvern_unreachable] is free in the thunk
    body, which holds its parameter [_wyvern_thunkptr], blocks whose names
    start with [sliceclone_] and unnamed instructions. *)
Definition rerouteBranches `{Analyses} (s : ProgramSlice) (o : Outlining)
    (F : Function) : Build Function :=
  let DT := DominatorTree (_parentFunction s) in
  F1 ← addDomBranches s o DT None F;
  unreachableBlock ← fresh;
  unreach ← fresh;
  let F2 := appendBlock (mkBB unreachableBlock "_wyvern_unreachable"
                           [mkInst unreach "" VoidTy UnreachableInst]) F1 in
  F3 ← foldM (rerouteBlock s o DT unreachableBlock) (bid <$> fblocks F2) F2;
  let F4 := if decide (pred_size F3 unreachableBlock = 0)%nat
            then removeBlock unreachableBlock F3 else F3 in
  lift (updatePHINodes F4).

(** [addReturnValue]: the address of the new return instruction comes with
    the function. *)
Definition addReturnValue (s : ProgramSlice) (o : Outlining) (F : Function)
    : Build (Function * ptr) :=
  newInitial ← orAbort "criterion was not cloned" (_Imap o !! _initial s);
  exit ← orAbort "criterion was not cloned" (getParent F newInitial);
  blk ← orAbort "block vanished" (findBlock F exit);
  let F1 := match getTerminator blk with
            | Some t => editBlock exit (filter (λ ins, iid ins ≠ iid t)) F
            | None => F
            end in
  new_ret ← fresh;
  mret (appendInst exit
          (mkInst new_ret "" VoidTy (ReturnInst (Some (InstructionV newInitial)))) F1,
        new_ret).

(** [reorderBlocks]: the last block without predecessors is moved to the
    front. *)
Definition reorderBlocks (F : Function) : Outcome Function :=
  match last (filter (λ BB, pred_size F (bid BB) = 0%nat) (fblocks F)) with
  | None => Abort "no block without predecessors"
  | Some realEntry =>
      Ok (mkFunction (fid F) (fname F) (fret F) (fargs F)
            (realEntry :: filter (λ BB, bid BB ≠ bid realEntry) (fblocks F)))
  end.

(** The first slot of a thunk record that holds a captured argument. *)
Definition firstArgSlot (memo : bool) : nat := if memo then 3%nat else 1%nat.

Definition argName (F : Function) (arg : ptr * nat) : string :=
  default "" (aname <$> fargs F !! arg.2).

(** The address computation and the load that [insertLoadForThunkParams]
    emits into [F] before instruction [pos] for the captured argument
    [arg], read from slot [i].  The load is named once the address
    computation is in the function. *)
Definition loadThunkParam `{Analyses} (s : ProgramSlice) (F : Function)
    (pos : ptr) (thunkStructPtr : Value)
    (thunkTypes : list Type_) (arg : ptr * nat) (i : nat)
    : Build (Instruction * Instruction) :=
  slotTy ← orAbort "struct element out of range" (thunkTypes !! i);
  addr ← fresh;
  load ← fresh;
  let new_arg_addr :=
    mkInst addr (setName (ValueNames (fid F)) (valueNames F)
                   ("_wyvern_arg_addr_" +:+ argName (_parentFunction s) arg))
           (PointerTy slotTy)
           (GetElementPtrInst thunkStructPtr [i32 0; i32 (Z.of_nat i)]) in
  mret (new_arg_addr,
        mkInst load (setName (ValueNames (fid F))
                       (valueNames (insertBefore pos [new_arg_addr] F))
                       ("_wyvern_arg_" +:+ argName (_parentFunction s) arg))
               slotTy (LoadInst (InstructionV addr))).

(** [entry.getFirstInsertionPt()]: the first instruction that is not a
    PHI. *)
Definition getFirstInsertionPt (BB : BasicBlock) : option ptr :=
  iid <$> (snd <$> list_find (λ ins, isPHI (ikind ins) = false) (binsts BB)).

(** The body of the loop of [insertLoadForThunkParams]: the captured
    argument [arg] is read from slot [i], before instruction [pos]. *)
Definition insertLoadFor `{Analyses} (s : ProgramSlice) (thunkStructPtr : Value)
    (thunkTypes : list Type_) (pos : ptr) (acc : Function * Outlining * nat)
    (arg : ptr * nat) : Build (Function * Outlining * nat) :=
  let '(F, o, i) := acc in
  '(new_arg_addr, new_arg) ← loadThunkParam s F pos thunkStructPtr thunkTypes arg i;
  let F1 := insertBefore pos [new_arg_addr; new_arg] F in
  let F2 := replaceUsesIn (ArgumentV arg.1 arg.2) (InstructionV (iid new_arg)) F1 in
  mret (F2,
        mkOutlining (_origToNewBBmap o) (_newToOrigBBmap o) (_Imap o)
                    (<[arg := iid new_arg]> (_argMap o)),
        S i).

Definition insertLoadForThunkParams `{Analyses} (s : ProgramSlice)
    (thunkTypes : list Type_) (memo : bool) (st : Function * Outlining)
    : Build (Function * Outlining) :=
  let '(F, o) := st in
  entry ← orAbort "function without blocks" (head (fblocks F));
  pos ← orAbort "no insertion point in the entry block" (getFirstInsertionPt entry);
  let thunkStructPtr := ArgumentV (fid F) 0 in
  st' ← foldM (insertLoadFor s thunkStructPtr thunkTypes pos)
              (_depArgs s) (F, o, firstArgSlot memo);
  mret (st'.1.1, st'.1.2).

(** [builder.CreateTruncOrBitCast(V, DestTy)]: no instruction when the
    value already has the type. *)
Definition CreateTruncOrBitCast (V : Value) (srcTy DestTy : Type_)
    (name : string) : Build (Value * list Instruction) :=
  if Type_eqb srcTy DestTy then mret (V, [])
  else
    c ← fresh;
    let opc := match srcTy, DestTy with
               | IntegerTy _, IntegerTy _ => Trunc
               | _, _ => BitCast
               end in
    mret (InstructionV c, [mkInst c name DestTy (CastInst opc V)]).

(** [addMemoizationCode]: a new entry block that tests the flag, a block
    that returns the cached value, and the two stores before [new_ret].
    The names it gives start with [_wyvern_memo_], which none of the names
    in the thunk body does: they are free in its table. *)
Definition addMemoizationCode (thunkTypes : list Type_) (F : Function)
    (new_ret : ptr) : Build Function :=
  match fargs F with
  | mkArg _ (PointerTy _) :: _ =>
      oldEntry ← orAbort "function without blocks" (head (fblocks F));
      newEntry ← fresh;
      memoRetBlock ← fresh;
      let argValue := ArgumentV (fid F) 0 in
      valTy ← orAbort "struct element out of range" (thunkTypes !! 1%nat);
      flagTy ← orAbort "struct element out of range" (thunkTypes !! 2%nat);
      memoedValueGEP ← fresh;
      memoedValueLoad ← fresh;
      memoFlagGEP ← fresh;
      memoFlagLoad ← fresh;
      '(toBool, cast) ← CreateTruncOrBitCast (InstructionV memoFlagLoad) flagTy
                          (IntegerTy 1) "_wyvern_memo_flag_bool";
      memoCheckBranch ← fresh;
      memoedValueRet ← fresh;
      flagStore ← fresh;
      valueStore ← fresh;
      ret ← orAbort "return instruction vanished" (findInst F new_ret);
      retValue ← match ikind ret with
                 | ReturnInst (Some v) => mret v
                 | _ => abort "return without value"
                 end;
      let entryBB :=
        mkBB newEntry "_wyvern_memo_entry"
          ([mkInst memoedValueGEP "_wyvern_memo_val_addr" (PointerTy valTy)
              (GetElementPtrInst argValue [i32 0; i32 1]);
            mkInst memoedValueLoad "_wyvern_memo_val" valTy
              (LoadInst (InstructionV memoedValueGEP));
            mkInst memoFlagGEP "_wyvern_memo_flag_addr" (PointerTy flagTy)
              (GetElementPtrInst argValue [i32 0; i32 2]);
            mkInst memoFlagLoad "_wyvern_memo_flag" flagTy
              (LoadInst (InstructionV memoFlagGEP))]
           ++ cast ++
           [mkInst memoCheckBranch "" VoidTy
              (CondBranchInst toBool memoRetBlock (bid oldEntry))]) in
      let retBB :=
        mkBB memoRetBlock "_wyvern_memo_ret"
          [mkInst memoedValueRet "" VoidTy
             (ReturnInst (Some (InstructionV memoedValueLoad)))] in
      let F1 := mkFunction (fid F) (fname F) (fret F) (fargs F)
                  (entryBB :: retBB :: fblocks F) in
      mret (insertBefore new_ret
              [mkInst flagStore "" VoidTy (StoreInst (i1 1) (InstructionV memoFlagGEP));
               mkInst valueStore "" VoidTy (StoreInst retValue (InstructionV memoedValueGEP))]
              F1)
  | _ => abort "Memoized function does not have PointerType argument!"
  end.

Section Outline.
Context `{Analyses}.

Definition argType (F : Function) (arg : ptr * nat) : Outcome Type_ :=
  match fargs F !! arg.2 with
  | Some a => Ok (aty a)
  | None => Abort "argument out of range"
  end.

(** [getInputArgTypes]. *)
Definition getInputArgTypes (s : ProgramSlice) : Outcome (list Type_) :=
  forM (argType (_parentFunction s)) (_depArgs s).

(** The field types of the thunk record built by [outline] ([memo] false)
    and by [memoizedOutline] ([memo] true). *)
Definition thunkTypes (s : ProgramSlice) (thunkFunctionType retTy : Type_)
    (memo : bool) : Outcome (list Type_) :=
  argTypes ← getInputArgTypes s;
  Ok (if memo then [PointerTy thunkFunctionType; retTy; IntegerTy 1] ++ argTypes
      else [PointerTy thunkFunctionType] ++ argTypes).

(** The steps shared by [outline] and [memoizedOutline], up to
    [insertLoadForThunkParams].  The name asked for the function ends in
    the number drawn for it, and the draws are taken to make it free among
    the names of the module.  The parameter is named when the function
    holds no other name. *)
Definition buildThunk (s : ProgramSlice) (memo : bool) (functionName : string)
    : Build (Function * ptr * ptr * list Type_) :=
  initial ← orAbort "criterion vanished" (findInst (_parentFunction s) (_initial s));
  thunkStructType ← fresh;
  let thunkStructPtrType := PointerTy (StructTy thunkStructType) in
  let thunkFunctionType := FunctionTy (ity initial) [thunkStructPtrType] in
  fields ← lift (thunkTypes s thunkFunctionType (ity initial) memo);
  f ← fresh;
  let F := mkFunction f functionName (ity initial)
             [mkArg "_wyvern_thunkptr" thunkStructPtrType] [] in
  st1 ← populateFunctionWithBBs s (F, noOutlining);
  '(F2, o) ← populateBBsWithInsts s st1;
  let F3 := reorganizeUses o F2 in
  F4 ← rerouteBranches s o F3;
  '(F5, new_ret) ← addReturnValue s o F4;
  F6 ← lift (reorderBlocks F5);
  '(F7, _) ← insertLoadForThunkParams s fields memo (F6, o);
  mret (F7, new_ret, thunkStructType, fields).

Definition sliceName (s : ProgramSlice) (pre : string) (random_num : N) : string :=
  let F := _parentFunction s in
  pre +:+ fname F +:+ "_"
      +:+ default "" (iname <$> findInst F (_initial s)) +:+ pretty random_num.

(** [outline]: the thunk body and its record type are added to the module.
    [random_num] is the number drawn for the name. *)
Definition outline (s : ProgramSlice) (random_num : N) (M : Module)
    : Build (Function * ptr * Module) :=
  '(F, _, thunkStructType, fields) ←
    buildThunk s false (sliceName s "_wyvern_slice_" random_num);
  mret (F, thunkStructType,
        addFunction F
          (addStruct thunkStructType
             (setName TypeNames (typeNames M) "_wyvern_thunk_type") fields M)).

Definition memoizedOutline (s : ProgramSlice) (random_num : N) (M : Module)
    : Build (Function * ptr * Module) :=
  '(F0, new_ret, thunkStructType, fields) ←
    buildThunk s true (sliceName s "_wyvern_slice_memo_" random_num);
  F ← addMemoizationCode fields F0 new_ret;
  mret (F, thunkStructType,
        addFunction F
          (addStruct thunkStructType
             (setName TypeNames (typeNames M) "_wyvern_thunk_type") fields M)).

End Outline.

End Outliner.

(** ** Call-site rewriter ([Lazyfication.cpp]) *)

Definition UINT_MAX : Z := 2 ^ 32 - 1.
Definition u32 (x : Z) : Z := x mod 2 ^ 32.

(** The five statistics of the pass; they outlive a run. *)
Record Statistics : Type := mkStatistics {
  NumCallsitesLazified : Z;
  NumFunctionsLazified : Z;
  LargestSliceSize : Z;
  SmallestSliceSize : Z;
  TotalSliceSize : Z
}.

Record PassState : Type := mkPassState {
  module : Module;
  statistics : Statistics;
  lazifiedFunctions : gset (ptr * ptr)
}.

Definition getNumberOfInsts (F : Function) : Z :=
  foldl (λ size BB, foldl (λ size _, u32 (size + 1)) size (binsts BB)) 0 (fblocks F).

Definition findFunction (M : Module) (f : ptr) : option Function :=
  snd <$> list_find (λ F, fid F = f) (mfuncs M).

(** [CI.getParent()->getParent()]. *)
Definition callerOf (M : Module) (CI : ptr) : option Function :=
  snd <$> list_find (λ F, bool_decide (CI ∈ iid <$> allInsts F)) (mfuncs M).

Definition setFunction (F : Function) (M : Module) : Module :=
  mkModule ((λ G, if decide (fid G = fid F) then F else G) <$> mfuncs M)
           (mstructs M).

(** [CI->getCalledFunction()]: null for an indirect call. *)
Definition getCalledFunction (M : Module) (CI : Instruction) : option Function :=
  match ikind CI with
  | CallInst _ (FunctionV f) _ _ => findFunction M f
  | _ => None
  end.

Definition getArgOperand (CI : Instruction) (index : nat) : option Value :=
  match ikind CI with
  | CallInst _ _ args _ => args !! index
  | _ => None
  end.

Definition setCalledFunction (Fn : Function) (k : InstKind) : InstKind :=
  match k with
  | CallInst _ _ args a => CallInst (getFunctionType Fn) (FunctionV (fid Fn)) args a
  | _ => k
  end.

Definition setArgOperand (index : nat) (v : Value) (k : InstKind) : InstKind :=
  match k with
  | CallInst t c args a => CallInst t c (<[index := v]> args) a
  | _ => k
  end.

Definition noAttrs : CallAttrs := mkCallAttrs false false false false false.

Definition returnType (t : Type_) : Type_ :=
  match t with
  | FunctionTy r _ => r
  | _ => VoidTy
  end.

Module Lazyfication.

(** [updateThunkArgUses]: one forcing call per instruction that uses the
    parameter, placed before it; the uses of the parameter in that
    instruction become the call.  The users are met in use-list order, the
    most recent first. *)
Definition updateThunkArgUses `{Analyses} (F : Function) (thunkArg : Value)
    (thunkArgType : Type_) : Build Function :=
  foldM (λ F UserI,
           thunkCall ← fresh;
           let call := mkInst thunkCall
                         (setName (ValueNames (fid F)) (valueNames F) "_thunk_call")
                         (returnType thunkArgType)
                         (CallInst thunkArgType thunkArg [] noAttrs) in
           let F1 := insertBefore (iid UserI) [call] F in
           mret (mapInsts (λ ins,
                   if decide (iid ins = iid UserI)
                   then setKind (mapOperands
                                   (replaceValue thunkArg (InstructionV thunkCall))
                                   (ikind ins)) ins
                   else ins) F1))
        (reverse (users F thunkArg)) F.

Definition countUses (v : Value) (ins : Instruction) : nat :=
  length (filter (λ x, x = v) (operands (ikind ins))).

(** [updateMemoizedThunkArgUses]: for every use of the parameter, the
    address of field 0, its load and a call of the loaded pointer on the
    record are placed before the user.  The use itself is left as it is. *)
Definition forcingCode `{Analyses} (F : Function) (UserI : ptr) (thunkArg : Value)
    (thunkArgType : Type_) (fPtrGep fPtrLoad thunkFPtrCall : ptr)
    : list Instruction :=
  let table := ValueNames (fid F) in
  let gep := mkInst fPtrGep (setName table (valueNames F) "_thunk_fptr_addr")
               (PointerTy (PointerTy thunkArgType))
               (GetElementPtrInst thunkArg [i32 0; i32 0]) in
  let load := mkInst fPtrLoad
                (setName table (valueNames (insertBefore UserI [gep] F)) "_thunk_fptr")
                (PointerTy thunkArgType) (LoadInst (InstructionV fPtrGep)) in
  let call := mkInst thunkFPtrCall
                (setName table (valueNames (insertBefore UserI [gep; load] F))
                   "_thunk_call")
                (returnType thunkArgType)
                (CallInst thunkArgType (InstructionV fPtrLoad) [thunkArg] noAttrs) in
  [gep; load; call].

Definition updateMemoizedThunkArgUses `{Analyses} (F : Function) (thunkArg : Value)
    (thunkArgType : Type_) : Build Function :=
  foldM (λ F UserI,
           foldM (λ F (_ : nat),
                    fPtrGep ← fresh;
                    fPtrLoad ← fresh;
                    thunkFPtrCall ← fresh;
                    mret (insertBefore (iid UserI)
                            (forcingCode F (iid UserI) thunkArg thunkArgType
                               fPtrGep fPtrLoad thunkFPtrCall) F))
                 (seq 0 (countUses thunkArg UserI)) F)
        (reverse (users F thunkArg)) F.

(** The parameters of a new function are named one after the other
    ([getArg(idx)->setName]), each in the table that holds the names given
    so far. *)
Fixpoint setArgNames `{Analyses} (table : NameScope) (taken : list string)
    (args : list Argument) : list Argument :=
  match args with
  | [] => []
  | a :: rest =>
      let Name := setName table taken (aname a) in
      mkArg Name (aty a) :: setArgNames table (filter hasName [Name] ++ taken) rest
  end.

(** [CloneFunctionInto]: every block and instruction of [Callee] gets a
    copy at a fresh address in [newCallee]; operands, successors and incoming
    blocks are mapped to the copies, formal parameters to those of
    [newCallee].  The copies ask for the names of the originals. *)
Definition cloneBody (Callee : Function) (newCallee : ptr)
    : Build (list BasicBlock) :=
  maps ← foldM (λ (acc : gmap ptr ptr * gmap ptr ptr) BB,
                  b ← fresh;
                  imap ← foldM (λ (m : gmap ptr ptr) ins,
                                  i ← fresh; mret (<[iid ins := i]> m))
                               (binsts BB) acc.2;
                  mret (<[bid BB := b]> acc.1, imap))
               (fblocks Callee) (∅, ∅);
  let '(bmap, imap) := maps in
  let vmap (v : Value) : Value :=
    match v with
    | ArgumentV f n => if decide (f = fid Callee) then ArgumentV newCallee n else v
    | InstructionV i => InstructionV (default i (imap !! i))
    | BasicBlockV b => BasicBlockV (default b (bmap !! b))
    | _ => v
    end in
  let blockOf (b : ptr) : ptr := default b (bmap !! b) in
  mret ((λ BB,
           mkBB (blockOf (bid BB)) (bname BB)
             ((λ ins,
                 mkInst (default (iid ins) (imap !! iid ins)) (iname ins) (ity ins)
                   (mapIncomingBlocks blockOf
                      (mapSuccessors blockOf (mapOperands vmap (ikind ins)))))
              <$> binsts BB)) <$> fblocks Callee).

(** The names of the copies are settled as the copies enter the new
    function, whose table holds the names of its parameters: block by
    block, the name of the block and then those of its instructions. *)
Fixpoint setInstNames `{Analyses} (table : NameScope) (taken : list string)
    (insts : list Instruction) : list Instruction * list string :=
  match insts with
  | [] => ([], taken)
  | ins :: rest =>
      let Name := setName table taken (iname ins) in
      let '(rest', taken') :=
        setInstNames table (filter hasName [Name] ++ taken) rest in
      (mkInst (iid ins) Name (ity ins) (ikind ins) :: rest', taken')
  end.

Fixpoint setBlockNames `{Analyses} (table : NameScope) (taken : list string)
    (blocks : list BasicBlock) : list BasicBlock :=
  match blocks with
  | [] => []
  | BB :: rest =>
      let Name := setName table taken (bname BB) in
      let '(insts, taken') :=
        setInstNames table (filter hasName [Name] ++ taken) (binsts BB) in
      mkBB (bid BB) Name insts :: setBlockNames table taken' rest
  end.

Definition cloneCalleeFunction `{Analyses} (memo : bool) (Callee : Function)
    (index : nat) (slicedFunction : Function) (M : Module)
    : Build (Function * Module) :=
  let argTypes := aty <$> fargs Callee in
  thunkParamTy ←
    (if memo
     then orAbort "thunk without parameter" (aty <$> head (fargs slicedFunction))
     else mret (PointerTy (getFunctionType slicedFunction)));
  if bool_decide (length argTypes ≤ index)%nat
  then abort "argument index out of range"
  else
    let functionName :=
      "_wyvern_calleeclone_" +:+ fname Callee +:+ "_" +:+ pretty index in
    newCallee ← fresh;
    let args := setArgNames (ValueNames newCallee) []
                  (imap (λ idx a,
                     if decide (idx = index) then mkArg "_wyvern_thunkptr" thunkParamTy
                     else a) (fargs Callee)) in
    blocks ← cloneBody Callee newCallee;
    let F0 := mkFunction newCallee (setName GlobalNames (globalNames M) functionName)
                (fret Callee) args
                (setBlockNames (ValueNames newCallee) (valueNames
                   (mkFunction newCallee "" (fret Callee) args [])) blocks) in
    let thunkArg := ArgumentV newCallee index in
    F ← (if memo
         then updateMemoizedThunkArgUses F0 thunkArg (getFunctionType slicedFunction)
         else updateThunkArgUses F0 thunkArg (getFunctionType slicedFunction));
    mret (F, addFunction F M).

Section Pass.
Context `{Analyses}.

(** The command-line switch [-wylazy-memo]. *)
Variable WyvernLazificationMemoization : bool.

(** [ProgramSlice::verify], whose definition is not part of
    [ProgramSlice.cpp]: a check on the slice. *)
Variable verify : ProgramSlice → bool.

Definition bumpCounters (caller lazyfiableArg : ptr) (st : PassState) : PassState :=
  let stats := statistics st in
  let isNew := bool_decide ((caller, lazyfiableArg) ∉ lazifiedFunctions st) in
  mkPassState (module st)
    (mkStatistics (u32 (NumCallsitesLazified stats + 1))
                  (if isNew then u32 (NumFunctionsLazified stats + 1)
                   else NumFunctionsLazified stats)
                  (LargestSliceSize stats) (SmallestSliceSize stats)
                  (TotalSliceSize stats))
    ({[(caller, lazyfiableArg)]} ∪ lazifiedFunctions st).

Definition recordSliceSize (sliceSize : Z) (st : PassState) : PassState :=
  let stats := statistics st in
  mkPassState (module st)
    (mkStatistics (NumCallsitesLazified stats) (NumFunctionsLazified stats)
                  (if bool_decide (LargestSliceSize stats < sliceSize)
                   then sliceSize else LargestSliceSize stats)
                  (if bool_decide (SmallestSliceSize stats > sliceSize)
                   then sliceSize else SmallestSliceSize stats)
                  (u32 (TotalSliceSize stats + sliceSize)))
    (lazifiedFunctions st).

Definition setModule (M : Module) (st : PassState) : PassState :=
  mkPassState M (statistics st) (lazifiedFunctions st).

(** The instructions the memoized branch places before the call [CI] of
    [caller], each named once those before it are in the function. *)
Definition thunkAllocation (caller : Function) (CI : ptr) (thunkFunction : Function)
    : Build (ptr * list Instruction) :=
  thunkType ← match fargs thunkFunction with
              | mkArg _ (PointerTy t) :: _ => mret t
              | _ => abort "thunk without pointer parameter"
              end;
  thunkAlloca ← fresh;
  thunkFPtrGep ← fresh;
  thunkFPtrStore ← fresh;
  thunkFlagGep ← fresh;
  thunkFlagStore ← fresh;
  let table := ValueNames (fid caller) in
  let alloca := mkInst thunkAlloca (setName table (valueNames caller) "_thunk_alloca")
                  (PointerTy thunkType) (AllocaInst thunkType) in
  let fPtrGep := mkInst thunkFPtrGep
                   (setName table (valueNames (insertBefore CI [alloca] caller))
                      "_thunk_fptr_gep")
                   (PointerTy thunkType)
                   (GetElementPtrInst (InstructionV thunkAlloca) [i32 0]) in
  let fPtrStore := mkInst thunkFPtrStore "" VoidTy
                     (StoreInst (FunctionV (fid thunkFunction))
                                (InstructionV thunkFPtrGep)) in
  let flagGep := mkInst thunkFlagGep
                   (setName table
                      (valueNames (insertBefore CI [alloca; fPtrGep; fPtrStore] caller))
                      "_thunk_flag_gep")
                   (PointerTy thunkType)
                   (GetElementPtrInst (InstructionV thunkAlloca) [i32 2]) in
  mret (thunkAlloca,
        [alloca; fPtrGep; fPtrStore; flagGep;
         mkInst thunkFlagStore "" VoidTy
           (StoreInst (i8 0) (InstructionV thunkFlagGep))]).

(** Replace the call's target and its operand [index]. *)
Definition rewriteCall (CI : ptr) (newCallee : Function) (index : nat)
    (operand : Value) (F : Function) : Function :=
  mapInsts (λ ins,
    if decide (iid ins = CI)
    then setKind (setArgOperand index operand
                    (setCalledFunction newCallee (ikind ins))) ins
    else ins) F.

(** [lazifyCallsite].  [random_num] is the number the outliner draws for
    the name of the thunk body. *)
Definition lazifyCallsite (random_num : N) (CI : ptr) (index : nat)
    (st : PassState) : Build (bool * PassState) :=
  caller ← orAbort "call outside of the module" (callerOf (module st) CI);
  call ← orAbort "call outside of the module" (findInst caller CI);
  operand ← orAbort "argument index out of range" (getArgOperand call index);
  match operand with
  | InstructionV lazyfiableArg =>
      slice ← lift (newProgramSlice lazyfiableArg caller CI);
      outlineable ← lift (canOutline slice);
      if negb outlineable || negb (verify slice) then mret (false, st)
      else
        let st1 := bumpCounters (fid caller) lazyfiableArg st in
        callee ← orAbort "indirect call" (getCalledFunction (module st) call);
        if WyvernLazificationMemoization then
          '(thunkFunction, _, M1) ← Outliner.memoizedOutline slice random_num (module st1);
          callee ← orAbort "callee vanished" (findFunction M1 (fid callee));
          '(newCallee, M2) ← cloneCalleeFunction true callee index thunkFunction M1;
          caller ← orAbort "caller vanished" (findFunction M2 (fid caller));
          '(thunkAlloca, insts) ← thunkAllocation caller CI thunkFunction;
          let caller1 := insertBefore CI insts caller in
          let caller2 := rewriteCall CI newCallee index (InstructionV thunkAlloca) caller1 in
          mret (true, recordSliceSize (getNumberOfInsts thunkFunction)
                        (setModule (setFunction caller2 M2) st1))
        else
          '(thunkFunction, _, M1) ← Outliner.outline slice random_num (module st1);
          callee ← orAbort "callee vanished" (findFunction M1 (fid callee));
          '(newCallee, M2) ← cloneCalleeFunction false callee index thunkFunction M1;
          caller ← orAbort "caller vanished" (findFunction M2 (fid caller));
          let caller1 := rewriteCall CI newCallee index
                           (FunctionV (fid thunkFunction)) caller in
          mret (true, recordSliceSize (getNumberOfInsts thunkFunction)
                        (setModule (setFunction caller1 M2) st1))
  | _ => mret (false, st)
  end.

(** The answer of the upstream analysis: the candidate call sites, in the
    order the pass meets them, and the set of lazifiable (callee, argument)
    pairs; a null callee is [None]. *)
Record FindLazyfiableAnalysis : Type := mkFLA {
  getLazyfiableCallSites : list (ptr * nat);
  getLazyfiablePaths : list (option ptr * nat)
}.

Definition setSmallest (v : Z) (st : PassState) : PassState :=
  let stats := statistics st in
  mkPassState (module st)
    (mkStatistics (NumCallsitesLazified stats) (NumFunctionsLazified stats)
                  (LargestSliceSize stats) v (TotalSliceSize stats))
    (lazifiedFunctions st).

(** The loop of [runOnModule] over the candidates; [random] gives the
    number drawn at each of them. *)
Fixpoint runOnCandidates (FLA : FindLazyfiableAnalysis) (random : nat → N)
    (k : nat) (candidates : list (ptr * nat)) (changed : bool)
    (st : PassState) : Build (bool * PassState) :=
  match candidates with
  | [] => mret (changed, st)
  | (callInst, argIdx) :: rest =>
      caller ← orAbort "call outside of the module" (callerOf (module st) callInst);
      call ← orAbort "call outside of the module" (findInst caller callInst);
      let callee := fid <$> getCalledFunction (module st) call in
      if bool_decide ((callee, argIdx) ∈ getLazyfiablePaths FLA) then
        '(changed', st') ← lazifyCallsite (random k) callInst argIdx st;
        runOnCandidates FLA random (S k) rest changed' st'
      else runOnCandidates FLA random (S k) rest changed st
  end.

Definition runOnModule (FLA : FindLazyfiableAnalysis) (random : nat → N)
    (st : PassState) : Build (bool * PassState) :=
  let st0 := setSmallest UINT_MAX st in
  '(changed, st1) ← runOnCandidates FLA random 0 (getLazyfiableCallSites FLA) false st0;
  let st2 := if bool_decide (SmallestSliceSize (statistics st1) = UINT_MAX)
             then setSmallest 0 st1 else st1 in
  mret (changed, st2).

End Pass.

End Lazyfication.

(** ** Running a thunk body *)

(** A small-step reading of the instructions a thunk body is made of, on a
    memory that holds thunk records field by field.  Integers are kept in
    their unsigned representation. *)
Module Exec.

Inductive RtVal : Type :=
| RInt (z : Z)
| RRecord (r : N)
| RField (r : N) (i : nat)
| RFunc (f : ptr)
| RUndef.

#[global] Instance RtVal_eq_dec : EqDecision RtVal.
Proof. solve_decision. Defined.

Abbreviation Memory := (gmap (N * nat) RtVal).
Abbreviation Env := (gmap ptr RtVal).

Definition evalOperand (args : list RtVal) (env : Env) (v : Value)
    : option RtVal :=
  match v with
  | ConstantInt _ z => Some (RInt z)
  | ArgumentV _ n => args !! n
  | InstructionV i => env !! i
  | FunctionV f => Some (RFunc f)
  | UndefValue => Some RUndef
  | _ => None
  end.

Definition wrap (ty : Type_) (z : Z) : Z :=
  match ty with
  | IntegerTy bits => z mod 2 ^ Z.of_N bits
  | _ => z
  end.

Definition evalBinOp (opc : BinOp) (a b : Z) : option Z :=
  match opc with
  | Add => Some (a + b)
  | Sub => Some (a - b)
  | Mul => Some (a * b)
  | UDiv => if decide (b = 0) then None else Some (a / b)
  | SDiv => None
  | And => Some (Z.land a b)
  | Or => Some (Z.lor a b)
  | Xor => Some (Z.lxor a b)
  | Shl => Some (Z.shiftl a b)
  end.

Definition evalICmp (p : Pred) (a b : Z) : option bool :=
  match p with
  | ICmpEq => Some (bool_decide (a = b))
  | ICmpNe => Some (bool_decide (a ≠ b))
  | ICmpUlt => Some (bool_decide (a < b))
  | ICmpUle => Some (bool_decide (a ≤ b))
  | ICmpSlt | ICmpSle => None
  end.

Definition isTrue (z : Z) : bool := negb (z =? 0).

(** The value an instruction that is not a terminator computes, and the
    memory after it; [None] when the instruction cannot be run here.  The
    PHIs of a block read the values of the moment the block is entered,
    [entryEnv]. *)
Definition compute (args : list RtVal) (prev : option ptr) (entryEnv env : Env)
    (mem : Memory) (ins : Instruction) : option (option RtVal * Memory) :=
  let ev := evalOperand args env in
  match ikind ins with
  | BinaryOperator opc a b =>
      match ev a, ev b with
      | Some (RInt x), Some (RInt y) =>
          z ← evalBinOp opc x y; Some (Some (RInt (wrap (ity ins) z)), mem)
      | _, _ => None
      end
  | CastInst opc a =>
      match opc, ev a with
      | (Trunc | ZExt), Some (RInt x) => Some (Some (RInt (wrap (ity ins) x)), mem)
      | BitCast, Some x => Some (Some x, mem)
      | _, _ => None
      end
  | ICmpInst p a b =>
      match ev a, ev b with
      | Some (RInt x), Some (RInt y) =>
          c ← evalICmp p x y; Some (Some (RInt (if c : bool then 1 else 0)), mem)
      | _, _ => None
      end
  | SelectInst c a b =>
      match ev c, ev a, ev b with
      | Some (RInt z), Some x, Some y => Some (Some (if isTrue z then x else y), mem)
      | _, _, _ => None
      end
  | GetElementPtrInst base [ConstantInt _ 0; ConstantInt _ i] =>
      match ev base with
      | Some (RRecord r) => Some (Some (RField r (Z.to_nat i)), mem)
      | _ => None
      end
  | LoadInst p =>
      match ev p with
      | Some (RField r i) => Some (Some (default RUndef (mem !! (r, i))), mem)
      | _ => None
      end
  | StoreInst v p =>
      match ev v, ev p with
      | Some x, Some (RField r i) => Some (None, <[(r, i) := x]> mem)
      | _, _ => None
      end
  | PHINode incoming =>
      b ← prev;
      e ← snd <$> list_find (λ e : Value * ptr, e.2 = b) incoming;
      x ← evalOperand args entryEnv e.1;
      Some (Some x, mem)
  | _ => None
  end.

Inductive BlockExit : Type :=
| Goto (dest : ptr) (env : Env) (mem : Memory)
| Returned (v : RtVal) (mem : Memory)
| Stuck.

(** Run the instructions of a block from left to right. *)
Fixpoint execInsts (args : list RtVal) (prev : option ptr) (entryEnv : Env)
    (insts : list Instruction) (env : Env) (mem : Memory) : BlockExit :=
  match insts with
  | [] => Stuck
  | ins :: rest =>
      match ikind ins with
      | ReturnInst (Some v) =>
          match evalOperand args env v with
          | Some x => Returned x mem
          | None => Stuck
          end
      | ReturnInst None => Returned RUndef mem
      | BranchInst d => Goto d env mem
      | CondBranchInst c t e =>
          match evalOperand args env c with
          | Some (RInt z) => Goto (if isTrue z then t else e) env mem
          | _ => Stuck
          end
      | SwitchInst c d cases =>
          match evalOperand args env c with
          | Some (RInt z) =>
              Goto (default d (snd <$> (snd <$> list_find (λ e : Z * ptr, e.1 = z) cases)))
                   env mem
          | _ => Stuck
          end
      | UnreachableInst => Stuck
      | _ =>
          match compute args prev entryEnv env mem ins with
          | Some (Some x, mem') =>
              execInsts args prev entryEnv rest (<[iid ins := x]> env) mem'
          | Some (None, mem') => execInsts args prev entryEnv rest env mem'
          | None => Stuck
          end
      end
  end.

(** Run from block [b]; the result is the returned value, the final memory
    and the blocks entered, in order.  [fuel] bounds the number of blocks
    entered. *)
Fixpoint run (fuel : nat) (F : Function) (args : list RtVal) (b : ptr)
    (prev : option ptr) (env : Env) (mem : Memory) (trace : list ptr)
    : option (RtVal * Memory * list ptr) :=
  match fuel with
  | O => None
  | S fuel' =>
      match findBlock F b with
      | None => None
      | Some BB =>
          match execInsts args prev env (binsts BB) env mem with
          | Goto d env' mem' => run fuel' F args d (Some b) env' mem' (trace ++ [b])
          | Returned v mem' => Some (v, mem', trace ++ [b])
          | Stuck => None
          end
      end
  end.

(** One invocation of thunk body [F] on the record at [r]. *)
Definition invoke (fuel : nat) (F : Function) (r : N) (mem : Memory)
    : option (RtVal * Memory * list ptr) :=
  entry ← head (fblocks F);
  run fuel F [RRecord r] (bid entry) None ∅ mem [].

(** [k] invocations in a row on the same record: the values returned and
    the blocks entered by each, and the final memory. *)
Fixpoint invocations (fuel : nat) (F : Function) (r : N) (k : nat)
    (mem : Memory) : option (list (RtVal * list ptr) * Memory) :=
  match k with
  | O => Some ([], mem)
  | S k' =>
      '(v, mem1, trace) ← invoke fuel F r mem;
      '(later, mem2) ← invocations fuel F r k' mem1;
      Some ((v, trace) :: later, mem2)
  end.

End Exec.

(** ** Reference analyses for concrete functions *)

Module Reference.

(** Dominance read off the control-flow graph, to cross-check the trees
    given for concrete functions. *)
Definition succsOf (F : Function) (b : ptr) : list ptr :=
  default [] (block_successors <$> findBlock F b).

(** The blocks reached from [seen] in at most [n] steps without entering
    [avoid]. *)
Fixpoint reach (n : nat) (F : Function) (avoid : ptr) (seen : list ptr)
    : list ptr :=
  match n with
  | O => seen
  | S n' =>
      reach n' F avoid
        (remove_dups (seen ++ filter (λ b, b ≠ avoid) (seen ≫= succsOf F)))
  end.

Definition reachableFrom (F : Function) (avoid start : ptr) : list ptr :=
  if decide (start = avoid) then []
  else reach (length (fblocks F)) F avoid [start].

(** [a] dominates [b]: every path from the entry to [b] enters [a]. *)
Definition dominatesByPaths (F : Function) (a b : ptr) : bool :=
  match head (fblocks F) with
  | None => true
  | Some entry =>
      bool_decide (a = b) || bool_decide (b ∉ reachableFrom F a (bid entry))
  end.

Definition isExit (F : Function) (b : ptr) : bool :=
  bool_decide (succsOf F b = []).

(** [a] post-dominates [b]: every path from [b] to an exit enters [a]. *)
Definition postDominatesByPaths (F : Function) (a b : ptr) : bool :=
  bool_decide (a = b)
  || forallb (λ x, negb (isExit F x)) (reachableFrom F a b).

Definition treesAgree (F : Function) (dt : DomTree ptr)
    (pdt : DomTree (option ptr)) : bool :=
  let bs := bid <$> fblocks F in
  forallb (λ a, forallb (λ b,
             bool_decide (treeDominates dt a b = dominatesByPaths F a b)
             && bool_decide (treeDominates pdt (Some a) (Some b)
                             = postDominatesByPaths F a b)) bs) bs.

(** A symbol table whose counter starts anew at each name: to a name that
    is taken it appends the first number, from [from] on, that makes it
    free.  One of the numbers [from .. from + length taken] does. *)
Definition firstFree (taken : list string) (stem : string) (from : N) : string :=
  default stem
    (head (filter (λ c, c ∉ taken)
             ((λ k, stem +:+ pretty (from + N.of_nat k)%N)
                <$> seq 0 (S (length taken))))).

Definition firstNumber (sc : NameScope) : N :=
  match sc with
  | TypeNames => 0
  | ValueNames _ | GlobalNames => 1
  end.

Definition makeUniqueName (sc : NameScope) (taken : list string) (Name : string)
    : string :=
  if decide (Name ∈ taken)
  then firstFree taken (Name +:+ separator sc) (firstNumber sc)
  else Name.

(** The effect queries, read off the instruction: only calls can throw or
    fail to return, loads, stores and calls that are not [readnone] touch
    memory. *)
Definition analyses (dt : DomTree ptr) (pdt : DomTree (option ptr))
    (depth : ptr → nat) : Analyses := {|
  DominatorTree := λ _, dt;
  PostDominatorTree := λ _, pdt;
  getLoopDepth := λ _, depth;
  mayThrow := λ ins,
    match ikind ins with
    | CallInst _ _ _ a => negb (nounwind a)
    | _ => false
    end;
  mayReadOrWriteMemory := λ ins,
    match ikind ins with
    | LoadInst _ | StoreInst _ _ => true
    | CallInst _ _ _ a => negb (readnone a)
    | _ => false
    end;
  willReturn := λ ins,
    match ikind ins with
    | CallInst _ _ _ a => willreturn a
    | _ => true
    end;
  getTypeAllocSize := λ _, 8%N;
  memoryLocationSize := λ _, None;
  accumulateConstantOffset := λ _, None;
  uniqueName := makeUniqueName
|}.

End Reference.

(** ** Concrete programs *)

Module Examples.

Definition I32 : Type_ := IntegerTy 32.

(** [callee(p) { return p + 5; }] *)
Definition callee : Function :=
  mkFunction 1 "callee" I32 [mkArg "p" I32]
    [mkBB 2 "entry"
       [mkInst 3 "r" I32 (BinaryOperator Add (ArgumentV 1 0) (i32 5));
        mkInst 4 "" VoidTy (ReturnInst (Some (InstructionV 3)))]].

Definition callCallee (v : Value) : InstKind :=
  CallInst (getFunctionType callee) (FunctionV 1) [v] noAttrs.

(** [caller(a, b) { x = a * b + 1; return callee(x); }] *)
Definition caller : Function :=
  mkFunction 10 "caller" I32 [mkArg "a" I32; mkArg "b" I32]
    [mkBB 11 "entry"
       [mkInst 12 "m" I32 (BinaryOperator Mul (ArgumentV 10 0) (ArgumentV 10 1));
        mkInst 13 "x" I32 (BinaryOperator Add (InstructionV 12) (i32 1));
        mkInst 14 "c" I32 (callCallee (InstructionV 13));
        mkInst 15 "" VoidTy (ReturnInst (Some (InstructionV 14)))]].

(** The same with constants for [a] and [b]: [x = 6 * 7 + 1]. *)
Definition callerConst : Function :=
  mkFunction 10 "caller" I32 []
    [mkBB 11 "entry"
       [mkInst 12 "m" I32 (BinaryOperator Mul (i32 6) (i32 7));
        mkInst 13 "x" I32 (BinaryOperator Add (InstructionV 12) (i32 1));
        mkInst 14 "c" I32 (callCallee (InstructionV 13));
        mkInst 15 "" VoidTy (ReturnInst (Some (InstructionV 14)))]].

(** [caller2(a, b, p) { x = a * b + 1; c = callee(x); l = *p;
    return callee(l); }] *)
Definition caller2 : Function :=
  mkFunction 10 "caller2" I32
    [mkArg "a" I32; mkArg "b" I32; mkArg "p" (PointerTy I32)]
    [mkBB 11 "entry"
       [mkInst 12 "m" I32 (BinaryOperator Mul (ArgumentV 10 0) (ArgumentV 10 1));
        mkInst 13 "x" I32 (BinaryOperator Add (InstructionV 12) (i32 1));
        mkInst 14 "c" I32 (callCallee (InstructionV 13));
        mkInst 16 "l" I32 (LoadInst (ArgumentV 10 2));
        mkInst 17 "d" I32 (callCallee (InstructionV 16));
        mkInst 15 "" VoidTy (ReturnInst (Some (InstructionV 17)))]].

(** A function of one block [11]: its dominator tree and its
    post-dominator tree, under the virtual root. *)
Definition oneBlockDT : DomTree ptr := DTNode 11%N [].
Definition oneBlockPDT : DomTree (option ptr) :=
  DTNode None [DTNode (Some 11%N) []].

#[export] Instance straightLine : Analyses :=
  Reference.analyses oneBlockDT oneBlockPDT (λ _, 0%nat).

Definition noStatistics : Statistics := mkStatistics 0 0 0 0 0.

Definition start (F : Function) : PassState :=
  mkPassState (mkModule [callee; F] []) noStatistics ∅.

(** The upstream analysis names the call [14], and [callee]'s parameter 0
    as lazifiable. *)
Definition oneCandidate : Lazyfication.FindLazyfiableAnalysis :=
  Lazyfication.mkFLA [(14%N, 0%nat)] [(Some 1%N, 0%nat)].

Definition twoCandidates : Lazyfication.FindLazyfiableAnalysis :=
  Lazyfication.mkFLA [(14%N, 0%nat); (17%N, 0%nat)] [(Some 1%N, 0%nat)].

(** The first free address of the arena, and the numbers drawn for the
    names. *)
Definition arena : ptr := 100%N.
Definition draws : nat → N := λ _, 7%N.

(** A diamond: [20] branches on its argument to [21] or [22], which both
    jump to [23]. *)
Definition diamond : Function :=
  mkFunction 19 "diamond" I32 [mkArg "c" (IntegerTy 1)]
    [mkBB 20 "entry"
       [mkInst 30 "" VoidTy (CondBranchInst (ArgumentV 19 0) 21 22)];
     mkBB 21 "then" [mkInst 31 "" VoidTy (BranchInst 23)];
     mkBB 22 "else" [mkInst 32 "" VoidTy (BranchInst 23)];
     mkBB 23 "join"
       [mkInst 33 "x" I32 (PHINode [(i32 1, 21%N); (i32 2, 22%N)]);
        mkInst 34 "" VoidTy (ReturnInst (Some (InstructionV 33)))]].

Definition diamondDT : DomTree ptr :=
  DTNode 20%N [DTNode 21%N []; DTNode 22%N []; DTNode 23%N []].
Definition diamondPDT : DomTree (option ptr) :=
  DTNode None
    [DTNode (Some 23%N)
       [DTNode (Some 21%N) []; DTNode (Some 22%N) []; DTNode (Some 20%N) []]].

Definition diamondAnalyses : Analyses :=
  Reference.analyses diamondDT diamondPDT (λ _, 0%nat).

End Examples.

(** ** The gate computation as the specification words it *)

Module AsStated.
Import Gates.

(** "The terminator of the first node on P's dominator chain that B does
    not post-dominate." *)
Definition remoteController (DT : DomTree ptr) (PDT : DomTree (option ptr))
    (B P : ptr) : option ptr :=
  getNode DT P ≫= λ n,
    head (filter (λ c, treeDominates PDT (Some B) (Some c) = false) (domChain n)).

Definition gatesFromPred (F : Function) (DT : DomTree ptr)
    (PDT : DomTree (option ptr)) (B P : ptr) : Outcome (list Gate) :=
  if treeDominates DT P B && negb (treeDominates PDT (Some B) (Some P))
  then g ← getGateAt F P; Ok [g]
  else match remoteController DT PDT B P with
       | Some C => g ← getGateAt F C; Ok [g]
       | None => Ok []
       end.

Definition gatesOfBlock (F : Function) (DT : DomTree ptr)
    (PDT : DomTree (option ptr)) (B : ptr) : Outcome (list Gate) :=
  if decide (1 < pred_size F B)%nat
  then (λ gs, concat gs) <$> forM (gatesFromPred F DT PDT B) (predecessors F B)
  else Ok [].

End AsStated.

(** ** What one predecessor contributes to a gate list *)

(** [contribution F DT PDT B P gs]: the predecessor [P] of [B] adds [gs] to
    the gate list of [B]. *)
Inductive contribution (F : Function) (DT : DomTree ptr)
    (PDT : DomTree (option ptr)) (B P : ptr) : list Gates.Gate → Prop :=
| contribution_direct g :
    treeDominates DT P B = true →
    treeDominates PDT (Some B) (Some P) = false →
    Gates.getGateAt F P = Ok g →
    contribution F DT PDT B P [g]
| contribution_remote n before C after g :
    ¬ (treeDominates DT P B = true ∧ treeDominates PDT (Some B) (Some P) = false) →
    getNode DT P = Some n →
    domChain n = before ++ C :: after →
    Forall (λ X, treeDominates PDT (Some P) (Some X) = true) before →
    treeDominates PDT (Some P) (Some C) = false →
    Gates.getGateAt F C = Ok g →
    contribution F DT PDT B P [g]
| contribution_none :
    ¬ (treeDominates DT P B = true ∧ treeDominates PDT (Some B) (Some P) = false) →
    (∀ n, getNode DT P = Some n →
          Forall (λ X, treeDominates PDT (Some P) (Some X) = true) (domChain n)) →
    contribution F DT PDT B P [].

(** ** More concrete programs: call sites inside loops *)

Module Loops.
Import Examples.

(** [for (i = 0; ; ) { x = i + 1; c = callee(x); i = i + 1;
    if (!(i < a)) break; }]: the call and all of the slice of [x] sit in one
    loop of depth 1. *)
Definition counting : Function :=
  mkFunction 39 "counting" I32 [mkArg "a" I32]
    [mkBB 40 "entry" [mkInst 60 "" VoidTy (BranchInst 41)];
     mkBB 41 "loop"
       [mkInst 61 "i" I32 (PHINode [(i32 0, 40%N); (InstructionV 64, 41%N)]);
        mkInst 62 "x" I32 (BinaryOperator Add (InstructionV 61) (i32 1));
        mkInst 63 "c" I32 (callCallee (InstructionV 62));
        mkInst 64 "i2" I32 (BinaryOperator Add (InstructionV 61) (i32 1));
        mkInst 65 "cmp" (IntegerTy 1) (ICmpInst ICmpUlt (InstructionV 64) (ArgumentV 39 0));
        mkInst 66 "" VoidTy (CondBranchInst (InstructionV 65) 41 42)];
     mkBB 42 "exit" [mkInst 67 "" VoidTy (ReturnInst (Some (InstructionV 63)))]].

Definition countingDT : DomTree ptr :=
  DTNode 40%N [DTNode 41%N [DTNode 42%N []]].
Definition countingPDT : DomTree (option ptr) :=
  DTNode None [DTNode (Some 42%N) [DTNode (Some 41%N) [DTNode (Some 40%N) []]]].
Definition countingDepth (b : ptr) : nat :=
  if decide (b = 41%N) then 1%nat else 0%nat.

Definition countingAnalyses : Analyses :=
  Reference.analyses countingDT countingPDT countingDepth.

(** Two nested loops: [x = a + 1] is computed in the inner loop [52]
    (depth 2) and passed to [callee] in block [53] of the outer loop
    (depth 1). *)
Definition nested : Function :=
  mkFunction 49 "nested" I32 [mkArg "a" I32; mkArg "c" (IntegerTy 1)]
    [mkBB 50 "entry" [mkInst 70 "" VoidTy (BranchInst 51)];
     mkBB 51 "outer" [mkInst 71 "" VoidTy (BranchInst 52)];
     mkBB 52 "inner"
       [mkInst 72 "x" I32 (BinaryOperator Add (ArgumentV 49 0) (i32 1));
        mkInst 73 "" VoidTy (CondBranchInst (ArgumentV 49 1) 52 53)];
     mkBB 53 "after"
       [mkInst 74 "r" I32 (callCallee (InstructionV 72));
        mkInst 75 "" VoidTy (CondBranchInst (ArgumentV 49 1) 51 54)];
     mkBB 54 "exit" [mkInst 76 "" VoidTy (ReturnInst (Some (InstructionV 74)))]].

Definition nestedDT : DomTree ptr :=
  DTNode 50%N [DTNode 51%N [DTNode 52%N [DTNode 53%N [DTNode 54%N []]]]].
Definition nestedPDT : DomTree (option ptr) :=
  DTNode None
    [DTNode (Some 54%N)
       [DTNode (Some 53%N)
          [DTNode (Some 52%N) [DTNode (Some 51%N) [DTNode (Some 50%N) []]]]]].
Definition nestedDepth (b : ptr) : nat :=
  if decide (b = 52%N) then 2%nat
  else if decide (b = 51%N ∨ b = 53%N) then 1%nat else 0%nat.

Definition nestedAnalyses : Analyses :=
  Reference.analyses nestedDT nestedPDT nestedDepth.

(** [a = alloca; do { p = phi [a, entry], [p, loop]; l = *p;
    d = callee(l); } while (c);]: the pointer [p] is carried around the loop
    by a PHI that has itself as an incoming value. *)
Definition cycling : Function :=
  mkFunction 79 "cycling" I32 [mkArg "c" (IntegerTy 1)]
    [mkBB 80 "entry"
       [mkInst 90 "a" (PointerTy I32) (AllocaInst I32);
        mkInst 91 "" VoidTy (BranchInst 81)];
     mkBB 81 "loop"
       [mkInst 92 "p" (PointerTy I32)
          (PHINode [(InstructionV 90, 80%N); (InstructionV 92, 81%N)]);
        mkInst 93 "l" I32 (LoadInst (InstructionV 92));
        mkInst 94 "d" I32 (callCallee (InstructionV 93));
        mkInst 95 "" VoidTy (CondBranchInst (ArgumentV 79 0) 81 82)];
     mkBB 82 "exit" [mkInst 96 "" VoidTy (ReturnInst (Some (InstructionV 94)))]].

Definition cyclingDT : DomTree ptr :=
  DTNode 80%N [DTNode 81%N [DTNode 82%N []]].
Definition cyclingPDT : DomTree (option ptr) :=
  DTNode None [DTNode (Some 82%N) [DTNode (Some 81%N) [DTNode (Some 80%N) []]]].
Definition cyclingDepth (b : ptr) : nat :=
  if decide (b = 81%N) then 1%nat else 0%nat.

Definition cyclingAnalyses : Analyses :=
  Reference.analyses cyclingDT cyclingPDT cyclingDepth.

(** The diamond with its two middle blocks unnamed. *)
Definition unnamedDiamond : Function :=
  mkFunction 19 "diamond" I32 [mkArg "c" (IntegerTy 1)]
    [mkBB 20 "entry"
       [mkInst 30 "" VoidTy (CondBranchInst (ArgumentV 19 0) 21 22)];
     mkBB 21 "" [mkInst 31 "" VoidTy (BranchInst 23)];
     mkBB 22 "" [mkInst 32 "" VoidTy (BranchInst 23)];
     mkBB 23 "join"
       [mkInst 33 "x" I32 (PHINode [(i32 1, 21%N); (i32 2, 22%N)]);
        mkInst 34 "" VoidTy (ReturnInst (Some (InstructionV 33)))]].

(** [callee2(p) { r = p + 5; s = p * r; return s; }]: two instructions use
    the parameter. *)
Definition callee2 : Function :=
  mkFunction 5 "callee2" I32 [mkArg "p" I32]
    [mkBB 6 "entry"
       [mkInst 7 "r" I32 (BinaryOperator Add (ArgumentV 5 0) (i32 5));
        mkInst 8 "s" I32 (BinaryOperator Mul (ArgumentV 5 0) (InstructionV 7));
        mkInst 9 "" VoidTy (ReturnInst (Some (InstructionV 8)))]].

End Loops.

(** ** Vocabulary of the properties *)

Definition isConditionalOrSwitch (k : InstKind) : Prop :=
  match k with
  | CondBranchInst _ _ _ | SwitchInst _ _ _ => True
  | _ => False
  end.

Definition isUnconditionalBranch (k : InstKind) : Prop :=
  match k with BranchInst _ => True | _ => False end.

(** The entry block of the diamond and its terminator. *)
Definition diamondBranch : Instruction :=
  mkInst 30 "" VoidTy (CondBranchInst (ArgumentV 19 0) 21 22).
Definition diamondEntry : BasicBlock := mkBB 20 "entry" [diamondBranch].

Definition diamondJoin : BasicBlock :=
  mkBB 23 "join"
    [mkInst 33 "x" Examples.I32 (PHINode [(i32 1, 21%N); (i32 2, 22%N)]);
     mkInst 34 "" VoidTy (ReturnInst (Some (InstructionV 33)))].

(** The gate lists [computeGates] returns for the diamond. *)
Definition diamondGates : gmap ptr (list Gates.Gate) :=
  <[20%N := []]> (<[21%N := []]> (<[22%N := []]>
    (<[23%N := [Gates.GateInst diamondBranch; Gates.GateInst diamondBranch]]> ∅))).

(** An instruction that the first three tests of the validator refuse. *)
Definition impure `{Analyses} (ins : Instruction) : bool :=
  mayThrow ins || mayReadOrWriteMemory ins || negb (willReturn ins).

(** The walk of [hasAddressTaken] comes back for every stack allocation
    among [insts]. *)
Definition addressWalkReturns `{Analyses} (F : Function)
    (insts : list Instruction) : Prop :=
  ∀ ins ty, ins ∈ insts → ikind ins = AllocaInst ty →
    ∃ taken, hasAddressTaken (addressTakenFuel F (getTypeAllocSize ty)) F
               (iid ins) (getTypeAllocSize ty) = Ok taken.

(** The slice of the loaded value [l] at the second call of [caller2]. *)
Definition loadOfP : Instruction :=
  mkInst 16 "l" Examples.I32 (LoadInst (ArgumentV 10 2)).
Definition loadSlice : ProgramSlice :=
  mkSlice 16 Examples.caller2 [loadOfP] [(10%N, 2%nat)] {[11%N]} 17
          (<[11%N := 11%N]> ∅).

(** The slice of [x] at the call in the outer loop of [nested]. *)
Definition nestedSlice : ProgramSlice :=
  mkSlice 72 Loops.nested
    [mkInst 72 "x" Examples.I32 (BinaryOperator Add (ArgumentV 49 0) (i32 1))]
    [(49%N, 0%nat)] {[52%N]} 74
    (<[50%N := 52%N]> (<[51%N := 52%N]> (<[52%N := 52%N]> ∅))).

(** Function [F] reads slot [slot] of a record: it has an address
    computation for that field and a load of type [ty] from that address. *)
Definition loadsSlot (F : Function) (slot : nat) (ty : Type_) : Prop :=
  ∃ gep load base,
    gep ∈ allInsts F ∧ load ∈ allInsts F
    ∧ ikind gep = GetElementPtrInst base [i32 0; i32 (Z.of_nat slot)]
    ∧ ikind load = LoadInst (InstructionV (iid gep))
    ∧ ity load = ty.




(** ** The scenario [x = a * b + 1] run through the pass *)

Module Scenario.
Import Examples.

Definition fromOk {A} (d : A) (o : Outcome A) : A :=
  match o with
  | Ok a => a
  | Abort _ => d
  end.

Definition emptyFunction : Function := mkFunction 0 "" VoidTy [] [].
Definition emptyModule : Module := mkModule [] [].
Definition emptyState : PassState := mkPassState emptyModule noStatistics ∅.

(** [caller] with operands [a] and [b] of the multiplication left open. *)
Definition callerOn (args : list Argument) (a b : Value) : Function :=
  mkFunction 10 "caller" I32 args
    [mkBB 11 "entry"
       [mkInst 12 "m" I32 (BinaryOperator Mul a b);
        mkInst 13 "x" I32 (BinaryOperator Add (InstructionV 12) (i32 1));
        mkInst 14 "c" I32 (callCallee (InstructionV 13));
        mkInst 15 "" VoidTy (ReturnInst (Some (InstructionV 14)))]].

(** The slice of [x] at the call [14] of [caller]. *)
Definition xSlice : ProgramSlice :=
  mkSlice 13 caller
    [mkInst 12 "m" I32 (BinaryOperator Mul (ArgumentV 10 0) (ArgumentV 10 1));
     mkInst 13 "x" I32 (BinaryOperator Add (InstructionV 12) (i32 1))]
    [(10%N, 0%nat); (10%N, 1%nat)] {[11%N]} 14 (<[11%N := 11%N]> ∅).

(** What [memoizedOutline] returns on that slice: the thunk body, the
    address of the record type, the module and the next free address. *)
Definition memoOutlined : Function * ptr * Module * ptr :=
  Eval vm_compute in
    fromOk (emptyFunction, 0%N, emptyModule, 0%N)
           (Outliner.memoizedOutline xSlice 7 (module (start caller)) arena).

(** The runs of the pass on [caller], without and with memoization, and on
    [caller2] with its two candidates. *)
Definition plainRun : bool * PassState * ptr :=
  Eval vm_compute in
    fromOk (false, emptyState, 0%N)
           (Lazyfication.runOnModule false (λ _, true) oneCandidate draws
              (start caller) arena).

Definition memoRun : bool * PassState * ptr :=
  Eval vm_compute in
    fromOk (false, emptyState, 0%N)
           (Lazyfication.runOnModule true (λ _, true) oneCandidate draws
              (start caller) arena).

Definition twoRun : bool * PassState * ptr :=
  Eval vm_compute in
    fromOk (false, emptyState, 0%N)
           (Lazyfication.runOnModule true (λ _, true) twoCandidates draws
              (start caller2) arena).

(** The function at address [f] in the module a run ends with. *)
Definition functionAfter (r : bool * PassState * ptr) (f : ptr) : Function :=
  default emptyFunction (findFunction (module r.1.2) f).

(** What each store of [F] writes and through which instruction its
    address is computed. *)
Definition storesOf (F : Function) : list (Value * option InstKind) :=
  omap (λ ins,
          match ikind ins with
          | StoreInst v (InstructionV p) => Some (v, ikind <$> findInst F p)
          | StoreInst v _ => Some (v, None)
          | _ => None
          end) (allInsts F).

End Scenario.

(** ** Vocabulary of memo idempotence *)

Definition isReturn (k : InstKind) : bool :=
  match k with ReturnInst _ => true | _ => false end.

(** Every instruction and block of [F], and every branch target, lies
    below the next free address [n] of the arena. *)
Definition below (n : ptr) (F : Function) : Prop :=
  Forall (λ ins, (iid ins < n)%N
                 ∧ Forall (λ d, (d < n)%N) (successors (ikind ins)))
         (allInsts F)
  ∧ Forall (λ BB, (bid BB < n)%N) (fblocks F).

(** [new_ret] is the only return instruction of [F]. *)
Definition onlyReturn (F : Function) (new_ret : ptr) : Prop :=
  Forall (λ ins, isReturn (ikind ins) = true → iid ins = new_ret) (allInsts F).

(** The body of the scenario before the memoization code is added, the
    address of its return instruction, and the fields of its record. *)
Definition memoBuilt : Function * ptr * ptr * list Type_ * ptr :=
  Eval vm_compute in
    Scenario.fromOk (Scenario.emptyFunction, 0%N, 0%N, [], 0%N)
      (@Outliner.buildThunk Examples.straightLine Scenario.xSlice true
         "_wyvern_slice_memo_caller_x7" Examples.arena).

(** A record at address 0 that holds 6 and 7 in its captured-argument
    slots and whose flag is clear. *)
Definition freshRecord : Exec.Memory :=
  <[(0%N, 2%nat) := Exec.RInt 0]>
    (<[(0%N, 3%nat) := Exec.RInt 6]> (<[(0%N, 4%nat) := Exec.RInt 7]> ∅)).

(** The instructions of the entry block that [addMemoizationCode] creates
    at address [n], in thunk body [fn], in front of the old entry block. *)
Definition prologue (n fn : ptr) (valTy : Type_) (oldEntry : ptr)
    : list Instruction :=
  [mkInst (N.succ (N.succ n)) "_wyvern_memo_val_addr" (PointerTy valTy)
     (GetElementPtrInst (ArgumentV fn 0) [i32 0; i32 1]);
   mkInst (N.succ (N.succ (N.succ n))) "_wyvern_memo_val" valTy
     (LoadInst (InstructionV (N.succ (N.succ n))));
   mkInst (N.succ (N.succ (N.succ (N.succ n)))) "_wyvern_memo_flag_addr"
     (PointerTy (IntegerTy 1))
     (GetElementPtrInst (ArgumentV fn 0) [i32 0; i32 2]);
   mkInst (N.succ (N.succ (N.succ (N.succ (N.succ n))))) "_wyvern_memo_flag"
     (IntegerTy 1)
     (LoadInst (InstructionV (N.succ (N.succ (N.succ (N.succ n))))));
   mkInst (N.succ (N.succ (N.succ (N.succ (N.succ (N.succ n)))))) "" VoidTy
     (CondBranchInst (InstructionV (N.succ (N.succ (N.succ (N.succ (N.succ n))))))
                     (N.succ n) oldEntry)].

(** The values that block has computed, on the record at [r], when it
    branches. *)
Definition prologueEnv (n : ptr) (r : N) (mem : Exec.Memory) : Exec.Env :=
  <[N.succ (N.succ (N.succ (N.succ (N.succ n))))
      := default Exec.RUndef (mem !! (r, 2%nat))]>
    (<[N.succ (N.succ (N.succ (N.succ n))) := Exec.RField r 2]>
       (<[N.succ (N.succ (N.succ n)) := default Exec.RUndef (mem !! (r, 1%nat))]>
          (<[N.succ (N.succ n) := Exec.RField r 1]> ∅))).

(** The function [addMemoizationCode] returns, in terms of the function
    [F] it was given: the new entry block at [n], the block that returns
    the cached value at [n + 1], then the blocks of [F] with the stores
    [st1] and [st2] before the return instruction. *)
Definition memoized (F : Function) (new_ret n : ptr) (valTy : Type_)
    (oldEntry : ptr) (st1 st2 : Instruction) : Function :=
  insertBefore new_ret [st1; st2]
    (mkFunction (fid F) (fname F) (fret F) (fargs F)
       (mkBB n "_wyvern_memo_entry" (prologue n (fid F) valTy oldEntry)
        :: mkBB (N.succ n) "_wyvern_memo_ret"
             [mkInst (N.succ (N.succ (N.succ (N.succ (N.succ (N.succ (N.succ n)))))))
                "" VoidTy
                (ReturnInst (Some (InstructionV (N.succ (N.succ (N.succ n))))))]
        :: fblocks F)).

(** The two addresses computed by the new entry block, once computed, are
    those of fields 1 and 2 of the record at [r]. *)
Definition addressesKept (n : ptr) (r : N) (env : Exec.Env) : Prop :=
  (∀ x, env !! N.succ (N.succ n) = Some x → x = Exec.RField r 1)
  ∧ (∀ x, env !! N.succ (N.succ (N.succ (N.succ n))) = Some x
          → x = Exec.RField r 2).

(** What leaving a block of the old body looks like: a jump stays in the
    old body and keeps the two addresses, a return has set the flag and
    cached the value it returns. *)
Definition leavesWell (n : ptr) (r : N) (e : Exec.BlockExit) : Prop :=
  match e with
  | Exec.Goto d env _ => (d < n)%N ∧ addressesKept n r env
  | Exec.Returned v mem =>
      mem !! (r, 2%nat) = Some (Exec.RInt 1) ∧ mem !! (r, 1%nat) = Some v
  | Exec.Stuck => True
  end.

(** [freshRecord] once the thunk of the scenario has returned 43 on it:
    the flag is set and the value is cached. *)
Definition cachedRecord : Exec.Memory :=
  <[(0%N, 1%nat) := Exec.RInt 43]> (<[(0%N, 2%nat) := Exec.RInt 1]> freshRecord).

(** ** Vocabulary of the dependence traversal *)

(** Instruction [i] has been taken off the queue of the traversal in state
    [st]: it belongs to [F], its block has been recorded, its operands that
    are instructions or formal parameters have been marked, and, for a PHI,
    its incoming blocks have been recorded and the gates of its block are
    among the dependences or in the queue. *)
Definition resolved (F : Function) (gates : gmap ptr (list Gates.Gate))
    (st : Deps.State) (i : ptr) : Prop :=
  ∃ dep parent,
    findInst F i = Some dep ∧ getParent F i = Some parent
    ∧ parent ∈ Deps.BBs st
    ∧ (∀ U, U ∈ operands (ikind dep) → isInstOrArg U = true →
         vs_count U (Deps.visited st) = true)
    ∧ ∀ incoming, ikind dep = PHINode incoming →
        (∀ b, b ∈ (snd <$> incoming) → b ∈ Deps.BBs st)
        ∧ ∀ t, Gates.GateInst t ∈ default [] (gates !! parent) →
            vs_count (InstructionV (iid t)) (Deps.deps st) = true
            ∨ InstructionV (iid t) ∈ Deps.to_visit st.

(** The invariant of the [while (!to_visit.empty())] loop. *)
Definition traversed (F : Function) (gates : gmap ptr (list Gates.Gate))
    (initial : ptr) (st : Deps.State) : Prop :=
  (initial ∈ vs_insts (Deps.deps st) ∨ InstructionV initial ∈ Deps.to_visit st)
  ∧ (∀ v, vs_count v (Deps.visited st) = true →
       vs_count v (Deps.deps st) = true ∨ v ∈ Deps.to_visit st)
  ∧ (∀ i, i ∈ vs_insts (Deps.deps st) →
       InstructionV i ∈ Deps.to_visit st ∨ resolved F gates st i).

(** ** Vocabulary of the attractors *)

(** The blocks above [node] on its way to the root of the post-dominator
    tree, nearest first; the virtual root has no block. *)
Definition strictPostDominators (node : DomTreeNode (option ptr)) : list ptr :=
  omap id (tail (domChain node)).

(** The first of them that is in the slice. *)
Definition nearestInSlice (BBsInSlice : gset ptr)
    (node : DomTreeNode (option ptr)) : option ptr :=
  head (filter (λ b, b ∈ BBsInSlice) (strictPostDominators node)).

(** ** Vocabulary of the validator *)

(** A user of the stack slot [AI] at which [hasAddressTaken] answers true
    without looking further: a store of the address, its conversion to an
    integer, a call that is neither a debug or lifetime intrinsic nor known
    to only read memory, and every instruction the function has no case
    for. *)
Definition escapes (AI : ptr) (ins : Instruction) : bool :=
  match ikind ins with
  | StoreInst v _ => bool_decide (v = InstructionV AI)
  | CastInst PtrToInt src => bool_decide (src = InstructionV AI)
  | CallInst _ _ _ attrs =>
      negb (isDebugOrLifetime attrs) && negb (calleeOnlyReadsMemory attrs)
  | GetElementPtrInst _ _ | CastInst BitCast _ | SelectInst _ _ _ | PHINode _
  | LoadInst _ | ReturnInst _ => false
  | _ => true
  end.

(** A user that only reads through the address, within [AllocSize] bytes. *)
Definition readsWithin `{Analyses} (AllocSize : N) (ins : Instruction) : bool :=
  match ikind ins with
  | LoadInst _ | ReturnInst _ =>
      match memoryLocationSize ins with
      | Some sz => (sz <=? AllocSize)%N
      | None => true
      end
  | _ => false
  end.

(** [slots(p) { a = alloca; b = alloca; v = *a; *p = b; return v; }]: the
    address of [b] is stored, [a] is only read. *)
Definition slots : Function :=
  mkFunction 80 "slots" Examples.I32
    [mkArg "p" (PointerTy (PointerTy Examples.I32))]
    [mkBB 81 "entry"
       [mkInst 82 "a" (PointerTy Examples.I32) (AllocaInst Examples.I32);
        mkInst 83 "b" (PointerTy Examples.I32) (AllocaInst Examples.I32);
        mkInst 84 "v" Examples.I32 (LoadInst (InstructionV 82));
        mkInst 85 "" VoidTy (StoreInst (InstructionV 83) (ArgumentV 80 0));
        mkInst 86 "" VoidTy (ReturnInst (Some (InstructionV 84)))]].

(** ** Vocabulary of the outliner *)

(** Function [F] with the blocks [l] at its end. *)
Definition withBlocks (F : Function) (l : list BasicBlock) : Function :=
  mkFunction (fid F) (fname F) (fret F) (fargs F) (fblocks F ++ l).

(** The empty block that stands for block [b] of the sliced function in
    the thunk body, once [b] has been given a clone by [o]: it was named
    after [b] when it entered the thunk body, which was [G] then. *)
Definition cloneBlock `{Analyses} (s : ProgramSlice) (o : Outlining) (G : Function)
    (b : ptr) : option BasicBlock :=
  nb ← _origToNewBBmap o !! b;
  orig ← findBlock (_parentFunction s) b;
  Some (mkBB nb (setName (ValueNames (fid G)) (valueNames G)
                   ("sliceclone_" +:+ bname orig)) []).

(** The name [cloneCalleeFunction] asks for. *)
Definition calleeCloneName (Callee : Function) (index : nat) : string :=
  "_wyvern_calleeclone_" +:+ fname Callee +:+ "_" +:+ pretty index.

(** The two block maps are inverse to one another. *)
Definition mutuallyInverse (o : Outlining) : Prop :=
  ∀ b nb, _origToNewBBmap o !! b = Some nb ↔ _newToOrigBBmap o !! nb = Some b.

(** The signature of a function: what the editing steps of the outliner
    and of the rewriter leave alone. *)
Definition signature (F : Function) : ptr * string * Type_ * list Argument :=
  (fid F, fname F, fret F, fargs F).

(** The instructions of the sliced function that are in the slice, in the
    order of the layout of the function. *)
Definition isSliced (s : ProgramSlice) (ins : Instruction) : Prop :=
  Outliner.inSlice s (iid ins) = true.

#[global] Instance isSliced_dec (s : ProgramSlice) (ins : Instruction) :
  Decision (isSliced s ins).
Proof. unfold isSliced. apply _. Defined.

Definition slicedInsts (s : ProgramSlice) : list Instruction :=
  filter (isSliced s) (allInsts (_parentFunction s)).

(** The state of [populateBBsWithInsts], started on [F], [o] and the free
    address [n], once the instructions [seen] of the sliced function have
    been looked at: the block maps are untouched, and the slice
    instructions among [seen] have their clones at consecutive addresses. *)
Definition cloned (s : ProgramSlice) (F : Function) (o : Outlining) (n : ptr)
    (seen : list Instruction) (G : Function) (o1 : Outlining) (m : ptr) : Prop :=
  m = (n + N.of_nat (length (filter (isSliced s) seen)))%N
  ∧ _origToNewBBmap o1 = _origToNewBBmap o
  ∧ _newToOrigBBmap o1 = _newToOrigBBmap o
  ∧ (bid <$> fblocks G) = (bid <$> fblocks F)
  ∧ (∀ k ins, filter (isSliced s) seen !! k = Some ins →
       _Imap o1 !! iid ins = Some (n + N.of_nat k)%N
       ∧ mkInst (n + N.of_nat k) "" (ity ins) (ikind ins) ∈ allInsts G)
  ∧ (∀ i c, _Imap o1 !! i = Some c → i ∈ (iid <$> filter (isSliced s) seen)).

(** [addMissingTerminators] ([ProgramSlice.cpp], 670-680): a block of the
    thunk body that has no terminator receives a clone of the terminator of
    the block it stands for.  The blocks are met in layout order; a block
    without an original, or whose original has no terminator, is a null
    pointer dereference. *)
Definition addMissingTerminators (s : ProgramSlice) (o : Outlining)
    (F : Function) : Build Function :=
  foldM (λ F BB,
           blk ← orAbort "block vanished" (findBlock F BB);
           match getTerminator blk with
           | None =>
               orig ← orAbort "block without original" (_newToOrigBBmap o !! BB);
               origBlk ← orAbort "block without original"
                           (findBlock (_parentFunction s) orig);
               originalTerminator ← orAbort "clone of a null terminator"
                                      (getTerminator origBlk);
               newTerminator ← fresh;
               mret (appendInst BB
                       (mkInst newTerminator "" (ity originalTerminator)
                               (ikind originalTerminator)) F)
           | Some _ => mret F
           end)
        (bid <$> fblocks F) F.

(** ** More concrete cases *)

Module Cases.
Import Examples.

(** Two blocks laid out with the entry last. *)
Definition swapped : Function :=
  mkFunction 90 "swapped" VoidTy []
    [mkBB 92 "b" [mkInst 94 "" VoidTy (ReturnInst None)];
     mkBB 91 "a" [mkInst 93 "" VoidTy (BranchInst 92)]].

(** The slice of the PHI of the diamond, criterion of a call at [34]. *)
Definition diamondSlice : ProgramSlice :=
  Eval vm_compute in
    Scenario.fromOk Scenario.xSlice
      (@newProgramSlice diamondAnalyses 33 diamond 34).

(** An empty thunk body, and what [populateFunctionWithBBs] makes of it for
    the slice of the diamond. *)
Definition emptyThunk : Function :=
  mkFunction 99 "thunk" I32 [mkArg "_wyvern_thunkptr" (PointerTy (StructTy 98))] [].

Definition diamondBlocks : Function * Outlining * ptr :=
  Eval vm_compute in
    Scenario.fromOk (emptyThunk, noOutlining, 0%N)
      (Outliner.populateFunctionWithBBs diamondSlice (emptyThunk, noOutlining) arena).

(** The thunk body of the slice of [x] in [caller], step by step: with the
    clone of its block, with the clones of its instructions, with their
    operands redirected, with its return instruction. *)
Definition xBlocks : Function * Outlining * ptr :=
  Eval vm_compute in
    Scenario.fromOk (emptyThunk, noOutlining, 0%N)
      (Outliner.populateFunctionWithBBs Scenario.xSlice (emptyThunk, noOutlining) arena).

Definition xInsts : Function * Outlining * ptr :=
  Eval vm_compute in
    Scenario.fromOk (emptyThunk, noOutlining, 0%N)
      (Outliner.populateBBsWithInsts Scenario.xSlice xBlocks.1 xBlocks.2).

Definition xUses : Function :=
  Eval vm_compute in Outliner.reorganizeUses xInsts.1.2 xInsts.1.1.

Definition xReturned : Function * ptr * ptr :=
  Eval vm_compute in
    Scenario.fromOk (emptyThunk, 0%N, 0%N)
      (Outliner.addReturnValue Scenario.xSlice xInsts.1.2 xUses xInsts.2).

(** The record of that thunk body without memoization, and the body once
    its captured arguments are loaded. *)
Definition xFields : list Type_ :=
  [PointerTy (FunctionTy I32 [PointerTy (StructTy 98)]); I32; I32].

Definition xLoaded : Function * Outlining * ptr :=
  Eval vm_compute in
    Scenario.fromOk (emptyThunk, noOutlining, 0%N)
      (Outliner.insertLoadForThunkParams Scenario.xSlice xFields false
         (xReturned.1.1, xInsts.1.2) xReturned.2).

(** The thunk body with its operands redirected and no return yet, given
    the terminators that are missing. *)
Definition xTerminated : Function * ptr :=
  Eval vm_compute in
    Scenario.fromOk (emptyThunk, 0%N)
      (addMissingTerminators Scenario.xSlice xInsts.1.2 xUses xInsts.2).

(** [callee] with the uses of its parameter rewritten, with and without
    memoization, for a thunk body of type [i32 (record* )]. *)
Definition thunkTy : Type_ := FunctionTy I32 [PointerTy (StructTy 98)].

Definition calleeMemo : Function * ptr :=
  Eval vm_compute in
    Scenario.fromOk (emptyThunk, 0%N)
      (Lazyfication.updateMemoizedThunkArgUses callee (ArgumentV 1 0) thunkTy arena).


(** The clone of [callee] for the memoized thunk body of the scenario. *)
Definition calleeClone : Function * Module * ptr :=
  Eval vm_compute in
    Scenario.fromOk (emptyThunk, Scenario.emptyModule, 0%N)
      (Lazyfication.cloneCalleeFunction true callee 0 Scenario.memoOutlined.1.1.1
         Scenario.memoOutlined.1.2 Scenario.memoOutlined.2).

(** The slice of the loaded value [l] at the call of [cycling], and two of
    its instructions. *)
Definition cyclingSlice : ProgramSlice :=
  Eval vm_compute in
    Scenario.fromOk Scenario.xSlice
      (@newProgramSlice Loops.cyclingAnalyses 93 Loops.cycling 94).

Definition cyclingPHI : Instruction :=
  mkInst 92 "p" (PointerTy I32)
    (PHINode [(InstructionV 90, 80%N); (InstructionV 92, 81%N)]).

Definition cyclingLoad : Instruction :=
  mkInst 93 "l" I32 (LoadInst (InstructionV 92)).

(** [callee2] with the uses of its parameter rewritten, without
    memoization. *)
Definition callee2Plain : Function * ptr :=
  Eval vm_compute in
    Scenario.fromOk (emptyThunk, 0%N)
      (Lazyfication.updateThunkArgUses Loops.callee2 (ArgumentV 5 0) thunkTy arena).

(** The call site [14] of [caller] lazified with memoization. *)
Definition lazified : bool * PassState * ptr :=
  Eval vm_compute in
    Scenario.fromOk (false, Scenario.emptyState, 0%N)
      (Lazyfication.lazifyCallsite true (λ _, true) 7 14 0 (start caller) arena).

End Cases.

(** What [reorderBlocks] makes of [Cases.swapped]. *)
Definition swappedBack : Function :=
  mkFunction 90 "swapped" VoidTy []
    [mkBB 91 "a" [mkInst 93 "" VoidTy (BranchInst 92)];
     mkBB 92 "b" [mkInst 94 "" VoidTy (ReturnInst None)]].

(** ** Vocabulary of the rerouting of branches *)

(** A successor while branches are rerouted towards the blocks [S]: it is
    left as it is or it becomes a block of [S]. *)
Definition stays (S : list ptr) (a b : ptr) : Prop := b = a ∨ b ∈ S.

(** Block [BB'] is what block [BB] has become: the address is the same, a
    terminator that [BB] had is still one, with as many successors, each
    left as it was or turned into a block of [S]; a terminator that [BB'] has
    gained has its successors in [S]. *)
Definition rerouted (S : list ptr) (BB BB' : BasicBlock) : Prop :=
  bid BB' = bid BB
  ∧ match getTerminator BB with
    | Some t =>
        ∃ t', getTerminator BB' = Some t'
              ∧ Forall2 (stays S) (successors (ikind t)) (successors (ikind t'))
    | None =>
        ∀ t', getTerminator BB' = Some t' → Forall (.∈ S) (successors (ikind t'))
    end.

(** The terminator of [BB], when there is one, only leads to blocks of
    [S]. *)
Definition selfContained (S : list ptr) (BB : BasicBlock) : Prop :=
  ∀ t suc, getTerminator BB = Some t → suc ∈ successors (ikind t) → suc ∈ S.

(** An edit of single instructions that keeps terminators what they are. *)
Definition soft (S : list ptr) (g : Instruction → Instruction) : Prop :=
  ∀ ins, isTerminator (ikind (g ins)) = isTerminator (ikind ins)
         ∧ Forall2 (stays S) (successors (ikind ins)) (successors (ikind (g ins))).

(** Block [BB'] is block [BB] as [addDomBranches] leaves it between the
    free addresses [n] and [n']: untouched, or, when it had no terminator,
    with one branch to the clone of a block of the slice at its end. *)
Definition branchAdded (s : ProgramSlice) (o : Outlining) (n n' : ptr)
    (BB BB' : BasicBlock) : Prop :=
  bid BB' = bid BB ∧ bname BB' = bname BB
  ∧ (binsts BB' = binsts BB
     ∨ getTerminator BB = None
       ∧ ∃ newBranch child childBB,
           binsts BB' = binsts BB ++ [mkInst newBranch "" VoidTy (BranchInst childBB)]
           ∧ (n ≤ newBranch < n')%N
           ∧ child ∈ _BBsInSlice s
           ∧ _origToNewBBmap o !! child = Some childBB).

(** Successor [j] of the terminator of block [BB] of [F], when there is
    one, is a block of [S]. *)
Definition settled (S : list ptr) (BB : ptr) (F : Function) (j : nat) : Prop :=
  ∀ BB' t' suc,
    BB' ∈ fblocks F → bid BB' = BB → getTerminator BB' = Some t' →
    successors (ikind t') !! j = Some suc → suc ∈ S.

(** The thunk body of the slice of the diamond, step by step: with the
    clones of its instructions, with their operands redirected, with its
    branches rerouted; and the empty clones of its blocks once
    [addDomBranches] has gone down the dominator tree. *)
Definition diamondInsts : Function * Outlining * ptr :=
  Eval vm_compute in
    Scenario.fromOk (Cases.emptyThunk, noOutlining, 0%N)
      (Outliner.populateBBsWithInsts Cases.diamondSlice Cases.diamondBlocks.1
         Cases.diamondBlocks.2).

Definition diamondUses : Function :=
  Eval vm_compute in Outliner.reorganizeUses diamondInsts.1.2 diamondInsts.1.1.

Definition diamondRerouted : Function * ptr :=
  Eval vm_compute in
    Scenario.fromOk (Cases.emptyThunk, 0%N)
      (@Outliner.rerouteBranches Examples.diamondAnalyses Cases.diamondSlice
         diamondInsts.1.2 diamondUses diamondInsts.2).

Definition diamondBranched : Function * ptr :=
  Eval vm_compute in
    Scenario.fromOk (Cases.emptyThunk, 0%N)
      (Outliner.addDomBranches Cases.diamondSlice Cases.diamondBlocks.1.2
         Examples.diamondDT None Cases.diamondBlocks.1.1 Cases.diamondBlocks.2).

(** * Properties *)

(** ** Outcomes *)

Lemma forM_Ok {A B} (f : A → Outcome B) (l : list A) (ys : list B) :
  forM f l = Ok ys → Forall2 (λ x y, f x = Ok y) l ys.
Proof.
  revert ys. induction l as [|x l IH]; intros ys Hm; simpl in Hm.
  - inversion Hm. constructor.
  - destruct (f x) as [y|] eqn:Hx; [|discriminate].
    destruct (forM f l) as [ys'|]; [|discriminate].
    inversion Hm; subst. constructor; auto.
Qed.

(** ** getGate *)

(** C10.  On a block whose terminator is [t], [getGate] returns [t] when [t]
    is a conditional branch or a switch, stops on its assertion when [t] is
    an unconditional branch, and returns the never assigned [condition] for
    every other terminator; it returns a gate instruction in no other
    case. *)
Theorem getGate_contract (BB : BasicBlock) (t : Instruction) :
  getTerminator BB = Some t →
  (isConditionalOrSwitch (ikind t) → Gates.getGate BB = Ok (Gates.GateInst t))
  ∧ (isUnconditionalBranch (ikind t) →
       Gates.getGate BB = Abort "Inconditional terminator!")
  ∧ (¬ isConditionalOrSwitch (ikind t) → ¬ isUnconditionalBranch (ikind t) →
       Gates.getGate BB = Ok Gates.GateIndeterminate)
  ∧ (∀ g, Gates.getGate BB = Ok (Gates.GateInst g) →
          g = t ∧ isConditionalOrSwitch (ikind t)).
Proof.
  intros Ht. unfold Gates.getGate. rewrite Ht.
  repeat split; destruct (ikind t); simpl; intros; try tauto; try congruence;
    try discriminate.
Qed.

Lemma getGate_contract_witness :
  getTerminator diamondEntry = Some diamondBranch
  ∧ Gates.getGate diamondEntry = Ok (Gates.GateInst diamondBranch).
Proof.
  split; [reflexivity|].
  apply (proj1 (getGate_contract diamondEntry diamondBranch eq_refl)). exact I.
Defined.

(** ** computeGates *)

Lemma DomTreeNode_chain_ind {B} (P : DomTreeNode B → Prop) :
  (∀ b, P (DomNode b None)) →
  (∀ b n, P n → P (DomNode b (Some n))) →
  ∀ n, P n.
Proof.
  intros H0 HS. fix IH 1. intros [b [n|]]; [apply HS, IH | apply H0].
Qed.

Lemma controllerFrom_Some PDT BB n c :
  Gates.controllerFrom PDT BB n = Some c →
  ∃ before after,
    domChain n = before ++ c :: after
    ∧ Forall (λ X, treeDominates PDT (Some BB) (Some X) = true) before
    ∧ treeDominates PDT (Some BB) (Some c) = false.
Proof.
  induction n as [b|b n IH] using DomTreeNode_chain_ind; simpl;
    destruct (treeDominates PDT (Some BB) (Some b)) eqn:Hb; simpl; intros Hc.
  - discriminate.
  - inversion Hc; subst. exists [], []. auto.
  - destruct (IH Hc) as (before & after & -> & Hall & Hn).
    exists (b :: before), after. auto.
  - inversion Hc; subst. eexists [], _. split; [reflexivity|]. auto.
Qed.

Lemma controllerFrom_None PDT BB n :
  Gates.controllerFrom PDT BB n = None →
  Forall (λ X, treeDominates PDT (Some BB) (Some X) = true) (domChain n).
Proof.
  induction n as [b|b n IH] using DomTreeNode_chain_ind; simpl;
    destruct (treeDominates PDT (Some BB) (Some b)) eqn:Hb; simpl; intros Hc;
    try discriminate; auto.
Qed.

Lemma gatesFromPred_contribution F DT PDT B P gs :
  Gates.gatesFromPred F DT PDT B P = Ok gs → contribution F DT PDT B P gs.
Proof.
  unfold Gates.gatesFromPred.
  destruct (treeDominates DT P B) eqn:Hd;
    destruct (treeDominates PDT (Some B) (Some P)) eqn:Hp; simpl.
  2: { destruct (Gates.getGateAt F P) as [g|] eqn:Hg; simpl; [|discriminate].
       intros [= <-]. by apply contribution_direct. }
  all: assert (Hno : ¬ (treeDominates DT P B = true
                        ∧ treeDominates PDT (Some B) (Some P) = false))
         by (rewrite ?Hd, ?Hp; intros [? ?]; discriminate).
  all: unfold Gates.getController;
    destruct (getNode DT P) as [n|] eqn:Hn;
    [destruct (Gates.controllerFrom PDT P n) as [c|] eqn:Hc|].
  all: try (destruct (Gates.getGateAt F c) as [g|] eqn:Hg; simpl; [|discriminate];
            intros [= <-];
            destruct (controllerFrom_Some _ _ _ _ Hc) as (before & after & ? & ? & ?);
            by eapply contribution_remote).
  all: intros [= <-]; apply contribution_none; [done|];
    intros n' Hn'; try congruence.
  all: assert (n' = n) as -> by congruence; by apply controllerFrom_None.
Qed.

Lemma emplace_lookup {V} (k k' : ptr) (v : V) (m : gmap ptr V) :
  Gates.emplace k v m !! k' =
    match m !! k' with
    | Some w => Some w
    | None => if decide (k = k') then Some v else None
    end.
Proof.
  unfold Gates.emplace. destruct (m !! k) as [w|] eqn:Hk.
  - destruct (m !! k') eqn:Hk'; [done|].
    destruct (decide (k = k')); [congruence|done].
  - rewrite lookup_insert. destruct (decide (k = k')) as [->|]; [by rewrite Hk|].
    by destruct (m !! k').
Qed.

Lemma computeGatesLoop_keeps F DT PDT l g0 gates b gs :
  Gates.computeGatesLoop F DT PDT l g0 = Ok gates →
  g0 !! b = Some gs → gates !! b = Some gs.
Proof.
  revert g0. induction l as [|BB l IH]; simpl; intros g0 Hl Hb.
  - by inversion Hl; subst.
  - destruct (Gates.gatesOfBlock F DT PDT (bid BB)) as [x|]; [|discriminate].
    simpl in Hl. eapply IH; [exact Hl|]. by rewrite emplace_lookup, Hb.
Qed.

Lemma computeGatesLoop_adds F DT PDT l g0 gates b :
  Gates.computeGatesLoop F DT PDT l g0 = Ok gates →
  b ∈ bid <$> l → g0 !! b = None →
  ∃ gs, Gates.gatesOfBlock F DT PDT b = Ok gs ∧ gates !! b = Some gs.
Proof.
  revert g0. induction l as [|BB l IH]; simpl; intros g0 Hl Hin Hb.
  - by apply elem_of_nil in Hin.
  - destruct (Gates.gatesOfBlock F DT PDT (bid BB)) as [x|] eqn:Hx; [|discriminate].
    simpl in Hl. destruct (decide (bid BB = b)) as [<-|Hne].
    + exists x. split; [done|]. eapply computeGatesLoop_keeps; [exact Hl|].
      rewrite emplace_lookup, Hb. by destruct (decide (bid BB = bid BB)).
    + apply elem_of_cons in Hin as [?|Hin]; [congruence|].
      eapply IH; [exact Hl|done|].
      rewrite emplace_lookup, Hb. by destruct (decide (bid BB = b)).
Qed.

(** C8, as the code has it.  When [computeGates] returns, every block with
    at most one predecessor has an empty gate list, and the gate list of a
    block [B] with more than one predecessor is made, predecessor by
    predecessor [P], of: the terminator of [P] when [P] dominates [B] and
    [B] does not post-dominate [P]; otherwise the terminator of the first
    node on [P]'s dominator chain that [P] does not post-dominate; nothing
    when there is no such node. *)
Theorem computeGates_gate_lists `{Analyses} (F : Function)
    (gates : gmap ptr (list Gates.Gate)) (BB : BasicBlock) :
  Gates.computeGates F = Ok gates →
  BB ∈ fblocks F →
  ((pred_size F (bid BB) ≤ 1)%nat → gates !! bid BB = Some [])
  ∧ ((1 < pred_size F (bid BB))%nat →
     ∃ gss,
       Forall2 (contribution F (DominatorTree F) (PostDominatorTree F) (bid BB))
               (predecessors F (bid BB)) gss
       ∧ gates !! bid BB = Some (concat gss)).
Proof.
  intros Hg Hin. unfold Gates.computeGates in Hg.
  destruct (computeGatesLoop_adds _ _ _ _ _ _ (bid BB) Hg) as (gs & Hgs & Hl).
  { apply list_elem_of_fmap. eauto. }
  { apply lookup_empty. }
  unfold Gates.gatesOfBlock in Hgs. split; intros Hp.
  - destruct (decide (1 < pred_size F (bid BB))%nat); [lia|]. congruence.
  - destruct (decide (1 < pred_size F (bid BB))%nat); [|lia].
    destruct (forM _ _) as [gss|] eqn:Hm; [|discriminate].
    simpl in Hgs. inversion Hgs; subst. exists gss. split; [|done].
    apply forM_Ok in Hm. eapply Forall2_impl; [exact Hm|].
    intros P gs. apply gatesFromPred_contribution.
Qed.

(** The trees given for the diamond are those of its control-flow graph. *)
Example diamond_trees_agree :
  Reference.treesAgree Examples.diamond Examples.diamondDT Examples.diamondPDT = true.
Proof. vm_compute. reflexivity. Qed.

Lemma computeGates_gate_lists_witness :
  @Gates.computeGates Examples.diamondAnalyses Examples.diamond = Ok diamondGates
  ∧ diamondJoin ∈ fblocks Examples.diamond
  ∧ ∃ gss,
      Forall2 (contribution Examples.diamond Examples.diamondDT Examples.diamondPDT 23%N)
              (predecessors Examples.diamond 23%N) gss
      ∧ diamondGates !! 23%N = Some (concat gss).
Proof.
  assert (Hg : @Gates.computeGates Examples.diamondAnalyses Examples.diamond
               = Ok diamondGates) by (vm_compute; reflexivity).
  assert (Hin : diamondJoin ∈ fblocks Examples.diamond)
    by (apply list_elem_of_In; vm_compute; tauto).
  split; [exact Hg|]. split; [exact Hin|].
  apply (proj2 (@computeGates_gate_lists Examples.diamondAnalyses
                  Examples.diamond diamondGates diamondJoin Hg Hin)).
  vm_compute. lia.
Defined.

(** C8 as the specification words it fails on the diamond: for the join
    block and its predecessor [21], the first node on the dominator chain of
    [21] that the join block does not post-dominate does not exist, so the
    wording gives the join block no gate; the code walks the chain with the
    predecessor itself, finds the entry block, and records its branch, once
    per predecessor. *)
Lemma computeGates_as_stated_counterexample :
  @Gates.computeGates Examples.diamondAnalyses Examples.diamond = Ok diamondGates
  ∧ diamondGates !! 23%N
    = Some [Gates.GateInst diamondBranch; Gates.GateInst diamondBranch]
  ∧ AsStated.gatesOfBlock Examples.diamond Examples.diamondDT Examples.diamondPDT 23%N
    = Ok []
  ∧ AsStated.remoteController Examples.diamondDT Examples.diamondPDT 23%N 21%N = None
  ∧ Gates.getController 21%N Examples.diamondDT Examples.diamondPDT = Some 20%N.
Proof. repeat split; vm_compute; reflexivity. Qed.

(** ** The validator *)

Example loadSlice_constructed :
  @newProgramSlice Examples.straightLine 16 Examples.caller2 17 = Ok loadSlice.
Proof. vm_compute. reflexivity. Qed.

Example nestedSlice_constructed :
  @newProgramSlice Loops.nestedAnalyses 72 Loops.nested 74 = Ok nestedSlice.
Proof. vm_compute. reflexivity. Qed.

Lemma elem_of_ascending (s : gset ptr) (b : ptr) : b ∈ ascending s ↔ b ∈ s.
Proof.
  unfold ascending. rewrite (merge_sort_Permutation N.le (elements s)).
  apply elem_of_elements.
Qed.

Section ValidatorFacts.
Context `{Analyses}.

Lemma scanInsts_cons (F : Function) (i : Instruction) (rest : list Instruction) :
  scanInsts F (i :: rest) =
    if mayThrow i then Ok false
    else if mayReadOrWriteMemory i then Ok false
    else if negb (willReturn i) then Ok false
    else match ikind i with
         | AllocaInst allocated =>
             taken ← hasAddressTaken
                       (addressTakenFuel F (getTypeAllocSize allocated)) F
                       (iid i) (getTypeAllocSize allocated);
             if taken : bool then Ok false else scanInsts F rest
         | _ => scanInsts F rest
         end.
Proof. reflexivity. Qed.

Lemma scanInsts_impure (F : Function) (insts : list Instruction) (ins : Instruction) :
  ins ∈ insts → impure ins = true → addressWalkReturns F insts →
  scanInsts F insts = Ok false.
Proof.
  intros Hin Himp. induction insts as [|i insts IH]; intros Hwalk.
  - by apply elem_of_nil in Hin.
  - rewrite scanInsts_cons. destruct (mayThrow i) eqn:Ht; [done|].
    destruct (mayReadOrWriteMemory i) eqn:Hm; [done|].
    destruct (willReturn i) eqn:Hw; [|done]. cbn [negb].
    assert (Hrest : scanInsts F insts = Ok false).
    { apply elem_of_cons in Hin as [->|Hin].
      - unfold impure in Himp. rewrite Ht, Hm, Hw in Himp. discriminate.
      - apply IH; [done|]. intros j ty Hj. apply Hwalk. by apply elem_of_cons; right. }
    destruct (ikind i) eqn:Hk; try exact Hrest.
    destruct (Hwalk i allocated) as [taken ->]; [by apply elem_of_cons; left|done|].
    by destruct taken.
Qed.

(** The per-instruction scan never accepts a slice with an impure
    instruction, whether or not the address walk comes back. *)
Lemma scanInsts_never_accepts (F : Function) (insts : list Instruction)
    (ins : Instruction) :
  ins ∈ insts → impure ins = true → scanInsts F insts ≠ Ok true.
Proof.
  intros Hin Himp. induction insts as [|i insts IH].
  - by apply elem_of_nil in Hin.
  - rewrite scanInsts_cons. destruct (mayThrow i) eqn:Ht; [done|].
    destruct (mayReadOrWriteMemory i) eqn:Hm; [done|].
    destruct (willReturn i) eqn:Hw; [|done]. cbn [negb].
    assert (Hrest : scanInsts F insts ≠ Ok true).
    { apply elem_of_cons in Hin as [->|Hin]; [|by apply IH].
      unfold impure in Himp. rewrite Ht, Hm, Hw in Himp. discriminate. }
    destruct (ikind i); try exact Hrest.
    destruct (hasAddressTaken _ _ _ _) as [[]|]; done.
Qed.

(** When the address walk comes back on the stack allocations of the
    slice: a slice with an instruction that may throw, may read or write
    memory, or may not return is refused by [canOutline], and
    [lazifyCallsite] on a candidate with that slice returns false and
    leaves the module, the statistics, the set of lazified pairs and the
    arena as they were. *)
Theorem impure_slice_rejected (memo : bool) (verify : ProgramSlice → bool)
    (s : ProgramSlice) (ins : Instruction) :
  ins ∈ _instsInSlice s →
  impure ins = true →
  addressWalkReturns (_parentFunction s) (_instsInSlice s) →
  canOutline s = Ok false
  ∧ ∀ random_num CI index st next caller call lazyfiableArg,
      callerOf (module st) CI = Some caller →
      findInst caller CI = Some call →
      getArgOperand call index = Some (InstructionV lazyfiableArg) →
      newProgramSlice lazyfiableArg caller CI = Ok s →
      Lazyfication.lazifyCallsite memo verify random_num CI index st next
        = Ok ((false, st), next).
Proof.
  intros Hin Himp Hwalk.
  assert (Hc : canOutline s = Ok false).
  { unfold canOutline. by rewrite (scanInsts_impure _ _ _ Hin Himp Hwalk). }
  split; [exact Hc|].
  intros random_num CI index st next caller call arg Hcaller Hcall Harg Hs.
  unfold Lazyfication.lazifyCallsite, mbind, Build_bind.
  rewrite Hcaller. simpl. rewrite Hcall. simpl. rewrite Harg. simpl.
  unfold lift. rewrite Hs, Hc. reflexivity.
Qed.


End ValidatorFacts.

Lemma impure_slice_rejected_witness :
  loadOfP ∈ _instsInSlice loadSlice
  ∧ @impure Examples.straightLine loadOfP = true
  ∧ @canOutline Examples.straightLine loadSlice = Ok false
  ∧ @Lazyfication.lazifyCallsite Examples.straightLine false (λ _, true) 7 17 0
      (Examples.start Examples.caller2) Examples.arena
    = Ok ((false, Examples.start Examples.caller2), Examples.arena).
Proof.
  assert (Hin : loadOfP ∈ _instsInSlice loadSlice) by (apply list_elem_of_singleton; reflexivity).
  assert (Himp : @impure Examples.straightLine loadOfP = true) by reflexivity.
  assert (Hwalk : @addressWalkReturns Examples.straightLine
                    (_parentFunction loadSlice) (_instsInSlice loadSlice)).
  { intros ins ty Hi Hk. apply list_elem_of_singleton in Hi. subst ins. discriminate Hk. }
  destruct (@impure_slice_rejected Examples.straightLine false (λ _, true)
              loadSlice loadOfP Hin Himp Hwalk) as [Hc Hl].
  split; [exact Hin|]. split; [exact Himp|]. split; [exact Hc|].
  apply (Hl 7%N 17%N 0%nat (Examples.start Examples.caller2) Examples.arena
            Examples.caller2
            (mkInst 17 "d" Examples.I32 (Examples.callCallee (InstructionV 16)))
            16%N).
  - vm_compute. reflexivity.
  - vm_compute. reflexivity.
  - reflexivity.
  - exact loadSlice_constructed.
Defined.

(** One level of [hasAddressTaken] when the first user it meets is a PHI:
    the walk goes into the PHI, and does not come back when the walk of
    the PHI does not. *)
Lemma hasAddressTaken_through_PHI `{Analyses} (fuel : nat) (F : Function) (AI : ptr)
    (AllocSize : N) (phi : Instruction) (inc : list (Value * ptr))
    (rest : list Instruction) (why : string) :
  users F (InstructionV AI) = phi :: rest →
  ikind phi = PHINode inc →
  memoryLocationSize phi = None →
  hasAddressTaken fuel F (iid phi) AllocSize = Abort why →
  hasAddressTaken (S fuel) F AI AllocSize = Abort why.
Proof.
  intros Hu Hk Hm Hrec. cbn [hasAddressTaken]. rewrite Hu, Hm, Hk.
  cbn beta iota. rewrite Hrec. reflexivity.
Qed.

(** The PHI of [cycling] is a user of itself: its walk calls itself at
    every depth. *)
Lemma cycling_PHI_walk (fuel : nat) (AllocSize : N) :
  @hasAddressTaken Loops.cyclingAnalyses fuel Loops.cycling 92 AllocSize
    = Abort "unbounded recursion".
Proof.
  induction fuel as [|fuel IH]; [reflexivity|].
  by apply (@hasAddressTaken_through_PHI Loops.cyclingAnalyses fuel Loops.cycling
              92 AllocSize Cases.cyclingPHI
              [(InstructionV 90, 80%N); (InstructionV 92, 81%N)]
              [Cases.cyclingLoad]).
Qed.

(** C5.  The slice of the value loaded in [cycling] holds a load, which may
    read memory, and before it the stack allocation whose address a PHI
    carries around the loop.  The walk of [hasAddressTaken] from that
    allocation recurses through the PHI at every depth, so that
    [canOutline] does not return on this slice, and [lazifyCallsite] does
    not return false on the candidate: the validator does not refuse
    it. *)
Theorem cyclic_PHI_walk_never_returns (memo : bool) (verify : ProgramSlice → bool)
    (random_num : N) :
  @newProgramSlice Loops.cyclingAnalyses 93 Loops.cycling 94 = Ok Cases.cyclingSlice
  ∧ Cases.cyclingLoad ∈ _instsInSlice Cases.cyclingSlice
  ∧ @impure Loops.cyclingAnalyses Cases.cyclingLoad = true
  ∧ (∀ fuel,
       @hasAddressTaken Loops.cyclingAnalyses fuel Loops.cycling 90
          (@getTypeAllocSize Loops.cyclingAnalyses Examples.I32)
       = Abort "unbounded recursion")
  ∧ @canOutline Loops.cyclingAnalyses Cases.cyclingSlice = Abort "unbounded recursion"
  ∧ @Lazyfication.lazifyCallsite Loops.cyclingAnalyses memo verify random_num 94 0
      (Examples.start Loops.cycling) Examples.arena = Abort "unbounded recursion".
Proof.
  assert (Hs : @newProgramSlice Loops.cyclingAnalyses 93 Loops.cycling 94
               = Ok Cases.cyclingSlice) by (vm_compute; reflexivity).
  assert (Hwalk : ∀ fuel,
            @hasAddressTaken Loops.cyclingAnalyses fuel Loops.cycling 90
               (@getTypeAllocSize Loops.cyclingAnalyses Examples.I32)
            = Abort "unbounded recursion").
  { intros [|fuel]; [reflexivity|].
    apply (@hasAddressTaken_through_PHI Loops.cyclingAnalyses fuel Loops.cycling
             90 _ Cases.cyclingPHI
             [(InstructionV 90, 80%N); (InstructionV 92, 81%N)] []);
      [reflexivity..|]. apply cycling_PHI_walk. }
  assert (Hc : @canOutline Loops.cyclingAnalyses Cases.cyclingSlice
               = Abort "unbounded recursion").
  { unfold canOutline.
    change (_instsInSlice Cases.cyclingSlice)
      with (mkInst 90 "a" (PointerTy Examples.I32) (AllocaInst Examples.I32)
              :: [Cases.cyclingPHI; Cases.cyclingLoad]).
    change (_parentFunction Cases.cyclingSlice) with Loops.cycling.
    rewrite scanInsts_cons.
    cbn [mayThrow mayReadOrWriteMemory willReturn ikind iid
         Loops.cyclingAnalyses Reference.analyses negb].
    rewrite Hwalk. reflexivity. }
  split; [exact Hs|]. split; [by repeat constructor|]. split; [reflexivity|].
  split; [exact Hwalk|]. split; [exact Hc|].
  unfold Lazyfication.lazifyCallsite, mbind, Build_bind.
  replace (callerOf (module (Examples.start Loops.cycling)) 94)
    with (Some Loops.cycling) by (vm_compute; reflexivity).
  simpl.
  replace (findInst Loops.cycling 94)
    with (Some (mkInst 94 "d" Examples.I32 (Examples.callCallee (InstructionV 93))))
    by (vm_compute; reflexivity).
  simpl. unfold lift.
  change (@newProgramSlice _ 93 Loops.cycling 94)
    with (@newProgramSlice Loops.cyclingAnalyses 93 Loops.cycling 94).
  rewrite Hs.
  change (@canOutline _ Cases.cyclingSlice)
    with (@canOutline Loops.cyclingAnalyses Cases.cyclingSlice).
  rewrite Hc. reflexivity.
Qed.

(** The trees given for [cycling] are those of its control-flow graph. *)
Example cycling_trees_agree :
  Reference.treesAgree Loops.cycling Loops.cyclingDT Loops.cyclingPDT = true.
Proof. vm_compute. reflexivity. Qed.


(** The call and the slice of [x] in the same loop of depth 1: refused. *)
Example counting_refused :
  (s ← @newProgramSlice Loops.countingAnalyses 62 Loops.counting 63;
   @canOutline Loops.countingAnalyses s) = Ok false.
Proof. vm_compute. reflexivity. Qed.

Example loop_trees_agree :
  Reference.treesAgree Loops.counting Loops.countingDT Loops.countingPDT = true
  ∧ Reference.treesAgree Loops.nested Loops.nestedDT Loops.nestedPDT = true.
Proof. split; vm_compute; reflexivity. Qed.

(** ** Editing functions *)

Lemma elem_of_concat {A} (x : A) (ls : list (list A)) :
  x ∈ concat ls ↔ ∃ l, l ∈ ls ∧ x ∈ l.
Proof.
  induction ls as [|l ls IH]; simpl.
  - split; [intros Hx; by apply elem_of_nil in Hx|].
    intros (l & Hl & _). by apply elem_of_nil in Hl.
  - rewrite elem_of_app, IH. split.
    + intros [Hx|(l' & Hl' & Hx)].
      * exists l. split; [by apply elem_of_cons; left|done].
      * exists l'. split; [by apply elem_of_cons; right|done].
    + intros (l' & Hl' & Hx). apply elem_of_cons in Hl' as [->|Hl']; eauto.
Qed.

Lemma elem_of_allInsts (F : Function) (ins : Instruction) :
  ins ∈ allInsts F ↔ ∃ BB, BB ∈ fblocks F ∧ ins ∈ binsts BB.
Proof.
  unfold allInsts. rewrite elem_of_concat. split.
  - intros (l & Hl & Hx). apply list_elem_of_fmap in Hl as (BB & -> & HBB). eauto.
  - intros (BB & HBB & Hx). exists (binsts BB). split; [|done].
    apply list_elem_of_fmap. eauto.
Qed.

Lemma allInsts_mapInsts (f : Instruction → Instruction) (F : Function) :
  allInsts (mapInsts f F) = f <$> allInsts F.
Proof.
  unfold allInsts, mapInsts, mapBlocks. simpl.
  induction (fblocks F) as [|BB l IH]; [done|].
  simpl. rewrite fmap_app. by f_equal.
Qed.

Lemma elem_of_insertBeforeIn_old (pos : ptr) (new l : list Instruction)
    (x : Instruction) :
  x ∈ l → x ∈ insertBeforeIn pos new l.
Proof.
  induction l as [|i l IH]; simpl; [done|]. intros Hx.
  destruct (decide (iid i = pos)).
  - apply elem_of_app. by right.
  - apply elem_of_cons in Hx as [->|Hx]; apply elem_of_cons; auto.
Qed.


Lemma elem_of_insertBefore_old (pos : ptr) (new : list Instruction)
    (F : Function) (x : Instruction) :
  x ∈ allInsts F → x ∈ allInsts (insertBefore pos new F).
Proof.
  rewrite !elem_of_allInsts. intros (BB & HBB & Hx).
  exists (mkBB (bid BB) (bname BB) (insertBeforeIn pos new (binsts BB))).
  split; [|by apply elem_of_insertBeforeIn_old].
  unfold insertBefore, mapBlocks. simpl. apply list_elem_of_fmap. eauto.
Qed.



(** ** The thunk record *)

Section ThunkRecord.
Context `{Analyses}.


(** The two instructions emitted for a captured argument read slot [i]. *)
Lemma loadThunkParam_shape (s : ProgramSlice) (F : Function) (pos : ptr)
    (p : Value) (fields : list Type_)
    (arg : ptr * nat) (i : nat) (n n' : ptr) (gep load : Instruction) :
  Outliner.loadThunkParam s F pos p fields arg i n = Ok ((gep, load), n') →
  ikind gep = GetElementPtrInst p [i32 0; i32 (Z.of_nat i)]
  ∧ ikind load = LoadInst (InstructionV (iid gep))
  ∧ fields !! i = Some (ity load).
Proof.
  unfold Outliner.loadThunkParam, mbind, Build_bind, orAbort.
  destruct (fields !! i) as [ty|]; [|discriminate]. simpl.
  intros [= <- <- <-]. auto.
Qed.

Lemma bind_Ok {A B} (m : Build A) (k : A → Build B) (n : ptr) (r : B * ptr) :
  (m ≫= k) n = Ok r → ∃ a n1, m n = Ok (a, n1) ∧ k a n1 = Ok r.
Proof.
  unfold mbind, Build_bind. destruct (m n) as [[a n1]|]; [|discriminate]. eauto.
Qed.

Lemma orAbort_Ok {A} (why : string) (o : option A) (n : ptr) (r : A * ptr) :
  orAbort why o n = Ok r → o = Some r.1 ∧ r.2 = n.
Proof. destruct o; simpl; [|discriminate]. by intros [= <-]. Qed.

Lemma lift_Ok {A} (o : Outcome A) (n : ptr) (r : A * ptr) :
  lift o n = Ok r → o = Ok r.1 ∧ r.2 = n.
Proof. destruct o; simpl; [|discriminate]. by intros [= <-]. Qed.



















End ThunkRecord.

Example xSlice_constructed :
  @newProgramSlice Examples.straightLine 13 Examples.caller 14 = Ok Scenario.xSlice.
Proof. vm_compute. reflexivity. Qed.


(** The record of the scenario, field by field. *)
Example memo_record_fields :
  mstructs Scenario.memoOutlined.1.2
  = [(100%N, ("_wyvern_thunk_type",
              [PointerTy (FunctionTy Examples.I32 [PointerTy (StructTy 100)]);
               Examples.I32; IntegerTy 1; Examples.I32; Examples.I32]))].
Proof. reflexivity. Qed.

(** ** Running thunk bodies *)

Lemma execInsts_compute args prev e0 ins rest env mem :
  isTerminator (ikind ins) = false →
  Exec.execInsts args prev e0 (ins :: rest) env mem =
    match Exec.compute args prev e0 env mem ins with
    | Some (Some x, mem') =>
        Exec.execInsts args prev e0 rest (<[iid ins := x]> env) mem'
    | Some (None, mem') => Exec.execInsts args prev e0 rest env mem'
    | None => Exec.Stuck
    end.
Proof. simpl. destruct (ikind ins); simpl; try discriminate; reflexivity. Qed.

(** Run the instruction at the head of a block whose instructions are
    known. *)
Ltac exec_step :=
  rewrite execInsts_compute by reflexivity;
  cbn -[Exec.wrap lookup insert Exec.execInsts];
  repeat match goal with
         | |- context [(?x :: ?l) !! 0%nat] =>
             change ((x :: l) !! 0%nat) with (Some x)
         | |- context [Z.to_nat (Zpos ?p)] =>
             let n := eval vm_compute in (Z.to_nat (Zpos p)) in
             change (Z.to_nat (Zpos p)) with n
         end;
  cbn -[Exec.wrap lookup insert Exec.execInsts];
  rewrite ?lookup_insert_eq;
  repeat (rewrite lookup_insert_ne by done; rewrite ?lookup_insert_eq);
  cbn -[Exec.wrap lookup insert Exec.execInsts].

Ltac enter_block :=
  cbn [head fblocks mbind option_bind bid Exec.run];
  match goal with
  | |- context [findBlock ?F ?b] =>
      let x := eval vm_compute in (findBlock F b) in
      change (findBlock F b) with x
  end;
  cbn [binsts].

(** The thunk body of the scenario without memoization returns
    [a * b + 1], in 32 bits, from a record that holds [a] and [b] in
    slots 1 and 2. *)
Lemma plain_thunk_returns (a b : Z) (r : N) (mem : Exec.Memory) :
  mem !! (r, 1%nat) = Some (Exec.RInt a) →
  mem !! (r, 2%nat) = Some (Exec.RInt b) →
  Exec.invoke 1 (Scenario.functionAfter Scenario.plainRun 101) r mem
  = Some (Exec.RInt (Exec.wrap Examples.I32 (Exec.wrap Examples.I32 (a * b) + 1)),
          mem, [102%N]).
Proof.
  intros Ha Hb.
  change (Scenario.functionAfter Scenario.plainRun 101)
    with ltac:(let x := eval vm_compute in
                 (Scenario.functionAfter Scenario.plainRun 101) in exact x).
  unfold Exec.invoke. enter_block.
  exec_step. exec_step. rewrite Ha. cbn -[Exec.wrap lookup insert Exec.execInsts].
  exec_step. exec_step. rewrite Hb. cbn -[Exec.wrap lookup insert Exec.execInsts].
  exec_step. exec_step.
  cbn -[Exec.wrap lookup insert].
  rewrite lookup_insert_eq. reflexivity.
Qed.

(** ** The call-site rewriter on the scenario *)

Ltac conjuncts := repeat match goal with |- _ ∧ _ => split end.

Ltac among :=
  apply list_elem_of_In; vm_compute;
  repeat (first [left; reflexivity | right]).

(** C1.  With memoization, the rewritten call targets the clone of the
    callee and receives the address of the record allocated before it.
    Without memoization the rewritten call targets the clone as well, but
    its operand is the thunk body itself, and the caller allocates no
    record. *)
Theorem rewritten_call_operand :
  (@Lazyfication.runOnModule Examples.straightLine true (λ _, true)
     Examples.oneCandidate Examples.draws (Examples.start Examples.caller)
     Examples.arena = Ok Scenario.memoRun
   ∧ Scenario.memoRun.1.1 = true
   ∧ fname (Scenario.functionAfter Scenario.memoRun 122)
     = "_wyvern_calleeclone_callee_0"
   ∧ ikind <$> findInst (Scenario.functionAfter Scenario.memoRun 10) 14
     = Some (CallInst (getFunctionType (Scenario.functionAfter Scenario.memoRun 122))
                      (FunctionV 122) [InstructionV 129] noAttrs)
   ∧ ikind <$> findInst (Scenario.functionAfter Scenario.memoRun 10) 129
     = Some (AllocaInst (StructTy 100)))
  ∧ (@Lazyfication.runOnModule Examples.straightLine false (λ _, true)
       Examples.oneCandidate Examples.draws (Examples.start Examples.caller)
       Examples.arena = Ok Scenario.plainRun
     ∧ Scenario.plainRun.1.1 = true
     ∧ fname (Scenario.functionAfter Scenario.plainRun 112)
       = "_wyvern_calleeclone_callee_0"
     ∧ fname (Scenario.functionAfter Scenario.plainRun 101)
       = "_wyvern_slice_caller_x7"
     ∧ ikind <$> findInst (Scenario.functionAfter Scenario.plainRun 10) 14
       = Some (CallInst (getFunctionType (Scenario.functionAfter Scenario.plainRun 112))
                        (FunctionV 112) [FunctionV 101] noAttrs)
     ∧ Forall (λ ins, isAlloca (ikind ins) = false)
              (allInsts (Scenario.functionAfter Scenario.plainRun 10))).
Proof.
  conjuncts; try (vm_compute; reflexivity).
  apply Forall_forall. intros ins Hin.
  apply list_elem_of_In in Hin. vm_compute in Hin.
  repeat destruct Hin as [<-|Hin]; try reflexivity. destruct Hin.
Qed.

(** C2.  On the scenario with memoization the slice captures the two
    parameters of the caller and the thunk body reads them from slots 3 and
    4 of its record, but the caller stores only the thunk body, through an
    address computed with the single index 0, and an 8-bit zero, through an
    address computed with the single index 2: no store fills a
    captured-argument slot.  Without memoization the caller stores
    nothing. *)
Theorem record_slots_written_at_call_site :
  @Lazyfication.runOnModule Examples.straightLine true (λ _, true)
    Examples.oneCandidate Examples.draws (Examples.start Examples.caller)
    Examples.arena = Ok Scenario.memoRun
  ∧ _depArgs Scenario.xSlice = [(10%N, 0%nat); (10%N, 1%nat)]
  ∧ loadsSlot (Scenario.functionAfter Scenario.memoRun 101) 3 Examples.I32
  ∧ loadsSlot (Scenario.functionAfter Scenario.memoRun 101) 4 Examples.I32
  ∧ (iname <$> allInsts (Scenario.functionAfter Scenario.memoRun 10))
    = ["m"; "x"; "_thunk_alloca"; "_thunk_fptr_gep"; ""; "_thunk_flag_gep"; "";
       "c"; ""]
  ∧ Scenario.storesOf (Scenario.functionAfter Scenario.memoRun 10)
    = [(FunctionV 101, Some (GetElementPtrInst (InstructionV 129) [i32 0]));
       (i8 0, Some (GetElementPtrInst (InstructionV 129) [i32 2]))]
  ∧ Scenario.storesOf (Scenario.functionAfter Scenario.plainRun 10) = [].
Proof.
  split; [vm_compute; reflexivity|]. split; [reflexivity|].
  split.
  { exists (mkInst 108 "_wyvern_arg_addr_a" (PointerTy Examples.I32)
              (GetElementPtrInst (ArgumentV 101 0) [i32 0; i32 3])),
           (mkInst 109 "_wyvern_arg_a" Examples.I32 (LoadInst (InstructionV 108))),
           (ArgumentV 101 0).
    split; [among|]. split; [among|]. conjuncts; reflexivity. }
  split.
  { exists (mkInst 110 "_wyvern_arg_addr_b" (PointerTy Examples.I32)
              (GetElementPtrInst (ArgumentV 101 0) [i32 0; i32 4])),
           (mkInst 111 "_wyvern_arg_b" Examples.I32 (LoadInst (InstructionV 110))),
           (ArgumentV 101 0).
    split; [among|]. split; [among|]. conjuncts; reflexivity. }
  conjuncts; vm_compute; reflexivity.
Qed.

(** C4.  On [caller2] the first candidate is lazified and the second is
    refused by the validator (its operand is a load): [runOnModule] returns
    false, the result of the last candidate, although the module has two
    more functions, a record type, and a rewritten caller. *)
Theorem unchanged_result_with_changed_module :
  @Lazyfication.runOnModule Examples.straightLine true (λ _, true)
    Examples.twoCandidates Examples.draws (Examples.start Examples.caller2)
    Examples.arena = Ok Scenario.twoRun
  ∧ Scenario.twoRun.1.1 = false
  ∧ module Scenario.twoRun.1.2 ≠ module (Examples.start Examples.caller2)
  ∧ (fname <$> mfuncs (module Scenario.twoRun.1.2))
    = ["callee"; "caller2"; "_wyvern_slice_memo_caller2_x7";
       "_wyvern_calleeclone_callee_0"]
  ∧ NumCallsitesLazified (statistics Scenario.twoRun.1.2) = 1.
Proof.
  split; [vm_compute; reflexivity|]. split; [reflexivity|].
  split; [|conjuncts; vm_compute; reflexivity].
  intros Heq. apply (f_equal (λ M, length (mfuncs M))) in Heq.
  vm_compute in Heq. discriminate Heq.
Qed.

(** C9 as stated fails when [a] and [b] are the parameters of the caller:
    the thunk body has seven instructions and both statistics are 7. *)
Lemma constant_folding_counterexample :
  @Lazyfication.runOnModule Examples.straightLine false (λ _, true)
    Examples.oneCandidate Examples.draws (Examples.start Examples.caller)
    Examples.arena = Ok Scenario.plainRun
  ∧ length (allInsts (Scenario.functionAfter Scenario.plainRun 101)) = 7%nat
  ∧ SmallestSliceSize (statistics Scenario.plainRun.1.2) = 7
  ∧ LargestSliceSize (statistics Scenario.plainRun.1.2) = 7
  ∧ ¬ (length (allInsts (Scenario.functionAfter Scenario.plainRun 101)) = 3%nat
       ∧ SmallestSliceSize (statistics Scenario.plainRun.1.2) = 3
       ∧ LargestSliceSize (statistics Scenario.plainRun.1.2) = 3).
Proof.
  conjuncts; try (vm_compute; reflexivity).
  intros (Hlen & _). vm_compute in Hlen. discriminate Hlen.
Qed.

(** C9, amended.  Without memoization, on the caller that computes
    [x = a * b + 1] and passes [x] to the callee: when [a] and [b] are
    constants the thunk body is the multiplication, the addition and the
    return, and both statistics are 3; when [a] and [b] are the two
    parameters of the caller the body first computes the address of and
    loads each of them from slots 1 and 2 of the record, seven instructions
    in all, and both statistics are 7.  In both cases the body returns
    [a * b + 1], in 32 bits. *)
Theorem constant_folding_scenario :
  (∀ z1 z2 : Z,
     ∃ st next thunk,
       @Lazyfication.runOnModule Examples.straightLine false (λ _, true)
         Examples.oneCandidate Examples.draws
         (Examples.start (Scenario.callerOn [] (i32 z1) (i32 z2))) Examples.arena
         = Ok ((true, st), next)
       ∧ findFunction (module st) 101 = Some thunk
       ∧ ikind <$> allInsts thunk
         = [BinaryOperator Mul (i32 z1) (i32 z2);
            BinaryOperator Add (InstructionV 103) (i32 1);
            ReturnInst (Some (InstructionV 104))]
       ∧ getNumberOfInsts thunk = 3
       ∧ SmallestSliceSize (statistics st) = 3
       ∧ LargestSliceSize (statistics st) = 3
       ∧ ∀ r mem,
           Exec.invoke 1 thunk r mem
           = Some (Exec.RInt (Exec.wrap Examples.I32
                                (Exec.wrap Examples.I32 (z1 * z2) + 1)),
                   mem, [102%N]))
  ∧ (@Lazyfication.runOnModule Examples.straightLine false (λ _, true)
       Examples.oneCandidate Examples.draws (Examples.start Examples.caller)
       Examples.arena = Ok Scenario.plainRun
     ∧ Scenario.plainRun.1.1 = true
     ∧ ikind <$> allInsts (Scenario.functionAfter Scenario.plainRun 101)
       = [GetElementPtrInst (ArgumentV 101 0) [i32 0; i32 1];
          LoadInst (InstructionV 108);
          GetElementPtrInst (ArgumentV 101 0) [i32 0; i32 2];
          LoadInst (InstructionV 110);
          BinaryOperator Mul (InstructionV 109) (InstructionV 111);
          BinaryOperator Add (InstructionV 103) (i32 1);
          ReturnInst (Some (InstructionV 104))]
     ∧ getNumberOfInsts (Scenario.functionAfter Scenario.plainRun 101) = 7
     ∧ SmallestSliceSize (statistics Scenario.plainRun.1.2) = 7
     ∧ LargestSliceSize (statistics Scenario.plainRun.1.2) = 7
     ∧ ∀ (a b : Z) (r : N) (mem : Exec.Memory),
         Exec.invoke 1 (Scenario.functionAfter Scenario.plainRun 101) r
           (<[(r, 1%nat) := Exec.RInt a]> (<[(r, 2%nat) := Exec.RInt b]> mem))
         = Some (Exec.RInt (Exec.wrap Examples.I32
                              (Exec.wrap Examples.I32 (a * b) + 1)),
                 <[(r, 1%nat) := Exec.RInt a]> (<[(r, 2%nat) := Exec.RInt b]> mem),
                 [102%N])).
Proof.
  split.
  - intros z1 z2. eexists _, _, _.
    split; [vm_compute; reflexivity|].
    split; [vm_compute; reflexivity|].
    split; [vm_compute; reflexivity|].
    split; [vm_compute; reflexivity|].
    split; [vm_compute; reflexivity|].
    split; [vm_compute; reflexivity|].
    intros r mem. unfold Exec.invoke. enter_block.
    exec_step. exec_step.
    cbn -[Exec.wrap lookup insert].
    rewrite lookup_insert_eq. reflexivity.
  - do 6 (split; [vm_compute; reflexivity|]).
    intros a b r mem. apply plain_thunk_returns.
    + apply lookup_insert_eq.
    + rewrite lookup_insert_ne by (intros [= ?]; done). apply lookup_insert_eq.
Qed.

(** ** Memo idempotence *)

Lemma execInsts_terminator args prev e0 ins rest env mem :
  Exec.execInsts args prev e0 (ins :: rest) env mem =
    match ikind ins with
    | ReturnInst (Some v) =>
        match Exec.evalOperand args env v with
        | Some x => Exec.Returned x mem
        | None => Exec.Stuck
        end
    | ReturnInst None => Exec.Returned Exec.RUndef mem
    | BranchInst d => Exec.Goto d env mem
    | CondBranchInst c t e =>
        match Exec.evalOperand args env c with
        | Some (Exec.RInt z) => Exec.Goto (if Exec.isTrue z then t else e) env mem
        | _ => Exec.Stuck
        end
    | SwitchInst c d cases =>
        match Exec.evalOperand args env c with
        | Some (Exec.RInt z) =>
            Exec.Goto (default d (snd <$> (snd <$> list_find (λ e : Z * ptr, e.1 = z) cases)))
                      env mem
        | _ => Exec.Stuck
        end
    | UnreachableInst => Exec.Stuck
    | _ =>
        match Exec.compute args prev e0 env mem ins with
        | Some (Some x, mem') =>
            Exec.execInsts args prev e0 rest (<[iid ins := x]> env) mem'
        | Some (None, mem') => Exec.execInsts args prev e0 rest env mem'
        | None => Exec.Stuck
        end
    end.
Proof. reflexivity. Qed.

Lemma insertBeforeIn_notin (pos : ptr) (new l : list Instruction) :
  pos ∉ iid <$> l → insertBeforeIn pos new l = l.
Proof.
  induction l as [|i l IH]; simpl; [done|]. intros Hn.
  apply not_elem_of_cons in Hn as [Hne Hn].
  destruct (decide (iid i = pos)); [congruence|]. by rewrite IH.
Qed.

Lemma insertBeforeIn_here (pos : ptr) (new l : list Instruction)
    (ins : Instruction) :
  iid ins = pos → insertBeforeIn pos new (ins :: l) = new ++ ins :: l.
Proof. intros Hp. simpl. by destruct (decide (iid ins = pos)). Qed.

Lemma insertBeforeIn_later (pos : ptr) (new l : list Instruction)
    (ins : Instruction) :
  iid ins ≠ pos →
  insertBeforeIn pos new (ins :: l) = ins :: insertBeforeIn pos new l.
Proof. intros Hp. simpl. by destruct (decide (iid ins = pos)). Qed.

Lemma findBlock_insertBefore (pos : ptr) (new : list Instruction) (G : Function)
    (b : ptr) :
  findBlock (insertBefore pos new G) b
  = (λ BB, mkBB (bid BB) (bname BB) (insertBeforeIn pos new (binsts BB)))
      <$> findBlock G b.
Proof.
  unfold findBlock, insertBefore, mapBlocks. simpl.
  rewrite list_find_fmap. rewrite <- !option_fmap_compose.
  apply option_fmap_ext. by intros [i BB].
Qed.

Lemma findBlock_cons (G : Function) (BB : BasicBlock) (rest : list BasicBlock)
    (b : ptr) :
  fblocks G = BB :: rest →
  findBlock G b =
    if decide (bid BB = b) then Some BB
    else findBlock (mkFunction (fid G) (fname G) (fret G) (fargs G) rest) b.
Proof.
  unfold findBlock. intros ->. simpl.
  destruct (decide (bid BB = b)); [done|].
  rewrite <- !option_fmap_compose. by destruct (list_find _ rest) as [[]|].
Qed.

Lemma findBlock_elem (G : Function) (b : ptr) (BB : BasicBlock) :
  findBlock G b = Some BB → BB ∈ fblocks G ∧ bid BB = b.
Proof.
  unfold findBlock. destruct (list_find _ _) as [[i B]|] eqn:Hf; [|discriminate].
  simpl. intros [= <-]. apply list_find_Some in Hf as (Hl & Hb & _).
  split; [|done]. eapply list_elem_of_lookup_2. exact Hl.
Qed.

Lemma findInst_elem (G : Function) (i : ptr) (ins : Instruction) :
  findInst G i = Some ins → ins ∈ allInsts G ∧ iid ins = i.
Proof.
  unfold findInst. destruct (list_find _ _) as [[j x]|] eqn:Hf; [|discriminate].
  simpl. intros [= <-]. apply list_find_Some in Hf as (Hl & Hb & _).
  split; [|done]. eapply list_elem_of_lookup_2. exact Hl.
Qed.

Lemma unique_by_id (l : list Instruction) (x y : Instruction) :
  NoDup (iid <$> l) → x ∈ l → y ∈ l → iid x = iid y → x = y.
Proof.
  induction l as [|i l IH]; simpl; intros Hnd Hx Hy Hid.
  - by apply elem_of_nil in Hx.
  - apply NoDup_cons in Hnd as [Hni Hnd].
    apply elem_of_cons in Hx as [->|Hx]; apply elem_of_cons in Hy as [->|Hy];
      try done.
    + exfalso. apply Hni. rewrite Hid. apply list_elem_of_fmap. eauto.
    + exfalso. apply Hni. rewrite <- Hid. apply list_elem_of_fmap. eauto.
    + by apply IH.
Qed.

Lemma head_insertBefore (pos : ptr) (new : list Instruction) (G : Function) :
  head (fblocks (insertBefore pos new G))
  = (λ BB, mkBB (bid BB) (bname BB) (insertBeforeIn pos new (binsts BB)))
      <$> head (fblocks G).
Proof. unfold insertBefore, mapBlocks. simpl. by destruct (fblocks G). Qed.

(** What [addMemoizationCode] returns when field 2 of the record is the
    one-bit flag. *)
Lemma addMemoizationCode_shape (fields : list Type_) (F : Function)
    (new_ret n : ptr) (F' : Function) (n' : ptr) :
  Outliner.addMemoizationCode fields F new_ret n = Ok (F', n') →
  fields !! 2%nat = Some (IntegerTy 1) →
  ∃ oldEntry valTy ret retValue st1 st2,
    head (fblocks F) = Some oldEntry
    ∧ findInst F new_ret = Some ret
    ∧ ikind ret = ReturnInst (Some retValue)
    ∧ ikind st1 = StoreInst (i1 1)
                    (InstructionV (N.succ (N.succ (N.succ (N.succ n)))))
    ∧ ikind st2 = StoreInst retValue (InstructionV (N.succ (N.succ n)))
    ∧ F' = memoized F new_ret n valTy (bid oldEntry) st1 st2.
Proof.
  unfold Outliner.addMemoizationCode. intros Hm Hflag.
  destruct (fargs F) as [|[aname [| | t | | |]] rest] eqn:Hargs;
    try discriminate.
  apply bind_Ok in Hm as (oldEntry & n1 & Ho & Hm).
  apply orAbort_Ok in Ho as [Ho ?]. simpl in *. subst n1.
  apply bind_Ok in Hm as (newEntry' & n2 & Hf1 & Hm). injection Hf1 as <- <-.
  apply bind_Ok in Hm as (memoRetBlock' & n3 & Hf2 & Hm). injection Hf2 as <- <-.
  apply bind_Ok in Hm as (valTy & n4 & Hv & Hm).
  apply orAbort_Ok in Hv as [Hv ?]. simpl in *. subst n4.
  apply bind_Ok in Hm as (flagTy & n5 & Hfl & Hm).
  apply orAbort_Ok in Hfl as [Hfl ?]. simpl in *. subst n5.
  assert (flagTy = IntegerTy 1) as -> by congruence.
  apply bind_Ok in Hm as (g1 & n6 & Hf & Hm). injection Hf as <- <-.
  apply bind_Ok in Hm as (l1 & n7 & Hf & Hm). injection Hf as <- <-.
  apply bind_Ok in Hm as (g2 & n8 & Hf & Hm). injection Hf as <- <-.
  apply bind_Ok in Hm as (l2 & n9 & Hf & Hm). injection Hf as <- <-.
  apply bind_Ok in Hm as ([toBool cast] & n10 & Hc & Hm).
  unfold Outliner.CreateTruncOrBitCast in Hc. simpl in Hc. injection Hc as <- <- <-.
  apply bind_Ok in Hm as (br & n11 & Hf & Hm). injection Hf as <- <-.
  apply bind_Ok in Hm as (rt & n12 & Hf & Hm). injection Hf as <- <-.
  apply bind_Ok in Hm as (s1 & n13 & Hf & Hm). injection Hf as <- <-.
  apply bind_Ok in Hm as (s2 & n14 & Hf & Hm). injection Hf as <- <-.
  apply bind_Ok in Hm as (ret & n15 & Hr & Hm).
  apply orAbort_Ok in Hr as [Hr ?]. simpl in *. subst n15.
  apply bind_Ok in Hm as (retValue & n16 & Hrv & Hm).
  destruct (ikind ret) as [| | | | | | | | | | | | |[rv|]|] eqn:Hk; try discriminate.
  injection Hrv as <- <-. injection Hm as <- <-.
  eexists oldEntry, valTy, ret, rv, _, _.
  split; [exact Ho|]. split; [exact Hr|]. split; [exact Hk|].
  split; [|split]; [| |unfold memoized; rewrite Hargs; reflexivity];
    reflexivity.
Qed.

Lemma addressesKept_insert (n : ptr) (r : N) (env : Exec.Env) (i : ptr)
    (x : Exec.RtVal) :
  (i < n)%N → addressesKept n r env → addressesKept n r (<[i := x]> env).
Proof.
  intros Hi [Hv Hf]. split; intros y Hy.
  - rewrite lookup_insert_ne in Hy by lia. auto.
  - rewrite lookup_insert_ne in Hy by lia. auto.
Qed.

Section SlowPath.

Variables (F : Function) (new_ret n : ptr) (r : N).
Variables (ret st1 st2 : Instruction) (retValue : Value).

Hypothesis Hbelow : below n F.
Hypothesis Honly : onlyReturn F new_ret.
Hypothesis Hnodup : NoDup (iid <$> allInsts F).
Hypothesis Hfind : findInst F new_ret = Some ret.
Hypothesis Hret : ikind ret = ReturnInst (Some retValue).
Hypothesis Hst1 :
  ikind st1 = StoreInst (i1 1) (InstructionV (N.succ (N.succ (N.succ (N.succ n))))).
Hypothesis Hst2 :
  ikind st2 = StoreInst retValue (InstructionV (N.succ (N.succ n))).

Lemma old_block_leaves_well (args : list Exec.RtVal) (prev : option ptr)
    (e0 : Exec.Env) (l : list Instruction) :
  (∀ ins, ins ∈ l → ins ∈ allInsts F) →
  ∀ env mem, addressesKept n r env →
    leavesWell n r (Exec.execInsts args prev e0
                      (insertBeforeIn new_ret [st1; st2] l) env mem).
Proof.
  induction l as [|ins l IH]; intros Hl env mem Hinv; [exact I|].
  assert (HinF : ins ∈ allInsts F) by (apply Hl, elem_of_cons; by left).
  assert (Hrest : ∀ i, i ∈ l → i ∈ allInsts F)
    by (intros i Hi; apply Hl, elem_of_cons; by right).
  destruct Hbelow as [Hinsts _].
  rewrite Forall_forall in Hinsts. destruct (Hinsts ins HinF) as [Hid Hsucc].
  rewrite Forall_forall in Hsucc.
  unfold onlyReturn in Honly. rewrite Forall_forall in Honly.
  destruct (decide (iid ins = new_ret)) as [Heq|Hne].
  - (* the return instruction, now behind the two stores *)
    rewrite insertBeforeIn_here by done.
    destruct (findInst_elem _ _ _ Hfind) as [HretF Hretid].
    assert (ins = ret) as ->
      by (apply (unique_by_id (allInsts F)); auto; congruence).
    change ([st1; st2] ++ ret :: l) with (st1 :: st2 :: ret :: l).
    rewrite (execInsts_compute args prev e0 st1); [|by rewrite Hst1].
    unfold Exec.compute at 1. rewrite Hst1. cbn [Exec.evalOperand i1].
    destruct (env !! N.succ (N.succ (N.succ (N.succ n)))) as [fa|] eqn:Hfa;
      [|exact I].
    rewrite (proj2 Hinv _ Hfa). cbv beta iota.
    rewrite (execInsts_compute args prev e0 st2); [|by rewrite Hst2].
    unfold Exec.compute at 1. rewrite Hst2. cbv zeta.
    destruct (Exec.evalOperand args env retValue) as [v|] eqn:Hv; [|exact I].
    cbn [Exec.evalOperand].
    destruct (env !! N.succ (N.succ n)) as [va|] eqn:Hva; [|exact I].
    rewrite (proj1 Hinv _ Hva). cbv beta iota.
    rewrite execInsts_terminator, Hret, Hv. simpl. split.
    + rewrite lookup_insert_ne by (intros [= ?]; done). apply lookup_insert_eq.
    + apply lookup_insert_eq.
  - rewrite insertBeforeIn_later by done.
    destruct (isTerminator (ikind ins)) eqn:Hterm.
    + rewrite execInsts_terminator.
      destruct (ikind ins) eqn:Hk; try discriminate Hterm.
      * split; [|done]. apply Hsucc. simpl. apply elem_of_cons. by left.
      * destruct (Exec.evalOperand args env cond) as [[z| | | |]|]; try exact I.
        split; [|done]. apply Hsucc. simpl.
        destruct (Exec.isTrue z); repeat (apply elem_of_cons; first [by left|right]).
      * destruct (Exec.evalOperand args env cond) as [[z| | | |]|]; try exact I.
        split; [|done]. apply Hsucc. simpl.
        destruct (list_find _ cases) as [[j c]|] eqn:Hc; simpl.
        -- apply elem_of_cons. right. apply list_find_Some in Hc as (Hc & _).
           apply list_elem_of_fmap. exists c. split; [done|].
           eapply list_elem_of_lookup_2. exact Hc.
        -- apply elem_of_cons. by left.
      * exfalso. apply Hne, Honly; [done|]. by rewrite Hk.
      * exact I.
    + rewrite (execInsts_compute args prev e0 ins) by done.
      destruct (Exec.compute args prev e0 env mem ins) as [[[x|] mem']|];
        [| |exact I].
      * apply IH; [done|]. by apply addressesKept_insert.
      * by apply IH.
Qed.

(** A run that starts in the old body and returns has set the flag and
    cached the value it returns. *)
Lemma old_body_caches (args : list Exec.RtVal) (F' : Function) :
  (∀ b, (b < n)%N →
     findBlock F' b
     = (λ BB, mkBB (bid BB) (bname BB) (insertBeforeIn new_ret [st1; st2] (binsts BB)))
         <$> findBlock F b) →
  ∀ fuel b prev env mem trace v mem' trace',
    (b < n)%N → addressesKept n r env →
    Exec.run fuel F' args b prev env mem trace = Some (v, mem', trace') →
    mem' !! (r, 2%nat) = Some (Exec.RInt 1) ∧ mem' !! (r, 1%nat) = Some v.
Proof.
  intros Hblocks. induction fuel as [|fuel IH];
    intros b prev env mem trace v mem' trace' Hb Hinv Hrun; [discriminate|].
  simpl in Hrun. rewrite (Hblocks b Hb) in Hrun.
  destruct (findBlock F b) as [BB|] eqn:HBB; [|discriminate]. simpl in Hrun.
  apply findBlock_elem in HBB as [HBB _].
  pose proof (old_block_leaves_well args prev env (binsts BB)) as Hwell.
  specialize (Hwell (λ ins Hin, proj2 (elem_of_allInsts F ins)
                                   (ex_intro _ BB (conj HBB Hin))) env mem Hinv).
  destruct (Exec.execInsts _ _ _ _ _ _) as [d env1 mem1|v1 mem1|];
    [| |discriminate].
  - destruct Hwell as [Hd Hinv1]. eapply IH; [exact Hd|exact Hinv1|exact Hrun].
  - injection Hrun as <- <- <-. exact Hwell.
Qed.

End SlowPath.

Lemma prologue_exit (n : ptr) (r : N) (fn : ptr) (valTy : Type_)
    (oldEntry : ptr) (mem : Exec.Memory) :
  Exec.execInsts [Exec.RRecord r] None ∅ (prologue n fn valTy oldEntry) ∅ mem =
    match default Exec.RUndef (mem !! (r, 2%nat)) with
    | Exec.RInt z =>
        Exec.Goto (if Exec.isTrue z then N.succ n else oldEntry)
                  (prologueEnv n r mem) mem
    | _ => Exec.Stuck
    end.
Proof.
  unfold prologue, prologueEnv.
  rewrite (execInsts_compute [Exec.RRecord r]) by reflexivity.
  cbn [Exec.compute ikind iid ity Exec.evalOperand i32].
  change ([Exec.RRecord r] !! 0%nat) with (Some (Exec.RRecord r)). cbv beta iota.
  change (Z.to_nat 1) with 1%nat.
  rewrite (execInsts_compute [Exec.RRecord r]) by reflexivity.
  cbn [Exec.compute ikind iid ity Exec.evalOperand i32].
  rewrite lookup_insert_eq. cbv beta iota.
  rewrite (execInsts_compute [Exec.RRecord r]) by reflexivity.
  cbn [Exec.compute ikind iid ity Exec.evalOperand i32].
  change ([Exec.RRecord r] !! 0%nat) with (Some (Exec.RRecord r)). cbv beta iota.
  change (Z.to_nat 2) with 2%nat.
  rewrite (execInsts_compute [Exec.RRecord r]) by reflexivity.
  cbn [Exec.compute ikind iid ity Exec.evalOperand i32].
  rewrite lookup_insert_eq. cbv beta iota.
  rewrite (execInsts_terminator [Exec.RRecord r]). cbn [ikind Exec.evalOperand].
  rewrite lookup_insert_eq. reflexivity.
Qed.

Lemma memoized_entry F new_ret n valTy oldEntry st1 st2 :
  (new_ret < n)%N →
  findBlock (memoized F new_ret n valTy oldEntry st1 st2) n
  = Some (mkBB n "_wyvern_memo_entry" (prologue n (fid F) valTy oldEntry)).
Proof.
  intros Hlt. unfold memoized. rewrite findBlock_insertBefore.
  erewrite findBlock_cons by reflexivity. cbn [bid].
  destruct (decide (n = n)); [|done].
  cbn [fmap option_fmap option_map bid bname binsts].
  rewrite insertBeforeIn_notin; [done|]. unfold prologue. simpl. intros Hin.
  repeat (apply elem_of_cons in Hin as [?|Hin]; [lia|]).
  by apply elem_of_nil in Hin.
Qed.

Lemma memoized_ret F new_ret n valTy oldEntry st1 st2 :
  (new_ret < n)%N →
  findBlock (memoized F new_ret n valTy oldEntry st1 st2) (N.succ n)
  = Some (mkBB (N.succ n) "_wyvern_memo_ret"
            [mkInst (N.succ (N.succ (N.succ (N.succ (N.succ (N.succ (N.succ n)))))))
               "" VoidTy
               (ReturnInst (Some (InstructionV (N.succ (N.succ (N.succ n))))))]).
Proof.
  intros Hlt. unfold memoized. rewrite findBlock_insertBefore.
  erewrite findBlock_cons by reflexivity. cbn [bid].
  destruct (decide (n = N.succ n)); [lia|].
  erewrite findBlock_cons by reflexivity. cbn [bid].
  destruct (decide (N.succ n = N.succ n)); [|done].
  cbn [fmap option_fmap option_map bid bname binsts].
  rewrite insertBeforeIn_notin; [done|]. simpl. intros Hin.
  repeat (apply elem_of_cons in Hin as [?|Hin]; [lia|]).
  by apply elem_of_nil in Hin.
Qed.

Lemma memoized_old F new_ret n valTy oldEntry st1 st2 b :
  (b < n)%N →
  findBlock (memoized F new_ret n valTy oldEntry st1 st2) b
  = (λ BB, mkBB (bid BB) (bname BB) (insertBeforeIn new_ret [st1; st2] (binsts BB)))
      <$> findBlock F b.
Proof.
  intros Hlt. unfold memoized. rewrite findBlock_insertBefore. f_equal.
  erewrite findBlock_cons by reflexivity. cbn [bid].
  destruct (decide (n = b)); [lia|].
  erewrite findBlock_cons by reflexivity. cbn [bid].
  destruct (decide (N.succ n = b)); [lia|].
  by destruct F.
Qed.

Lemma memoized_head F new_ret n valTy oldEntry st1 st2 :
  bid <$> head (fblocks (memoized F new_ret n valTy oldEntry st1 st2)) = Some n.
Proof. unfold memoized. by rewrite head_insertBefore. Qed.

(** An invocation on a record whose flag is set runs the new entry block,
    then the block that returns the cached value, and nothing else. *)
Lemma fast_path F new_ret n valTy oldEntry st1 st2 r mem z fuel :
  (new_ret < n)%N →
  mem !! (r, 2%nat) = Some (Exec.RInt z) → Exec.isTrue z = true →
  Exec.invoke (S (S fuel)) (memoized F new_ret n valTy oldEntry st1 st2) r mem
  = Some (default Exec.RUndef (mem !! (r, 1%nat)), mem, [n; N.succ n]).
Proof.
  intros Hlt Hflag Hz. unfold Exec.invoke.
  pose proof (memoized_head F new_ret n valTy oldEntry st1 st2) as Hh.
  destruct (head _) as [entry|]; [|discriminate]. injection Hh as Hb.
  cbn [mbind option_bind]. rewrite Hb. cbn [Exec.run].
  rewrite memoized_entry by done. cbn [binsts].
  rewrite (prologue_exit n r), Hflag. cbn [default from_option id]. rewrite Hz.
  rewrite memoized_ret by done. cbn [binsts].
  rewrite (execInsts_terminator [Exec.RRecord r]). cbn [ikind Exec.evalOperand].
  unfold prologueEnv.
  rewrite lookup_insert_ne by lia. rewrite lookup_insert_ne by lia.
  rewrite lookup_insert_eq. reflexivity.
Qed.

Lemma prologueEnv_keeps (n : ptr) (r : N) (mem : Exec.Memory) :
  addressesKept n r (prologueEnv n r mem).
Proof.
  unfold prologueEnv. split; intros x Hx.
  - rewrite lookup_insert_ne in Hx by lia. rewrite lookup_insert_ne in Hx by lia.
    rewrite lookup_insert_ne in Hx by lia. rewrite lookup_insert_eq in Hx.
    congruence.
  - rewrite lookup_insert_ne in Hx by lia. rewrite lookup_insert_eq in Hx.
    congruence.
Qed.

(** After an invocation that returns, the flag of the record is set and
    its cached value is the value returned. *)
Lemma invocation_caches F new_ret n valTy oldEntry st1 st2 ret retValue r
    fuel mem v mem1 trace :
  below n F → onlyReturn F new_ret → NoDup (iid <$> allInsts F) →
  findInst F new_ret = Some ret →
  ikind ret = ReturnInst (Some retValue) →
  ikind st1 = StoreInst (i1 1)
                (InstructionV (N.succ (N.succ (N.succ (N.succ n))))) →
  ikind st2 = StoreInst retValue (InstructionV (N.succ (N.succ n))) →
  (oldEntry < n)%N →
  Exec.invoke fuel (memoized F new_ret n valTy oldEntry st1 st2) r mem
    = Some (v, mem1, trace) →
  ∃ z, mem1 !! (r, 2%nat) = Some (Exec.RInt z) ∧ Exec.isTrue z = true
       ∧ default Exec.RUndef (mem1 !! (r, 1%nat)) = v.
Proof.
  intros Hbelow Honly Hnodup Hfind Hret Hst1 Hst2 Hold Hinv.
  assert (Hlt : (new_ret < n)%N).
  { destruct (findInst_elem _ _ _ Hfind) as [Hin <-].
    destruct Hbelow as [Hb _]. rewrite Forall_forall in Hb.
    by destruct (Hb ret Hin). }
  unfold Exec.invoke in Hinv.
  pose proof (memoized_head F new_ret n valTy oldEntry st1 st2) as Hh.
  destruct (head _) as [entry|]; [|discriminate]. injection Hh as Hb.
  cbn [mbind option_bind] in Hinv. rewrite Hb in Hinv.
  destruct fuel as [|fuel]; [discriminate|]. cbn [Exec.run] in Hinv.
  rewrite memoized_entry in Hinv by done. cbn [binsts] in Hinv.
  rewrite (prologue_exit n r) in Hinv.
  destruct (mem !! (r, 2%nat)) as [[z| | | |]|] eqn:Hflag;
    cbn [default from_option id] in Hinv; try discriminate.
  destruct (Exec.isTrue z) eqn:Hz.
  - (* the flag was already set *)
    destruct fuel as [|fuel]; [discriminate|]. cbn [Exec.run] in Hinv.
    rewrite memoized_ret in Hinv by done. cbn [binsts] in Hinv.
    rewrite (execInsts_terminator [Exec.RRecord r]) in Hinv.
    cbn [ikind Exec.evalOperand] in Hinv. unfold prologueEnv in Hinv.
    rewrite lookup_insert_ne in Hinv by lia.
    rewrite lookup_insert_ne in Hinv by lia.
    rewrite lookup_insert_eq in Hinv. injection Hinv as <- <- <-.
    exists z. auto.
  - (* the body runs, stores, and returns *)
    exists 1.
    destruct (old_body_caches F new_ret n r ret st1 st2 retValue
                Hbelow Honly Hnodup Hfind Hret Hst1 Hst2 [Exec.RRecord r]
                (memoized F new_ret n valTy oldEntry st1 st2)
                (λ b Hb, memoized_old F new_ret n valTy oldEntry st1 st2 b Hb)
                fuel oldEntry (Some n) (prologueEnv n r mem) mem ([] ++ [n])
                v mem1 trace Hold (prologueEnv_keeps n r mem) Hinv)
      as [Hf Hv].
    split; [exact Hf|]. split; [reflexivity|]. by rewrite Hv.
Qed.

(** C3.  Let [F'] be the thunk body that [addMemoizationCode] makes of [F]
    at arena address [n]: its new entry block is at [n] and the block that
    returns the cached value at [n + 1].  Once an invocation of [F'] on a
    record has returned [v], every later invocation on that record
    returns, returns the same [v], enters those two blocks only, and leaves
    the record as it is: the rest of the body runs in the first invocation
    at most. *)
Theorem memo_idempotence (fields : list Type_) (F : Function)
    (new_ret n : ptr) (F' : Function) (n' : ptr) (r : N) (fuel : nat)
    (mem : Exec.Memory) (v : Exec.RtVal) (mem1 : Exec.Memory)
    (trace : list ptr) :
  Outliner.addMemoizationCode fields F new_ret n = Ok (F', n') →
  fields !! 2%nat = Some (IntegerTy 1) →
  below n F → onlyReturn F new_ret → NoDup (iid <$> allInsts F) →
  Exec.invoke fuel F' r mem = Some (v, mem1, trace) →
  bname <$> findBlock F' n = Some "_wyvern_memo_entry"
  ∧ bname <$> findBlock F' (N.succ n) = Some "_wyvern_memo_ret"
  ∧ ∀ k fuel', (2 ≤ fuel')%nat →
      Exec.invocations fuel' F' r k mem1
      = Some (replicate k (v, [n; N.succ n]), mem1).
Proof.
  intros Hm Hflag Hbelow Honly Hnodup Hinv.
  destruct (addMemoizationCode_shape _ _ _ _ _ _ Hm Hflag)
    as (oldEntry & valTy & ret & retValue & st1 & st2
        & Hhead & Hfind & Hret & Hst1 & Hst2 & ->).
  assert (Hlt : (new_ret < n)%N).
  { destruct (findInst_elem _ _ _ Hfind) as [Hin <-].
    destruct Hbelow as [Hb _]. rewrite Forall_forall in Hb.
    by destruct (Hb ret Hin). }
  assert (Hold : (bid oldEntry < n)%N).
  { destruct Hbelow as [_ Hb]. rewrite Forall_forall in Hb. apply Hb.
    destruct (fblocks F); [discriminate|]. injection Hhead as ->.
    apply elem_of_cons. by left. }
  split; [by rewrite memoized_entry|]. split; [by rewrite memoized_ret|].
  destruct (invocation_caches _ _ _ _ _ _ _ _ _ _ _ _ _ _ _
              Hbelow Honly Hnodup Hfind Hret Hst1 Hst2 Hold Hinv)
    as (z & Hz & Htrue & Hv).
  intros k fuel' Hfuel. destruct fuel' as [|[|fuel']]; [lia|lia|].
  induction k as [|k IH]; [reflexivity|].
  cbn [Exec.invocations replicate].
  rewrite (fast_path _ _ _ _ _ _ _ _ _ z) by done.
  cbn [mbind option_bind]. rewrite IH. by rewrite Hv.
Qed.

Lemma memo_idempotence_witness :
  Outliner.addMemoizationCode memoBuilt.1.2 memoBuilt.1.1.1.1 memoBuilt.1.1.1.2
      memoBuilt.2
    = Ok (Scenario.memoOutlined.1.1.1, 122%N)
  ∧ Exec.invoke 5 Scenario.memoOutlined.1.1.1 0 freshRecord
    = Some (Exec.RInt 43, cachedRecord, [112%N; 102%N])
  ∧ bname <$> findBlock Scenario.memoOutlined.1.1.1 112 = Some "_wyvern_memo_entry"
  ∧ bname <$> findBlock Scenario.memoOutlined.1.1.1 (N.succ 112)
    = Some "_wyvern_memo_ret"
  ∧ ∀ k fuel', (2 ≤ fuel')%nat →
      Exec.invocations fuel' Scenario.memoOutlined.1.1.1 0 k cachedRecord
      = Some (replicate k (Exec.RInt 43, [112%N; N.succ 112]), cachedRecord).
Proof.
  assert (Hm : Outliner.addMemoizationCode memoBuilt.1.2 memoBuilt.1.1.1.1
                 memoBuilt.1.1.1.2 memoBuilt.2
               = Ok (Scenario.memoOutlined.1.1.1, 122%N))
    by (vm_compute; reflexivity).
  assert (Hi : Exec.invoke 5 Scenario.memoOutlined.1.1.1 0 freshRecord
               = Some (Exec.RInt 43, cachedRecord, [112%N; 102%N]))
    by (vm_compute; reflexivity).
  split; [exact Hm|]. split; [exact Hi|].
  refine (memo_idempotence memoBuilt.1.2 memoBuilt.1.1.1.1 memoBuilt.1.1.1.2
            112 Scenario.memoOutlined.1.1.1 122 0 5 freshRecord (Exec.RInt 43)
            cachedRecord [112%N; 102%N] Hm _ _ _ _ Hi).
  - reflexivity.
  - apply (bool_decide_unpack _). vm_compute. reflexivity.
  - apply (bool_decide_unpack _). vm_compute. reflexivity.
  - apply (bool_decide_unpack _). vm_compute. reflexivity.
Defined.


(** ** The dependence traversal *)

Lemma vs_count_insert (v w : Value) (s : ValueSet) :
  vs_count v (vs_insert w s) = true ↔ (v = w ∧ isInstOrArg v = true) ∨ vs_count v s = true.
Proof.
  destruct v as [? ?|f1 k1|i1|?|?|?|], w as [? ?|f2 k2|i2|?|?|?|]; simpl;
    rewrite ?bool_decide_eq_true, ?elem_of_union, ?elem_of_singleton;
    (split; [intros Hv|intros [[Hv ?]|Hv]]); try discriminate; try congruence;
    try (by right); try (destruct Hv as [Hv|Hv]; [left; split; congruence|by right]);
    try (left; congruence).
Qed.

Lemma vs_count_isInstOrArg (v : Value) (s : ValueSet) :
  vs_count v s = true → isInstOrArg v = true.
Proof. by destruct v. Qed.

Lemma visitOperands_spec (ops : list Value) (visited : ValueSet)
    (to_visit : list Value) (visited1 : ValueSet) (to_visit1 : list Value) :
  Deps.visitOperands ops visited to_visit = (visited1, to_visit1) →
  (∀ v, vs_count v visited = true → vs_count v visited1 = true)
  ∧ (∀ v, v ∈ to_visit → v ∈ to_visit1)
  ∧ (∀ U, U ∈ ops → isInstOrArg U = true → vs_count U visited1 = true)
  ∧ (∀ v, vs_count v visited1 = true → vs_count v visited = true ∨ v ∈ to_visit1).
Proof.
  revert visited to_visit. induction ops as [|U ops IH]; intros visited to_visit Hv.
  - injection Hv as <- <-. split; [done|]. split; [done|]. split; [|by left].
    intros U HU. by apply elem_of_nil in HU.
  - simpl in Hv.
    destruct (negb (isInstOrArg U) || vs_count U visited) eqn:Hskip.
    + destruct (IH _ _ Hv) as (H1 & H2 & H3 & H4).
      split; [done|]. split; [done|]. split; [|done].
      intros V HV Hk. apply elem_of_cons in HV as [->|HV]; [|by apply H3].
      rewrite Hk in Hskip. simpl in Hskip. by apply H1.
    + destruct (IH _ _ Hv) as (H1 & H2 & H3 & H4).
      apply orb_false_iff in Hskip as [Hk Hc]. apply negb_false_iff in Hk.
      split; [|split; [|split]].
      * intros v Hvv. apply H1, vs_count_insert. by right.
      * intros v Hvv. apply H2, elem_of_app. by left.
      * intros V HV HkV. apply elem_of_cons in HV as [->|HV]; [|by apply H3].
        apply H1, vs_count_insert. by left.
      * intros v Hvv. destruct (H4 v Hvv) as [Hin|Hin]; [|by right].
        apply vs_count_insert in Hin as [[-> _]|Hin]; [|by left].
        right. apply H2, elem_of_app. right. by apply list_elem_of_singleton.
Qed.

Lemma visitGates_spec (gs : list Gates.Gate) (visited : ValueSet)
    (to_visit to_visit2 : list Value) :
  Deps.visitGates gs visited to_visit = Ok to_visit2 →
  (∀ v, v ∈ to_visit → v ∈ to_visit2)
  ∧ (∀ t, Gates.GateInst t ∈ gs →
       vs_count (InstructionV (iid t)) visited = true
       ∨ InstructionV (iid t) ∈ to_visit2).
Proof.
  revert to_visit. induction gs as [|g gs IH]; intros to_visit Hg.
  - injection Hg as <-. split; [done|]. intros t Ht. by apply elem_of_nil in Ht.
  - destruct g as [t|]; [|discriminate]. simpl in Hg.
    destruct (bool_decide (iid t ∈ vs_insts visited)) eqn:Hc.
    + destruct (IH _ Hg) as [H1 H2]. split; [done|].
      intros t' Ht'. apply elem_of_cons in Ht' as [[= ->]|Ht']; [by left|by apply H2].
    + destruct (IH _ Hg) as [H1 H2]. split.
      * intros v Hv. apply H1, elem_of_app. by left.
      * intros t' Ht'. apply elem_of_cons in Ht' as [[= ->]|Ht']; [|by apply H2].
        right. apply H1, elem_of_app. right. by apply list_elem_of_singleton.
Qed.

Lemma traversal_step (F : Function) (gates : gmap ptr (list Gates.Gate))
    (initial : ptr) (cur : Value) (deps : ValueSet) (BBs : gset ptr)
    (visited : ValueSet) (rest : list Value) (st' : Deps.State) :
  traversed F gates initial (Deps.mkState deps BBs visited (cur :: rest)) →
  Deps.visit F gates cur (Deps.mkState deps BBs visited rest) = Ok st' →
  traversed F gates initial st'.
Proof.
  intros (I0 & I1 & I2) Hvisit. simpl in I0, I1, I2.
  assert (Hmono : ∀ j st1,
            (∀ b, b ∈ BBs → b ∈ Deps.BBs st1) →
            (∀ v, vs_count v visited = true → vs_count v (Deps.visited st1) = true) →
            (∀ v, vs_count v deps = true → vs_count v (Deps.deps st1) = true) →
            vs_count cur (Deps.deps st1) = true ∨ isInstOrArg cur = false →
            (∀ v, v ∈ rest → v ∈ Deps.to_visit st1) →
            resolved F gates (Deps.mkState deps BBs visited (cur :: rest)) j →
            resolved F gates st1 j).
  { intros j st1 HB HV HD Hcur HT (dep & parent & Hf & Hp & HpB & Hops & Hphi).
    exists dep, parent. split; [done|]. split; [done|]. split; [by apply HB|].
    split; [intros U HU Hk; by apply HV, Hops|].
    intros incoming Hinc. destruct (Hphi incoming Hinc) as [Hb Hg]. split.
    - intros b Hbb. by apply HB, Hb.
    - intros t Ht. destruct (Hg t Ht) as [Hd|Hq]; [left; by apply HD|].
      simpl in Hq. apply elem_of_cons in Hq as [Hq|Hq]; [|right; by apply HT].
      left. destruct Hcur as [Hcur|Hcur]; [by rewrite Hq|by rewrite <- Hq in Hcur]. }
  assert (Hother : (∀ i, cur ≠ InstructionV i) →
            traversed F gates initial
              (Deps.mkState (vs_insert cur deps) BBs visited rest)).
  { intros Hcur. split; [|split]; cbn [Deps.BBs Deps.visited Deps.deps Deps.to_visit].
    - destruct I0 as [I0|I0].
      + left. destruct cur; simpl; try done. apply elem_of_union. by right.
      + apply elem_of_cons in I0 as [I0|I0]; [by destruct (Hcur initial)|by right].
    - intros v Hv. destruct (I1 v Hv) as [Hd|Hq].
      + left. apply vs_count_insert. by right.
      + apply elem_of_cons in Hq as [->|Hq]; [|by right].
        left. apply vs_count_insert. left. split; [done|].
        by apply vs_count_isInstOrArg in Hv.
    - intros j Hj.
      assert (Hj' : j ∈ vs_insts deps).
      { destruct cur; simpl in Hj; try done. by destruct (Hcur i). }
      destruct (I2 j Hj') as [Hq|Hr].
      + apply elem_of_cons in Hq as [Hq|Hq]; [by destruct (Hcur j)|by left].
      + right. apply (Hmono j); cbn [Deps.BBs Deps.visited Deps.deps Deps.to_visit]; try done.
        * intros v Hv. apply vs_count_insert. by right.
        * destruct (isInstOrArg cur) eqn:Hk; [|by right].
          left. apply vs_count_insert. by left. }
  unfold Deps.visit in Hvisit. simpl in Hvisit.
  destruct cur as [bits z|f k|i|f|b|g|];
    try (injection Hvisit as <-; by apply Hother).
  clear Hother.
  destruct (findInst F i) as [dep|] eqn:Hf; [|discriminate].
  destruct (getParent F i) as [parent|] eqn:Hp; [|discriminate].
  destruct (Deps.visitOperands _ _ _) as [visited1 to_visit1] eqn:Hops.
  destruct (visitOperands_spec _ _ _ _ _ Hops) as (V1 & V2 & V3 & V4).
  assert (Hnow : ∀ to_visit2 BBs2,
            (∀ v, v ∈ to_visit1 → v ∈ to_visit2) →
            (∀ b, b ∈ ({[parent]} ∪ BBs : gset ptr) → b ∈ BBs2) →
            (∀ incoming, ikind dep = PHINode incoming →
               (∀ b, b ∈ (snd <$> incoming) → b ∈ BBs2)
               ∧ ∀ t, Gates.GateInst t ∈ default [] (gates !! parent) →
                   vs_count (InstructionV (iid t)) visited1 = true
                   ∨ InstructionV (iid t) ∈ to_visit2) →
            traversed F gates initial
              (Deps.mkState (vs_insert (InstructionV i) deps) BBs2 visited1 to_visit2)).
  { intros to_visit2 BBs2 HT HB Hphi.
    assert (Hvis : ∀ v, vs_count v visited1 = true →
              vs_count v (vs_insert (InstructionV i) deps) = true ∨ v ∈ to_visit2).
    { intros v Hv. destruct (V4 v Hv) as [Hold|Hq]; [|right; by apply HT].
      destruct (I1 v Hold) as [Hd|Hq]; [left; apply vs_count_insert; by right|].
      apply elem_of_cons in Hq as [->|Hq]; [|right; by apply HT, V2].
      left. apply vs_count_insert. by left. }
    split; [|split]; cbn [Deps.BBs Deps.visited Deps.deps Deps.to_visit].
    - simpl. destruct I0 as [I0|I0]; [left; apply elem_of_union; by right|].
      apply elem_of_cons in I0 as [[= ->]|I0]; [|right; by apply HT, V2].
      left. apply elem_of_union. left. by apply elem_of_singleton.
    - exact Hvis.
    - assert (Hi : resolved F gates
                (Deps.mkState (vs_insert (InstructionV i) deps) BBs2 visited1 to_visit2) i).
      { exists dep, parent. split; [done|]. split; [done|]. cbn [Deps.BBs Deps.visited Deps.deps Deps.to_visit].
        split; [apply HB, elem_of_union; left; by apply elem_of_singleton|].
        split; [exact V3|].
        intros incoming Hinc. destruct (Hphi incoming Hinc) as [Hb Hg].
        split; [done|]. intros t Ht. destruct (Hg t Ht) as [Hv|Hq]; [|by right].
        exact (Hvis (InstructionV (iid t)) Hv). }
      intros j Hj. destruct (decide (j = i)) as [->|Hne]; [by right|].
      simpl in Hj.
      assert (Hj' : j ∈ vs_insts deps).
      { apply elem_of_union in Hj as [Hj|Hj]; [|done].
        by apply elem_of_singleton in Hj. }
      destruct (I2 j Hj') as [Hq|Hr].
      + apply elem_of_cons in Hq as [[= ->]|Hq]; [done|]. left. by apply HT, V2.
      + right. apply (Hmono j); cbn [Deps.BBs Deps.visited Deps.deps Deps.to_visit]; try done.
        * intros b Hb. apply HB, elem_of_union. by right.
        * intros v Hv. apply vs_count_insert. by right.
        * left. apply vs_count_insert. by left.
        * intros v Hv. by apply HT, V2. }
  destruct (ikind dep) as [| | | | | | | | |incoming| | | | |] eqn:Hk;
    try (injection Hvisit as <-; apply Hnow; [done|done|intros ? [=]]).
  destruct (Deps.visitGates _ _ _) as [to_visit2|] eqn:Hg; [|discriminate].
  simpl in Hvisit. injection Hvisit as <-.
  destruct (visitGates_spec _ _ _ _ Hg) as [G1 G2].
  apply Hnow; [done|intros b Hb; apply elem_of_union; by right|].
  intros inc [= <-]. split; [|done].
  intros b Hb. apply elem_of_union. left. by apply elem_of_list_to_set.
Qed.

Lemma traversal_loop (F : Function) (gates : gmap ptr (list Gates.Gate))
    (initial : ptr) (fuel : nat) (st st' : Deps.State) :
  traversed F gates initial st →
  Deps.loop fuel F gates st = Ok st' →
  traversed F gates initial st' ∧ Deps.to_visit st' = [].
Proof.
  revert st. induction fuel as [|fuel IH]; intros [deps BBs visited to_visit] Hinv Hl.
  - simpl in Hl. destruct to_visit; [|discriminate]. by injection Hl as <-.
  - simpl in Hl. destruct to_visit as [|cur rest]; [by injection Hl as <-|].
    destruct (Deps.visit F gates cur _) as [st1|] eqn:Hv; [|discriminate].
    simpl in Hl. eapply IH; [|exact Hl]. eapply traversal_step; [exact Hinv|exact Hv].
Qed.

(** What the traversal returns, in terms of its invariant. *)
Lemma traversal_closed (F : Function) (initial : ptr)
    (gates : gmap ptr (list Gates.Gate)) (BBs : gset ptr) (deps : ValueSet) :
  Deps.get_data_dependences_for F initial gates = Ok (BBs, deps) →
  initial ∈ vs_insts deps
  ∧ ∀ i, i ∈ vs_insts deps → resolved F gates (Deps.mkState deps BBs deps []) i.
Proof.
  unfold Deps.get_data_dependences_for. intros Hd.
  destruct (Deps.loop _ _ _ _) as [st|] eqn:Hl; [|discriminate].
  simpl in Hd. injection Hd as <- <-.
  apply (traversal_loop F gates initial) in Hl as [(I0 & I1 & I2) Hq].
  - rewrite Hq in I0, I1. split.
    + destruct I0 as [I0|I0]; [done|by apply elem_of_nil in I0].
    + intros i Hi. destruct (I2 i Hi) as [Hn|(dep & parent & ? & ? & ? & Hops & Hphi)];
        [rewrite Hq in Hn; by apply elem_of_nil in Hn|].
      exists dep, parent. split; [done|]. split; [done|]. split; [done|]. split.
      * intros U HU Hk. destruct (I1 U (Hops U HU Hk)) as [?|Hn]; [done|].
        by apply elem_of_nil in Hn.
      * intros incoming Hinc. destruct (Hphi incoming Hinc) as [Hb Hg].
        split; [done|]. intros t Ht. destruct (Hg t Ht) as [Hc|Hn]; [by left|].
        rewrite Hq in Hn. by apply elem_of_nil in Hn.
  - split; [|split]; cbn [Deps.BBs Deps.visited Deps.deps Deps.to_visit].
    + left. simpl. apply elem_of_union. left. by apply elem_of_singleton.
    + intros v Hv. destruct v; simpl in Hv; try discriminate;
        apply bool_decide_eq_true in Hv; by apply elem_of_empty in Hv.
    + intros j Hj. left. apply list_elem_of_singleton. f_equal. simpl in Hj.
      apply elem_of_union in Hj as [Hj|Hj]; [by apply elem_of_singleton in Hj|].
      by apply elem_of_empty in Hj.
Qed.

(** X1.  The set of values that [get_data_dependences_for] returns holds
    the criterion and is closed: every instruction in it belongs to the
    function, its block is among the blocks returned, its operands that are
    instructions or formal parameters are in the set, and for a PHI the
    incoming blocks are among the blocks returned and the gates of its block
    are in the set. *)
Theorem data_dependences_closed (F : Function) (initial : ptr)
    (gates : gmap ptr (list Gates.Gate)) (BBs : gset ptr) (deps : ValueSet) :
  Deps.get_data_dependences_for F initial gates = Ok (BBs, deps) →
  initial ∈ vs_insts deps
  ∧ ∀ i, i ∈ vs_insts deps →
      ∃ dep parent,
        findInst F i = Some dep ∧ getParent F i = Some parent ∧ parent ∈ BBs
        ∧ (∀ U, U ∈ operands (ikind dep) → isInstOrArg U = true →
             vs_count U deps = true)
        ∧ ∀ incoming, ikind dep = PHINode incoming →
            (∀ b, b ∈ (snd <$> incoming) → b ∈ BBs)
            ∧ ∀ t, Gates.GateInst t ∈ default [] (gates !! parent) →
                iid t ∈ vs_insts deps.
Proof.
  intros Hd. destruct (traversal_closed _ _ _ _ _ Hd) as [Hi Hall].
  split; [exact Hi|]. intros i Hin.
  destruct (Hall i Hin) as (dep & parent & Hf & Hp & HB & Hops & Hphi).
  exists dep, parent. split; [done|]. split; [done|]. split; [done|].
  split; [exact Hops|]. intros incoming Hinc.
  destruct (Hphi incoming Hinc) as [Hb Hg]. split; [exact Hb|].
  intros t Ht. destruct (Hg t Ht) as [Hc|Hn].
  - simpl in Hc. by apply bool_decide_eq_true in Hc.
  - by apply elem_of_nil in Hn.
Qed.

Lemma data_dependences_closed_witness :
  Deps.get_data_dependences_for Examples.diamond 33 diamondGates
    = Ok ({[20%N; 21%N; 22%N; 23%N]},
          mkValueSet {[30%N; 33%N]} {[(19%N, 0%nat)]})
  ∧ 33%N ∈ ({[30%N; 33%N]} : gset ptr).
Proof.
  assert (Hd : Deps.get_data_dependences_for Examples.diamond 33 diamondGates
               = Ok ({[20%N; 21%N; 22%N; 23%N]},
                     mkValueSet {[30%N; 33%N]} {[(19%N, 0%nat)]}))
    by (vm_compute; reflexivity).
  split; [exact Hd|].
  exact (proj1 (data_dependences_closed _ _ _ _ _ Hd)).
Defined.

Lemma elem_of_ascendingArgs (s : gset (ptr * nat)) (a : ptr * nat) :
  a ∈ ascendingArgs s ↔ a ∈ s.
Proof.
  unfold ascendingArgs. rewrite merge_sort_Permutation. apply elem_of_elements.
Qed.

(** X2.  A slice that the constructor builds keeps the criterion, the
    function and the call site it was given; its instructions are
    instructions of the function, the criterion among them, each in a block
    of the slice; and it is closed: an operand of a slice instruction that
    is an instruction is in the slice, one that is a formal parameter is
    among the captured arguments. *)
Theorem slice_closed `{Analyses} (Initial : ptr) (F : Function)
    (CallSite : ptr) (s : ProgramSlice) :
  newProgramSlice Initial F CallSite = Ok s →
  _initial s = Initial ∧ _parentFunction s = F ∧ _CallSite s = CallSite
  ∧ Initial ∈ (iid <$> _instsInSlice s)
  ∧ ∀ ins, ins ∈ _instsInSlice s →
      findInst F (iid ins) = Some ins
      ∧ (∃ parent, getParent F (iid ins) = Some parent ∧ parent ∈ _BBsInSlice s)
      ∧ (∀ j, InstructionV j ∈ operands (ikind ins) →
           j ∈ (iid <$> _instsInSlice s))
      ∧ (∀ f k, ArgumentV f k ∈ operands (ikind ins) → (f, k) ∈ _depArgs s).
Proof.
  unfold newProgramSlice. intros Hs.
  destruct (getParent F Initial) as [p0|]; [|discriminate].
  destruct (Gates.computeGates F) as [gates|]; [|discriminate]. simpl in Hs.
  destruct (Deps.get_data_dependences_for F Initial gates)
    as [[BBs deps]|] eqn:Hd; [|discriminate]. simpl in Hs.
  destruct (Attractors.computeAttractorBlocks F BBs) as [att|]; [|discriminate].
  simpl in Hs.
  destruct (forM _ _) as [insts|] eqn:Hf; [|discriminate].
  simpl in Hs. injection Hs as <-. simpl.
  apply forM_Ok in Hf.
  destruct (traversal_closed _ _ _ _ _ Hd) as [Hi Hall].
  assert (Hfound : ∀ i, i ∈ vs_insts deps →
            ∃ ins, ins ∈ insts ∧ findInst F i = Some ins).
  { intros i Hin. apply elem_of_ascending in Hin.
    apply list_elem_of_lookup in Hin as [k Hk].
    destruct (Forall2_lookup_l _ _ _ _ _ Hf Hk) as (ins & Hins & Hfi).
    exists ins. split; [by eapply list_elem_of_lookup_2|].
    by destruct (findInst F i); [injection Hfi as ->|]. }
  assert (Horigin : ∀ ins, ins ∈ insts →
            iid ins ∈ vs_insts deps ∧ findInst F (iid ins) = Some ins).
  { intros ins Hin. apply list_elem_of_lookup in Hin as [k Hk].
    destruct (Forall2_lookup_r _ _ _ _ _ Hf Hk) as (i & Hi' & Hfi).
    destruct (findInst F i) as [x|] eqn:Hx; [|discriminate]. injection Hfi as ->.
    destruct (findInst_elem _ _ _ Hx) as [_ <-]. split; [|done].
    apply elem_of_ascending. by eapply list_elem_of_lookup_2. }
  split; [done|]. split; [done|]. split; [done|]. split.
  - destruct (Hfound Initial Hi) as (ins & Hin & Hfi).
    apply list_elem_of_fmap. exists ins. split; [|done].
    by destruct (findInst_elem _ _ _ Hfi).
  - intros ins Hin. destruct (Horigin ins Hin) as [Hd' Hfi]. split; [done|].
    destruct (Hall _ Hd') as (dep & parent & Hf' & Hp & HB & Hops & _).
    assert (dep = ins) as -> by congruence.
    split; [by exists parent|]. split.
    + intros j Hj. specialize (Hops _ Hj eq_refl). simpl in Hops.
      apply bool_decide_eq_true in Hops.
      destruct (Hfound j Hops) as (x & Hx & Hfx).
      apply list_elem_of_fmap. exists x. split; [|done].
      by destruct (findInst_elem _ _ _ Hfx).
    + intros f k Hfk. specialize (Hops _ Hfk eq_refl). simpl in Hops.
      apply bool_decide_eq_true in Hops. by apply elem_of_ascendingArgs.
Qed.

Lemma slice_closed_witness :
  @newProgramSlice Examples.straightLine 13 Examples.caller 14 = Ok Scenario.xSlice
  ∧ 13%N ∈ (iid <$> _instsInSlice Scenario.xSlice).
Proof.
  assert (Hs : @newProgramSlice Examples.straightLine 13 Examples.caller 14
               = Ok Scenario.xSlice) by (vm_compute; reflexivity).
  split; [exact Hs|].
  exact (proj1 (proj2 (proj2 (proj2
           (@slice_closed Examples.straightLine 13 Examples.caller 14 _ Hs))))).
Defined.

(** ** Attractors *)

Lemma firstInSliceFrom_head (BBsInSlice : gset ptr)
    (n : DomTreeNode (option ptr)) :
  Attractors.firstInSliceFrom BBsInSlice n
  = head (filter (λ b, b ∈ BBsInSlice) (omap id (domChain n))).
Proof.
  induction n as [b|b n IH] using DomTreeNode_chain_ind; simpl.
  - destruct b as [b|]; simpl; [|done].
    rewrite filter_cons. destruct (decide (b ∈ BBsInSlice)) as [Hin|Hout].
    + by rewrite bool_decide_eq_true_2.
    + by rewrite bool_decide_eq_false_2.
  - destruct b as [b|]; simpl; [|exact IH].
    rewrite filter_cons. destruct (decide (b ∈ BBsInSlice)) as [Hin|Hout].
    + by rewrite bool_decide_eq_true_2.
    + rewrite bool_decide_eq_false_2 by done. exact IH.
Qed.

Lemma firstInSlice_nearest (BBsInSlice : gset ptr)
    (node : DomTreeNode (option ptr)) :
  Attractors.firstInSlice BBsInSlice (getIDom node)
  = nearestInSlice BBsInSlice node.
Proof.
  unfold nearestInSlice, strictPostDominators.
  destruct node as [b [up|]]; simpl; [|done]. apply firstInSliceFrom_head.
Qed.

Lemma nearestInSlice_in (BBsInSlice : gset ptr)
    (node : DomTreeNode (option ptr)) (a : ptr) :
  nearestInSlice BBsInSlice node = Some a →
  a ∈ BBsInSlice ∧ a ∈ strictPostDominators node.
Proof.
  unfold nearestInSlice. intros Hh. apply head_Some_elem_of in Hh.
  by apply list_elem_of_filter in Hh.
Qed.

(** What the attractor of block [b] has to be. *)
Lemma computeLoop_spec (PDT : DomTree (option ptr)) (BBsInSlice : gset ptr)
    (blocks : list BasicBlock) (m0 m : gmap ptr ptr) :
  Attractors.computeLoop PDT BBsInSlice blocks m0 = Ok m →
  (∀ b a, m0 !! b = Some a → m !! b = Some a)
  ∧ (∀ b a, m !! b = Some a → m0 !! b = Some a ∨
       (b ∈ (bid <$> blocks)
        ∧ if decide (b ∈ BBsInSlice) then a = b
          else ∃ node, getNode PDT (Some b) = Some node
                       ∧ nearestInSlice BBsInSlice node = Some a))
  ∧ (∀ b, b ∈ (bid <$> blocks) → m0 !! b = None →
       if decide (b ∈ BBsInSlice) then m !! b = Some b
       else ∃ node, getNode PDT (Some b) = Some node
                    ∧ m !! b = nearestInSlice BBsInSlice node).
Proof.
  revert m0. induction blocks as [|BB blocks IH]; intros m0 Hl; simpl in Hl.
  - injection Hl as <-. split; [done|]. split; [by left|].
    intros b Hb. by apply elem_of_nil in Hb.
  - assert (Hstep : ∀ m1,
              Attractors.computeLoop PDT BBsInSlice blocks m1 = Ok m →
              (∀ b a, m0 !! b = Some a → m1 !! b = Some a) →
              (∀ b a, m1 !! b = Some a → m0 !! b = Some a ∨
                 (b = bid BB
                  ∧ if decide (b ∈ BBsInSlice) then a = b
                    else ∃ node, getNode PDT (Some b) = Some node
                                 ∧ nearestInSlice BBsInSlice node = Some a)) →
              (m0 !! bid BB = None →
                 if decide (bid BB ∈ BBsInSlice) then m1 !! bid BB = Some (bid BB)
                 else ∃ node, getNode PDT (Some (bid BB)) = Some node
                              ∧ m1 !! bid BB = nearestInSlice BBsInSlice node) →
              (∀ b, b ≠ bid BB → m1 !! b = m0 !! b) →
              (∀ b a, m0 !! b = Some a → m !! b = Some a)
              ∧ (∀ b a, m !! b = Some a → m0 !! b = Some a ∨
                   (b ∈ (bid <$> BB :: blocks)
                    ∧ if decide (b ∈ BBsInSlice) then a = b
                      else ∃ node, getNode PDT (Some b) = Some node
                                   ∧ nearestInSlice BBsInSlice node = Some a))
              ∧ (∀ b, b ∈ (bid <$> BB :: blocks) → m0 !! b = None →
                   if decide (b ∈ BBsInSlice) then m !! b = Some b
                   else ∃ node, getNode PDT (Some b) = Some node
                                ∧ m !! b = nearestInSlice BBsInSlice node)).
    { intros m1 Hm1 Hkeep Hnew Hhere Hother.
      destruct (IH m1 Hm1) as (K1 & K2 & K3). split; [|split].
      - intros b a Hb. by apply K1, Hkeep.
      - intros b a Hb. destruct (K2 b a Hb) as [Hb1|[Hin Hwhat]].
        + destruct (Hnew b a Hb1) as [?|[-> Hwhat]]; [by left|].
          right. split; [|done]. rewrite fmap_cons. apply elem_of_cons. by left.
        + right. split; [|done]. rewrite fmap_cons. apply elem_of_cons. by right.
      - intros b Hb Hnone. rewrite fmap_cons in Hb.
        destruct (decide (b = bid BB)) as [->|Hne].
        + specialize (Hhere Hnone).
          destruct (decide (bid BB ∈ BBsInSlice)); [by apply K1|].
          destruct Hhere as (node & Hnode & Hm).
          exists node. split; [done|].
          destruct (m1 !! bid BB) as [a|] eqn:Ha; [rewrite <- Hm; by apply K1|].
          destruct (m !! bid BB) as [a|] eqn:Ha'; [|done].
          destruct (K2 _ _ Ha') as [?|[Hin Hwhat]]; [congruence|].
          destruct (decide (bid BB ∈ BBsInSlice)); [done|].
          destruct Hwhat as (node' & Hnode' & Hn'). congruence.
        + apply elem_of_cons in Hb as [?|Hb]; [done|].
          apply K3; [done|]. by rewrite Hother. }
    destruct (bool_decide (is_Some (m0 !! bid BB))) eqn:Hhas.
    { apply bool_decide_eq_true in Hhas as [a0 Ha0].
      apply (Hstep m0 Hl); [done|by left| |done]. intros Hnone. congruence. }
    apply bool_decide_eq_false in Hhas.
    assert (Hnone : m0 !! bid BB = None).
    { destruct (m0 !! bid BB) eqn:Hx; [|done]. destruct Hhas. eauto. }
    destruct (bool_decide (bid BB ∈ BBsInSlice)) eqn:Hin.
    { apply bool_decide_eq_true in Hin. apply (Hstep _ Hl).
      - intros b a Hb. rewrite lookup_insert_ne; [done|]. intros <-. congruence.
      - intros b a Hb. destruct (decide (bid BB = b)) as [<-|Hne].
        + rewrite lookup_insert_eq in Hb. injection Hb as <-. right.
          split; [done|]. by destruct (decide (bid BB ∈ BBsInSlice)).
        + rewrite lookup_insert_ne in Hb by done. by left.
      - intros _. destruct (decide (bid BB ∈ BBsInSlice)); [|done].
        apply lookup_insert_eq.
      - intros b Hne. by rewrite lookup_insert_ne. }
    apply bool_decide_eq_false in Hin.
    destruct (getNode PDT (Some (bid BB))) as [OrigBB|] eqn:Hnode; [|discriminate].
    rewrite firstInSlice_nearest in Hl.
    destruct (nearestInSlice BBsInSlice OrigBB) as [a|] eqn:Hnear.
    + apply (Hstep _ Hl).
      * intros b a' Hb. rewrite lookup_insert_ne; [done|]. intros <-. congruence.
      * intros b a' Hb. destruct (decide (bid BB = b)) as [<-|Hne].
        -- rewrite lookup_insert_eq in Hb. injection Hb as <-. right.
           split; [done|]. destruct (decide (bid BB ∈ BBsInSlice)); [done|].
           by exists OrigBB.
        -- rewrite lookup_insert_ne in Hb by done. by left.
      * intros _. destruct (decide (bid BB ∈ BBsInSlice)); [done|].
        exists OrigBB. split; [done|]. by rewrite lookup_insert_eq.
      * intros b Hne. by rewrite lookup_insert_ne.
    + apply (Hstep _ Hl); [done|by left| |done].
      intros _. destruct (decide (bid BB ∈ BBsInSlice)); [done|].
      exists OrigBB. split; [done|]. by rewrite Hnone.
Qed.

(** X3.  When [computeAttractorBlocks] returns: a block of the function
    that is in the slice is its own attractor; a block that is not is
    attracted by the nearest block above it in the post-dominator tree that
    is in the slice, and has no attractor when there is none; every
    attractor is a block of the slice, and only blocks of the function have
    one. *)
Theorem attractors_are_nearest_slice_blocks `{Analyses} (F : Function)
    (BBsInSlice : gset ptr) (attractors : gmap ptr ptr) :
  Attractors.computeAttractorBlocks F BBsInSlice = Ok attractors →
  (∀ BB, BB ∈ fblocks F →
     if decide (bid BB ∈ BBsInSlice) then attractors !! bid BB = Some (bid BB)
     else ∃ node, getNode (PostDominatorTree F) (Some (bid BB)) = Some node
                  ∧ attractors !! bid BB = nearestInSlice BBsInSlice node)
  ∧ (∀ b a, attractors !! b = Some a →
       a ∈ BBsInSlice ∧ b ∈ (bid <$> fblocks F)).
Proof.
  unfold Attractors.computeAttractorBlocks. intros Hc.
  destruct (computeLoop_spec _ _ _ _ _ Hc) as (_ & K2 & K3). split.
  - intros BB HBB. apply K3; [|apply lookup_empty].
    apply list_elem_of_fmap. eauto.
  - intros b a Hb. destruct (K2 b a Hb) as [Hb0|[Hin Hwhat]].
    + by rewrite lookup_empty in Hb0.
    + split; [|done]. destruct (decide (b ∈ BBsInSlice)); [by subst|].
      destruct Hwhat as (node & _ & Hn). by apply nearestInSlice_in in Hn as [? _].
Qed.

Lemma attractors_are_nearest_slice_blocks_witness :
  @Attractors.computeAttractorBlocks Loops.nestedAnalyses Loops.nested {[52%N]}
    = Ok (_attractors nestedSlice)
  ∧ (∀ b a, _attractors nestedSlice !! b = Some a →
       a ∈ ({[52%N]} : gset ptr) ∧ b ∈ (bid <$> fblocks Loops.nested)).
Proof.
  assert (Hc : @Attractors.computeAttractorBlocks Loops.nestedAnalyses
                 Loops.nested {[52%N]} = Ok (_attractors nestedSlice))
    by (vm_compute; reflexivity).
  split; [exact Hc|].
  exact (proj2 (@attractors_are_nearest_slice_blocks Loops.nestedAnalyses
                  Loops.nested {[52%N]} _ Hc)).
Defined.

(** ** The validator: stack slots, the criterion *)

Section AddressTaken.
Context `{Analyses}.

(** X4.  [hasAddressTaken] never answers false for a stack slot that has a
    user through which its address escapes, whatever the other users are
    and however deep the walk is allowed to go: it answers true, unless the
    walk does not come back. *)
Theorem hasAddressTaken_sees_escapes (fuel : nat) (F : Function) (AI : ptr)
    (AllocSize : N) (ins : Instruction) :
  ins ∈ users F (InstructionV AI) →
  escapes AI ins = true →
  hasAddressTaken fuel F AI AllocSize = Ok true
  ∨ ∃ why, hasAddressTaken fuel F AI AllocSize = Abort why.
Proof.
  intros Hin Hesc. destruct fuel as [|fuel]; [right; by eexists|]. simpl.
  revert Hin. generalize (users F (InstructionV AI)). intros us Hin.
  induction us as [|u us IH]; [by apply elem_of_nil in Hin|].
  destruct (match memoryLocationSize u with
            | Some sz => negb (sz <=? AllocSize)%N
            | None => false
            end); [by left|].
  unfold escapes in Hesc. apply elem_of_cons in Hin as [<-|Hin].
  - destruct (ikind ins) as [| [] ? | | | | | | ? ? | ? ? ? attrs | | | | | |];
      try (by left); try discriminate Hesc; rewrite Hesc; by left.
  - specialize (IH Hin).
    destruct (ikind u) as [| [] ? | | | | | | ? ? | ? ? ? attrs | | | | | |];
      try (by left); try exact IH.
    + destruct (hasAddressTaken fuel F (iid u) AllocSize) as [[]|w];
        [by left|exact IH|right; by eexists].
    + destruct (bool_decide _); [by left|exact IH].
    + destruct (hasAddressTaken fuel F (iid u) AllocSize) as [[]|w];
        [by left|exact IH|right; by eexists].
    + destruct (accumulateConstantOffset u) as [Offset|]; [|by left].
      destruct (negb (Offset <? AllocSize)%N); [by left|].
      destruct (hasAddressTaken fuel F (iid u) (AllocSize - Offset)) as [[]|w];
        [by left|exact IH|right; by eexists].
    + destruct (bool_decide _); [by left|exact IH].
    + destruct (negb (isDebugOrLifetime attrs) && negb (calleeOnlyReadsMemory attrs));
        [by left|exact IH].
    + destruct (hasAddressTaken fuel F (iid u) AllocSize) as [[]|w];
        [by left|exact IH|right; by eexists].
Qed.

(** X5.  A stack slot whose users are all loads and returns that stay
    within the allocated size does not have its address taken.  In
    particular a slot without users does not. *)
Theorem hasAddressTaken_read_only (fuel : nat) (F : Function) (AI : ptr)
    (AllocSize : N) :
  (∀ ins, ins ∈ users F (InstructionV AI) → readsWithin AllocSize ins = true) →
  hasAddressTaken (S fuel) F AI AllocSize = Ok false.
Proof.
  simpl. generalize (users F (InstructionV AI)). intros us Hall.
  induction us as [|u us IH]; [done|].
  assert (Hu : readsWithin AllocSize u = true)
    by (apply Hall, elem_of_cons; by left).
  assert (IH' : ∀ ins, ins ∈ us → readsWithin AllocSize ins = true)
    by (intros ins Hin; apply Hall, elem_of_cons; by right).
  specialize (IH IH'). unfold readsWithin in Hu.
  destruct (ikind u); try discriminate Hu;
    destruct (memoryLocationSize u) as [sz|]; try rewrite Hu; simpl; exact IH.
Qed.

End AddressTaken.

Lemma hasAddressTaken_sees_escapes_witness :
  @hasAddressTaken Examples.straightLine 3 slots 83 8 = Ok true
  ∨ ∃ why, @hasAddressTaken Examples.straightLine 3 slots 83 8 = Abort why.
Proof.
  apply (@hasAddressTaken_sees_escapes Examples.straightLine 3 slots 83 8
           (mkInst 85 "" VoidTy (StoreInst (InstructionV 83) (ArgumentV 80 0)))).
  - apply list_elem_of_In. vm_compute. left. reflexivity.
  - reflexivity.
Defined.

Lemma hasAddressTaken_read_only_witness :
  @hasAddressTaken Examples.straightLine (S 2) slots 82 8 = Ok false.
Proof.
  apply (@hasAddressTaken_read_only Examples.straightLine 2 slots 82 8).
  intros ins Hin. apply list_elem_of_In in Hin. vm_compute in Hin.
  destruct Hin as [<-|[]]. reflexivity.
Defined.

Section Acceptance.
Context `{Analyses}.

Lemma scanInsts_accepts (F : Function) (insts : list Instruction) :
  scanInsts F insts = Ok true →
  ∀ ins, ins ∈ insts →
    impure ins = false
    ∧ ∀ ty, ikind ins = AllocaInst ty →
        hasAddressTaken (addressTakenFuel F (getTypeAllocSize ty)) F (iid ins)
          (getTypeAllocSize ty) = Ok false.
Proof.
  induction insts as [|i insts IH]; intros Hs ins Hin.
  - by apply elem_of_nil in Hin.
  - rewrite scanInsts_cons in Hs.
    destruct (mayThrow i) eqn:Ht; [discriminate|].
    destruct (mayReadOrWriteMemory i) eqn:Hm; [discriminate|].
    destruct (willReturn i) eqn:Hw; [|discriminate]. cbn [negb] in Hs.
    assert (Hi : ∀ ty, ikind i = AllocaInst ty →
              hasAddressTaken (addressTakenFuel F (getTypeAllocSize ty)) F (iid i)
                (getTypeAllocSize ty) = Ok false
              ∧ scanInsts F insts = Ok true).
    { intros ty Hk. rewrite Hk in Hs.
      destruct (hasAddressTaken _ _ _ _) as [[]|]; try discriminate. done. }
    assert (Hrest : scanInsts F insts = Ok true).
    { destruct (ikind i) eqn:Hk; try exact Hs. by destruct (Hi _ eq_refl). }
    apply elem_of_cons in Hin as [->|Hin]; [|by apply IH].
    split.
    + unfold impure. by rewrite Ht, Hm, Hw.
    + intros ty Hk. by destruct (Hi ty Hk).
Qed.

(** X6.  A slice that [canOutline] accepts has no stack allocation whose
    address is taken; its criterion is an instruction of the function that
    is not a stack allocation; and when the criterion is a PHI with a single
    incoming block, the terminator of that block is in the slice. *)
Theorem canOutline_accepts (s : ProgramSlice) :
  canOutline s = Ok true →
  (∀ ins ty, ins ∈ _instsInSlice s → ikind ins = AllocaInst ty →
     hasAddressTaken
       (addressTakenFuel (_parentFunction s) (getTypeAllocSize ty))
       (_parentFunction s) (iid ins) (getTypeAllocSize ty) = Ok false)
  ∧ ∃ initial,
      findInst (_parentFunction s) (_initial s) = Some initial
      ∧ isAlloca (ikind initial) = false
      ∧ ∀ v incBB, ikind initial = PHINode [(v, incBB)] →
          ∃ BB t, findBlock (_parentFunction s) incBB = Some BB
                  ∧ getTerminator BB = Some t
                  ∧ iid t ∈ (iid <$> _instsInSlice s).
Proof.
  unfold canOutline. intros Hc.
  destruct (scanInsts _ _) as [[]|] eqn:Hscan; try discriminate. simpl in Hc.
  destruct (getParent _ _) as [callBB|]; [|discriminate].
  destruct (_ && _); [discriminate|].
  destruct (findInst _ _) as [initial|]; [|discriminate].
  destruct (isAlloca (ikind initial)) eqn:Ha; [discriminate|].
  destruct (lcssaDegenerate s (ikind initial)) eqn:Hl; [discriminate|].
  split.
  - intros ins ty Hin Hk.
    by destruct (scanInsts_accepts _ _ Hscan ins Hin) as [_ Htaken]; apply Htaken.
  - exists initial. split; [done|]. split; [done|].
    intros v incBB Hk. rewrite Hk in Hl. unfold lcssaDegenerate in Hl.
    destruct (findBlock (_parentFunction s) incBB) as [BB|] eqn:HBB;
      [|discriminate].
    cbn [mbind option_bind] in Hl.
    destruct (getTerminator BB) as [t|] eqn:Ht; [|discriminate].
    exists BB, t. split; [done|]. split; [done|].
    apply bool_decide_eq_false in Hl.
    destruct (decide (iid t ∈ iid <$> _instsInSlice s)); [done|]. by destruct Hl.
Qed.

End Acceptance.

Lemma canOutline_accepts_witness :
  @canOutline Examples.straightLine Scenario.xSlice = Ok true
  ∧ ∃ initial,
      findInst (_parentFunction Scenario.xSlice) (_initial Scenario.xSlice)
        = Some initial
      ∧ isAlloca (ikind initial) = false
      ∧ ∀ v incBB, ikind initial = PHINode [(v, incBB)] →
          ∃ BB t, findBlock (_parentFunction Scenario.xSlice) incBB = Some BB
                  ∧ getTerminator BB = Some t
                  ∧ iid t ∈ (iid <$> _instsInSlice Scenario.xSlice).
Proof.
  assert (Hc : @canOutline Examples.straightLine Scenario.xSlice = Ok true)
    by (vm_compute; reflexivity).
  split; [exact Hc|].
  exact (proj2 (@canOutline_accepts Examples.straightLine Scenario.xSlice Hc)).
Defined.

(** ** The outliner: blocks *)

Lemma NoDup_ascending (s : gset ptr) : NoDup (ascending s).
Proof.
  unfold ascending. rewrite merge_sort_Permutation. apply NoDup_elements.
Qed.

Lemma emplace_fresh {V} (k : ptr) (v : V) (m : gmap ptr V) :
  m !! k = None → Gates.emplace k v m = <[k := v]> m.
Proof. unfold Gates.emplace. by intros ->. Qed.

Lemma insertNewBB_Ok `{Analyses} (s : ProgramSlice) (F : Function) (o : Outlining)
    (b n : ptr) (F' : Function) (o' : Outlining) (n' : ptr) :
  Outliner.insertNewBB s (F, o) b n = Ok ((F', o'), n') →
  ∃ orig,
    findBlock (_parentFunction s) b = Some orig
    ∧ F' = appendBlock
             (mkBB n (setName (ValueNames (fid F)) (valueNames F)
                        ("sliceclone_" +:+ bname orig)) []) F
    ∧ o' = mkOutlining (Gates.emplace b n (_origToNewBBmap o))
                       (Gates.emplace n b (_newToOrigBBmap o))
                       (_Imap o) (_argMap o)
    ∧ n' = N.succ n.
Proof.
  unfold Outliner.insertNewBB. intros Hi.
  apply bind_Ok in Hi as (orig & n1 & Ho & Hi).
  apply orAbort_Ok in Ho as [Ho ?]. simpl in *. subst n1.
  apply bind_Ok in Hi as (newBB & n2 & Hf & Hi). injection Hf as <- <-.
  injection Hi as <- <- <-. by exists orig.
Qed.

Lemma withBlocks_nil (F : Function) : withBlocks F [] = F.
Proof. unfold withBlocks. rewrite app_nil_r. by destruct F. Qed.

Lemma withBlocks_appendBlock (F : Function) (B : BasicBlock) (l : list BasicBlock) :
  withBlocks (appendBlock B F) l = withBlocks F (B :: l).
Proof. unfold withBlocks, appendBlock. simpl. by rewrite <- app_assoc. Qed.

Lemma populate_fold `{Analyses} (s : ProgramSlice) (l : list ptr) :
  NoDup l →
  ∀ F o n F' o' n',
    foldM (Outliner.insertNewBB s) l (F, o) n = Ok ((F', o'), n') →
    mutuallyInverse o →
    (∀ nb b, _newToOrigBBmap o !! nb = Some b → (nb < n)%N) →
    (∀ b, b ∈ l → _origToNewBBmap o !! b = None) →
    mutuallyInverse o'
    ∧ (∀ nb b, _newToOrigBBmap o' !! nb = Some b → (nb < n')%N)
    ∧ (∀ b, _origToNewBBmap o' !! b =
            match _origToNewBBmap o !! b with
            | Some nb => Some nb
            | None => (λ k : nat, (n + N.of_nat k)%N)
                        <$> (fst <$> list_find (λ x, x = b) l)
            end)
    ∧ (∃ news,
         fblocks F' = fblocks F ++ news
         ∧ length news = length l
         ∧ ∀ k b, l !! k = Some b →
             news !! k = cloneBlock s o' (withBlocks F (take k news)) b)
    ∧ n' = (n + N.of_nat (length l))%N
    ∧ _Imap o' = _Imap o ∧ _argMap o' = _argMap o.
Proof.
  induction l as [|b l IH]; intros Hnd F o n F' o' n' Hf Hinv Hlt Hfresh.
  - injection Hf as <- <- <-. split; [done|]. split; [done|].
    split; [intros b; by destruct (_ !! b)|].
    split; [exists []; rewrite app_nil_r; repeat split; by intros k b Hk|].
    split; [simpl; lia|done].
  - apply NoDup_cons in Hnd as [Hnotin Hnd]. simpl in Hf.
    apply bind_Ok in Hf as ([F1 o1] & n1 & Hstep & Hf).
    apply insertNewBB_Ok in Hstep as (orig & Horig & -> & -> & ->).
    assert (Hb : _origToNewBBmap o !! b = None)
      by (apply Hfresh, elem_of_cons; by left).
    assert (Hn : _newToOrigBBmap o !! n = None).
    { destruct (_newToOrigBBmap o !! n) as [x|] eqn:Hx; [|done].
      apply Hlt in Hx. lia. }
    rewrite (emplace_fresh _ _ _ Hb), (emplace_fresh _ _ _ Hn) in Hf.
    destruct (IH Hnd _ _ _ _ _ _ Hf)
      as (Hinv' & Hlt' & Hmap & (news & Hblocks & Hlen & Hnews) & -> & HI & HA).
    + intros x nx. cbn [_origToNewBBmap _newToOrigBBmap].
      destruct (decide (b = x)) as [<-|Hbx].
      * rewrite lookup_insert_eq. split.
        -- intros [= <-]. by rewrite lookup_insert_eq.
        -- intros Hx. destruct (decide (n = nx)) as [<-|Hnx]; [done|].
           rewrite lookup_insert_ne in Hx by done. apply Hinv in Hx. congruence.
      * rewrite lookup_insert_ne by done. split.
        -- intros Hx. destruct (decide (n = nx)) as [<-|Hnx].
           ++ apply Hinv in Hx. congruence.
           ++ rewrite lookup_insert_ne by done. by apply Hinv.
        -- intros Hx. destruct (decide (n = nx)) as [<-|Hnx].
           ++ rewrite lookup_insert_eq in Hx. congruence.
           ++ rewrite lookup_insert_ne in Hx by done. by apply Hinv.
    + intros nb x. cbn [_newToOrigBBmap]. destruct (decide (n = nb)) as [<-|Hne].
      * intros _. lia.
      * rewrite lookup_insert_ne by done. intros Hx. apply Hlt in Hx. lia.
    + intros x Hx. cbn [_origToNewBBmap]. rewrite lookup_insert_ne.
      * apply Hfresh, elem_of_cons. by right.
      * intros <-. done.
    + cbn [_origToNewBBmap _newToOrigBBmap _Imap _argMap] in *.
      split; [done|]. split; [done|].
      assert (Hhere : _origToNewBBmap o' !! b = Some n).
      { rewrite Hmap. by rewrite lookup_insert_eq. }
      split; [|split; [|split; [|done]]].
      * intros x. rewrite Hmap. destruct (decide (b = x)) as [<-|Hbx].
        -- rewrite lookup_insert_eq, Hb. simpl.
           destruct (decide (b = b)); [|done]. simpl. f_equal. lia.
        -- rewrite lookup_insert_ne by done.
           destruct (_origToNewBBmap o !! x); [done|]. simpl.
           destruct (decide (b = x)); [done|].
           rewrite <- !option_fmap_compose.
           destruct (list_find _ l) as [[k y]|]; simpl; [|done]. f_equal. lia.
      * set (B0 := mkBB n (setName (ValueNames (fid F)) (valueNames F)
                             ("sliceclone_" +:+ bname orig)) []) in *.
        exists (B0 :: news). split.
        { rewrite Hblocks. unfold appendBlock. simpl. by rewrite <- app_assoc. }
        split; [simpl; by rewrite Hlen|].
        intros [|k] x Hk; simpl in Hk.
        -- injection Hk as <-. simpl. rewrite withBlocks_nil.
           unfold cloneBlock. rewrite Hhere. simpl. by rewrite Horig.
        -- simpl. rewrite (Hnews k x Hk). by rewrite withBlocks_appendBlock.
      * simpl. lia.
Qed.

(** X7.  [populateFunctionWithBBs] gives every block of the slice, and no
    other block, one new empty block, appended in the order of the
    addresses of the originals, and leaves the two block maps inverse to one
    another.  Each new block is named after its original, [sliceclone_]
    followed by the name of the original, as the symbol table of the thunk
    body settles that name when the block enters it, after the blocks
    before it. *)
Theorem populateFunctionWithBBs_maps `{Analyses} (s : ProgramSlice) (F : Function)
    (n : ptr) (F' : Function) (o : Outlining) (n' : ptr) :
  Outliner.populateFunctionWithBBs s (F, noOutlining) n = Ok ((F', o), n') →
  mutuallyInverse o
  ∧ dom (_origToNewBBmap o) = _BBsInSlice s
  ∧ n' = (n + N.of_nat (size (_BBsInSlice s)))%N
  ∧ ∃ news,
      fblocks F' = fblocks F ++ news
      ∧ length news = size (_BBsInSlice s)
      ∧ ∀ k b, ascending (_BBsInSlice s) !! k = Some b →
          news !! k = cloneBlock s o (withBlocks F (take k news)) b.
Proof.
  unfold Outliner.populateFunctionWithBBs. intros Hp.
  assert (Hlen : length (ascending (_BBsInSlice s)) = size (_BBsInSlice s)).
  { unfold ascending. by rewrite merge_sort_Permutation. }
  destruct (populate_fold s _ (NoDup_ascending _) _ _ _ _ _ _ Hp)
    as (Hinv & _ & Hmap & (news & Hblocks & Hl & Hnews) & Hn & _).
  - intros b nb. simpl. by rewrite !lookup_empty.
  - intros nb b. simpl. by rewrite lookup_empty.
  - intros b _. apply lookup_empty.
  - simpl in Hmap. split; [done|].
    assert (Hdom : ∀ b, is_Some (_origToNewBBmap o !! b) ↔ b ∈ _BBsInSlice s).
    { intros b. rewrite Hmap, lookup_empty, <- elem_of_ascending.
      destruct (list_find _ _) as [[k y]|] eqn:Hfind; simpl.
      - apply list_find_Some in Hfind as (Hk & -> & _).
        split; [intros _; by eapply list_elem_of_lookup_2|eauto].
      - split; [by intros [? ?]|]. intros Hin.
        eapply list_find_None in Hfind. rewrite Forall_forall in Hfind.
        by destruct (Hfind b Hin). }
    split; [apply set_eq; intros b; by rewrite elem_of_dom|].
    split; [by rewrite Hn, Hlen|].
    exists news. split; [done|]. split; [by rewrite Hl, Hlen|done].
Qed.

(** ** The outliner: the layout of the blocks *)

Lemma length_concat_Permutation {A B} (f : A → list B) (l l' : list A) :
  l ≡ₚ l' → length (concat (f <$> l)) = length (concat (f <$> l')).
Proof.
  intros Hp. induction Hp as [|x l l' Hp IH|x y l|l l' l'' Hp IH Hp' IH'].
  - done.
  - rewrite !fmap_cons, !concat_cons, !length_app. by rewrite IH.
  - rewrite !fmap_cons, !concat_cons, !length_app. lia.
  - by rewrite IH.
Qed.

Lemma pred_size_Permutation (F G : Function) (b : ptr) :
  fblocks F ≡ₚ fblocks G → pred_size F b = pred_size G b.
Proof.
  unfold pred_size, predecessors. rewrite !length_reverse.
  apply length_concat_Permutation.
Qed.

Lemma last_filter_split {A} (P : A → Prop) `{∀ x, Decision (P x)} (l : list A)
    (e : A) :
  last (filter P l) = Some e →
  ∃ l1 l2, l = l1 ++ e :: l2 ∧ P e ∧ Forall (λ x, ¬ P x) l2.
Proof.
  induction l as [|x l IH]; [done|]. rewrite filter_cons.
  destruct (decide (P x)) as [Hx|Hx].
  - destruct (filter P l) as [|y l'] eqn:Hf.
    + intros [= <-]. exists [], l. split; [done|]. split; [done|].
      apply Forall_forall. intros z Hz Pz.
      assert (z ∈ filter P l) by (by apply list_elem_of_filter).
      rewrite Hf in *. by eapply elem_of_nil.
    + rewrite last_cons_cons. intros Hl.
      destruct (IH Hl) as (l1 & l2 & -> & ? & ?). by exists (x :: l1), l2.
  - intros Hl. destruct (IH Hl) as (l1 & l2 & -> & ? & ?). by exists (x :: l1), l2.
Qed.

Lemma filter_all {A} (P : A → Prop) `{∀ x, Decision (P x)} (l : list A) :
  Forall P l → filter P l = l.
Proof.
  induction 1 as [|x l Hx Hl IH]; [done|].
  rewrite filter_cons. destruct (decide (P x)); [by rewrite IH|done].
Qed.

Lemma move_to_front (l : list BasicBlock) (e : BasicBlock) :
  NoDup (bid <$> l) → e ∈ l →
  e :: filter (λ BB, bid BB ≠ bid e) l ≡ₚ l.
Proof.
  induction l as [|x l IH]; intros Hnd Hin; [by apply elem_of_nil in Hin|].
  rewrite fmap_cons in Hnd. apply NoDup_cons in Hnd as [Hx Hnd].
  rewrite filter_cons. apply elem_of_cons in Hin as [->|Hin].
  - destruct (decide (bid x ≠ bid x)); [done|]. constructor.
    rewrite filter_all; [done|].
    apply Forall_forall. intros y Hy Heq. apply Hx. rewrite <- Heq.
    apply list_elem_of_fmap. eauto.
  - destruct (decide (bid x ≠ bid e)) as [Hne|Heq].
    + rewrite Permutation_swap. constructor. by apply IH.
    + exfalso. apply Hx. apply dec_stable in Heq. rewrite Heq.
      apply list_elem_of_fmap. eauto.
Qed.

(** X8.  On a function whose blocks are distinct, [reorderBlocks] stops
    when every block has a predecessor; otherwise it returns the same
    blocks with the last block without predecessors moved to the front, the
    others in their former order, and that first block has no predecessor
    in the result. *)
Theorem reorderBlocks_entry (F : Function) :
  NoDup (bid <$> fblocks F) →
  match Outliner.reorderBlocks F with
  | Ok F' =>
      fblocks F' ≡ₚ fblocks F
      ∧ ∃ entry before after,
          fblocks F = before ++ entry :: after
          ∧ fblocks F' = entry :: before ++ after
          ∧ pred_size F' (bid entry) = 0%nat
          ∧ Forall (λ BB, pred_size F (bid BB) ≠ 0%nat) after
  | Abort _ => ∀ BB, BB ∈ fblocks F → pred_size F (bid BB) ≠ 0%nat
  end.
Proof.
  intros Hnd. unfold Outliner.reorderBlocks.
  destruct (last (filter _ (fblocks F))) as [entry|] eqn:Hlast.
  - apply last_filter_split in Hlast as (before & after & Hl & Hentry & Hafter).
    assert (Hin : entry ∈ fblocks F).
    { rewrite Hl. apply elem_of_app. right. apply elem_of_cons. by left. }
    assert (Hperm : entry :: filter (λ BB, bid BB ≠ bid entry) (fblocks F)
                    ≡ₚ fblocks F) by (by apply move_to_front).
    split; [exact Hperm|]. exists entry, before, after.
    split; [done|]. split; [|split].
    + simpl. f_equal. rewrite Hl in Hnd |- *.
      rewrite fmap_app, fmap_cons in Hnd.
      apply NoDup_app in Hnd as (_ & Hcross & Hnd).
      apply NoDup_cons in Hnd as [Hnotin _].
      rewrite filter_app, filter_cons.
      destruct (decide (bid entry ≠ bid entry)); [done|].
      rewrite !filter_all; [done| |].
      * apply Forall_forall. intros y Hy Heq. apply Hnotin. rewrite <- Heq.
        apply list_elem_of_fmap. eauto.
      * apply Forall_forall. intros y Hy Heq.
        apply (Hcross (bid y)); [apply list_elem_of_fmap; eauto|].
        rewrite Heq. apply elem_of_cons. by left.
    + rewrite <- Hentry. by apply pred_size_Permutation.
    + exact Hafter.
  - intros BB HBB Hzero.
    assert (Hf : BB ∈ filter (λ BB, pred_size F (bid BB) = 0%nat) (fblocks F))
      by (by apply list_elem_of_filter).
    apply last_None in Hlast. rewrite Hlast in Hf. by apply elem_of_nil in Hf.
Qed.

(** ** The outliner: stale incoming blocks *)

Lemma filter_delete_rejected {A} (P : A → Prop) `{∀ x, Decision (P x)}
    (l : list A) (i : nat) (x : A) :
  l !! i = Some x → ¬ P x → filter P (delete i l) = filter P l.
Proof.
  revert i. induction l as [|y l IH]; intros [|i] Hi Hx; try done.
  - injection Hi as ->. simpl. rewrite filter_cons.
    by destruct (decide (P x)).
  - simpl in Hi. change (delete (S i) (y :: l)) with (y :: delete i l).
    rewrite !filter_cons. destruct (decide (P y)); [f_equal|]; by eapply IH.
Qed.

Lemma removeIncoming_Ok (incBB : ptr) (live : list (Value * ptr))
    (slots : list ptr) (live' : list (Value * ptr)) (slots' : list ptr) :
  Outliner.removeIncoming incBB live slots = Ok (live', slots') →
  ∃ Idx e, live !! Idx = Some e ∧ e.2 = incBB ∧ live' = delete Idx live.
Proof.
  unfold Outliner.removeIncoming.
  destruct (list_find _ live) as [[Idx e]|] eqn:Hf; [|discriminate].
  intros [= <- <-]. apply list_find_Some in Hf as (Hl & He & _). by exists Idx, e.
Qed.

(** X9.  The loop of [updatePHINodes] over the entries of one PHI only
    ever discards entries: what is left is a sublist of the entries the PHI
    had, and every entry whose incoming block is a predecessor is still
    there, in the same order. *)
Theorem repairPHI_keeps_predecessors (preds : list ptr) (indices : list nat)
    (live : list (Value * ptr)) (slots : list ptr) (live' : list (Value * ptr)) :
  Outliner.repairPHI preds indices live slots = Ok live' →
  sublist live' live
  ∧ filter (λ e : Value * ptr, e.2 ∈ preds) live'
    = filter (λ e : Value * ptr, e.2 ∈ preds) live.
Proof.
  revert live slots. induction indices as [|PI rest IH]; intros live slots Hr.
  - by injection Hr as <-.
  - simpl in Hr. destruct live as [|e0 live0] eqn:Hlive; [discriminate|].
    rewrite <- Hlive in *. clear Hlive e0 live0.
    destruct (slots !! PI) as [incBB|]; [|discriminate].
    destruct (bool_decide (incBB ∈ preds)) eqn:Hin; [by apply (IH _ slots)|].
    apply bool_decide_eq_false in Hin.
    destruct (Outliner.removeIncoming incBB live slots) as [[live1 slots1]|] eqn:Hrm;
      [|discriminate].
    simpl in Hr. apply removeIncoming_Ok in Hrm as (Idx & e & Hl & He & ->).
    destruct (IH _ _ Hr) as [Hsub Hfil]. split.
    + etrans; [exact Hsub|]. apply sublist_delete.
    + rewrite Hfil. eapply filter_delete_rejected; [exact Hl|]. by rewrite He.
Qed.

Lemma repairPHI_untouched (preds : list ptr) (indices : list nat)
    (live : list (Value * ptr)) (slots : list ptr) :
  live ≠ [] →
  Forall (λ PI, ∃ incBB, slots !! PI = Some incBB ∧ incBB ∈ preds) indices →
  Outliner.repairPHI preds indices live slots = Ok live.
Proof.
  intros Hne. induction 1 as [|PI rest (incBB & Hs & Hin) _ IH]; [done|].
  simpl. destruct live; [done|]. rewrite Hs.
  by rewrite bool_decide_eq_true_2.
Qed.

Lemma unique_block_by_id (l : list BasicBlock) (x y : BasicBlock) :
  NoDup (bid <$> l) → x ∈ l → y ∈ l → bid x = bid y → x = y.
Proof.
  induction l as [|b l IH]; simpl; intros Hnd Hx Hy Hid.
  - by apply elem_of_nil in Hx.
  - apply NoDup_cons in Hnd as [Hni Hnd].
    apply elem_of_cons in Hx as [->|Hx]; apply elem_of_cons in Hy as [->|Hy];
      try done.
    + exfalso. apply Hni. rewrite Hid. apply list_elem_of_fmap. eauto.
    + exfalso. apply Hni. rewrite <- Hid. apply list_elem_of_fmap. eauto.
    + by apply IH.
Qed.

Lemma mapBlocks_id (f : BasicBlock → BasicBlock) (F : Function) :
  (∀ BB, BB ∈ fblocks F → f BB = BB) → mapBlocks f F = F.
Proof.
  intros Hf. unfold mapBlocks. destruct F as [i nm r a bs]. simpl in *. f_equal.
  induction bs as [|b bs IH]; [done|]. rewrite fmap_cons. f_equal.
  - apply Hf, elem_of_cons. by left.
  - apply IH. intros BB HBB. apply Hf, elem_of_cons. by right.
Qed.

Lemma setKind_same (ins : Instruction) : setKind (ikind ins) ins = ins.
Proof. by destruct ins. Qed.

Lemma repairLeadingPHIs_untouched (preds : list ptr) (insts : list Instruction) :
  (∀ ins incoming e, ins ∈ insts → ikind ins = PHINode incoming →
     e ∈ incoming → e.2 ∈ preds) →
  Outliner.repairLeadingPHIs preds insts = Ok (insts, []).
Proof.
  induction insts as [|ins insts IH]; intros Hall; [done|]. simpl.
  destruct (ikind ins) as [| | | | | | | | |incoming| | | | |] eqn:Hk; try done.
  assert (Hlive : Outliner.repairPHI preds (seq 0 (length incoming)) incoming
                    (snd <$> incoming) = Ok incoming).
  { destruct incoming as [|e0 inc0] eqn:Hinc; [done|]. rewrite <- Hinc in *.
    apply repairPHI_untouched; [by rewrite Hinc|].
    apply Forall_forall. intros PI HPI. apply elem_of_seq in HPI as [_ HPI].
    destruct (lookup_lt_is_Some_2 incoming PI) as [e He]; [simpl in HPI; lia|].
    exists e.2. split; [by rewrite list_lookup_fmap, He|].
    eapply (Hall ins incoming e); [apply elem_of_cons; by left|done|].
    by eapply list_elem_of_lookup_2. }
  rewrite Hlive. simpl. rewrite IH.
  - simpl. rewrite <- Hk, setKind_same. by destruct incoming.
  - intros x inc e Hx. apply Hall, elem_of_cons. by right.
Qed.

(** X10.  [updatePHINodes] returns the function it was given when the
    blocks of the function are distinct and every incoming block of every
    PHI is a predecessor of the block of the PHI. *)
Theorem updatePHINodes_unchanged (F : Function) :
  NoDup (bid <$> fblocks F) →
  (∀ BB ins incoming e,
     BB ∈ fblocks F → ins ∈ binsts BB → ikind ins = PHINode incoming →
     e ∈ incoming → e.2 ∈ predecessors F (bid BB)) →
  Outliner.updatePHINodes F = Ok F.
Proof.
  intros Hnd Hall. unfold Outliner.updatePHINodes.
  assert (Hstep : ∀ b, b ∈ (bid <$> fblocks F) →
            (F0 ← Ok F;
             blk ← match findBlock F0 b with
                   | Some blk => Ok blk
                   | None => Abort "block vanished"
                   end;
             '(insts', erased) ← Outliner.repairLeadingPHIs (predecessors F0 b)
                                   (binsts blk);
             Ok (foldl (λ F1 dead, replaceUsesIn (InstructionV dead) UndefValue F1)
                       (editBlock b (λ _, insts') F0) erased)) = Ok F).
  { intros b Hb. cbn [mbind Outcome_bind].
    destruct (findBlock F b) as [blk|] eqn:Hblk.
    - destruct (findBlock_elem _ _ _ Hblk) as [Hin Hid]. simpl.
      rewrite repairLeadingPHIs_untouched.
      + simpl. f_equal. unfold editBlock. apply mapBlocks_id.
        intros BB HBB. destruct (decide (bid BB = b)) as [Heq|]; [|done].
        assert (BB = blk) as -> by (eapply unique_block_by_id; eauto; congruence).
        by destruct blk.
      + intros ins incoming e Hins Hk He. rewrite <- Hid.
        by eapply Hall.
    - exfalso. apply list_elem_of_fmap in Hb as (BB & -> & HBB).
      unfold findBlock in Hblk.
      destruct (list_find _ _) as [[k x]|] eqn:Hfind; [discriminate|].
      eapply list_find_None in Hfind. rewrite Forall_forall in Hfind.
      by apply (Hfind BB HBB). }
  revert Hstep. generalize (bid <$> fblocks F). intros l Hstep.
  induction l as [|b l IH]; [done|]. cbn [foldl].
  rewrite (Hstep b) by (apply elem_of_cons; by left).
  apply IH. intros x Hx. apply Hstep, elem_of_cons. by right.
Qed.

(** ** The outliner: captured arguments *)

Lemma operands_mapOperands (f : Value → Value) (k : InstKind) :
  (∀ b, f (BasicBlockV b) = BasicBlockV b) →
  operands (mapOperands f k) = f <$> operands k.
Proof.
  intros Hb. destruct k as [| | | | |? ?| | |? ? args ?|inc| | |? ? cases|[?|]|];
    simpl; rewrite ?Hb; try done.
  - by rewrite fmap_app.
  - rewrite <- !list_fmap_compose. by apply list_fmap_ext.
  - do 2 f_equal. rewrite <- list_fmap_compose. apply list_fmap_ext.
    intros i x _. simpl. by rewrite Hb.
Qed.

Lemma replaceValue_block (old new : Value) (b : ptr) :
  (∀ d, old ≠ BasicBlockV d) →
  replaceValue old new (BasicBlockV b) = BasicBlockV b.
Proof.
  intros Hold. unfold replaceValue.
  destruct (decide (BasicBlockV b = old)) as [Heq|]; [|done].
  by destruct (Hold b).
Qed.

(** The operands of the instructions after [replaceUsesIn]. *)
Lemma operands_replaceUsesIn (old new : Value) (F : Function) (ins : Instruction) :
  (∀ d, old ≠ BasicBlockV d) →
  ins ∈ allInsts (replaceUsesIn old new F) →
  ∃ ins0, ins0 ∈ allInsts F
          ∧ iid ins = iid ins0
          ∧ operands (ikind ins) = replaceValue old new <$> operands (ikind ins0).
Proof.
  intros Hold. unfold replaceUsesIn. rewrite allInsts_mapInsts.
  intros Hin. apply list_elem_of_fmap in Hin as (ins0 & -> & Hin).
  exists ins0. split; [done|]. split; [done|]. simpl.
  apply operands_mapOperands. intros b. by apply replaceValue_block.
Qed.

Lemma elem_of_insertBeforeIn_inv (pos : ptr) (new l : list Instruction)
    (x : Instruction) :
  x ∈ insertBeforeIn pos new l → x ∈ l ∨ x ∈ new.
Proof.
  induction l as [|i l IH]; simpl; [by left|].
  destruct (decide (iid i = pos)).
  - rewrite elem_of_app. tauto.
  - rewrite !elem_of_cons. intros [->|Hx]; [by left; left|].
    destruct (IH Hx); tauto.
Qed.

Lemma elem_of_insertBefore_inv (pos : ptr) (new : list Instruction)
    (F : Function) (x : Instruction) :
  x ∈ allInsts (insertBefore pos new F) → x ∈ allInsts F ∨ x ∈ new.
Proof.
  rewrite !elem_of_allInsts. intros (BB & HBB & Hx).
  unfold insertBefore, mapBlocks in HBB. simpl in HBB.
  apply list_elem_of_fmap in HBB as (BB0 & -> & HBB0). simpl in Hx.
  apply elem_of_insertBeforeIn_inv in Hx as [Hx|Hx]; [left; eauto|by right].
Qed.

Lemma insertLoadFor_uses `{Analyses} (s : ProgramSlice) (fn : ptr) (fields : list Type_)
    (pos : ptr) (F : Function) (o : Outlining) (i : nat) (arg : ptr * nat)
    (n : ptr) (F1 : Function) (o1 : Outlining) (i1 : nat) (n1 : ptr) :
  Outliner.insertLoadFor s (ArgumentV fn 0) fields pos (F, o, i) arg n
    = Ok ((F1, o1, i1), n1) →
  ∀ a ins, a.1 ≠ fn → ins ∈ allInsts F1 →
    ArgumentV a.1 a.2 ∈ operands (ikind ins) →
    a ≠ arg
    ∧ ∃ ins0, ins0 ∈ allInsts F ∧ ArgumentV a.1 a.2 ∈ operands (ikind ins0).
Proof.
  unfold Outliner.insertLoadFor. intros Hs a ins Ha Hin Huse.
  apply bind_Ok in Hs as ([gep load] & n2 & Hload & Hs).
  simpl in Hs. injection Hs as <- <- <- <-.
  apply loadThunkParam_shape in Hload as (Hkg & Hkl & Hty).
  apply operands_replaceUsesIn in Hin as (ins0 & Hin0 & _ & Hops); [|done].
  rewrite Hops in Huse. apply list_elem_of_fmap in Huse as (u & Hu & Huin).
  unfold replaceValue in Hu. destruct (decide (u = ArgumentV arg.1 arg.2)) as [->|Hne];
    [discriminate|]. subst u. split.
  - intros ->. done.
  - apply elem_of_insertBefore_inv in Hin0 as [Hin0|Hnew]; [eauto|].
    exfalso. apply elem_of_cons in Hnew as [->|Hnew].
    + rewrite Hkg in Huin. simpl in Huin.
      apply elem_of_cons in Huin as [[= ? ?]|Huin]; [done|].
      apply elem_of_cons in Huin as [?|Huin]; [done|].
      apply elem_of_cons in Huin as [?|Huin]; [done|]. by apply elem_of_nil in Huin.
    + apply elem_of_cons in Hnew as [->|Hnew]; [|by apply elem_of_nil in Hnew].
      rewrite Hkl in Huin. simpl in Huin.
      apply elem_of_cons in Huin as [?|Huin]; [done|]. by apply elem_of_nil in Huin.
Qed.

Lemma insertLoads_uses `{Analyses} (s : ProgramSlice) (fn : ptr) (fields : list Type_)
    (pos : ptr) (args : list (ptr * nat)) :
  ∀ F o i n F' o' i' n',
    foldM (Outliner.insertLoadFor s (ArgumentV fn 0) fields pos) args (F, o, i) n
      = Ok ((F', o', i'), n') →
    ∀ a ins, a.1 ≠ fn → ins ∈ allInsts F' →
      ArgumentV a.1 a.2 ∈ operands (ikind ins) →
      (a ∉ args)
      ∧ ∃ ins0, ins0 ∈ allInsts F ∧ ArgumentV a.1 a.2 ∈ operands (ikind ins0).
Proof.
  induction args as [|arg args IH]; intros F o i n F' o' i' n' Hf a ins Ha Hin Huse.
  - simpl in Hf. injection Hf as <- <- <- <-. split; [apply not_elem_of_nil|eauto].
  - simpl in Hf. apply bind_Ok in Hf as ([[F1 o1] i1] & n1 & Hstep & Hf).
    destruct (IH _ _ _ _ _ _ _ _ Hf a ins Ha Hin Huse) as (Hnot & ins1 & Hin1 & Huse1).
    destruct (insertLoadFor_uses _ _ _ _ _ _ _ _ _ _ _ _ _ Hstep a ins1 Ha Hin1 Huse1)
      as (Hne & ins0 & Hin0 & Huse0).
    split; [|eauto]. by apply not_elem_of_cons.
Qed.

(** X11.  In the function [insertLoadForThunkParams] returns, no
    instruction has a captured argument of the caller as an operand any
    more, provided the thunk body is not the function those arguments
    belong to. *)
Theorem insertLoadForThunkParams_replaces_uses `{Analyses} (s : ProgramSlice)
    (fields : list Type_) (memo : bool) (F : Function) (o : Outlining) (n : ptr)
    (F' : Function) (o' : Outlining) (n' : ptr) :
  Outliner.insertLoadForThunkParams s fields memo (F, o) n = Ok ((F', o'), n') →
  fid F ∉ (fst <$> _depArgs s) →
  ∀ arg ins, arg ∈ _depArgs s → ins ∈ allInsts F' →
    ArgumentV arg.1 arg.2 ∉ operands (ikind ins).
Proof.
  unfold Outliner.insertLoadForThunkParams. intros Hs Hfid arg ins Harg Hin Huse.
  apply bind_Ok in Hs as (entry & n1 & Hentry & Hs).
  apply orAbort_Ok in Hentry as [Hentry ?]. simpl in *. subst n1.
  apply bind_Ok in Hs as (pos & n1 & Hpos & Hs).
  apply orAbort_Ok in Hpos as [Hpos ?]. simpl in *. subst n1.
  apply bind_Ok in Hs as ([[F1 o1] i1] & n1 & Hfold & Hs).
  simpl in Hs. injection Hs as <- <- <-.
  destruct (insertLoads_uses _ _ _ _ _ _ _ _ _ _ _ _ _ Hfold arg ins) as [Hnot _];
    try done.
  intros Heq. apply Hfid. rewrite <- Heq. apply list_elem_of_fmap. eauto.
Qed.

(** ** The outliner: the signature of the thunk body *)

Lemma foldM_preserves {A S} (P : S → Prop) (f : S → A → Build S) (l : list A) :
  (∀ s a n s' n', a ∈ l → f s a n = Ok (s', n') → P s → P s') →
  ∀ s n s' n', foldM f l s n = Ok (s', n') → P s → P s'.
Proof.
  induction l as [|a l IH]; intros Hf s n s' n' Hfold Hs.
  - by injection Hfold as <- <-.
  - simpl in Hfold. apply bind_Ok in Hfold as (s1 & n1 & Hstep & Hfold).
    eapply IH; [|exact Hfold|].
    + intros s0 a0 n0 s0' n0' Ha0. apply Hf, elem_of_cons. by right.
    + eapply Hf; [|exact Hstep|exact Hs]. apply elem_of_cons. by left.
Qed.

Lemma foldl_preserves {A S} (P : S → Prop) (f : S → A → S) (l : list A) :
  (∀ s a, P s → P (f s a)) → ∀ s, P s → P (foldl f s l).
Proof.
  intros Hf. induction l as [|a l IH]; intros s Hs; [done|]. simpl. by apply IH, Hf.
Qed.

Lemma DomTree_nested_ind {B} (P : DomTree B → Prop) :
  (∀ blk children, Forall P children → P (DTNode blk children)) →
  ∀ t, P t.
Proof.
  intros Hnode. fix IH 1. intros [blk children]. apply Hnode.
  induction children as [|c cs IHcs]; constructor; [apply IH|exact IHcs].
Qed.













Section ThunkSignature.
Context `{Analyses}.



End ThunkSignature.

(** ** The rewriter: uses of the thunk parameter *)

Lemma foldM_invariant {A S} (P : S → ptr → Prop) (f : S → A → Build S)
    (l : list A) :
  (∀ s a n s' n', a ∈ l → f s a n = Ok (s', n') → P s n → P s' n') →
  ∀ s n s' n', foldM f l s n = Ok (s', n') → P s n → P s' n'.
Proof.
  induction l as [|a l IH]; intros Hf s n s' n' Hfold Hs.
  - by injection Hfold as <- <-.
  - simpl in Hfold. apply bind_Ok in Hfold as (s1 & n1 & Hstep & Hfold).
    eapply IH; [|exact Hfold|].
    + intros s0 a0 n0 s0' n0' Ha0. apply Hf, elem_of_cons. by right.
    + eapply Hf; [|exact Hstep|exact Hs]. apply elem_of_cons. by left.
Qed.

(** X13.  [updateMemoizedThunkArgUses] only inserts instructions: every
    instruction of the function is still there as it was, so the users of
    the record parameter still have it as their operand; what is new lies
    at fresh addresses, three instructions for each use of the
    parameter. *)
Theorem updateMemoizedThunkArgUses_keeps_uses `{Analyses} (F : Function) (thunkArg : Value)
    (thunkArgType : Type_) (n : ptr) (F' : Function) (n' : ptr) :
  Lazyfication.updateMemoizedThunkArgUses F thunkArg thunkArgType n = Ok (F', n') →
  (∀ ins, ins ∈ allInsts F → ins ∈ allInsts F')
  ∧ (∀ ins, ins ∈ allInsts F' → ins ∈ allInsts F ∨ (n ≤ iid ins < n')%N)
  ∧ n' = (n + 3 * N.of_nat (sum_list (Lazyfication.countUses thunkArg
                                         <$> users F thunkArg)))%N
  ∧ signature F' = signature F.
Proof.
  unfold Lazyfication.updateMemoizedThunkArgUses. intros Hu.
  set (P := λ (k : nat) (G : Function) (m : ptr),
         (∀ ins, ins ∈ allInsts F → ins ∈ allInsts G)
         ∧ (∀ ins, ins ∈ allInsts G → ins ∈ allInsts F ∨ (n ≤ iid ins < m)%N)
         ∧ m = (n + 3 * N.of_nat k)%N
         ∧ signature G = signature F).
  assert (Hinner : ∀ UserI l k G m G' m',
            foldM (λ F0 (_ : nat),
                     fPtrGep ← fresh; fPtrLoad ← fresh; thunkFPtrCall ← fresh;
                     mret (insertBefore (iid UserI)
                             (Lazyfication.forcingCode F0 (iid UserI) thunkArg
                                thunkArgType fPtrGep fPtrLoad thunkFPtrCall) F0))
                  l G m = Ok (G', m') →
            P k G m → P (k + length l)%nat G' m').
  { intros UserI l. induction l as [|x l IH]; intros k G m G' m' Hf HP.
    - injection Hf as <- <-. by rewrite Nat.add_0_r.
    - simpl in Hf. apply bind_Ok in Hf as (G1 & m1 & Hstep & Hf).
      apply bind_Ok in Hstep as (g & k1 & Hg & Hstep). injection Hg as <- <-.
      apply bind_Ok in Hstep as (ld & k2 & Hl & Hstep). injection Hl as <- <-.
      apply bind_Ok in Hstep as (c & k3 & Hc & Hstep). injection Hc as <- <-.
      injection Hstep as <- <-.
      replace (k + length (x :: l))%nat with (S k + length l)%nat by (simpl; lia).
      apply (IH _ _ _ _ _ Hf). destruct HP as (H1 & H2 & -> & H4).
      split; [|split; [|split]].
      + intros ins Hin. by apply elem_of_insertBefore_old, H1.
      + intros ins Hin. apply elem_of_insertBefore_inv in Hin as [Hin|Hin].
        * destruct (H2 ins Hin) as [?|?]; [by left|right; lia].
        * right. unfold Lazyfication.forcingCode in Hin. cbv zeta in Hin.
          repeat (apply elem_of_cons in Hin as [->|Hin]; [simpl; lia|]).
          by apply elem_of_nil in Hin.
      + lia.
      + exact H4. }
  assert (Houter : ∀ l k G m G' m',
            foldM (λ F0 UserI,
                     foldM (λ F1 (_ : nat),
                              fPtrGep ← fresh; fPtrLoad ← fresh; thunkFPtrCall ← fresh;
                              mret (insertBefore (iid UserI)
                                      (Lazyfication.forcingCode F1 (iid UserI) thunkArg
                                         thunkArgType fPtrGep fPtrLoad thunkFPtrCall)
                                      F1))
                           (seq 0 (Lazyfication.countUses thunkArg UserI)) F0)
                  l G m = Ok (G', m') →
            P k G m →
            P (k + sum_list (Lazyfication.countUses thunkArg <$> l))%nat G' m').
  { induction l as [|UserI l IH]; intros k G m G' m' Hf HP.
    - injection Hf as <- <-. simpl. by rewrite Nat.add_0_r.
    - simpl in Hf. apply bind_Ok in Hf as (G1 & m1 & Hstep & Hf).
      apply (Hinner UserI _ k) in Hstep; [|exact HP]. rewrite length_seq in Hstep.
      apply (IH _ _ _ _ _ Hf) in Hstep. simpl.
      by rewrite Nat.add_assoc. }
  apply (Houter _ 0%nat) in Hu.
  - destruct Hu as (H1 & H2 & H3 & H4). split; [done|]. split; [done|].
    split; [|done]. rewrite H3. do 3 f_equal. simpl.
    by rewrite fmap_reverse, reverse_Permutation.
  - split; [done|]. split; [by left|]. split; [lia|done].
Qed.


Lemma setName_cases `{Analyses} (sc : NameScope) (taken : list string)
    (Name : string) :
  uniquing → Name ≠ "" →
  setName sc taken Name = Name
  ∨ ∃ k : N, setName sc taken Name = Name +:+ separator sc +:+ pretty k.
Proof.
  intros Hu Hne. unfold setName. rewrite decide_False by done.
  destruct (Hu sc taken Name) as (Hfree & Htaken & _).
  destruct (decide (Name ∈ taken)) as [Hin|Hout]; [right; by apply Htaken|].
  left. by apply Hfree.
Qed.

(** *** The reference symbol table *)

Lemma append_assoc (s1 s2 s3 : string) :
  (s1 +:+ s2) +:+ s3 = s1 +:+ s2 +:+ s3.
Proof.
  induction s1 as [|a s1 IH]; [done|].
  unfold String.append; fold String.append. by f_equal.
Qed.

(** Among [length taken + 1] numbers in a row, one makes a name that is
    free. *)
Lemma firstFree_spec (taken : list string) (stem : string) (from : N) :
  ∃ k : N, Reference.firstFree taken stem from = stem +:+ pretty k
           ∧ stem +:+ pretty k ∉ taken.
Proof.
  unfold Reference.firstFree.
  set (cands := (λ k : nat, stem +:+ pretty (from + N.of_nat k)%N)
                  <$> seq 0 (S (length taken))).
  destruct (filter (λ c, c ∉ taken) cands) as [|c rest] eqn:Hf.
  - exfalso.
    assert (Hnd : NoDup cands).
    { apply NoDup_fmap_2_strong; [|apply NoDup_seq].
      intros i j _ _ Heq. apply (inj (String.app stem)) in Heq.
      apply (inj pretty) in Heq. lia. }
    assert (Hsub : ∀ x, x ∈ cands → x ∈ taken).
    { intros x Hx. destruct (decide (x ∈ taken)) as [|Hn]; [done|].
      by destruct (filter_nil_not_elem_of _ _ x Hf Hn). }
    pose proof (submseteq_length _ _ (NoDup_submseteq _ _ Hnd Hsub)) as Hlen.
    unfold cands in Hlen. rewrite length_fmap, length_seq in Hlen. lia.
  - assert (Hc : c ∈ filter (λ c, c ∉ taken) cands) by (rewrite Hf; by left).
    apply list_elem_of_filter in Hc as [Hfree Hc].
    apply list_elem_of_fmap in Hc as (k & -> & _).
    exists (from + N.of_nat k)%N. done.
Qed.

(** The reference symbol table does what the symbol tables of the compiler
    guarantee. *)
Lemma makeUniqueName_uniquing (dt : DomTree ptr) (pdt : DomTree (option ptr))
    (depth : ptr → nat) :
  @uniquing (Reference.analyses dt pdt depth).
Proof.
  intros sc taken Name. cbn [uniqueName Reference.analyses].
  unfold Reference.makeUniqueName.
  destruct (decide (Name ∈ taken)) as [Hin|Hout].
  - destruct (firstFree_spec taken (Name +:+ separator sc) (Reference.firstNumber sc))
      as (k & -> & Hfree).
    rewrite append_assoc in *. split; [done|]. split; [by exists k|]. done.
  - split; [done|]. split; [done|]. done.
Qed.


(** ** The rewriter: the clone of the callee *)

Lemma updateThunkArgUses_signature `{Analyses} (F : Function) (thunkArg : Value)
    (thunkArgType : Type_) (n : ptr) (F' : Function) (n' : ptr) :
  Lazyfication.updateThunkArgUses F thunkArg thunkArgType n = Ok (F', n') →
  signature F' = signature F.
Proof.
  unfold Lazyfication.updateThunkArgUses. intros Hu.
  apply (foldM_preserves (λ G, signature G = signature F) _ _) in Hu; [done| |done].
  intros G UserI m G' m' _ Hstep HG.
  apply bind_Ok in Hstep as (c & k1 & _ & Hstep). by injection Hstep as <- <-.
Qed.

Lemma updateMemoizedThunkArgUses_signature `{Analyses} (F : Function) (thunkArg : Value)
    (thunkArgType : Type_) (n : ptr) (F' : Function) (n' : ptr) :
  Lazyfication.updateMemoizedThunkArgUses F thunkArg thunkArgType n = Ok (F', n') →
  signature F' = signature F.
Proof.
  unfold Lazyfication.updateMemoizedThunkArgUses. intros Hu.
  apply (foldM_preserves (λ G, signature G = signature F) _ _) in Hu; [done| |done].
  intros G UserI m G' m' _ Hstep HG.
  apply (foldM_preserves (λ G, signature G = signature F) _ _) in Hstep; [done| |done].
  intros G0 x m0 G1 m1 _ Hs HG0.
  apply bind_Ok in Hs as (g & k1 & _ & Hs).
  apply bind_Ok in Hs as (ld & k2 & _ & Hs).
  apply bind_Ok in Hs as (c & k3 & _ & Hs). by injection Hs as <- <-.
Qed.

Lemma setArgNames_types `{Analyses} (table : NameScope) (args : list Argument) :
  ∀ taken, aty <$> Lazyfication.setArgNames table taken args = aty <$> args.
Proof.
  induction args as [|a args IH]; intros taken; [done|].
  simpl. by rewrite IH.
Qed.

Lemma types_with_thunk (index : nat) (ty : Type_) (args : list Argument) :
  aty <$> imap (λ idx a, if decide (idx = index) then mkArg "_wyvern_thunkptr" ty
                         else a) args
  = <[index := ty]> (aty <$> args).
Proof.
  apply list_eq. intros i. rewrite list_lookup_fmap, list_lookup_imap.
  destruct (decide (i = index)) as [->|Hne].
  - destruct (args !! index) as [a|] eqn:Ha; simpl.
    + rewrite list_lookup_insert_eq; [done|].
      rewrite length_fmap. by apply lookup_lt_Some in Ha.
    + symmetry. apply lookup_ge_None. rewrite length_insert, length_fmap.
      by apply lookup_ge_None in Ha.
  - rewrite list_lookup_insert_ne by done. rewrite list_lookup_fmap.
    by destruct (args !! i) as [a|].
Qed.

(** X15.  [cloneCalleeFunction] stops when the callee has no parameter at
    the index; otherwise the clone it adds to the module returns what the
    callee returns and has the parameter types of the callee except at the
    index, where the type is that of the parameter of the thunk body with
    memoization and a pointer to the type of the thunk body without.  The
    clone is named [_wyvern_calleeclone_<callee>_<index>] by the symbol
    table of the module: that name itself when no function of the module
    has it, and that name followed by a dot and a number otherwise.  Its
    parameters are named one after the other in its own symbol table, after
    those of the callee, except at the index, where the name asked for is
    [_wyvern_thunkptr].  The functions the module had and its record types
    are left as they were. *)
Theorem cloneCalleeFunction_signature `{Analyses} (memo : bool) (Callee : Function)
    (index : nat) (slicedFunction : Function) (M : Module) (n : ptr)
    (F : Function) (M' : Module) (n' : ptr) :
  Lazyfication.cloneCalleeFunction memo Callee index slicedFunction M n
    = Ok ((F, M'), n') →
  (index < length (fargs Callee))%nat
  ∧ fid F = n
  ∧ fname F = setName GlobalNames (globalNames M) (calleeCloneName Callee index)
  ∧ (uniquing →
       (calleeCloneName Callee index ∉ globalNames M →
          fname F = calleeCloneName Callee index)
       ∧ (fname F = calleeCloneName Callee index
          ∨ ∃ number : N,
              fname F = calleeCloneName Callee index +:+ "." +:+ pretty number))
  ∧ fret F = fret Callee
  ∧ length (fargs F) = length (fargs Callee)
  ∧ (∃ ty,
       (if memo then aty <$> head (fargs slicedFunction) = Some ty
        else ty = PointerTy (getFunctionType slicedFunction))
       ∧ aty <$> fargs F = <[index := ty]> (aty <$> fargs Callee)
       ∧ fargs F
         = Lazyfication.setArgNames (ValueNames n) []
             (imap (λ idx a, if decide (idx = index)
                             then mkArg "_wyvern_thunkptr" ty else a)
                   (fargs Callee)))
  ∧ mfuncs M' = mfuncs M ++ [F]
  ∧ mstructs M' = mstructs M.
Proof.
  unfold Lazyfication.cloneCalleeFunction. intros Hc.
  set (functionName := calleeCloneName Callee index).
  assert (Hnamed : functionName ≠ "") by done.
  apply bind_Ok in Hc as (thunkParamTy & n1 & Hty & Hc).
  assert (Hparam : n1 = n
            ∧ if memo then aty <$> head (fargs slicedFunction) = Some thunkParamTy
              else thunkParamTy = PointerTy (getFunctionType slicedFunction)).
  { destruct memo.
    - apply orAbort_Ok in Hty as [? ?]. by simpl in *.
    - by injection Hty as <- <-. }
  destruct Hparam as [-> Hparam]. clear Hty.
  destruct (bool_decide (length (aty <$> fargs Callee) ≤ index)%nat) eqn:Hidx;
    [discriminate|].
  apply bool_decide_eq_false in Hidx. rewrite length_fmap in Hidx.
  apply bind_Ok in Hc as (newCallee & n2 & Hf & Hc). injection Hf as <- <-.
  apply bind_Ok in Hc as (blocks & n3 & _ & Hc).
  apply bind_Ok in Hc as (F1 & n4 & Hupd & Hc). injection Hc as <- <- <-.
  assert (Hsig : signature F1
                 = (n, setName GlobalNames (globalNames M) functionName,
                    fret Callee,
                    Lazyfication.setArgNames (ValueNames n) []
                      (imap (λ idx a, if decide (idx = index)
                                      then mkArg "_wyvern_thunkptr" thunkParamTy
                                      else a) (fargs Callee)))).
  { destruct memo.
    - by apply updateMemoizedThunkArgUses_signature in Hupd.
    - by apply updateThunkArgUses_signature in Hupd. }
  injection Hsig as Hid Hname Hret Hargs.
  assert (Htypes : aty <$> fargs F1 = <[index := thunkParamTy]> (aty <$> fargs Callee))
    by (by rewrite Hargs, setArgNames_types, types_with_thunk).
  split; [lia|]. split; [done|]. split; [done|]. split.
  { intros Hu. rewrite Hname. split.
    - intros Hfree. unfold setName. rewrite decide_False by done.
      by apply (Hu GlobalNames).
    - by apply (setName_cases GlobalNames). }
  split; [done|]. split.
  { rewrite <- (length_fmap aty (fargs F1)), Htypes.
    by rewrite length_insert, length_fmap. }
  split; [|done]. by exists thunkParamTy.
Qed.

(** ** The rewriter: one call site, the whole run *)

Section CallSites.
Context `{Analyses}.
Variable verify : ProgramSlice → bool.

Lemma outlined_module (memo : bool) (s : ProgramSlice) (random_num : N) (M : Module) (n : ptr)
    (F : Function) (sid : ptr) (M' : Module) (n' : ptr) :
  (if memo then Outliner.memoizedOutline s random_num M n
   else Outliner.outline s random_num M n) = Ok ((F, sid, M'), n') →
  mfuncs M' = mfuncs M ++ [F] ∧ length (mstructs M') = S (length (mstructs M)).
Proof.
  intros Ho. destruct memo.
  - unfold Outliner.memoizedOutline in Ho.
    apply bind_Ok in Ho as ([[[F0 new_ret] sid'] fields] & n0 & _ & Ho).
    apply bind_Ok in Ho as (F1 & n1 & _ & Ho).
    simpl in Ho. injection Ho as <- <- <- <-. simpl.
    split; [done|]. rewrite length_app. simpl. lia.
  - unfold Outliner.outline in Ho.
    apply bind_Ok in Ho as ([[[F0 new_ret] sid'] fields] & n0 & _ & Ho).
    simpl in Ho. injection Ho as <- <- <- <-. simpl.
    split; [done|]. rewrite length_app. simpl. lia.
Qed.

Lemma cloned_module (memo : bool) (Callee : Function) (index : nat) (slicedFunction : Function)
    (M : Module) (n : ptr) (F : Function) (M' : Module) (n' : ptr) :
  Lazyfication.cloneCalleeFunction memo Callee index slicedFunction M n
    = Ok ((F, M'), n') →
  mfuncs M' = mfuncs M ++ [F] ∧ mstructs M' = mstructs M.
Proof.
  unfold Lazyfication.cloneCalleeFunction. intros Hc.
  apply bind_Ok in Hc as (thunkParamTy & n1 & _ & Hc).
  destruct (bool_decide _); [discriminate|].
  apply bind_Ok in Hc as (newCallee & n2 & _ & Hc).
  apply bind_Ok in Hc as (blocks & n3 & _ & Hc).
  apply bind_Ok in Hc as (F1 & n4 & _ & Hc). by injection Hc as <- <- <-.
Qed.

Lemma setFunction_sizes (F : Function) (M : Module) :
  length (mfuncs (setFunction F M)) = length (mfuncs M)
  ∧ mstructs (setFunction F M) = mstructs M.
Proof. unfold setFunction. simpl. by rewrite length_fmap. Qed.

(** What one call of [lazifyCallsite] does to the state of the pass. *)
Lemma lazifyCallsite_effect (memo : bool) (random_num : N) (CI : ptr) (index : nat)
    (st : PassState) (n : ptr) (changed : bool) (st' : PassState) (n' : ptr) :
  Lazyfication.lazifyCallsite memo verify random_num CI index st n
    = Ok ((changed, st'), n') →
  if changed
  then ∃ caller call lazyfiableArg slice thunk sid M1 n1,
         callerOf (module st) CI = Some caller
         ∧ findInst caller CI = Some call
         ∧ getArgOperand call index = Some (InstructionV lazyfiableArg)
         ∧ newProgramSlice lazyfiableArg caller CI = Ok slice
         ∧ (if memo then Outliner.memoizedOutline slice random_num (module st) n
            else Outliner.outline slice random_num (module st) n)
           = Ok ((thunk, sid, M1), n1)
         ∧ statistics st'
           = statistics (Lazyfication.recordSliceSize (getNumberOfInsts thunk)
                           (Lazyfication.bumpCounters (fid caller) lazyfiableArg st))
         ∧ lazifiedFunctions st'
           = {[(fid caller, lazyfiableArg)]} ∪ lazifiedFunctions st
         ∧ length (mfuncs (module st')) = (length (mfuncs (module st)) + 2)%nat
         ∧ length (mstructs (module st')) = S (length (mstructs (module st)))
  else st' = st ∧ n' = n.
Proof.
  unfold Lazyfication.lazifyCallsite. intros Hl.
  apply bind_Ok in Hl as (caller & n1 & Hcaller & Hl).
  apply orAbort_Ok in Hcaller as [Hcaller ?]. simpl in *. subst n1.
  apply bind_Ok in Hl as (call & n1 & Hcall & Hl).
  apply orAbort_Ok in Hcall as [Hcall ?]. simpl in *. subst n1.
  apply bind_Ok in Hl as (operand & n1 & Hop & Hl).
  apply orAbort_Ok in Hop as [Hop ?]. simpl in *. subst n1.
  destruct operand as [| |lazyfiableArg| | | |];
    try (injection Hl as <- <- <-; done).
  apply bind_Ok in Hl as (slice & n1 & Hslice & Hl).
  apply lift_Ok in Hslice as [Hslice ?]. simpl in *. subst n1.
  apply bind_Ok in Hl as (outlineable & n1 & Hout & Hl).
  apply lift_Ok in Hout as [_ ?]. simpl in *. subst n1.
  destruct (negb outlineable || negb (verify slice)); [by injection Hl as <- <- <-|].
  apply bind_Ok in Hl as (callee & n1 & Hcallee & Hl).
  apply orAbort_Ok in Hcallee as [_ ?]. simpl in *. subst n1.
  destruct memo.
  - apply bind_Ok in Hl as ([[thunk sid] M1] & n1 & Hthunk & Hl).
    pose proof Hthunk as Hbuilt.
    apply (outlined_module true) in Hthunk as [Hf1 Hs1].
    apply bind_Ok in Hl as (callee1 & n2 & _ & Hl).
    apply bind_Ok in Hl as ([newCallee M2] & n3 & Hclone & Hl).
    apply cloned_module in Hclone as [Hf2 Hs2].
    apply bind_Ok in Hl as (caller1 & n4 & _ & Hl).
    apply bind_Ok in Hl as ([thunkAlloca insts] & n5 & _ & Hl).
    injection Hl as <- <- <-.
    exists caller, call, lazyfiableArg, slice, thunk, sid, M1, n1.
    split; [done|]. split; [done|]. split; [done|]. split; [done|].
    split; [exact Hbuilt|]. split; [done|]. split; [done|].
    cbn [module Lazyfication.recordSliceSize Lazyfication.setModule].
    destruct (setFunction_sizes
                (Lazyfication.rewriteCall CI newCallee index (InstructionV thunkAlloca)
                   (insertBefore CI insts caller1)) M2) as [-> ->].
    rewrite Hf2, Hs2, Hf1, Hs1, !length_app. simpl. split; lia.
  - apply bind_Ok in Hl as ([[thunk sid] M1] & n1 & Hthunk & Hl).
    pose proof Hthunk as Hbuilt.
    apply (outlined_module false) in Hthunk as [Hf1 Hs1].
    apply bind_Ok in Hl as (callee1 & n2 & _ & Hl).
    apply bind_Ok in Hl as ([newCallee M2] & n3 & Hclone & Hl).
    apply cloned_module in Hclone as [Hf2 Hs2].
    apply bind_Ok in Hl as (caller1 & n5 & _ & Hl).
    injection Hl as <- <- <-.
    exists caller, call, lazyfiableArg, slice, thunk, sid, M1, n1.
    split; [done|]. split; [done|]. split; [done|]. split; [done|].
    split; [exact Hbuilt|]. split; [done|]. split; [done|].
    cbn [module Lazyfication.recordSliceSize Lazyfication.setModule].
    destruct (setFunction_sizes
                (Lazyfication.rewriteCall CI newCallee index
                   (FunctionV (fid thunk)) caller1) M2) as [-> ->].
    rewrite Hf2, Hs2, Hf1, Hs1, !length_app. simpl. split; lia.
Qed.

(** X16.  When [lazifyCallsite] returns false it has changed nothing: the
    module, the statistics, the set of lazified pairs and the arena are
    those it was given. *)
Theorem lazifyCallsite_false_unchanged (memo : bool) (random_num : N) (CI : ptr) (index : nat)
    (st : PassState) (n : ptr) (st' : PassState) (n' : ptr) :
  Lazyfication.lazifyCallsite memo verify random_num CI index st n
    = Ok ((false, st'), n') →
  st' = st ∧ n' = n.
Proof. intros Hl. exact (lazifyCallsite_effect _ _ _ _ _ _ false _ _ Hl). Qed.

(** X17.  When [lazifyCallsite] returns true: the operand of the call at
    the index is an instruction of the caller, the thunk body is what the
    outliner makes of the slice of that instruction, the module has two more
    functions and one more record type, the count of lazified call sites has
    gone up by one, the count of lazified pairs by one when the pair of the
    caller and that instruction is new, this pair has been added to the set
    of lazified pairs, the total slice size has grown by the number of
    instructions of the thunk body, and the largest and the smallest slice
    sizes are the maximum and the minimum of what they were and that
    number. *)
Theorem lazifyCallsite_true_effect (memo : bool) (random_num : N) (CI : ptr) (index : nat)
    (st : PassState) (n : ptr) (st' : PassState) (n' : ptr) :
  Lazyfication.lazifyCallsite memo verify random_num CI index st n
    = Ok ((true, st'), n') →
  ∃ caller call lazyfiableArg slice thunk sid M1 n1,
    callerOf (module st) CI = Some caller
    ∧ findInst caller CI = Some call
    ∧ getArgOperand call index = Some (InstructionV lazyfiableArg)
    ∧ newProgramSlice lazyfiableArg caller CI = Ok slice
    ∧ (if memo then Outliner.memoizedOutline slice random_num (module st) n
       else Outliner.outline slice random_num (module st) n)
      = Ok ((thunk, sid, M1), n1)
    ∧ length (mfuncs (module st')) = (length (mfuncs (module st)) + 2)%nat
    ∧ length (mstructs (module st')) = S (length (mstructs (module st)))
    ∧ NumCallsitesLazified (statistics st')
      = u32 (NumCallsitesLazified (statistics st) + 1)
    ∧ NumFunctionsLazified (statistics st')
      = (if bool_decide ((fid caller, lazyfiableArg) ∈ lazifiedFunctions st)
         then NumFunctionsLazified (statistics st)
         else u32 (NumFunctionsLazified (statistics st) + 1))
    ∧ lazifiedFunctions st'
      = {[(fid caller, lazyfiableArg)]} ∪ lazifiedFunctions st
    ∧ TotalSliceSize (statistics st')
      = u32 (TotalSliceSize (statistics st) + getNumberOfInsts thunk)
    ∧ LargestSliceSize (statistics st')
      = Z.max (LargestSliceSize (statistics st)) (getNumberOfInsts thunk)
    ∧ SmallestSliceSize (statistics st')
      = Z.min (SmallestSliceSize (statistics st)) (getNumberOfInsts thunk).
Proof.
  intros Hl. apply lazifyCallsite_effect in Hl
    as (caller & call & arg & slice & thunk & sid & M1 & n1 & Hcaller & Hcall & Hop
        & Hslice & Hbuilt & Hstat & Hset & Hf & Hs).
  exists caller, call, arg, slice, thunk, sid, M1, n1.
  do 7 (split; [done|]). rewrite Hstat. simpl.
  split; [done|]. split.
  { destruct (bool_decide ((fid caller, arg) ∉ lazifiedFunctions st)) eqn:Hb.
    - apply bool_decide_eq_true in Hb. by rewrite bool_decide_eq_false_2.
    - apply bool_decide_eq_false in Hb. apply dec_stable in Hb.
      by rewrite bool_decide_eq_true_2. }
  split; [done|]. split; [done|]. split.
  - destruct (bool_decide _) eqn:Hb.
    + apply bool_decide_eq_true in Hb. lia.
    + apply bool_decide_eq_false in Hb. lia.
  - destruct (bool_decide (_ > _)) eqn:Hb.
    + apply bool_decide_eq_true in Hb. lia.
    + apply bool_decide_eq_false in Hb. lia.
Qed.

Lemma setSmallest_module (v : Z) (st : PassState) :
  module (Lazyfication.setSmallest v st) = module st.
Proof. done. Qed.

Lemma runOnCandidates_grows (memo : bool) (FLA : Lazyfication.FindLazyfiableAnalysis)
    (random : nat → N) (candidates : list (ptr * nat)) :
  ∀ k changed st n changed' st' n',
    Lazyfication.runOnCandidates memo verify FLA random k candidates changed st n
      = Ok ((changed', st'), n') →
    (length (mfuncs (module st)) ≤ length (mfuncs (module st')))%nat
    ∧ (changed' = true →
         changed = true
         ∨ (length (mfuncs (module st)) < length (mfuncs (module st')))%nat).
Proof.
  induction candidates as [|[callInst argIdx] rest IH];
    intros k changed st n changed' st' n' Hr.
  - injection Hr as <- <- <-. split; [lia|by left].
  - simpl in Hr. apply bind_Ok in Hr as (caller & n1 & _ & Hr).
    apply bind_Ok in Hr as (call & n2 & _ & Hr).
    destruct (bool_decide _).
    + apply bind_Ok in Hr as ([changed1 st1] & n3 & Hl & Hr).
      apply IH in Hr as [Hle Hch]. apply lazifyCallsite_effect in Hl.
      destruct changed1.
      * destruct Hl as (? & ? & ? & ? & ? & ? & ? & ? & _ & _ & _ & _ & _ & _ & _ & Hf & _).
        split; [lia|]. intros _. right. lia.
      * destruct Hl as [-> ->]. split; [done|]. intros Ht.
        destruct (Hch Ht) as [?|?]; [done|by right].
    + by apply IH in Hr.
Qed.

(** X18.  A run of the pass never removes a function from the module, and
    when [runOnModule] returns true the module has more functions than it
    had: a true result is never given for an untouched module. *)
Theorem runOnModule_true_changed (memo : bool) (FLA : Lazyfication.FindLazyfiableAnalysis)
    (random : nat → N) (st : PassState) (n : ptr) (changed : bool)
    (st' : PassState) (n' : ptr) :
  Lazyfication.runOnModule memo verify FLA random st n = Ok ((changed, st'), n') →
  (length (mfuncs (module st)) ≤ length (mfuncs (module st')))%nat
  ∧ (changed = true →
       (length (mfuncs (module st)) < length (mfuncs (module st')))%nat
       ∧ module st' ≠ module st).
Proof.
  unfold Lazyfication.runOnModule. intros Hr.
  apply bind_Ok in Hr as ([changed1 st1] & n1 & Hc & Hr).
  apply runOnCandidates_grows in Hc as [Hle Hch]. rewrite setSmallest_module in Hle, Hch.
  assert (Hmod : module st' = module st1).
  { destruct (bool_decide _); by injection Hr as <- <- <-. }
  assert (changed = changed1) as ->.
  { destruct (bool_decide _); by injection Hr as <- <- <-. }
  rewrite Hmod. split; [done|]. intros Ht.
  destruct (Hch Ht) as [?|Hlt]; [discriminate|]. split; [done|].
  intros Heq. rewrite Heq in Hlt. lia.
Qed.

End CallSites.

(** ** The rewriter: the size of a function *)

Lemma u32_succ (a : Z) : u32 (u32 a + 1) = u32 (a + 1).
Proof. unfold u32. by rewrite Zplus_mod_idemp_l. Qed.

Lemma count_fold {A} (l : list A) (a : Z) :
  foldl (λ size (_ : A), u32 (size + 1)) (u32 a) l = u32 (a + Z.of_nat (length l)).
Proof.
  revert a. induction l as [|x l IH]; intros a; simpl.
  - by rewrite Z.add_0_r.
  - rewrite u32_succ, IH. f_equal. lia.
Qed.

Lemma count_blocks (bs : list BasicBlock) (a : Z) :
  foldl (λ size BB, foldl (λ size (_ : Instruction), u32 (size + 1)) size (binsts BB))
        (u32 a) bs
  = u32 (a + Z.of_nat (length (concat (binsts <$> bs)))).
Proof.
  revert a. induction bs as [|BB bs IH]; intros a.
  - simpl. by rewrite Z.add_0_r.
  - cbn [foldl]. rewrite count_fold, IH, fmap_cons. cbn [concat].
    rewrite length_app. f_equal. lia.
Qed.

(** X19.  [getNumberOfInsts] is the number of instructions of the function,
    counted in 32 bits: below 2^32 instructions it is their number. *)
Theorem getNumberOfInsts_counts (F : Function) :
  getNumberOfInsts F = u32 (Z.of_nat (length (allInsts F)))
  ∧ (Z.of_nat (length (allInsts F)) < 2 ^ 32 →
       getNumberOfInsts F = Z.of_nat (length (allInsts F))).
Proof.
  assert (Hc : getNumberOfInsts F = u32 (Z.of_nat (length (allInsts F)))).
  { unfold getNumberOfInsts, allInsts. change 0 with (u32 0) at 1.
    by rewrite count_blocks. }
  split; [exact Hc|]. intros Hlt. rewrite Hc. unfold u32.
  apply Z.mod_small. lia.
Qed.

(** ** The outliner: the return *)

Lemma findBlock_mapBlocks (f : BasicBlock → BasicBlock) (F : Function) (b : ptr) :
  (∀ BB, bid (f BB) = bid BB) →
  findBlock (mapBlocks f F) b = f <$> findBlock F b.
Proof.
  intros Hf. unfold findBlock, mapBlocks. simpl.
  rewrite list_find_fmap. rewrite <- !option_fmap_compose.
  rewrite (list_find_ext _ (λ BB, bid BB = b));
    [by destruct (list_find _ _) as [[]|]|].
  intros BB. simpl. by rewrite Hf.
Qed.

Lemma getTerminator_snoc (b : ptr) (name : string) (l : list Instruction)
    (t : Instruction) :
  isTerminator (ikind t) = true → getTerminator (mkBB b name (l ++ [t])) = Some t.
Proof. intros Ht. unfold getTerminator. simpl. by rewrite last_snoc, Ht. Qed.

(** X20.  The function [addReturnValue] returns has the same blocks under
    the same addresses, and the block that holds the clone of the criterion
    ends in the new return instruction, which returns that clone and sits at
    the address that was free. *)
Theorem addReturnValue_returns_criterion (s : ProgramSlice) (o : Outlining)
    (F : Function) (n : ptr) (F' : Function) (new_ret n' : ptr) :
  Outliner.addReturnValue s o F n = Ok ((F', new_ret), n') →
  new_ret = n ∧ n' = N.succ n
  ∧ (bid <$> fblocks F') = (bid <$> fblocks F)
  ∧ ∃ newInitial exit blk,
      _Imap o !! _initial s = Some newInitial
      ∧ getParent F newInitial = Some exit
      ∧ findBlock F' exit = Some blk
      ∧ getTerminator blk
        = Some (mkInst n "" VoidTy (ReturnInst (Some (InstructionV newInitial)))).
Proof.
  unfold Outliner.addReturnValue. intros Ha.
  apply bind_Ok in Ha as (newInitial & n1 & Hi & Ha).
  apply orAbort_Ok in Hi as [Hi ?]. simpl in *. subst n1.
  apply bind_Ok in Ha as (exit & n1 & He & Ha).
  apply orAbort_Ok in He as [He ?]. simpl in *. subst n1.
  apply bind_Ok in Ha as (blk & n1 & Hb & Ha).
  apply orAbort_Ok in Hb as [Hb ?]. simpl in *. subst n1.
  apply bind_Ok in Ha as (r & n1 & Hf & Ha). injection Hf as <- <-.
  injection Ha as <- <- <-. split; [done|]. split; [done|].
  set (F1 := match getTerminator blk with
             | Some t => editBlock exit (filter (λ ins, iid ins ≠ iid t)) F
             | None => F
             end).
  assert (Hids : ∀ (g : list Instruction → list Instruction) G,
            bid <$> fblocks (editBlock exit g G) = bid <$> fblocks G).
  { intros g G. unfold editBlock, mapBlocks. simpl. rewrite <- list_fmap_compose.
    apply list_fmap_ext. intros i BB _. simpl. by destruct (decide _). }
  assert (HF1 : (bid <$> fblocks F1) = (bid <$> fblocks F)
                ∧ ∃ blk1, findBlock F1 exit = Some blk1 ∧ bid blk1 = exit).
  { subst F1. destruct (getTerminator blk) as [t|].
    - split; [apply Hids|]. unfold editBlock. rewrite findBlock_mapBlocks.
      + rewrite Hb. simpl. eexists. split; [done|].
        destruct (findBlock_elem _ _ _ Hb) as [_ Hid].
        by destruct (decide (bid blk = exit)).
      + intros BB. by destruct (decide _).
    - split; [done|]. exists blk. split; [done|].
      by destruct (findBlock_elem _ _ _ Hb). }
  destruct HF1 as [Hsame (blk1 & Hblk1 & Hid1)]. split.
  - unfold appendInst. by rewrite Hids.
  - exists newInitial, exit. eexists. split; [done|]. split; [done|].
    unfold appendInst, editBlock. rewrite findBlock_mapBlocks.
    + rewrite Hblk1. simpl. destruct (decide (bid blk1 = exit)); [|done].
      split; [done|]. by apply getTerminator_snoc.
    + intros BB. by destruct (decide _).
Qed.

(** ** The outliner: uses of the originals *)

Lemma operands_mapIncomingBlocks (f : ptr → ptr) (k : InstKind) :
  operands (mapIncomingBlocks f k) = operands k.
Proof.
  destruct k; try done. simpl. rewrite <- !list_fmap_compose.
  by apply list_fmap_ext.
Qed.

Lemma reorganizeUse_operands (o : Outlining) (F : Function) (orig new : ptr)
    (ins : Instruction) (j : ptr) :
  new ≠ orig →
  ins ∈ allInsts (Outliner.reorganizeUse o F (orig, new)) →
  InstructionV j ∈ operands (ikind ins) →
  j ≠ orig
  ∧ (j = new ∨ ∃ ins0, ins0 ∈ allInsts F ∧ InstructionV j ∈ operands (ikind ins0)).
Proof.
  unfold Outliner.reorganizeUse. intros Hnew Hin Huse.
  apply operands_replaceUsesIn in Hin as (ins1 & Hin1 & _ & Hops); [|done].
  rewrite Hops in Huse. apply list_elem_of_fmap in Huse as (u & Hu & Huin).
  rewrite allInsts_mapInsts in Hin1.
  apply list_elem_of_fmap in Hin1 as (ins0 & -> & Hin0).
  assert (Hsame : operands (ikind (if decide (iid ins0 = new)
                     then setKind (mapIncomingBlocks
                                     (λ BB, default BB (_origToNewBBmap o !! BB))
                                     (ikind ins0)) ins0
                     else ins0)) = operands (ikind ins0)).
  { destruct (decide _); [|done]. simpl. apply operands_mapIncomingBlocks. }
  rewrite Hsame in Huin. unfold replaceValue in Hu.
  destruct (decide (u = InstructionV orig)) as [->|Hne].
  - injection Hu as ->. split; [done|by left].
  - subst u. split; [congruence|]. right. eauto.
Qed.

Lemma reorganize_fold (o : Outlining) (l : list (ptr * ptr)) :
  ∀ (D : list (ptr * ptr)) (G : Function),
    (∀ p, p ∈ D ++ l → p.2 ∉ (fst <$> D ++ l)) →
    (∀ ins j, ins ∈ allInsts G → InstructionV j ∈ operands (ikind ins) →
       j ∉ (fst <$> D)) →
    ∀ ins j, ins ∈ allInsts (foldl (Outliner.reorganizeUse o) G l) →
      InstructionV j ∈ operands (ikind ins) → j ∉ (fst <$> D ++ l).
Proof.
  induction l as [|[orig new] l IH]; intros D G Hfresh HG ins j Hin Huse.
  - rewrite app_nil_r. by eapply HG.
  - simpl in Hin.
    replace (D ++ (orig, new) :: l) with ((D ++ [(orig, new)]) ++ l) in *
      by (by rewrite <- app_assoc).
    eapply IH; [exact Hfresh| |exact Hin|exact Huse].
    intros ins1 j1 Hin1 Huse1 Hj1.
    assert (Hne : new ≠ orig).
    { intros ->. apply (Hfresh (orig, orig)).
      - apply elem_of_app. left. apply elem_of_app. right.
        by apply list_elem_of_singleton.
      - rewrite !fmap_app. apply elem_of_app. left. apply elem_of_app. right.
        by apply list_elem_of_singleton. }
    destruct (reorganizeUse_operands _ _ _ _ _ _ Hne Hin1 Huse1) as [Hj [->|Hold]].
    + apply (Hfresh (orig, new)).
      * apply elem_of_app. left. apply elem_of_app. right.
        by apply list_elem_of_singleton.
      * simpl. rewrite fmap_app. apply elem_of_app. by left.
    + destruct Hold as (ins0 & Hin0 & Huse0).
      rewrite fmap_app in Hj1. apply elem_of_app in Hj1 as [Hj1|Hj1].
      * by eapply HG.
      * by apply list_elem_of_singleton in Hj1.
Qed.

(** X21.  After [reorganizeUses], no instruction of the thunk body has an
    instruction that was cloned as an operand, provided no clone is itself
    an instruction that was cloned. *)
Theorem reorganizeUses_leaves_no_original (o : Outlining) (F : Function)
    (ins : Instruction) (j : ptr) :
  (∀ k v, _Imap o !! k = Some v → _Imap o !! v = None) →
  ins ∈ allInsts (Outliner.reorganizeUses o F) →
  InstructionV j ∈ operands (ikind ins) →
  _Imap o !! j = None.
Proof.
  intros Hfresh Hin Huse. unfold Outliner.reorganizeUses in Hin.
  set (l := omap (λ k, (λ v, (k, v)) <$> _Imap o !! k) (ascending (dom (_Imap o))))
    in *.
  assert (Hl : ∀ p, p ∈ l ↔ _Imap o !! p.1 = Some p.2).
  { intros [k v]. subst l. rewrite list_elem_of_omap. simpl. split.
    - intros (k' & _ & Hk). destruct (_Imap o !! k') as [v'|] eqn:Hv; [|done].
      simpl in Hk. by injection Hk as -> ->.
    - intros Hk. exists k. split; [|by rewrite Hk].
      apply elem_of_ascending, elem_of_dom. eauto. }
  assert (Hnot : j ∉ (fst <$> [] ++ l)).
  { eapply (reorganize_fold o l [] F); [| |exact Hin|exact Huse].
    - intros [k v] Hp Hv. simpl in *. apply Hl in Hp. simpl in Hp.
      apply list_elem_of_fmap in Hv as ([k' v'] & -> & Hp').
      apply Hl in Hp'. simpl in Hp'. rewrite (Hfresh k k' Hp) in Hp'. discriminate.
    - intros ins0 j0 _ _. apply not_elem_of_nil. }
  destruct (_Imap o !! j) as [v|] eqn:Hj; [|done].
  exfalso. apply Hnot. simpl. apply list_elem_of_fmap. exists (j, v).
  split; [done|]. by apply Hl.
Qed.

(** ** The outliner: the clones of the instructions *)

Lemma elem_of_editBlock_old (b : ptr) (g : list Instruction → list Instruction)
    (F : Function) (x : Instruction) :
  (∀ l, x ∈ l → x ∈ g l) → x ∈ allInsts F → x ∈ allInsts (editBlock b g F).
Proof.
  intros Hg. rewrite !elem_of_allInsts. intros (BB & HBB & Hx).
  exists (if decide (bid BB = b) then mkBB (bid BB) (bname BB) (g (binsts BB)) else BB).
  split.
  - unfold editBlock, mapBlocks. simpl. apply list_elem_of_fmap. eauto.
  - destruct (decide _); [by apply Hg|done].
Qed.

Lemma elem_of_appendInst_new (b : ptr) (x : Instruction) (F : Function) :
  b ∈ (bid <$> fblocks F) → x ∈ allInsts (appendInst b x F).
Proof.
  intros Hb. apply list_elem_of_fmap in Hb as (BB & -> & HBB).
  apply elem_of_allInsts.
  exists (mkBB (bid BB) (bname BB) (binsts BB ++ [x])). split.
  - unfold appendInst, editBlock, mapBlocks. simpl. apply list_elem_of_fmap.
    exists BB. split; [|done]. by destruct (decide (bid BB = bid BB)).
  - simpl. apply elem_of_app. right. by apply list_elem_of_singleton.
Qed.

Lemma bids_editBlock (b : ptr) (g : list Instruction → list Instruction)
    (F : Function) :
  bid <$> fblocks (editBlock b g F) = bid <$> fblocks F.
Proof.
  unfold editBlock, mapBlocks. simpl. rewrite <- list_fmap_compose.
  apply list_fmap_ext. intros i BB _. simpl. by destruct (decide _).
Qed.

Section Clones.
Variables (s : ProgramSlice) (F : Function) (o : Outlining) (n : ptr).
Hypothesis Hempty : _Imap o = ∅.
Hypothesis Hhosted :
  ∀ b nb, _origToNewBBmap o !! b = Some nb → nb ∈ (bid <$> fblocks F).

Lemma cloneInto_step (BB : ptr) (seen : list Instruction) (ins : Instruction)
    (G : Function) (o1 : Outlining) (m : ptr) (G' : Function) (o1' : Outlining)
    (m' : ptr) :
  iid ins ∉ (iid <$> seen) →
  Outliner.cloneInto s BB (G, o1) ins m = Ok ((G', o1'), m') →
  cloned s F o n seen G o1 m → cloned s F o n (seen ++ [ins]) G' o1' m'.
Proof.
  intros Hnew Hc (Hm & Ho2n & Hn2o & Hids & Hmap & Hdom).
  unfold Outliner.cloneInto in Hc. unfold cloned.
  rewrite filter_app, filter_cons, filter_nil.
  destruct (Outliner.inSlice s (iid ins)) eqn:Hin.
  - destruct (decide (isSliced s ins)) as [_|Hno]; [|by destruct Hno].
    apply bind_Ok in Hc as (newInst & m1 & Hf & Hc). injection Hf as <- <-.
    apply bind_Ok in Hc as (target & m2 & Ht & Hc).
    apply orAbort_Ok in Ht as [Ht ?]. simpl in *. subst m2.
    injection Hc as <- <- <-.
    assert (Hfresh : _Imap o1 !! iid ins = None).
    { destruct (_Imap o1 !! iid ins) as [c|] eqn:Hc; [|done].
      apply Hdom in Hc. destruct Hnew.
      apply list_elem_of_fmap in Hc as (x & -> & Hx).
      apply list_elem_of_filter in Hx as [_ Hx]. apply list_elem_of_fmap. eauto. }
    rewrite (emplace_fresh _ _ _ Hfresh).
    split; [rewrite length_app; simpl; lia|]. split; [done|]. split; [done|].
    split; [unfold appendInst; by rewrite bids_editBlock|]. split.
    + intros k x Hk. cbn [_Imap].
      destruct (decide (k < length (filter (isSliced s) seen))%nat) as [Hlt|Hge].
      * rewrite lookup_app_l in Hk by done. destruct (Hmap k x Hk) as [Hx1 Hx2].
        split.
        -- rewrite lookup_insert_ne; [done|]. intros Heq. apply Hnew.
           rewrite Heq. apply list_elem_of_fmap. exists x. split; [done|].
           apply list_elem_of_lookup_2 in Hk. by apply list_elem_of_filter in Hk as [_ ?].
        -- apply elem_of_editBlock_old; [|done]. intros l Hl.
           apply elem_of_app. by left.
      * rewrite lookup_app_r in Hk by lia.
        destruct (k - length (filter (isSliced s) seen))%nat as [|d] eqn:Hd; [|done].
        injection Hk as <-. assert (k = length (filter (isSliced s) seen)) as -> by lia.
        rewrite <- Hm. split; [apply lookup_insert_eq|].
        apply elem_of_appendInst_new. rewrite Hids. eapply Hhosted.
        by rewrite <- Ho2n.
    + intros i c. cbn [_Imap]. rewrite fmap_app. intros Hi.
      apply elem_of_app. destruct (decide (iid ins = i)) as [<-|Hne].
      * right. by apply list_elem_of_singleton.
      * rewrite lookup_insert_ne in Hi by done. left. by eapply Hdom.
  - destruct (decide (isSliced s ins)) as [Hyes|_];
      [unfold isSliced in Hyes; congruence|].
    injection Hc as <- <- <-. by rewrite app_nil_r.
Qed.

Lemma cloneInto_fold (BB : ptr) (l : list Instruction) :
  ∀ seen G o1 m G' o1' m',
    NoDup (iid <$> seen ++ l) →
    foldM (Outliner.cloneInto s BB) l (G, o1) m = Ok ((G', o1'), m') →
    cloned s F o n seen G o1 m → cloned s F o n (seen ++ l) G' o1' m'.
Proof.
  induction l as [|ins l IH]; intros seen G o1 m G' o1' m' Hnd Hf Hc.
  - injection Hf as <- <- <-. by rewrite app_nil_r.
  - simpl in Hf. apply bind_Ok in Hf as ([G1 o2] & m1 & Hstep & Hf).
    replace (seen ++ ins :: l) with ((seen ++ [ins]) ++ l) in *
      by (by rewrite <- app_assoc).
    eapply IH; [exact Hnd|exact Hf|].
    eapply cloneInto_step; [|exact Hstep|exact Hc].
    rewrite !fmap_app in Hnd. apply NoDup_app in Hnd as [Hnd _].
    apply NoDup_app in Hnd as (_ & Hcross & _). intros Hin.
    apply (Hcross _ Hin). by apply list_elem_of_singleton.
Qed.

Lemma populate_blocks_fold (blocks : list BasicBlock) :
  ∀ seen G o1 m G' o1' m',
    NoDup (iid <$> seen ++ concat (binsts <$> blocks)) →
    foldM (λ st BB, foldM (Outliner.cloneInto s (bid BB)) (binsts BB) st)
          blocks (G, o1) m = Ok ((G', o1'), m') →
    cloned s F o n seen G o1 m →
    cloned s F o n (seen ++ concat (binsts <$> blocks)) G' o1' m'.
Proof.
  induction blocks as [|BB blocks IH]; intros seen G o1 m G' o1' m' Hnd Hf Hc.
  - injection Hf as <- <- <-. simpl. by rewrite app_nil_r.
  - simpl in Hf. apply bind_Ok in Hf as ([G1 o2] & m1 & Hstep & Hf).
    rewrite fmap_cons in Hnd |- *. cbn [concat] in Hnd |- *.
    rewrite app_assoc in Hnd |- *.
    eapply IH; [exact Hnd|exact Hf|].
    eapply cloneInto_fold; [|exact Hstep|exact Hc].
    rewrite fmap_app in Hnd. by apply NoDup_app in Hnd as [Hnd _].
Qed.

(** X22.  Started with an empty instruction map, on a thunk body that
    hosts the clone of every block, and for a sliced function whose
    instructions are distinct, [populateBBsWithInsts] clones the
    instructions of the sliced function that are in the slice, and only
    those, in layout order: the k-th of them is mapped to the k-th fresh
    address, and its clone, which has its type and its operands and no
    name, is in the thunk body. *)
Theorem populateBBsWithInsts_clones (F' : Function) (o' : Outlining) (n' : ptr) :
  NoDup (iid <$> allInsts (_parentFunction s)) →
  Outliner.populateBBsWithInsts s (F, o) n = Ok ((F', o'), n') →
  n' = (n + N.of_nat (length (slicedInsts s)))%N
  ∧ (∀ k ins, slicedInsts s !! k = Some ins →
       _Imap o' !! iid ins = Some (n + N.of_nat k)%N
       ∧ mkInst (n + N.of_nat k) "" (ity ins) (ikind ins) ∈ allInsts F')
  ∧ (∀ i c, _Imap o' !! i = Some c → i ∈ (iid <$> slicedInsts s)).
Proof.
  intros Hnd Hp. unfold Outliner.populateBBsWithInsts in Hp.
  apply (populate_blocks_fold _ []) in Hp.
  - simpl in Hp. destruct Hp as (Hm & _ & _ & _ & Hmap & Hdom). done.
  - exact Hnd.
  - split; [simpl; lia|]. split; [done|]. split; [done|]. split; [done|]. split.
    + intros k ins Hk. by rewrite filter_nil, lookup_nil in Hk.
    + intros i c. by rewrite Hempty, lookup_empty.
Qed.

End Clones.

(** ** The outliner: missing terminators *)

Lemma getTerminator_isTerminator (BB : BasicBlock) (t : Instruction) :
  getTerminator BB = Some t → isTerminator (ikind t) = true.
Proof.
  unfold getTerminator. destruct (last (binsts BB)) as [x|]; [|done].
  destruct (isTerminator (ikind x)) eqn:Hx; [|done]. by intros [= <-].
Qed.

(** X23.  On a function whose blocks are distinct, when
    [addMissingTerminators] returns, every block has a terminator; a block
    that had one is left as it was, and a block that had none ends in a
    copy of the terminator of the block it stands for. *)
Theorem addMissingTerminators_terminates_blocks (s : ProgramSlice)
    (o : Outlining) (F : Function) (n : ptr) (F' : Function) (n' : ptr) :
  NoDup (bid <$> fblocks F) →
  addMissingTerminators s o F n = Ok (F', n') →
  (bid <$> fblocks F') = (bid <$> fblocks F)
  ∧ (∀ BB, BB ∈ fblocks F → is_Some (getTerminator BB) → BB ∈ fblocks F')
  ∧ ∀ BB', BB' ∈ fblocks F' →
      ∃ t, getTerminator BB' = Some t
           ∧ (BB' ∈ fblocks F
              ∨ ∃ orig origBlk t0,
                  _newToOrigBBmap o !! bid BB' = Some orig
                  ∧ findBlock (_parentFunction s) orig = Some origBlk
                  ∧ getTerminator origBlk = Some t0
                  ∧ ikind t = ikind t0 ∧ ity t = ity t0).
Proof.
  intros Hnd Ha. unfold addMissingTerminators in Ha.
  set (Q := λ (BB' : BasicBlock),
         ∃ t, getTerminator BB' = Some t
              ∧ (BB' ∈ fblocks F
                 ∨ ∃ orig origBlk t0,
                     _newToOrigBBmap o !! bid BB' = Some orig
                     ∧ findBlock (_parentFunction s) orig = Some origBlk
                     ∧ getTerminator origBlk = Some t0
                     ∧ ikind t = ikind t0 ∧ ity t = ity t0)).
  assert (Hfold : ∀ l D G m G' m',
            foldM (λ F0 BB,
                     blk ← orAbort "block vanished" (findBlock F0 BB);
                     match getTerminator blk with
                     | None =>
                         orig ← orAbort "block without original"
                                  (_newToOrigBBmap o !! BB);
                         origBlk ← orAbort "block without original"
                                     (findBlock (_parentFunction s) orig);
                         originalTerminator ← orAbort "clone of a null terminator"
                                                (getTerminator origBlk);
                         newTerminator ← fresh;
                         mret (appendInst BB
                                 (mkInst newTerminator "" (ity originalTerminator)
                                         (ikind originalTerminator)) F0)
                     | Some _ => mret F0
                     end) l G m = Ok (G', m') →
            ((bid <$> fblocks G) = (bid <$> fblocks F)
             ∧ (∀ BB, BB ∈ fblocks F → is_Some (getTerminator BB) → BB ∈ fblocks G)
             ∧ (∀ BB', BB' ∈ fblocks G → bid BB' ∈ D → Q BB')
             ∧ (∀ BB', BB' ∈ fblocks G → bid BB' ∉ D → BB' ∈ fblocks F)) →
            ((bid <$> fblocks G') = (bid <$> fblocks F)
             ∧ (∀ BB, BB ∈ fblocks F → is_Some (getTerminator BB) → BB ∈ fblocks G')
             ∧ (∀ BB', BB' ∈ fblocks G' → bid BB' ∈ D ++ l → Q BB')
             ∧ (∀ BB', BB' ∈ fblocks G' → bid BB' ∉ D ++ l → BB' ∈ fblocks F))).
  { induction l as [|b l IH]; intros D G m G' m' Hf HG.
    - injection Hf as <- <-. by rewrite app_nil_r.
    - simpl in Hf. apply bind_Ok in Hf as (G1 & m1 & Hstep & Hf).
      replace (D ++ b :: l) with ((D ++ [b]) ++ l) by (by rewrite <- app_assoc).
      apply (IH _ _ _ _ _ Hf). clear IH Hf.
      destruct HG as (Hids & Hkeep & Hdone & Htodo).
      apply bind_Ok in Hstep as (blk & m2 & Hblk & Hstep).
      apply orAbort_Ok in Hblk as [Hblk ?]. simpl in *. subst m2.
      destruct (findBlock_elem _ _ _ Hblk) as [Hblkin Hblkid].
      assert (HndG : NoDup (bid <$> fblocks G)) by (by rewrite Hids).
      destruct (getTerminator blk) as [t|] eqn:Hterm.
      + injection Hstep as <- <-. split; [done|]. split; [done|]. split.
        * intros BB' HBB' Hin. apply elem_of_app in Hin as [Hin|Hin]; [by apply Hdone|].
          apply list_elem_of_singleton in Hin.
          assert (BB' = blk) as ->
            by (eapply unique_block_by_id; eauto; congruence).
          destruct (decide (bid blk ∈ D)) as [HD|HD]; [by apply Hdone|].
          exists t. split; [done|]. left. by apply Htodo.
        * intros BB' HBB' Hnot. apply Htodo; [done|]. intros HD. apply Hnot.
          apply elem_of_app. by left.
      + apply bind_Ok in Hstep as (orig & m2 & Ho & Hstep).
        apply orAbort_Ok in Ho as [Ho ?]. simpl in *. subst m2.
        apply bind_Ok in Hstep as (origBlk & m2 & Hob & Hstep).
        apply orAbort_Ok in Hob as [Hob ?]. simpl in *. subst m2.
        apply bind_Ok in Hstep as (t0 & m2 & Ht0 & Hstep).
        apply orAbort_Ok in Ht0 as [Ht0 ?]. simpl in *. subst m2.
        apply bind_Ok in Hstep as (newT & m2 & Hfr & Hstep). injection Hfr as <- <-.
        injection Hstep as <- <-.
        assert (Hblocks : ∀ BB', BB' ∈ fblocks (appendInst b
                              (mkInst m "" (ity t0) (ikind t0)) G) →
                  ∃ BB0, BB0 ∈ fblocks G ∧ bid BB' = bid BB0
                    ∧ BB' = if decide (bid BB0 = b)
                            then mkBB (bid BB0) (bname BB0)
                                   (binsts BB0 ++ [mkInst m "" (ity t0) (ikind t0)])
                            else BB0).
        { intros BB' HBB'. unfold appendInst, editBlock, mapBlocks in HBB'.
          simpl in HBB'. apply list_elem_of_fmap in HBB' as (BB0 & -> & HBB0).
          exists BB0. split; [done|]. split; [by destruct (decide _)|done]. }
        split; [unfold appendInst; by rewrite bids_editBlock|]. split; [|split].
        * intros BB HBB Hhas. specialize (Hkeep BB HBB Hhas).
          unfold appendInst, editBlock, mapBlocks. simpl.
          apply list_elem_of_fmap. exists BB. split; [|done].
          destruct (decide (bid BB = b)) as [Heq|]; [|done].
          assert (BB = blk) as ->
            by (eapply unique_block_by_id; eauto; congruence).
          rewrite Hterm in Hhas. by destruct Hhas.
        * intros BB' HBB' Hin. destruct (Hblocks BB' HBB') as (BB0 & HBB0 & Hid & ->).
          destruct (decide (bid BB0 = b)) as [Heq|Hne].
          -- exists (mkInst m "" (ity t0) (ikind t0)). split.
             ++ apply getTerminator_snoc. simpl.
                by eapply getTerminator_isTerminator.
             ++ right. exists orig, origBlk, t0. simpl. rewrite Heq. done.
          -- apply Hdone; [done|]. apply elem_of_app in Hin as [Hin|Hin]; [done|].
             by apply list_elem_of_singleton in Hin.
        * intros BB' HBB' Hnot. destruct (Hblocks BB' HBB') as (BB0 & HBB0 & Hid & ->).
          destruct (decide (bid BB0 = b)) as [Heq|Hne].
          -- exfalso. apply Hnot. simpl. apply elem_of_app. right.
             by apply list_elem_of_singleton.
          -- apply Htodo; [done|]. intros HD. apply Hnot. apply elem_of_app. by left. }
  apply (Hfold _ [] F) in Ha.
  - destruct Ha as (Hids & Hkeep & Hdone & _). split; [done|]. split; [done|].
    intros BB' HBB'. apply Hdone; [done|]. simpl. rewrite <- Hids.
    apply list_elem_of_fmap. eauto.
  - split; [done|]. split; [done|]. split; [|done].
    intros BB' _ Hin. by apply elem_of_nil in Hin.
Qed.

(** ** Names that are taken *)

(** The second forcing call placed in [callee2] finds [_thunk_call] taken
    by the first. *)
Example second_forcing_call_renamed :
  iname <$> allInsts Cases.callee2Plain.1
  = ["_thunk_call1"; "r"; "_thunk_call"; "s"; ""].
Proof. reflexivity. Qed.

(** The record type of a second thunk body finds [_wyvern_thunk_type]
    taken by the first. *)
Example second_record_type_renamed :
  (λ m, (λ t : ptr * (string * list Type_), t.2.1) <$> mstructs m.1.2)
    <$> @Outliner.memoizedOutline Examples.straightLine Scenario.xSlice 8
          Scenario.memoOutlined.1.2 Scenario.memoOutlined.2
  = Ok ["_wyvern_thunk_type"; "_wyvern_thunk_type.0"].
Proof. vm_compute. reflexivity. Qed.

(** The second clone of [callee] for its parameter 0 finds the name of the
    first taken. *)
Example second_clone_renamed :
  (λ c, fname c.1.1)
    <$> @Lazyfication.cloneCalleeFunction Examples.straightLine true Examples.callee 0
          Scenario.memoOutlined.1.1.1 Cases.calleeClone.1.2 Cases.calleeClone.2
  = Ok "_wyvern_calleeclone_callee_0.1".
Proof. vm_compute. reflexivity. Qed.

(** The clones of two unnamed blocks ask for the same name. *)
Example unnamed_blocks_renamed :
  (s ← lift (@newProgramSlice Examples.diamondAnalyses 33 Loops.unnamedDiamond 34);
   b ← @Outliner.populateFunctionWithBBs Examples.diamondAnalyses s
         (Cases.emptyThunk, noOutlining);
   mret (bname <$> fblocks b.1)) Examples.arena
  = Ok (["sliceclone_entry"; "sliceclone_"; "sliceclone_1"; "sliceclone_join"],
        104%N).
Proof. vm_compute. reflexivity. Qed.

(** ** The properties at work on concrete cases *)

Ltac decided := apply (bool_decide_unpack _); vm_compute; reflexivity.

#[local] Existing Instance Examples.straightLine.

Lemma populateFunctionWithBBs_maps_witness :
  Outliner.populateFunctionWithBBs Cases.diamondSlice
    (Cases.emptyThunk, noOutlining) Examples.arena = Ok Cases.diamondBlocks
  ∧ mutuallyInverse Cases.diamondBlocks.1.2
  ∧ dom (_origToNewBBmap Cases.diamondBlocks.1.2) = _BBsInSlice Cases.diamondSlice.
Proof.
  assert (Hp : Outliner.populateFunctionWithBBs Cases.diamondSlice
                 (Cases.emptyThunk, noOutlining) Examples.arena
               = Ok Cases.diamondBlocks) by (vm_compute; reflexivity).
  split; [exact Hp|].
  destruct (populateFunctionWithBBs_maps Cases.diamondSlice Cases.emptyThunk
              Examples.arena Cases.diamondBlocks.1.1 Cases.diamondBlocks.1.2
              Cases.diamondBlocks.2 Hp) as (Hinv & Hdom & _).
  exact (conj Hinv Hdom).
Defined.

Lemma reorderBlocks_entry_witness :
  NoDup (bid <$> fblocks Cases.swapped)
  ∧ Outliner.reorderBlocks Cases.swapped = Ok swappedBack
  ∧ fblocks swappedBack ≡ₚ fblocks Cases.swapped.
Proof.
  assert (Hnd : NoDup (bid <$> fblocks Cases.swapped)) by decided.
  assert (Hr : Outliner.reorderBlocks Cases.swapped = Ok swappedBack)
    by reflexivity.
  split; [exact Hnd|]. split; [exact Hr|].
  pose proof (reorderBlocks_entry Cases.swapped Hnd) as Hentry.
  rewrite Hr in Hentry. exact (proj1 Hentry).
Defined.

Lemma repairPHI_keeps_predecessors_witness :
  Outliner.repairPHI [21%N] [0%nat; 1%nat] [(i32 1, 21%N); (i32 2, 99%N)]
    [21%N; 99%N] = Ok [(i32 1, 21%N)]
  ∧ sublist [(i32 1, 21%N)] [(i32 1, 21%N); (i32 2, 99%N)].
Proof.
  assert (Hr : Outliner.repairPHI [21%N] [0%nat; 1%nat]
                 [(i32 1, 21%N); (i32 2, 99%N)] [21%N; 99%N] = Ok [(i32 1, 21%N)])
    by (vm_compute; reflexivity).
  split; [exact Hr|].
  exact (proj1 (repairPHI_keeps_predecessors _ _ _ _ _ Hr)).
Defined.

Lemma updatePHINodes_unchanged_witness :
  NoDup (bid <$> fblocks Examples.diamond)
  ∧ Outliner.updatePHINodes Examples.diamond = Ok Examples.diamond.
Proof.
  assert (Hnd : NoDup (bid <$> fblocks Examples.diamond)) by decided.
  split; [exact Hnd|]. apply (updatePHINodes_unchanged Examples.diamond Hnd).
  intros BB ins incoming e HBB Hins Hk He.
  apply list_elem_of_In in HBB. simpl in HBB.
  destruct HBB as [<-|[<-|[<-|[<-|[]]]]]; simpl in Hins;
    repeat (apply elem_of_cons in Hins as [->|Hins]; [try discriminate Hk|]);
    try (by apply elem_of_nil in Hins).
  injection Hk as <-.
  repeat (apply elem_of_cons in He as [->|He]; [decided|]).
  by apply elem_of_nil in He.
Defined.

Lemma insertLoadForThunkParams_replaces_uses_witness :
  Outliner.insertLoadForThunkParams Scenario.xSlice Cases.xFields false
    (Cases.xReturned.1.1, Cases.xInsts.1.2) Cases.xReturned.2 = Ok Cases.xLoaded
  ∧ (fid Cases.xReturned.1.1 ∉ (fst <$> _depArgs Scenario.xSlice))
  ∧ ∀ arg ins, arg ∈ _depArgs Scenario.xSlice →
      ins ∈ allInsts Cases.xLoaded.1.1 →
      ArgumentV arg.1 arg.2 ∉ operands (ikind ins).
Proof.
  assert (Hl : Outliner.insertLoadForThunkParams Scenario.xSlice Cases.xFields false
                 (Cases.xReturned.1.1, Cases.xInsts.1.2) Cases.xReturned.2
               = Ok Cases.xLoaded) by (vm_compute; reflexivity).
  assert (Hf : fid Cases.xReturned.1.1 ∉ (fst <$> _depArgs Scenario.xSlice))
    by decided.
  split; [exact Hl|]. split; [exact Hf|].
  exact (insertLoadForThunkParams_replaces_uses Scenario.xSlice Cases.xFields false
           Cases.xReturned.1.1 Cases.xInsts.1.2 Cases.xReturned.2
           Cases.xLoaded.1.1 Cases.xLoaded.1.2 Cases.xLoaded.2 Hl Hf).
Defined.


Lemma updateMemoizedThunkArgUses_keeps_uses_witness :
  Lazyfication.updateMemoizedThunkArgUses Examples.callee (ArgumentV 1 0)
    Cases.thunkTy Examples.arena = Ok Cases.calleeMemo
  ∧ ∀ ins, ins ∈ allInsts Examples.callee → ins ∈ allInsts Cases.calleeMemo.1.
Proof.
  assert (Hu : Lazyfication.updateMemoizedThunkArgUses Examples.callee
                 (ArgumentV 1 0) Cases.thunkTy Examples.arena = Ok Cases.calleeMemo)
    by (vm_compute; reflexivity).
  split; [exact Hu|].
  exact (proj1 (updateMemoizedThunkArgUses_keeps_uses Examples.callee (ArgumentV 1 0)
                  Cases.thunkTy Examples.arena Cases.calleeMemo.1 Cases.calleeMemo.2
                  Hu)).
Defined.


Lemma cloneCalleeFunction_signature_witness :
  Lazyfication.cloneCalleeFunction true Examples.callee 0
    Scenario.memoOutlined.1.1.1 Scenario.memoOutlined.1.2 Scenario.memoOutlined.2
    = Ok Cases.calleeClone
  ∧ (0 < length (fargs Examples.callee))%nat.
Proof.
  assert (Hc : Lazyfication.cloneCalleeFunction true Examples.callee 0
                 Scenario.memoOutlined.1.1.1 Scenario.memoOutlined.1.2
                 Scenario.memoOutlined.2 = Ok Cases.calleeClone)
    by (vm_compute; reflexivity).
  split; [exact Hc|].
  exact (proj1 (cloneCalleeFunction_signature true Examples.callee 0
                  Scenario.memoOutlined.1.1.1 Scenario.memoOutlined.1.2
                  Scenario.memoOutlined.2 Cases.calleeClone.1.1
                  Cases.calleeClone.1.2 Cases.calleeClone.2 Hc)).
Defined.

Lemma lazifyCallsite_false_unchanged_witness :
  @Lazyfication.lazifyCallsite Examples.straightLine true (λ _, true) 7 17 0
    (Examples.start Examples.caller2) Examples.arena
    = Ok ((false, Examples.start Examples.caller2), Examples.arena)
  ∧ Examples.start Examples.caller2 = Examples.start Examples.caller2
  ∧ Examples.arena = Examples.arena.
Proof.
  assert (Hl : @Lazyfication.lazifyCallsite Examples.straightLine true (λ _, true)
                 7 17 0 (Examples.start Examples.caller2) Examples.arena
               = Ok ((false, Examples.start Examples.caller2), Examples.arena))
    by (vm_compute; reflexivity).
  split; [exact Hl|].
  exact (@lazifyCallsite_false_unchanged Examples.straightLine (λ _, true) true
           7 17 0 (Examples.start Examples.caller2) Examples.arena
           (Examples.start Examples.caller2) Examples.arena Hl).
Defined.

Lemma lazifyCallsite_true_effect_witness :
  @Lazyfication.lazifyCallsite Examples.straightLine true (λ _, true) 7 14 0
    (Examples.start Examples.caller) Examples.arena = Ok Cases.lazified
  ∧ length (mfuncs (module Cases.lazified.1.2))
    = (length (mfuncs (module (Examples.start Examples.caller))) + 2)%nat.
Proof.
  assert (Hl : @Lazyfication.lazifyCallsite Examples.straightLine true (λ _, true)
                 7 14 0 (Examples.start Examples.caller) Examples.arena
               = Ok Cases.lazified) by (vm_compute; reflexivity).
  split; [exact Hl|].
  destruct (@lazifyCallsite_true_effect Examples.straightLine (λ _, true) true
              7 14 0 (Examples.start Examples.caller) Examples.arena
              Cases.lazified.1.2 Cases.lazified.2 Hl)
    as (? & ? & ? & ? & ? & ? & ? & ? & _ & _ & _ & _ & _ & Hfuncs & _).
  exact Hfuncs.
Defined.

Lemma runOnModule_true_changed_witness :
  @Lazyfication.runOnModule Examples.straightLine true (λ _, true)
    Examples.oneCandidate Examples.draws (Examples.start Examples.caller)
    Examples.arena = Ok Scenario.memoRun
  ∧ (length (mfuncs (module (Examples.start Examples.caller)))
     < length (mfuncs (module Scenario.memoRun.1.2)))%nat.
Proof.
  assert (Hr : @Lazyfication.runOnModule Examples.straightLine true (λ _, true)
                 Examples.oneCandidate Examples.draws (Examples.start Examples.caller)
                 Examples.arena = Ok Scenario.memoRun) by (vm_compute; reflexivity).
  split; [exact Hr|].
  exact (proj1 (proj2 (@runOnModule_true_changed Examples.straightLine (λ _, true)
                         true Examples.oneCandidate Examples.draws
                         (Examples.start Examples.caller) Examples.arena
                         true Scenario.memoRun.1.2 Scenario.memoRun.2 Hr) eq_refl)).
Defined.

Lemma addReturnValue_returns_criterion_witness :
  Outliner.addReturnValue Scenario.xSlice Cases.xInsts.1.2 Cases.xUses
    Cases.xInsts.2 = Ok Cases.xReturned
  ∧ Cases.xReturned.1.2 = Cases.xInsts.2.
Proof.
  assert (Ha : Outliner.addReturnValue Scenario.xSlice Cases.xInsts.1.2 Cases.xUses
                 Cases.xInsts.2 = Ok Cases.xReturned) by (vm_compute; reflexivity).
  split; [exact Ha|].
  exact (proj1 (addReturnValue_returns_criterion Scenario.xSlice Cases.xInsts.1.2
                  Cases.xUses Cases.xInsts.2 Cases.xReturned.1.1 Cases.xReturned.1.2
                  Cases.xReturned.2 Ha)).
Defined.

Lemma reorganizeUses_leaves_no_original_witness :
  map_Forall (λ (_ v : ptr), _Imap Cases.xInsts.1.2 !! v = None)
             (_Imap Cases.xInsts.1.2)
  ∧ ∀ ins j, ins ∈ allInsts Cases.xUses →
      InstructionV j ∈ operands (ikind ins) → _Imap Cases.xInsts.1.2 !! j = None.
Proof.
  assert (Hfresh : map_Forall (λ (_ v : ptr), _Imap Cases.xInsts.1.2 !! v = None)
                     (_Imap Cases.xInsts.1.2)) by decided.
  split; [exact Hfresh|]. intros ins j.
  exact (reorganizeUses_leaves_no_original Cases.xInsts.1.2 Cases.xInsts.1.1 ins j
           Hfresh).
Defined.

Lemma populateBBsWithInsts_clones_witness :
  NoDup (iid <$> allInsts (_parentFunction Scenario.xSlice))
  ∧ Outliner.populateBBsWithInsts Scenario.xSlice Cases.xBlocks.1 Cases.xBlocks.2
    = Ok Cases.xInsts
  ∧ Cases.xInsts.2
    = (Cases.xBlocks.2 + N.of_nat (length (slicedInsts Scenario.xSlice)))%N.
Proof.
  assert (Hnd : NoDup (iid <$> allInsts (_parentFunction Scenario.xSlice)))
    by decided.
  assert (Hp : Outliner.populateBBsWithInsts Scenario.xSlice
                 (Cases.xBlocks.1.1, Cases.xBlocks.1.2) Cases.xBlocks.2
               = Ok ((Cases.xInsts.1.1, Cases.xInsts.1.2), Cases.xInsts.2))
    by (vm_compute; reflexivity).
  assert (Hempty : _Imap Cases.xBlocks.1.2 = ∅) by reflexivity.
  assert (Hhosted : map_Forall (λ (_ nb : ptr), nb ∈ (bid <$> fblocks Cases.xBlocks.1.1))
                      (_origToNewBBmap Cases.xBlocks.1.2)) by decided.
  split; [exact Hnd|]. split; [exact Hp|].
  exact (proj1 (populateBBsWithInsts_clones Scenario.xSlice Cases.xBlocks.1.1
                  Cases.xBlocks.1.2 Cases.xBlocks.2 Hempty Hhosted
                  Cases.xInsts.1.1 Cases.xInsts.1.2 Cases.xInsts.2 Hnd Hp)).
Defined.

Lemma addMissingTerminators_terminates_blocks_witness :
  NoDup (bid <$> fblocks Cases.xUses)
  ∧ addMissingTerminators Scenario.xSlice Cases.xInsts.1.2 Cases.xUses
      Cases.xInsts.2 = Ok Cases.xTerminated
  ∧ (bid <$> fblocks Cases.xTerminated.1) = (bid <$> fblocks Cases.xUses).
Proof.
  assert (Hnd : NoDup (bid <$> fblocks Cases.xUses)) by decided.
  assert (Ha : addMissingTerminators Scenario.xSlice Cases.xInsts.1.2 Cases.xUses
                 Cases.xInsts.2 = Ok Cases.xTerminated) by (vm_compute; reflexivity).
  split; [exact Hnd|]. split; [exact Ha|].
  exact (proj1 (addMissingTerminators_terminates_blocks Scenario.xSlice
                  Cases.xInsts.1.2 Cases.xUses Cases.xInsts.2 Cases.xTerminated.1
                  Cases.xTerminated.2 Hnd Ha)).
Defined.


(** ** Rerouting of branches *)

Lemma Forall2_chain {A} (R : A → A → Prop) :
  (∀ x y z, R x y → R y z → R x z) →
  ∀ l1 l2 l3, Forall2 R l1 l2 → Forall2 R l2 l3 → Forall2 R l1 l3.
Proof.
  intros HR l1 l2 l3 H12. revert l3.
  induction H12; intros l3 H23; inversion H23; subst; constructor; eauto.
Qed.

Lemma stays_refl (S : list ptr) (l : list ptr) : Forall2 (stays S) l l.
Proof. apply Forall2_same_length_lookup_2; [done|]. intros i x y Hx Hy. left. congruence. Qed.

Lemma stays_trans (S : list ptr) (l1 l2 l3 : list ptr) :
  Forall2 (stays S) l1 l2 → Forall2 (stays S) l2 l3 → Forall2 (stays S) l1 l3.
Proof.
  apply Forall2_chain. intros x y z [->|Hy] [->|Hz]; unfold stays; auto.
Qed.

Lemma stays_in (S : list ptr) (l l' : list ptr) :
  Forall2 (stays S) l l' → Forall (.∈ S) l → Forall (.∈ S) l'.
Proof.
  induction 1 as [|a b l l' [->|Hb] _ IH]; intros Hl; [done| |];
    apply Forall_cons in Hl as [Ha Hl]; constructor; auto.
Qed.

Lemma stays_insert (S : list ptr) (l : list ptr) (i : nat) (new : ptr) :
  new ∈ S → Forall2 (stays S) l (<[i:=new]> l).
Proof.
  intros Hnew. revert i. induction l as [|a l IH]; intros [|i]; simpl;
    constructor; auto using stays_refl; unfold stays; auto.
Qed.

Lemma rerouted_refl (S : list ptr) (BB : BasicBlock) : rerouted S BB BB.
Proof.
  split; [done|]. destruct (getTerminator BB) as [t|]; [|done].
  exists t. split; [done|apply stays_refl].
Qed.

Lemma rerouted_trans (S : list ptr) (a b c : BasicBlock) :
  rerouted S a b → rerouted S b c → rerouted S a c.
Proof.
  intros [Hid1 H1] [Hid2 H2]. split; [congruence|].
  destruct (getTerminator a) as [t|].
  - destruct H1 as (t' & Ht' & Hs). rewrite Ht' in H2.
    destruct H2 as (t'' & Ht'' & Hs'). exists t''. split; [done|].
    by apply (stays_trans _ _ (successors (ikind t'))).
  - destruct (getTerminator b) as [t'|].
    + destruct H2 as (t'' & Ht'' & Hs'). intros t3 Ht3. rewrite Ht'' in Ht3.
      injection Ht3 as <-. apply (stays_in _ _ _ Hs'). by apply H1.
    + exact H2.
Qed.

Lemma rerouted_selfContained (S : list ptr) (a b : BasicBlock) :
  rerouted S a b → selfContained S a → selfContained S b.
Proof.
  intros [_ Hr] Ha t' suc Ht' Hsuc. destruct (getTerminator a) as [t|] eqn:Ht.
  - destruct Hr as (t'' & Ht'' & Hs). rewrite Ht'' in Ht'. injection Ht' as ->.
    assert (Hall : Forall (.∈ S) (successors (ikind t'))).
    { apply (stays_in _ _ _ Hs). apply Forall_forall. intros x Hx. by apply (Ha t). }
    rewrite Forall_forall in Hall. by apply Hall.
  - specialize (Hr t' Ht'). rewrite Forall_forall in Hr. by apply Hr.
Qed.

Lemma reroutedF_refl (S : list ptr) (l : list BasicBlock) :
  Forall2 (rerouted S) l l.
Proof.
  apply Forall2_same_length_lookup_2; [done|]. intros i x y Hx Hy.
  assert (x = y) as -> by congruence. apply rerouted_refl.
Qed.

Lemma reroutedF_trans (S : list ptr) (l1 l2 l3 : list BasicBlock) :
  Forall2 (rerouted S) l1 l2 → Forall2 (rerouted S) l2 l3 →
  Forall2 (rerouted S) l1 l3.
Proof. apply Forall2_chain. apply rerouted_trans. Qed.

Lemma reroutedF_bids (S : list ptr) (l l' : list BasicBlock) :
  Forall2 (rerouted S) l l' → bid <$> l' = bid <$> l.
Proof.
  induction 1 as [|a b l l' [Hid _] _ IH]; [done|].
  rewrite !fmap_cons. by rewrite Hid, IH.
Qed.

Lemma reroutedF_selfContained (S : list ptr) (l l' : list BasicBlock) (P : ptr → Prop) :
  Forall2 (rerouted S) l l' →
  (∀ BB, BB ∈ l → P (bid BB) → selfContained S BB) →
  ∀ BB', BB' ∈ l' → P (bid BB') → selfContained S BB'.
Proof.
  intros Hr Hl BB' HBB' HP. apply list_elem_of_lookup in HBB' as [i Hi].
  destruct (Forall2_lookup_r _ _ _ _ _ Hr Hi) as (BB & HBB & Hrr).
  apply (rerouted_selfContained _ _ _ Hrr). apply Hl.
  - by apply list_elem_of_lookup_2 in HBB.
  - destruct Hrr as [<- _]. exact HP.
Qed.

Lemma reroutedF_mapBlocks (S : list ptr) (f : BasicBlock → BasicBlock)
    (F : Function) :
  (∀ BB, BB ∈ fblocks F → rerouted S BB (f BB)) →
  Forall2 (rerouted S) (fblocks F) (fblocks (mapBlocks f F)).
Proof.
  simpl. generalize (fblocks F). intros l Hl. apply Forall2_fmap_r.
  apply Forall2_same_length_lookup_2; [done|]. intros i x y Hx Hy.
  assert (x = y) as -> by congruence. apply Hl. by apply list_elem_of_lookup_2 in Hx.
Qed.

Lemma getTerminator_fmap (g : Instruction → Instruction) (b : ptr) (nm : string)
    (l : list Instruction) :
  (∀ ins, isTerminator (ikind (g ins)) = isTerminator (ikind ins)) →
  getTerminator (mkBB b nm (g <$> l)) = g <$> getTerminator (mkBB b nm l).
Proof.
  intros Hg. unfold getTerminator. simpl. rewrite fmap_last.
  destruct (last l) as [t|]; [|done]. simpl. rewrite Hg.
  by destruct (isTerminator (ikind t)).
Qed.

Lemma getTerminator_binsts (BB : BasicBlock) (b : ptr) (nm : string) :
  getTerminator (mkBB b nm (binsts BB)) = getTerminator BB.
Proof. done. Qed.

Lemma rerouted_fmap (S : list ptr) (g : Instruction → Instruction) (BB : BasicBlock) :
  soft S g → rerouted S BB (mkBB (bid BB) (bname BB) (g <$> binsts BB)).
Proof.
  intros Hg. split; [done|]. rewrite getTerminator_fmap by (intros; apply Hg).
  rewrite getTerminator_binsts. destruct (getTerminator BB) as [t|]; [|done].
  exists (g t). split; [done|apply Hg].
Qed.

Lemma reroutedF_mapInsts (S : list ptr) (g : Instruction → Instruction) (F : Function) :
  soft S g → Forall2 (rerouted S) (fblocks F) (fblocks (mapInsts g F)).
Proof. intros Hg. apply reroutedF_mapBlocks. intros BB _. by apply rerouted_fmap. Qed.

Lemma reroutedF_editBlock_fmap (S : list ptr) (b : ptr)
    (g : Instruction → Instruction) (F : Function) :
  soft S g → Forall2 (rerouted S) (fblocks F) (fblocks (editBlock b (fmap g) F)).
Proof.
  intros Hg. apply reroutedF_mapBlocks. intros BB _.
  destruct (decide (bid BB = b)); [by apply rerouted_fmap|apply rerouted_refl].
Qed.

Lemma successors_mapOperands (f : Value → Value) (k : InstKind) :
  successors (mapOperands f k) = successors k
  ∧ isTerminator (mapOperands f k) = isTerminator k.
Proof. by destruct k. Qed.

Lemma successors_mapIncomingBlocks (f : ptr → ptr) (k : InstKind) :
  successors (mapIncomingBlocks f k) = successors k
  ∧ isTerminator (mapIncomingBlocks f k) = isTerminator k.
Proof. by destruct k. Qed.

Lemma successors_mapSuccessors (f : ptr → ptr) (k : InstKind) :
  successors (mapSuccessors f k) = f <$> successors k
  ∧ isTerminator (mapSuccessors f k) = isTerminator k.
Proof.
  destruct k; try done. simpl. split; [|done]. f_equal.
  rewrite <- !list_fmap_compose. by apply list_fmap_ext.
Qed.

Lemma successors_setSuccessor (idx : nat) (new : ptr) (k : InstKind) :
  successors (Outliner.setSuccessor idx new k) = <[idx:=new]> (successors k)
  ∧ isTerminator (Outliner.setSuccessor idx new k) = isTerminator k.
Proof.
  destruct k, idx as [|[|idx]]; try done; simpl; split; try done; f_equal.
  - match goal with |- context [alter _ _ ?c] => generalize c end.
    intros c. by destruct c.
  - match goal with |- context [alter _ _ ?c] => generalize c end.
    intros c. generalize (S idx). intros i. revert i.
    induction c as [|e c IH]; intros [|i]; simpl; try done. f_equal. apply IH.
Qed.

Lemma soft_mapOperands (S : list ptr) (f : Value → Value) :
  soft S (λ ins, setKind (mapOperands f (ikind ins)) ins).
Proof.
  intros ins. simpl. destruct (successors_mapOperands f (ikind ins)) as [-> ->].
  split; [done|apply stays_refl].
Qed.

Lemma soft_mapIncomingBlocks (S : list ptr) (f : ptr → ptr) :
  soft S (λ ins, setKind (mapIncomingBlocks f (ikind ins)) ins).
Proof.
  intros ins. simpl. destruct (successors_mapIncomingBlocks f (ikind ins)) as [-> ->].
  split; [done|apply stays_refl].
Qed.

Lemma soft_mapSuccessors (S : list ptr) (old new : ptr) :
  new ∈ S →
  soft S (λ ins, setKind (mapSuccessors (λ b, if decide (b = old) then new else b)
                                        (ikind ins)) ins).
Proof.
  intros Hnew ins. simpl.
  destruct (successors_mapSuccessors (λ b, if decide (b = old) then new else b)
              (ikind ins)) as [-> ->].
  split; [done|]. apply Forall2_fmap_r.
  apply Forall2_same_length_lookup_2; [done|]. intros i x y Hx Hy.
  assert (x = y) as -> by congruence. simpl.
  destruct (decide (y = old)); [by right|by left].
Qed.

Lemma soft_setSuccessor (S : list ptr) (i : ptr) (idx : nat) (new : ptr) :
  new ∈ S →
  soft S (λ ins, if decide (iid ins = i)
                 then setKind (Outliner.setSuccessor idx new (ikind ins)) ins
                 else ins).
Proof.
  intros Hnew ins. destruct (decide (iid ins = i)); [|split; [done|apply stays_refl]].
  simpl. destruct (successors_setSuccessor idx new (ikind ins)) as [-> ->].
  split; [done|by apply stays_insert].
Qed.

Lemma bids_mapBlocks (f : BasicBlock → BasicBlock) (F : Function) :
  (∀ B, bid (f B) = bid B) →
  bid <$> fblocks (mapBlocks f F) = bid <$> fblocks F.
Proof.
  intros Hf. simpl. rewrite <- list_fmap_compose. apply list_fmap_ext.
  intros i B _. apply Hf.
Qed.

Lemma block_of_mapBlocks (f : BasicBlock → BasicBlock) (F : Function)
    (blk B' : BasicBlock) :
  (∀ B, bid (f B) = bid B) → NoDup (bid <$> fblocks F) → blk ∈ fblocks F →
  B' ∈ fblocks (mapBlocks f F) → bid B' = bid blk → B' = f blk.
Proof.
  intros Hf Hnd Hblk HB' Hid. simpl in HB'.
  apply list_elem_of_fmap in HB' as (B0 & -> & HB0). f_equal.
  apply (unique_block_by_id (fblocks F)); try done. by rewrite <- Hid, Hf.
Qed.

Lemma settled_rerouted (S : list ptr) (BB : ptr) (F F' : Function) (j : nat) :
  Forall2 (rerouted S) (fblocks F) (fblocks F') →
  settled S BB F j → settled S BB F' j.
Proof.
  intros Hr Hs B' t' suc HB' Hid Ht' Hsuc.
  apply list_elem_of_lookup in HB' as [i Hi].
  destruct (Forall2_lookup_r _ _ _ _ _ Hr Hi) as (B & HB & Hid' & Hrr).
  apply list_elem_of_lookup_2 in HB.
  destruct (getTerminator B) as [t|] eqn:Ht.
  - destruct Hrr as (t'' & Ht'' & Hss). rewrite Ht'' in Ht'. injection Ht' as ->.
    destruct (Forall2_lookup_r _ _ _ _ _ Hss Hsuc) as (a & Ha & [->|Hin]); [|done].
    apply (Hs B t a); try done. congruence.
  - specialize (Hrr t' Ht'). rewrite Forall_forall in Hrr. apply Hrr.
    by apply list_elem_of_lookup_2 in Hsuc.
Qed.

Section Rerouting.
Variables (s : ProgramSlice) (o : Outlining) (S : list ptr).
Hypothesis Hhosted : ∀ b nb, _origToNewBBmap o !! b = Some nb → nb ∈ S.

Lemma cloneOfAttractor_hosted (suc c : ptr) :
  Outliner.cloneOfAttractor s o suc = Some c → c ∈ S.
Proof.
  unfold Outliner.cloneOfAttractor. destruct (_attractors s !! suc) as [a|]; [|done].
  simpl. apply Hhosted.
Qed.

Lemma retarget_spec (u BB : ptr) (F : Function) (idx : nat) (n : ptr)
    (F' : Function) (n' : ptr) :
  Outliner.retarget s o u BB F idx n = Ok (F', n') →
  NoDup (bid <$> fblocks F) → bid <$> fblocks F = S → u ∈ S →
  Forall2 (rerouted S) (fblocks F) (fblocks F') ∧ n' = n ∧ settled S BB F' idx.
Proof.
  unfold Outliner.retarget. intros Hr Hnd Hb Hu.
  apply bind_Ok in Hr as (blk & n1 & Hblk & Hr).
  apply orAbort_Ok in Hblk as [Hblk ?]. simpl in *. subst n1.
  apply findBlock_elem in Hblk as [Hin Hid].
  assert (Hsame : ∀ B, B ∈ fblocks F → bid B = BB → B = blk).
  { intros B HB HidB. apply (unique_block_by_id (fblocks F)); try done. congruence. }
  destruct (getTerminator blk) as [term|] eqn:Hterm.
  2: { injection Hr as <- <-. split; [apply reroutedF_refl|]. split; [done|].
       intros B t' suc HB HidB Ht'. rewrite (Hsame B HB HidB) in Ht'. congruence. }
  destruct (successors (ikind term) !! idx) as [suc0|] eqn:Hsuc.
  2: { injection Hr as <- <-. split; [apply reroutedF_refl|]. split; [done|].
       intros B t' suc HB HidB Ht' Hl. rewrite (Hsame B HB HidB) in Ht'. congruence. }
  destruct (hasBlock F suc0) eqn:Hhas.
  { injection Hr as <- <-. split; [apply reroutedF_refl|]. split; [done|].
    intros B t' suc HB HidB Ht' Hl. rewrite (Hsame B HB HidB) in Ht'.
    assert (t' = term) as -> by congruence. assert (suc = suc0) as -> by congruence.
    unfold hasBlock in Hhas. apply bool_decide_eq_true in Hhas. by rewrite <- Hb. }
  destruct (Outliner.cloneOfAttractor s o suc0) as [newSucc|] eqn:Hclone.
  - injection Hr as <- <-. apply cloneOfAttractor_hosted in Hclone.
    set (g := λ ins : Instruction,
                if decide (iid ins = iid term)
                then setKind (Outliner.setSuccessor idx newSucc (ikind ins)) ins
                else ins).
    set (h := λ ins : Instruction,
                setKind (mapIncomingBlocks (λ b, if decide (b = suc0) then BB else b)
                           (ikind ins)) ins).
    assert (Hg : soft S g) by by apply soft_setSuccessor.
    assert (Hh : soft S h) by apply soft_mapIncomingBlocks.
    split; [|split; [done|]].
    { apply (reroutedF_trans _ _ (fblocks (mapInsts g F)));
        [by apply reroutedF_mapInsts|by apply reroutedF_editBlock_fmap]. }
    intros B' t' suc HB' HidB' Ht' Hl.
    set (blk1 := mkBB (bid blk) (bname blk) (g <$> binsts blk)).
    set (f2 := λ B : BasicBlock,
                 if decide (bid B = newSucc)
                 then mkBB (bid B) (bname B) (h <$> binsts B) else B).
    assert (HB'eq : B' = f2 blk1).
    { apply (block_of_mapBlocks f2 (mapInsts g F)).
      - intros B. unfold f2. by destruct (decide (bid B = newSucc)).
      - unfold mapInsts. by rewrite bids_mapBlocks.
      - simpl. apply list_elem_of_fmap. by exists blk.
      - exact HB'.
      - simpl. congruence. }
    assert (Hterm' : getTerminator (mkBB (bid blk) (bname blk) (g <$> binsts blk))
                     = Some (g term)).
    { rewrite getTerminator_fmap by (intros; apply Hg).
      by rewrite getTerminator_binsts, Hterm. }
    assert (Ht'' : t' = g term ∨ t' = h (g term)).
    { subst B'. unfold f2 in Ht'. destruct (decide (bid blk1 = newSucc)).
      - right. rewrite getTerminator_fmap in Ht' by (intros; apply Hh).
        rewrite getTerminator_binsts in Ht'. fold blk1 in Hterm'.
        rewrite Hterm' in Ht'. simpl in Ht'. congruence.
      - left. fold blk1 in Hterm'. congruence. }
    assert (Hsucc : successors (ikind t') = <[idx:=newSucc]> (successors (ikind term))).
    { assert (Hgt : successors (ikind (g term))
                    = <[idx:=newSucc]> (successors (ikind term))).
      { unfold g. rewrite decide_True by done. simpl.
        apply successors_setSuccessor. }
      destruct Ht'' as [->| ->]; [done|]. unfold h at 1. simpl.
      by rewrite (proj1 (successors_mapIncomingBlocks _ _)). }
    rewrite Hsucc in Hl. apply lookup_lt_Some in Hsuc.
    rewrite list_lookup_insert_eq in Hl by done. congruence.
  - injection Hr as <- <-.
    set (g := λ ins : Instruction,
                setKind (mapSuccessors (λ b, if decide (b = suc0) then u else b)
                           (ikind ins)) ins).
    assert (Hg : soft S g) by by apply soft_mapSuccessors.
    split; [by apply reroutedF_mapInsts|]. split; [done|].
    intros B' t' suc HB' HidB' Ht' Hl.
    eapply (block_of_mapBlocks _ _ blk B') in HB'; [|done|done|done|simpl; congruence].
    subst B'. rewrite getTerminator_fmap in Ht' by (intros; apply Hg).
    rewrite getTerminator_binsts, Hterm in Ht'. injection Ht' as <-.
    unfold g in Hl. simpl in Hl.
    rewrite (proj1 (successors_mapSuccessors _ _)), list_lookup_fmap, Hsuc in Hl.
    simpl in Hl. rewrite decide_True in Hl by done. congruence.
Qed.

Lemma retarget_fold (u BB : ptr) (idxs : list nat) :
  ∀ F n F' n',
    foldM (Outliner.retarget s o u BB) idxs F n = Ok (F', n') →
    NoDup (bid <$> fblocks F) → bid <$> fblocks F = S → u ∈ S →
    Forall2 (rerouted S) (fblocks F) (fblocks F') ∧ n' = n
    ∧ ∀ j, j ∈ idxs → settled S BB F' j.
Proof.
  induction idxs as [|idx idxs IH]; intros F n F' n' Hf Hnd Hb Hu.
  - injection Hf as <- <-. split; [apply reroutedF_refl|]. split; [done|].
    intros j Hj. by apply elem_of_nil in Hj.
  - simpl in Hf. apply bind_Ok in Hf as (F1 & n1 & H1 & H2).
    apply retarget_spec in H1 as (R1 & -> & Hs1); try done.
    pose proof (reroutedF_bids _ _ _ R1) as Hb1.
    apply IH in H2 as (R2 & -> & Hs2); try congruence.
    split; [by apply (reroutedF_trans _ _ (fblocks F1))|]. split; [done|].
    intros j [->|Hj]%elem_of_cons; [by apply (settled_rerouted _ _ F1)|by apply Hs2].
Qed.

Lemma rerouteBlock_spec (DT : DomTree ptr) (u : ptr) (F : Function) (BB : ptr)
    (n : ptr) (F' : Function) (n' : ptr) :
  Outliner.rerouteBlock s o DT u F BB n = Ok (F', n') →
  NoDup (bid <$> fblocks F) → bid <$> fblocks F = S → u ∈ S →
  Forall2 (rerouted S) (fblocks F) (fblocks F')
  ∧ ∀ BB', BB' ∈ fblocks F' → bid BB' = BB → selfContained S BB'.
Proof.
  unfold Outliner.rerouteBlock. intros Hr Hnd Hb Hu.
  apply bind_Ok in Hr as (blk & n1 & Hblk & Hr).
  apply orAbort_Ok in Hblk as [Hblk ?]. simpl in *. subst n1.
  apply findBlock_elem in Hblk as [Hin Hid].
  assert (Hsame : ∀ B, B ∈ fblocks F → bid B = BB → B = blk).
  { intros B HB HidB. apply (unique_block_by_id (fblocks F)); try done. congruence. }
  assert (Hstill : ∀ (m : ptr) (r : Function * ptr), Ok (F, m) = Ok r →
            (∀ t suc, getTerminator blk = Some t → suc ∈ successors (ikind t) → suc ∈ S) →
            Forall2 (rerouted S) (fblocks F) (fblocks r.1)
            ∧ ∀ BB', BB' ∈ fblocks r.1 → bid BB' = BB → selfContained S BB').
  { intros m r [= <-] Hblk. split; [apply reroutedF_refl|]. simpl.
    intros B HB HidB. by rewrite (Hsame B HB HidB). }
  destruct (getTerminator blk) as [term|] eqn:Hterm.
  - assert (Hfold : foldM (Outliner.retarget s o u BB)
                      (seq 0 (length (successors (ikind term)))) F n = Ok (F', n') →
              Forall2 (rerouted S) (fblocks F) (fblocks F')
              ∧ ∀ BB', BB' ∈ fblocks F' → bid BB' = BB → selfContained S BB').
    { intros Hf. apply retarget_fold in Hf as (R & _ & Hs); try done.
      split; [done|]. intros B' HB' HidB' t' suc Ht' Hsuc.
      apply list_elem_of_lookup in Hsuc as [j Hj].
      assert (Hj' : j ∈ seq 0 (length (successors (ikind term)))).
      { pose proof HB' as [i Hi]%list_elem_of_lookup.
        destruct (Forall2_lookup_r _ _ _ _ _ R Hi) as (B & HB & HidB & Hrr).
        apply list_elem_of_lookup_2 in HB.
        rewrite (Hsame B HB) in Hrr by congruence. rewrite Hterm in Hrr.
        destruct Hrr as (t'' & Ht'' & Hss). rewrite Ht'' in Ht'. injection Ht' as ->.
        apply Forall2_length in Hss. apply lookup_lt_Some in Hj.
        apply elem_of_seq. lia. }
      by apply (Hs j Hj' B' t' suc). }
    destruct (ikind term) eqn:Hk;
      try (by apply Hfold);
      apply (Hstill n (F', n') Hr); intros t suc [= <-]; rewrite Hk;
      intros Hsuc; by apply elem_of_nil in Hsuc.
  - apply bind_Ok in Hr as (parentBB & n2 & _ & Hr).
    apply bind_Ok in Hr as (orig & n3 & _ & Hr).
    apply bind_Ok in Hr as (origTerm & n4 & _ & Hr).
    assert (Hbranch :
      match omap (Outliner.cloneOfAttractor s o) (successors (ikind origTerm)) with
      | [] => mret F
      | newTarget :: _ =>
          newBranch ← fresh;
          let F1 := appendInst BB (mkInst newBranch "" VoidTy (BranchInst newTarget)) F in
          target ← orAbort "block vanished" (findBlock F1 newTarget);
          insts' ← lift (forM (Outliner.adoptIncoming DT F1 parentBB BB) (binsts target));
          mret (editBlock newTarget (λ _, insts') F1)
      end n4 = Ok (F', n') →
      Forall2 (rerouted S) (fblocks F) (fblocks F')
      ∧ ∀ BB', BB' ∈ fblocks F' → bid BB' = BB → selfContained S BB').
    { destruct (omap _ _) as [|newTarget rest] eqn:Hom.
      { intros Hb0. injection Hb0 as <- <-.
        split; [apply reroutedF_refl|]. intros B HB HidB.
        rewrite (Hsame B HB HidB). intros t suc Ht. congruence. }
      assert (HnewT : newTarget ∈ S).
      { assert (Hel : newTarget ∈ omap (Outliner.cloneOfAttractor s o)
                                    (successors (ikind origTerm)))
          by (rewrite Hom; left).
        apply list_elem_of_omap in Hel as (suc & _ & Hc).
        by apply cloneOfAttractor_hosted in Hc. }
      intros Hb0.
      apply bind_Ok in Hb0 as (newBranch & n5 & _ & Hb0).
      apply bind_Ok in Hb0 as (target & n6 & Htarget & Hb0).
      apply bind_Ok in Hb0 as (insts' & n7 & Hinsts & Hb0). injection Hb0 as <- <-.
      apply orAbort_Ok in Htarget as [Htarget _]. simpl in Htarget.
      apply lift_Ok in Hinsts as [Hinsts _]. simpl in Hinsts.
      apply forM_Ok in Hinsts.
      set (br := mkInst newBranch "" VoidTy (BranchInst newTarget)) in *.
      set (F1 := appendInst BB br F) in *.
      assert (R1 : Forall2 (rerouted S) (fblocks F) (fblocks F1)).
      { apply reroutedF_mapBlocks. intros B HB.
        destruct (decide (bid B = BB)) as [HidB|]; [|apply rerouted_refl].
        rewrite (Hsame B HB HidB). split; [done|]. rewrite Hterm.
        intros t'. rewrite getTerminator_snoc by done. intros [= <-]. simpl.
        by constructor. }
      assert (Hb1 : bid <$> fblocks F1 = S)
        by (rewrite <- Hb; apply bids_editBlock).
      assert (Hnd1 : NoDup (bid <$> fblocks F1)) by by rewrite Hb1, <- Hb.
      assert (H1 : ∀ B, B ∈ fblocks F1 → bid B = BB → selfContained S B).
      { intros B HB HidB. simpl in HB.
        apply list_elem_of_fmap in HB as (B0 & -> & HB0).
        destruct (decide (bid B0 = BB)) as [HidB0|Hne]; [|done].
        intros t suc. rewrite getTerminator_snoc by done. intros [= <-]. simpl.
        by intros ->%list_elem_of_singleton. }
      apply findBlock_elem in Htarget as [Htin Htid].
      assert (R2 : Forall2 (rerouted S) (fblocks F1)
                     (fblocks (editBlock newTarget (λ _, insts') F1))).
      { apply reroutedF_mapBlocks. intros B HB.
        destruct (decide (bid B = newTarget)) as [HidB|]; [|apply rerouted_refl].
        assert (B = target) as ->
          by (apply (unique_block_by_id (fblocks F1)); try done; congruence).
        split; [done|]. unfold getTerminator. simpl.
        apply Forall2_last in Hinsts.
        destruct Hinsts as [x y Hxy|]; [|done].
        assert (Hy : isTerminator (ikind y) = isTerminator (ikind x)
                     ∧ successors (ikind y) = successors (ikind x)).
        { unfold Outliner.adoptIncoming in Hxy.
          destruct (ikind x) eqn:Hkx; try (by injection Hxy as <-; rewrite Hkx).
          destruct (forM _ _); [|discriminate]. by injection Hxy as <-. }
        destruct Hy as [Hy1 Hy2]. rewrite Hy1.
        destruct (isTerminator (ikind x)); [|done].
        exists y. split; [done|]. rewrite Hy2. apply stays_refl. }
      split; [by apply (reroutedF_trans _ _ (fblocks F1))|].
      by apply (reroutedF_selfContained S (fblocks F1) _ (λ b, b = BB)). }
    destruct (ikind origTerm); try (by apply Hbranch);
      apply (Hstill n4 (F', n') Hr); intros t suc [=].
Qed.

Lemma rerouteBlocks_loop (DT : DomTree ptr) (u : ptr) (ids : list ptr) :
  ∀ F n F' n',
    foldM (Outliner.rerouteBlock s o DT u) ids F n = Ok (F', n') →
    NoDup (bid <$> fblocks F) → bid <$> fblocks F = S → u ∈ S →
    Forall2 (rerouted S) (fblocks F) (fblocks F')
    ∧ ∀ BB', BB' ∈ fblocks F' → bid BB' ∈ ids → selfContained S BB'.
Proof.
  induction ids as [|BB ids IH]; intros F n F' n' Hf Hnd Hb Hu.
  - injection Hf as <- <-. split; [apply reroutedF_refl|].
    intros B _ HB. by apply elem_of_nil in HB.
  - simpl in Hf. apply bind_Ok in Hf as (F1 & n1 & H1 & H2).
    apply rerouteBlock_spec in H1 as (R1 & Hs1); try done.
    pose proof (reroutedF_bids _ _ _ R1) as Hb1.
    apply IH in H2 as (R2 & Hs2); try congruence.
    split; [by apply (reroutedF_trans _ _ (fblocks F1))|].
    intros B' HB' [Heq|Hin]%elem_of_cons; [|by apply Hs2].
    by apply (reroutedF_selfContained S (fblocks F1) (fblocks F') (λ b, b = BB)).
Qed.

End Rerouting.

Lemma Forall2_mapBlocks (R : BasicBlock → BasicBlock → Prop)
    (f : BasicBlock → BasicBlock) (F : Function) :
  (∀ BB, BB ∈ fblocks F → R BB (f BB)) →
  Forall2 R (fblocks F) (fblocks (mapBlocks f F)).
Proof.
  simpl. generalize (fblocks F). intros l Hl. apply Forall2_fmap_r.
  apply Forall2_same_length_lookup_2; [done|]. intros i x y Hx Hy.
  assert (x = y) as -> by congruence. apply Hl. by apply list_elem_of_lookup_2 in Hx.
Qed.

Lemma branchAdded_refl (s : ProgramSlice) (o : Outlining) (n n' : ptr)
    (BB : BasicBlock) :
  branchAdded s o n n' BB BB.
Proof. repeat split. by left. Qed.

Lemma branchAdded_trans (s : ProgramSlice) (o : Outlining) (n n1 n' : ptr)
    (a b c : BasicBlock) :
  (n ≤ n1)%N → (n1 ≤ n')%N →
  branchAdded s o n n1 a b → branchAdded s o n1 n' b c → branchAdded s o n n' a c.
Proof.
  intros Hn Hn' (Hid1 & Hnm1 & H1) (Hid2 & Hnm2 & H2).
  split; [congruence|]. split; [congruence|].
  destruct H1 as [H1|(Ht1 & nb & child & cBB & H1 & Hr1 & Hc1 & Hm1)].
  - destruct H2 as [H2|(Ht2 & nb & child & cBB & H2 & Hr2 & Hc2 & Hm2)].
    + left. congruence.
    + right. split.
      * unfold getTerminator in *. by rewrite <- H1.
      * exists nb, child, cBB. rewrite H2, H1. repeat split; try done; lia.
  - destruct H2 as [H2|(Ht2 & _)].
    + right. split; [done|]. exists nb, child, cBB. rewrite H2, H1.
      repeat split; try done; lia.
    + unfold getTerminator in Ht2. rewrite H1, last_snoc in Ht2. done.
Qed.

Lemma branchAddedF_refl (s : ProgramSlice) (o : Outlining) (n n' : ptr)
    (l : list BasicBlock) :
  Forall2 (branchAdded s o n n') l l.
Proof.
  apply Forall2_same_length_lookup_2; [done|]. intros i x y Hx Hy.
  assert (x = y) as -> by congruence. apply branchAdded_refl.
Qed.

Lemma branchAddedF_trans (s : ProgramSlice) (o : Outlining) (n n1 n' : ptr)
    (l1 l2 l3 : list BasicBlock) :
  (n ≤ n1)%N → (n1 ≤ n')%N →
  Forall2 (branchAdded s o n n1) l1 l2 → Forall2 (branchAdded s o n1 n') l2 l3 →
  Forall2 (branchAdded s o n n') l1 l3.
Proof.
  intros Hn Hn' H12. revert l3.
  induction H12; intros l3 H23; inversion H23; subst; constructor; eauto.
  by apply (branchAdded_trans s o n n1 n' x y).
Qed.

Lemma branchAddedF_bids (s : ProgramSlice) (o : Outlining) (n n' : ptr)
    (l l' : list BasicBlock) :
  Forall2 (branchAdded s o n n') l l' → bid <$> l' = bid <$> l.
Proof.
  induction 1 as [|a b l l' [Hid _] _ IH]; [done|].
  rewrite !fmap_cons. by rewrite Hid, IH.
Qed.

Lemma addDomBranches_appends (s : ProgramSlice) (o : Outlining)
    (cur : DomTree ptr) :
  ∀ parent F n F' n',
    Outliner.addDomBranches s o cur parent F n = Ok (F', n') →
    NoDup (bid <$> fblocks F) →
    (n ≤ n')%N ∧ Forall2 (branchAdded s o n n') (fblocks F) (fblocks F').
Proof.
  induction cur as [blk children IH] using DomTree_nested_ind.
  intros parent F n F' n'. simpl.
  generalize (if bool_decide (blk ∈ _BBsInSlice s) then Some blk else parent).
  clear parent. intros parent. revert F n.
  induction IH as [|child cs Hchild _ IHcs]; intros F n Hd Hnd.
  - injection Hd as <- <-. split; [lia|apply branchAddedF_refl].
  - apply bind_Ok in Hd as (F1 & n1 & H1 & Hd).
    apply bind_Ok in Hd as (F2 & n2 & H2 & Hd).
    apply Hchild in H1 as [Hn1 R1]; [|done].
    assert (Hnd1 : NoDup (bid <$> fblocks F1))
      by by rewrite (branchAddedF_bids _ _ _ _ _ _ R1).
    assert (Hstep : (n1 ≤ n2)%N
                    ∧ Forall2 (branchAdded s o n1 n2) (fblocks F1) (fblocks F2)).
    { destruct child as [cblk ?], parent as [p|];
        [|injection H2 as <- <-; split; [lia|apply branchAddedF_refl]].
      destruct (bool_decide (cblk ∈ _BBsInSlice s)) eqn:Hin;
        [|injection H2 as <- <-; split; [lia|apply branchAddedF_refl]].
      apply bool_decide_eq_true in Hin.
      apply bind_Ok in H2 as (parentBB & n3 & HparentBB & H2).
      apply orAbort_Ok in HparentBB as [HparentBB ?]. simpl in *. subst n3.
      apply bind_Ok in H2 as (pBB & n4 & HpBB & H2).
      apply orAbort_Ok in HpBB as [HpBB ?]. simpl in *. subst n4.
      apply findBlock_elem in HpBB as [HpIn HpId].
      destruct (getTerminator pBB) eqn:Hterm;
        [injection H2 as <- <-; split; [lia|apply branchAddedF_refl]|].
      apply bind_Ok in H2 as (childBB & n5 & HchildBB & H2).
      apply orAbort_Ok in HchildBB as [HchildBB ?]. simpl in *. subst n5.
      injection H2 as <- <-. split; [lia|].
      apply Forall2_mapBlocks. intros B HB.
      destruct (decide (bid B = parentBB)) as [HidB|]; [|apply branchAdded_refl].
      assert (B = pBB) as ->
        by (apply (unique_block_by_id (fblocks F1)); try done; congruence).
      split; [done|]. split; [done|]. right. split; [done|].
      exists n1, cblk, childBB. simpl. repeat split; try done; lia. }
    destruct Hstep as [Hn2 R2].
    assert (Hnd2 : NoDup (bid <$> fblocks F2))
      by by rewrite (branchAddedF_bids _ _ _ _ _ _ R2).
    apply IHcs in Hd as [Hn3 R3]; [|done]. split; [lia|].
    apply (branchAddedF_trans s o n n2 n' _ (fblocks F2)); try done; try lia.
    by apply (branchAddedF_trans s o n n1 n2 _ (fblocks F1)).
Qed.

Lemma getTerminator_cons (b : ptr) (nm : string) (x : Instruction)
    (l : list Instruction) :
  isTerminator (ikind x) = false →
  getTerminator (mkBB b nm (x :: l)) = getTerminator (mkBB b nm l).
Proof.
  intros Hx. unfold getTerminator. simpl. destruct l as [|y l]; [|done].
  simpl. by rewrite Hx.
Qed.

Lemma repairLeadingPHIs_terminator (preds : list ptr) (b : ptr) (nm : string)
    (insts : list Instruction) :
  ∀ insts' erased,
    Outliner.repairLeadingPHIs preds insts = Ok (insts', erased) →
    getTerminator (mkBB b nm insts') = getTerminator (mkBB b nm insts).
Proof.
  induction insts as [|ins rest IH]; intros insts' erased; simpl.
  - by intros [= <- <-].
  - destruct (ikind ins) eqn:Hk; try (by intros [= <- <-]).
    intros Hr. cbn [mbind Outcome_bind] in Hr.
    destruct (Outliner.repairPHI _ _ _ _) as [live|]; [|discriminate].
    cbn [mbind Outcome_bind] in Hr.
    destruct (Outliner.repairLeadingPHIs preds rest) as [[rest' erased']|];
      [|discriminate].
    cbn [mbind Outcome_bind] in Hr. specialize (IH rest' erased' eq_refl).
    rewrite (getTerminator_cons b nm ins rest) by by rewrite Hk.
    match type of Hr with
    | match ?i with _ => _ end = _ => destruct i as [|e inc]
    end.
    + injection Hr as <- <-. by rewrite getTerminator_cons.
    + destruct live as [|e' live]; injection Hr as <- <-; [done|].
      by rewrite getTerminator_cons.
Qed.

Lemma rerouted_same_terminator (S : list ptr) (B B' : BasicBlock) :
  bid B' = bid B → getTerminator B' = getTerminator B → rerouted S B B'.
Proof.
  intros Hid Ht. split; [done|]. rewrite Ht.
  destruct (getTerminator B) as [t|]; [|done]. exists t. split; [done|apply stays_refl].
Qed.

Lemma updatePHINodes_rerouted (S : list ptr) (F F' : Function) :
  NoDup (bid <$> fblocks F) → Outliner.updatePHINodes F = Ok F' →
  Forall2 (rerouted S) (fblocks F) (fblocks F').
Proof.
  intros Hnd. unfold Outliner.updatePHINodes. generalize (bid <$> fblocks F).
  intros l.
  assert (Hgen : ∀ acc : Outcome Function,
            (∀ G, acc = Ok G → Forall2 (rerouted S) (fblocks F) (fblocks G)) →
            ∀ G, foldl (λ acc BB,
                     F ← acc;
                     blk ← match findBlock F BB with
                           | Some blk => Ok blk
                           | None => Abort "block vanished"
                           end;
                     '(insts', erased) ← Outliner.repairLeadingPHIs
                                           (predecessors F BB) (binsts blk);
                     Ok (foldl (λ F dead, replaceUsesIn (InstructionV dead) UndefValue F)
                               (editBlock BB (λ _, insts') F) erased)) acc l = Ok G →
                 Forall2 (rerouted S) (fblocks F) (fblocks G)).
  { induction l as [|b l IH]; intros acc Hacc G; [apply Hacc|]. cbn [foldl].
    apply IH. intros G0 HG0. destruct acc as [F0|]; [|discriminate].
    cbn [mbind Outcome_bind] in HG0.
    destruct (findBlock F0 b) as [blk|] eqn:Hblk; [|discriminate].
    cbn [mbind Outcome_bind] in HG0.
    destruct (Outliner.repairLeadingPHIs (predecessors F0 b) (binsts blk))
      as [[insts' erased]|] eqn:Hrep; [|discriminate].
    cbn [mbind Outcome_bind] in HG0. injection HG0 as <-.
    specialize (Hacc F0 eq_refl).
    assert (Hnd0 : NoDup (bid <$> fblocks F0))
      by by rewrite (reroutedF_bids _ _ _ Hacc).
    apply findBlock_elem in Hblk as [Hin Hid].
    apply (foldl_preserves (λ G, Forall2 (rerouted S) (fblocks F) (fblocks G))).
    - intros G1 dead HG1. apply (reroutedF_trans _ _ (fblocks G1)); [done|].
      apply reroutedF_mapInsts. apply soft_mapOperands.
    - apply (reroutedF_trans _ _ (fblocks F0)); [done|].
      apply reroutedF_mapBlocks. intros B HB.
      destruct (decide (bid B = b)) as [HidB|]; [|apply rerouted_refl].
      assert (B = blk) as ->
        by (apply (unique_block_by_id (fblocks F0)); try done; congruence).
      apply rerouted_same_terminator; [done|].
      rewrite (repairLeadingPHIs_terminator _ _ _ _ _ _ Hrep).
      apply getTerminator_binsts. }
  intros Hu. by apply (Hgen (Ok F)); [intros G [= <-]; apply reroutedF_refl|].
Qed.

Lemma no_predecessor (F : Function) (u : ptr) (BB : BasicBlock) (t : Instruction) :
  pred_size F u = 0%nat → BB ∈ fblocks F → getTerminator BB = Some t →
  u ∉ successors (ikind t).
Proof.
  unfold pred_size, predecessors. rewrite length_reverse. intros Hp HBB Ht Hu.
  induction (fblocks F) as [|P l IH]; [by apply elem_of_nil in HBB|].
  rewrite fmap_cons, concat_cons, length_app in Hp.
  apply elem_of_cons in HBB as [<-|HBB]; [|apply IH; [lia|done]].
  unfold block_successors in Hp. rewrite Ht in Hp.
  assert (Hin : u ∈ filter (λ s, s = u) (successors (ikind t)))
    by by apply list_elem_of_filter.
  destruct (filter (λ s, s = u) (successors (ikind t))) as [|x xs];
    [by apply elem_of_nil in Hin|].
  simpl in Hp. lia.
Qed.

Lemma retarget_counter (s : ProgramSlice) (o : Outlining) (u BB : ptr)
    (F : Function) (idx : nat) (n : ptr) (F' : Function) (n' : ptr) :
  Outliner.retarget s o u BB F idx n = Ok (F', n') → n' = n.
Proof.
  unfold Outliner.retarget. intros Hr.
  apply bind_Ok in Hr as (blk & n1 & Hblk & Hr).
  apply orAbort_Ok in Hblk as [_ ?]. simpl in *. subst n1.
  destruct (getTerminator blk); [|by injection Hr as <- <-].
  destruct (_ !! idx); [|by injection Hr as <- <-].
  destruct (hasBlock F _); [by injection Hr as <- <-|].
  destruct (Outliner.cloneOfAttractor s o _); by injection Hr as <- <-.
Qed.

Lemma rerouteBlock_counter (s : ProgramSlice) (o : Outlining) (DT : DomTree ptr)
    (u : ptr) (F : Function) (BB : ptr) (n : ptr) (F' : Function) (n' : ptr) :
  Outliner.rerouteBlock s o DT u F BB n = Ok (F', n') → (n ≤ n')%N.
Proof.
  unfold Outliner.rerouteBlock. intros Hr.
  apply bind_Ok in Hr as (blk & n1 & Hblk & Hr).
  apply orAbort_Ok in Hblk as [_ ?]. simpl in *. subst n1.
  destruct (getTerminator blk) as [term|].
  - assert (Hfold : foldM (Outliner.retarget s o u BB)
                      (seq 0 (length (successors (ikind term)))) F n = Ok (F', n')
                    → (n ≤ n')%N).
    { intros Hf.
      apply (foldM_invariant (λ _ m, (n ≤ m)%N) _ _) in Hf; [done| |lia].
      intros G idx n2 G' n3 _ Hre HG. apply retarget_counter in Hre. lia. }
    destruct (ikind term); try (injection Hr as <- <-; lia); by apply Hfold.
  - apply bind_Ok in Hr as (parentBB & n2 & Hp & Hr).
    apply orAbort_Ok in Hp as [_ ?]. simpl in *. subst n2.
    apply bind_Ok in Hr as (orig & n3 & Ho & Hr).
    apply orAbort_Ok in Ho as [_ ?]. simpl in *. subst n3.
    apply bind_Ok in Hr as (origTerm & n4 & Ht & Hr).
    apply orAbort_Ok in Ht as [_ ?]. simpl in *. subst n4.
    assert (Hbranch :
      match omap (Outliner.cloneOfAttractor s o) (successors (ikind origTerm)) with
      | [] => mret F
      | newTarget :: _ =>
          newBranch ← fresh;
          let F1 := appendInst BB (mkInst newBranch "" VoidTy (BranchInst newTarget)) F in
          target ← orAbort "block vanished" (findBlock F1 newTarget);
          insts' ← lift (forM (Outliner.adoptIncoming DT F1 parentBB BB) (binsts target));
          mret (editBlock newTarget (λ _, insts') F1)
      end n = Ok (F', n') → (n ≤ n')%N).
    { destruct (omap _ _) as [|newTarget ?]; [intros [= <- <-]; lia|]. intros Hb.
      apply bind_Ok in Hb as (newBranch & n5 & Hnb & Hb). injection Hnb as <- <-.
      apply bind_Ok in Hb as (target & n6 & Htg & Hb).
      apply orAbort_Ok in Htg as [_ ?]. simpl in *. subst n6.
      apply bind_Ok in Hb as (insts' & n7 & Hi & Hb).
      apply lift_Ok in Hi as [_ ?]. simpl in *. subst n7.
      injection Hb as <- <-. lia. }
    destruct (ikind origTerm); try (injection Hr as <- <-; lia); by apply Hbranch.
Qed.

Lemma bids_removeBlock (u : ptr) (F : Function) :
  bid <$> fblocks (Outliner.removeBlock u F) = filter (λ b, b ≠ u) (bid <$> fblocks F).
Proof.
  unfold Outliner.removeBlock. cbn [fblocks].
  induction (fblocks F) as [|B l IH]; [done|]. rewrite fmap_cons, !filter_cons.
  destruct (decide (bid B ≠ u)); [by rewrite fmap_cons, IH|done].
Qed.

(** X24.  The thunk body that [rerouteBranches] returns is closed under
    its branches: every successor of every terminator is one of its own
    blocks, so no branch leads back into the sliced function.  Its blocks
    are those it was given, then at most one more, the unreachable block,
    at a fresh address.  This holds for a body with distinct blocks,
    addressed below the first free address, that hosts the clone of every
    block. *)
Theorem rerouteBranches_self_contained `{Analyses} (s : ProgramSlice)
    (o : Outlining) (F : Function) (n : ptr) (F' : Function) (n' : ptr) :
  Outliner.rerouteBranches s o F n = Ok (F', n') →
  NoDup (bid <$> fblocks F) →
  Forall (λ b, (b < n)%N) (bid <$> fblocks F) →
  (∀ b nb, _origToNewBBmap o !! b = Some nb → nb ∈ (bid <$> fblocks F)) →
  (∀ BB t suc, BB ∈ fblocks F' → getTerminator BB = Some t →
     suc ∈ successors (ikind t) → suc ∈ (bid <$> fblocks F'))
  ∧ (bid <$> fblocks F' = bid <$> fblocks F
     ∨ ∃ unreachableBlock,
         (n ≤ unreachableBlock < n')%N
         ∧ bid <$> fblocks F' = (bid <$> fblocks F) ++ [unreachableBlock]).
Proof.
  unfold Outliner.rerouteBranches. intros Hr Hnd Hlt Hhosted.
  apply bind_Ok in Hr as (F1 & n1 & H1 & Hr).
  apply bind_Ok in Hr as (u & n2 & Hu & Hr). injection Hu as <- <-.
  apply bind_Ok in Hr as (unreach & n3 & Hun & Hr). injection Hun as <- <-.
  apply bind_Ok in Hr as (F3 & n4 & H3 & Hr).
  apply lift_Ok in Hr as [Hr Hn]. simpl in Hr, Hn. subst n4.
  apply addDomBranches_appends in H1 as [Hn1 R1]; [|done].
  apply branchAddedF_bids in R1.
  set (F2 := appendBlock (mkBB n1 "_wyvern_unreachable"
                            [mkInst (N.succ n1) "" VoidTy UnreachableInst]) F1) in *.
  set (S := bid <$> fblocks F2).
  assert (HS : S = (bid <$> fblocks F) ++ [n1])
    by (unfold S; simpl; by rewrite fmap_app, R1).
  assert (Hfresh : n1 ∉ (bid <$> fblocks F)).
  { intros Hin. rewrite Forall_forall in Hlt. apply Hlt in Hin. lia. }
  assert (HndS : NoDup S).
  { rewrite HS. apply NoDup_app. split; [done|]. split; [|apply NoDup_singleton].
    intros x Hx ->%list_elem_of_singleton. done. }
  assert (HuS : n1 ∈ S) by (rewrite HS; apply elem_of_app; right; left).
  assert (HhS : ∀ b nb, _origToNewBBmap o !! b = Some nb → nb ∈ S).
  { intros b nb Hb. rewrite HS. apply elem_of_app. left. by apply (Hhosted b). }
  assert (Hlow : (n ≤ n1 < n')%N).
  { split; [done|].
    apply (foldM_invariant (λ _ m, (n1 < m)%N) _ _) in H3; [done| |lia].
    intros G BB m G' m' _ Hstep Hm. apply rerouteBlock_counter in Hstep. lia. }
  apply (rerouteBlocks_loop s o S HhS) in H3 as [R3 Hs3]; try done.
  pose proof (reroutedF_bids _ _ _ R3) as Hb3. fold S in Hb3.
  assert (Hall3 : ∀ BB, BB ∈ fblocks F3 → selfContained S BB).
  { intros BB HBB. apply Hs3; [done|]. fold S. rewrite <- Hb3.
    apply list_elem_of_fmap. by exists BB. }
  assert (Hend : ∀ F4,
            NoDup (bid <$> fblocks F4) →
            (∀ BB, BB ∈ fblocks F4 → selfContained (bid <$> fblocks F4) BB) →
            Outliner.updatePHINodes F4 = Ok F' →
            (∀ BB t suc, BB ∈ fblocks F' → getTerminator BB = Some t →
               suc ∈ successors (ikind t) → suc ∈ (bid <$> fblocks F'))
            ∧ bid <$> fblocks F' = bid <$> fblocks F4).
  { intros F4 Hnd4 Hs4 Hup.
    apply (updatePHINodes_rerouted (bid <$> fblocks F4)) in Hup; [|done].
    pose proof (reroutedF_bids _ _ _ Hup) as Hb4. split; [|done].
    intros BB t suc HBB Ht Hsuc. rewrite Hb4.
    apply (reroutedF_selfContained _ _ _ (λ _, True) Hup) in HBB; try done.
    - by apply (HBB t).
    - intros B HB _. by apply Hs4. }
  destruct (decide (pred_size F3 n1 = 0%nat)) as [Hp|Hp].
  - assert (Hb4 : bid <$> fblocks (Outliner.removeBlock n1 F3) = bid <$> fblocks F).
    { rewrite bids_removeBlock, Hb3, HS, filter_app.
      rewrite filter_all by (apply Forall_forall; intros x Hx ->; done).
      rewrite filter_cons, decide_False by (intros Hne; by apply Hne).
      by rewrite filter_nil, app_nil_r. }
    apply Hend in Hr as [Hclosed Hb'].
    + split; [done|]. left. by rewrite Hb'.
    + by rewrite Hb4.
    + intros BB HBB t suc Ht Hsuc. simpl in HBB.
      apply list_elem_of_filter in HBB as [_ HBB].
      pose proof (Hall3 BB HBB t suc Ht Hsuc) as HsucS.
      rewrite Hb4. rewrite HS in HsucS.
      apply elem_of_app in HsucS as [HsucS|HsucS]; [done|].
      apply list_elem_of_singleton in HsucS. subst suc.
      by apply (no_predecessor F3 n1 BB t) in Hsuc.
  - apply Hend in Hr as [Hclosed Hb'].
    + split; [done|]. right. exists n1. split; [done|]. by rewrite Hb', Hb3.
    + by rewrite Hb3.
    + intros BB HBB. rewrite Hb3. by apply Hall3.
Qed.

(** X25.  [addDomBranches] only ever appends branches: on a function whose
    blocks are distinct, every block is left as it was or, when it had no
    terminator, has received one unconditional branch, at a fresh address,
    to the clone of a block of the slice.  No block receives two, and a
    block that had a terminator is never touched. *)
Theorem addDomBranches_adds_one_branch (s : ProgramSlice) (o : Outlining)
    (cur : DomTree ptr) (parent : option ptr) (F : Function) (n : ptr)
    (F' : Function) (n' : ptr) :
  Outliner.addDomBranches s o cur parent F n = Ok (F', n') →
  NoDup (bid <$> fblocks F) →
  Forall2 (branchAdded s o n n') (fblocks F) (fblocks F').
Proof. intros Hd Hnd. by apply (addDomBranches_appends s o cur parent). Qed.

Lemma rerouteBranches_self_contained_witness :
  @Outliner.rerouteBranches Examples.diamondAnalyses Cases.diamondSlice
    diamondInsts.1.2 diamondUses diamondInsts.2 = Ok diamondRerouted
  ∧ NoDup (bid <$> fblocks diamondUses)
  ∧ ∀ BB t suc, BB ∈ fblocks diamondRerouted.1 → getTerminator BB = Some t →
      suc ∈ successors (ikind t) → suc ∈ (bid <$> fblocks diamondRerouted.1).
Proof.
  assert (Hr : @Outliner.rerouteBranches Examples.diamondAnalyses Cases.diamondSlice
                 diamondInsts.1.2 diamondUses diamondInsts.2 = Ok diamondRerouted)
    by (vm_compute; reflexivity).
  assert (Hnd : NoDup (bid <$> fblocks diamondUses)) by decided.
  assert (Hlt : Forall (λ b, (b < diamondInsts.2)%N) (bid <$> fblocks diamondUses))
    by decided.
  assert (Hhosted : map_Forall (λ (_ nb : ptr), nb ∈ (bid <$> fblocks diamondUses))
                      (_origToNewBBmap diamondInsts.1.2)) by decided.
  split; [exact Hr|]. split; [exact Hnd|].
  exact (proj1 (@rerouteBranches_self_contained Examples.diamondAnalyses
                  Cases.diamondSlice diamondInsts.1.2 diamondUses diamondInsts.2
                  diamondRerouted.1 diamondRerouted.2 Hr Hnd Hlt Hhosted)).
Defined.

Lemma addDomBranches_adds_one_branch_witness :
  Outliner.addDomBranches Cases.diamondSlice Cases.diamondBlocks.1.2
    Examples.diamondDT None Cases.diamondBlocks.1.1 Cases.diamondBlocks.2
    = Ok diamondBranched
  ∧ NoDup (bid <$> fblocks Cases.diamondBlocks.1.1)
  ∧ Forall2 (branchAdded Cases.diamondSlice Cases.diamondBlocks.1.2
               Cases.diamondBlocks.2 diamondBranched.2)
      (fblocks Cases.diamondBlocks.1.1) (fblocks diamondBranched.1).
Proof.
  assert (Hd : Outliner.addDomBranches Cases.diamondSlice Cases.diamondBlocks.1.2
                 Examples.diamondDT None Cases.diamondBlocks.1.1
                 Cases.diamondBlocks.2 = Ok diamondBranched)
    by (vm_compute; reflexivity).
  assert (Hnd : NoDup (bid <$> fblocks Cases.diamondBlocks.1.1)) by decided.
  split; [exact Hd|]. split; [exact Hnd|].
  exact (addDomBranches_adds_one_branch Cases.diamondSlice Cases.diamondBlocks.1.2
           Examples.diamondDT None Cases.diamondBlocks.1.1 Cases.diamondBlocks.2
           diamondBranched.1 diamondBranched.2 Hd Hnd).
Defined.
